(** * TaskMgr: a micro work queue (src/TaskMgr.ts)

    A shallow embedding of the scheduler class [TaskMgr] and a
    verification of its specification.

    The scheduler's methods are translated one by one into functions of a
    state-and-exception monad over a [World]: the fields of the [TaskMgr]
    instance, the promise reactions registered by [handleAsyncTask], and the
    observable trace (callback invocations and [console.error] lines).

    The work items handed to the scheduler are client code.  A client
    function is a finite script: a sequence of calls back into the
    scheduler ([cancelTask], [clear], [addTask]) followed by a [return] or a
    [throw].  This is enough to express every re-entrant use of the
    scheduler from inside a callable or a callback, and callbacks that
    throw.

    Conventions of the model:
    - [_nextId] and [_sessionId] are integers that are incremented exactly
      (as ECMAScript numbers are below 2^53); the bit operators of
      [addTask] are the 32-bit ones.
    - A promise does nothing by itself: the environment settles it
      ([Settle]), once.  The continuations registered on it run as jobs
      of the promise job queue, after the synchronous code of the turn,
      in the order of registration; the trailing [.catch] handler of a
      continuation that throws runs as a later job, behind the jobs
      queued by then; a rejection that no handler takes is reported when
      the queue has run empty ([drain]).
    - [_step] is recursive in the source.  Its embedding takes a bound on
      the depth of the recursion and every method is written against the
      recursive call as a parameter; [OutOfFuel] is the outcome of a run
      that exceeds the bound.  A bound above the size of the submitted work
      is never exceeded ([step_total], [run_terminates]). *)

From Stdlib Require Import ZArith String List Lia Bool Sorted.
From stdpp Require Import gmap.
Import ListNotations.

Local Open Scope Z_scope.
Set Warnings "-register-all".

(** ** ECMAScript 32-bit integer operators

    [x << y] and [x >>> y] convert their left operand to a 32-bit integer
    and use only the low five bits of the right operand. *)

Definition ToUint32 (z : Z) : Z := z mod 2 ^ 32.

Definition ToInt32 (z : Z) : Z :=
  let u := z mod 2 ^ 32 in if u <? 2 ^ 31 then u else u - 2 ^ 32.

(** [a << b] *)
Definition js_shl (a b : Z) : Z :=
  ToInt32 (Z.shiftl (ToInt32 a) (Z.land (ToUint32 b) 31)).

(** [a >>> b] *)
Definition js_ushr (a b : Z) : Z :=
  Z.shiftr (ToUint32 a) (Z.land (ToUint32 b) 31).

(** ** Values and client code *)

(** A promise is identified by a name chosen by the client. *)
Definition promise := Z.

(** The values a callable returns or throws: [result instanceof Promise]
    holds exactly for [Deferred]. *)
Inductive jsval :=
| Plain (s : string)
| Deferred (p : promise).

Inductive ending :=
| Return (v : jsval)
| Throw (e : jsval).

(** One call of a client function back into the scheduler. *)
Inductive op (T : Type) :=
| OpCancel (id : Z)   (* mgr.cancelTask(id) *)
| OpClear             (* mgr.clear() *)
| OpAdd (t : T).      (* mgr.addTask(t) *)

Arguments OpCancel {T} id.
Arguments OpClear {T}.
Arguments OpAdd {T} t.

(** A client function: its calls into the scheduler, then how it ends.  A
    callback's return value is ignored by the scheduler. *)
Record code (T : Type) := Code { body : list (op T); fin : ending }.

Arguments Code {T} body fin.
Arguments body {T} c.
Arguments fin {T} c.

(** [interface ITask] *)
Inductive ITask := {
  task : code ITask;
  taskDesc : string;
  resolve : option (code ITask);
  donotWaitAsync : option bool;
  reject : option (code ITask);
  catch : option (code ITask)
}.

(** [type TaskInfo = ITask & { id: number }] *)
Record TaskInfo := { id : Z; item : ITask }.

(** ** The observable trace *)

(** The place in the source a callback or diagnostic is issued from. *)
Inductive site :=
| SSync        (* handleFunctionTask: the try/catch around task.task() *)
| SFulfilled   (* handleAsyncTask: first argument of then *)
| SRejected    (* handleAsyncTask: second argument of then *)
| STail.       (* handleAsyncTask: the trailing .catch *)

Inductive event :=
| EvTask (i : Z)                               (* task.task() is entered *)
| EvResolve (s : site) (i : Z) (v : jsval)     (* task.resolve(v) *)
| EvReject (i : Z) (r : jsval)                 (* task.reject(r) *)
| EvCatch (s : site) (i : Z) (r : jsval)       (* task.catch(r) *)
| EvError (s : site) (desc : string) (r : jsval) (* console.error(msg, r) *)
| EvUncaught (e : jsval).                      (* an exception reached the host *)

(** The first argument of each [console.error] call. *)
Definition diagnostic (s : site) (desc : string) : string :=
  match s with
  | SSync => "[TaskMgr] 未捕获的同步任务异常 [" ++ desc ++ "]:"
  | SFulfilled | SRejected => "[TaskMgr] 未捕获的 Promise 错误 [" ++ desc ++ "]:"
  | STail => "[TaskMgr] 未捕获的异常 [" ++ desc ++ "]:"
  end%string.

(** ** The scheduler instance *)

Record TaskMgr := {
  _nextId : Z;
  _running : bool;
  _runningTasks : gmap Z TaskInfo;
  _taskCancelSet : gset Z;
  _sessionId : Z;
  _tasks : list TaskInfo
}.

(** [TaskMgr.create()] *)
Definition create : TaskMgr :=
  {| _nextId := 1; _running := false; _runningTasks := ∅;
     _taskCancelSet := ∅; _sessionId := 0; _tasks := [] |}.

Definition set_nextId (n : Z) (m : TaskMgr) : TaskMgr :=
  {| _nextId := n; _running := _running m; _runningTasks := _runningTasks m;
     _taskCancelSet := _taskCancelSet m; _sessionId := _sessionId m;
     _tasks := _tasks m |}.

Definition set_running (b : bool) (m : TaskMgr) : TaskMgr :=
  {| _nextId := _nextId m; _running := b; _runningTasks := _runningTasks m;
     _taskCancelSet := _taskCancelSet m; _sessionId := _sessionId m;
     _tasks := _tasks m |}.

Definition set_runningTasks (r : gmap Z TaskInfo) (m : TaskMgr) : TaskMgr :=
  {| _nextId := _nextId m; _running := _running m; _runningTasks := r;
     _taskCancelSet := _taskCancelSet m; _sessionId := _sessionId m;
     _tasks := _tasks m |}.

Definition set_taskCancelSet (c : gset Z) (m : TaskMgr) : TaskMgr :=
  {| _nextId := _nextId m; _running := _running m;
     _runningTasks := _runningTasks m; _taskCancelSet := c;
     _sessionId := _sessionId m; _tasks := _tasks m |}.

Definition set_tasks (q : list TaskInfo) (m : TaskMgr) : TaskMgr :=
  {| _nextId := _nextId m; _running := _running m;
     _runningTasks := _runningTasks m; _taskCancelSet := _taskCancelSet m;
     _sessionId := _sessionId m; _tasks := q |}.

(** A continuation registered on a promise by [handleAsyncTask]: the
    closure captures the task and the session id of its dispatch. *)
Record Reaction := { on : promise; owner : TaskInfo; session : Z }.

Record World := {
  mgr : TaskMgr;
  reactions : list Reaction;
  trace : list event
}.

Definition fresh : World :=
  {| mgr := create; reactions := []; trace := [] |}.

(** ** The monad: state, exceptions, and a bound on the recursion depth *)

Inductive outcome (A : Type) :=
| Done (a : A) (w : World)      (* normal completion *)
| Raised (e : jsval) (w : World) (* an exception propagates *)
| OutOfFuel.

Arguments Done {A} a w.
Arguments Raised {A} e w.
Arguments OutOfFuel {A}.

Definition M (A : Type) := World -> outcome A.

Definition ret {A} (a : A) : M A := fun w => Done a w.

Definition throw {A} (e : jsval) : M A := fun w => Raised e w.

Definition bind {A B} (m : M A) (k : A -> M B) : M B :=
  fun w =>
    match m w with
    | Done a w' => k a w'
    | Raised e w' => Raised e w'
    | OutOfFuel => OutOfFuel
    end.

Notation "x <- m ;; k" := (bind m (fun x => k))
  (at level 100, m at next level, right associativity).
Notation "m ;;; k" := (bind m (fun _ => k))
  (at level 100, right associativity).

(** A handler for the exceptions of [m]; the rejection handler of a
    promise chain behaves the same way. *)
Definition try_catch {A} (m : M A) (handler : jsval -> M A) : M A :=
  fun w =>
    match m w with
    | Raised e w1 => handler e w1
    | Done a w1 => Done a w1
    | OutOfFuel => OutOfFuel
    end.

Definition get : M TaskMgr := fun w => Done (mgr w) w.

Definition modify (f : TaskMgr -> TaskMgr) : M unit :=
  fun w => Done tt {| mgr := f (mgr w); reactions := reactions w;
                      trace := trace w |}.

Definition emit (e : event) : M unit :=
  fun w => Done tt {| mgr := mgr w; reactions := reactions w;
                      trace := trace w ++ [e] |}.

Definition register (r : Reaction) : M unit :=
  fun w => Done tt {| mgr := mgr w; reactions := reactions w ++ [r];
                      trace := trace w |}.

(** ** The methods of [TaskMgr] *)

(** [cancelTask(id)] *)
Definition cancelTask (i : Z) : M unit :=
  modify (fun m => set_taskCancelSet ({[ i ]} ∪ _taskCancelSet m) m).

(** [clear()] *)
Definition clear : M unit :=
  modify (fun m =>
    {| _nextId := _nextId m; _running := false; _runningTasks := ∅;
       _taskCancelSet := ∅; _sessionId := _sessionId m + 1; _tasks := [] |}).

(** [checkAndClearCanceled(taskId)] *)
Definition checkAndClearCanceled (i : Z) : M bool :=
  m <- get ;;
  if decide (i ∈ _taskCancelSet m) then
    modify (fun m => set_taskCancelSet (_taskCancelSet m ∖ {[ i ]}) m) ;;;
    modify (fun m => set_runningTasks (delete i (_runningTasks m)) m) ;;;
    ret true
  else ret false.

(** [isTaskAlive(taskId)] *)
Definition isTaskAlive (i : Z) (m : TaskMgr) : bool :=
  if decide (i ∈ _taskCancelSet m) then false
  else if decide (is_Some (_runningTasks m !! i)) then true
  else existsb (fun t => id t =? i) (_tasks m).

(** [task.donotWaitAsync !== true] *)
Definition shouldWait (t : ITask) : bool :=
  match donotWaitAsync t with
  | Some true => false
  | _ => true
  end.

(** The identifier computed by [addTask]:
    [(this._nextId++ << this._sessionId) >>> 0]. *)
Definition task_id (m : TaskMgr) : Z :=
  js_ushr (js_shl (_nextId m) (_sessionId m)) 0.

Section Methods.

(** The recursive call [this._step()]. *)
Variable step_rec : M unit.

(** [addTask(task)] *)
Definition addTask_ (t : ITask) : M Z :=
  m <- get ;;
  let i := task_id m in
  modify (fun m => set_nextId (_nextId m + 1) m) ;;;
  modify (fun m => set_tasks (_tasks m ++ [{| id := i; item := t |}]) m) ;;;
  m <- get ;;
  (if negb (_running m) then modify (set_running true) ;;; step_rec
   else ret tt) ;;;
  ret i.

(** Running the calls a client function makes into the scheduler. *)
Fixpoint runOps_ (ops : list (op ITask)) : M unit :=
  match ops with
  | [] => ret tt
  | o :: rest =>
      match o with
      | OpCancel i => cancelTask i
      | OpClear => clear
      | OpAdd t => addTask_ t ;;; ret tt
      end ;;;
      runOps_ rest
  end.

(** Calling a client function. *)
Definition call_ (f : code ITask) : M jsval :=
  runOps_ (body f) ;;;
  match fin f with
  | Return v => ret v
  | Throw e => throw e
  end.

(** [handleAsyncTask(task, promise, sessionId)].  The continuations are
    registered on the promise; they run as jobs once the promise has
    settled (see [run_job] below). *)
Definition handleAsyncTask_ (ti : TaskInfo) (p : promise) (sessionId : Z)
  : M unit :=
  register {| on := p; owner := ti; session := sessionId |} ;;;
  if negb (shouldWait (item ti)) then step_rec else ret tt.

(** The [catch (error)] block of [handleFunctionTask]. *)
Definition sync_catch_ (ti : TaskInfo) (currentSession : Z) (error : jsval)
  : M unit :=
  m <- get ;;
  if decide (_sessionId m = currentSession) then
    match catch (item ti) with
    | Some f => emit (EvCatch SSync (id ti) error) ;;; call_ f ;;; ret tt
    | None => emit (EvError SSync (taskDesc (item ti)) error)
    end
  else ret tt.

(** The [finally] block of [handleFunctionTask]. *)
Definition sync_finally_ (ti : TaskInfo) (currentSession : Z)
    (isAsync : bool) : M unit :=
  m <- get ;;
  if negb isAsync && bool_decide (_sessionId m = currentSession) then
    modify (fun m => set_runningTasks (delete (id ti) (_runningTasks m)) m) ;;;
    step_rec
  else ret tt.

(** [try { ... } catch (error) { ... } finally { ... }]: an exception of
    the protected block runs the handler; the [finally] block runs in
    every case, and an exception of its own replaces the pending
    completion. *)
Definition try_catch_finally (protected : M unit)
    (handler : jsval -> M unit) (finally : M unit) : M unit :=
  fun w =>
    let caught :=
      match protected w with
      | Raised e w1 => handler e w1
      | o => o
      end in
    match caught with
    | Done _ w2 => finally w2
    | Raised e w2 =>
        match finally w2 with
        | Done _ w3 => Raised e w3
        | o => o
        end
    | OutOfFuel => OutOfFuel
    end.

(** The rest of the [try] block of [handleFunctionTask] once the
    callable has returned a value that is not a promise. *)
Definition sync_resolve_ (ti : TaskInfo) (currentSession : Z)
    (result : jsval) : M unit :=
  m <- get ;;
  if decide (_sessionId m = currentSession) then
    match resolve (item ti) with
    | Some f => emit (EvResolve SSync (id ti) result) ;;; call_ f ;;; ret tt
    | None => ret tt
    end
  else ret tt.

(** [handleFunctionTask(task)].  The local [isAsync] is set just before
    [handleAsyncTask] is called, so it is [true] in the handler and in
    the [finally] block exactly when the callable returned a promise. *)
Definition handleFunctionTask_ (ti : TaskInfo) : M unit :=
  m <- get ;;
  let currentSession := _sessionId m in
  let handler := sync_catch_ ti currentSession in
  let finally := sync_finally_ ti currentSession in
  fun w =>
    match (emit (EvTask (id ti)) ;;; call_ (task (item ti))) w with
    | Done (Deferred p) w1 =>
        try_catch_finally (handleAsyncTask_ ti p currentSession)
          handler (finally true) w1
    | Done result w1 =>
        try_catch_finally (sync_resolve_ ti currentSession result)
          handler (finally false) w1
    | Raised error w1 =>
        try_catch_finally (throw error) handler (finally false) w1
    | OutOfFuel => OutOfFuel
    end.

(** The body of [_step()]. *)
Definition step_body : M unit :=
  m <- get ;;
  match _tasks m with
  | [] => modify (set_running false)
  | ti :: q =>
      modify (set_tasks q) ;;;
      canceled <- checkAndClearCanceled (id ti) ;;
      if (canceled : bool) then step_rec
      else
        modify (fun m =>
          set_runningTasks (<[ id ti := ti ]> (_runningTasks m)) m) ;;;
        handleFunctionTask_ ti
  end.

(** *** The continuations registered by [handleAsyncTask] *)

(** [(result) => { ... }], the first argument of [then]. *)
Definition onFulfilled_ (r : Reaction) (result : jsval) : M unit :=
  let ti := owner r in
  m <- get ;;
  if decide (_sessionId m <> session r) then ret tt
  else
    modify (fun m => set_runningTasks (delete (id ti) (_runningTasks m)) m) ;;;
    canceled <- checkAndClearCanceled (id ti) ;;
    (if (canceled : bool) then ret tt
     else
       match resolve (item ti) with
       | Some f =>
           emit (EvResolve SFulfilled (id ti) result) ;;; call_ f ;;; ret tt
       | None => ret tt
       end) ;;;
    if shouldWait (item ti) then step_rec else ret tt.

(** [(reason) => { ... }], the second argument of [then]. *)
Definition onRejected_ (r : Reaction) (reason : jsval) : M unit :=
  let ti := owner r in
  m <- get ;;
  if decide (_sessionId m <> session r) then ret tt
  else
    modify (fun m => set_runningTasks (delete (id ti) (_runningTasks m)) m) ;;;
    canceled <- checkAndClearCanceled (id ti) ;;
    (if (canceled : bool) then ret tt
     else
       match reject (item ti) with
       | Some f => emit (EvReject (id ti) reason) ;;; call_ f ;;; ret tt
       | None =>
           match catch (item ti) with
           | Some f =>
               emit (EvCatch SRejected (id ti) reason) ;;; call_ f ;;; ret tt
           | None => emit (EvError SRejected (taskDesc (item ti)) reason)
           end
       end) ;;;
    if shouldWait (item ti) then step_rec else ret tt.

(** [.catch((reason) => { ... })], reached when one of the two
    continuations above throws. *)
Definition onTail_ (r : Reaction) (reason : jsval) : M unit :=
  let ti := owner r in
  m <- get ;;
  if decide (_sessionId m <> session r) then ret tt
  else
    modify (fun m => set_runningTasks (delete (id ti) (_runningTasks m)) m) ;;;
    match catch (item ti) with
    | Some f => emit (EvCatch STail (id ti) reason) ;;; call_ f ;;; ret tt
    | None => emit (EvError STail (taskDesc (item ti)) reason)
    end ;;;
    if shouldWait (item ti) then step_rec else ret tt.

End Methods.

(** [_step()], with a bound on the depth of its recursion. *)
Fixpoint _step (fuel : nat) : M unit :=
  match fuel with
  | O => fun _ => OutOfFuel
  | S n => step_body (_step n)
  end.

Definition addTask (fuel : nat) : ITask -> M Z := addTask_ (_step fuel).
Definition runOps (fuel : nat) : list (op ITask) -> M unit := runOps_ (_step fuel).
Definition call (fuel : nat) : code ITask -> M jsval := call_ (_step fuel).
Definition handleAsyncTask (fuel : nat) := handleAsyncTask_ (_step fuel).
Definition handleFunctionTask (fuel : nat) := handleFunctionTask_ (_step fuel).
Definition onFulfilled (fuel : nat) := onFulfilled_ (_step fuel).
Definition onRejected (fuel : nat) := onRejected_ (_step fuel).
Definition onTail (fuel : nat) := onTail_ (_step fuel).

(** ** The host: promises, the job queue and the callers of the public API *)

(** How a promise settles. *)
Inductive settlement :=
| Fulfill (v : jsval)
| RejectWith (r : jsval).

(** The continuation of [then] that matches the settlement. *)
Definition continuation (fuel : nat) (r : Reaction) (s : settlement)
  : M unit :=
  match s with
  | Fulfill v => onFulfilled fuel r v
  | RejectWith e => onRejected fuel r e
  end.

(** A job of the promise job queue.
    [promise.then(onFulfilled, onRejected)] returns a second promise, and
    [.catch(onTail)] registers the trailing handler on that one.  When
    [promise] settles, a job that runs the matching continuation is queued
    ([JThen]); when the continuation throws, the second promise is
    rejected and a job that runs the trailing handler is queued
    ([JCatch]), behind the jobs that are in the queue by then. *)
Inductive job :=
| JThen (r : Reaction) (s : settlement)
| JCatch (r : Reaction) (reason : jsval).

(** How a call completes. *)
Inductive completion :=
| Returned
| Threw (e : jsval).

(** Running a function to its completion. *)
Definition attempt {A} (m : M A) : M completion :=
  fun w =>
    match m w with
    | Done _ w1 => Done Returned w1
    | Raised e w1 => Done (Threw e) w1
    | OutOfFuel => OutOfFuel
    end.

(** An exception nobody handles reaches the host, which reports it and
    carries on. *)
Definition host {A} (m : M A) : M unit :=
  fun w =>
    match m w with
    | Done _ w1 => Done tt w1
    | Raised e w1 => emit (EvUncaught e) w1
    | OutOfFuel => OutOfFuel
    end.

(** The promises that have settled so far, with their settlements. *)
Definition promises := gmap promise settlement.

(** The job of a reaction whose promise has settled. *)
Definition ready (st : promises) (r : Reaction) : list job :=
  match st !! on r with
  | Some s => [JThen r s]
  | None => []
  end.

(** The reactions whose promise has settled leave the list of the
    registered reactions and their jobs are queued, in the order of
    registration.  This happens when a promise settles, and when
    synchronous code that called [then] on a promise that had settled
    already returns: [then] queues that job at once, and no job runs and no
    promise settles before the synchronous code has returned. *)
Definition flush (st : promises) : M (list job) :=
  fun w =>
    Done (flat_map (ready st) (reactions w))
      {| mgr := mgr w;
         reactions := filter (fun r => st !! on r = None) (reactions w);
         trace := trace w |}.

(** The host reports the rejections that no handler has taken. *)
Fixpoint report (unhandled : list jsval) : M unit :=
  match unhandled with
  | [] => ret tt
  | e :: rest => emit (EvUncaught e) ;;; report rest
  end.

(** The jobs [j] leaves in the queue when it completes. *)
Definition chained (j : job) (c : completion) : list job :=
  match j, c with
  | JThen r _, Threw e => [JCatch r e]
  | _, _ => []
  end.

(** The rejection [j] leaves without a handler when it completes: the
    promise returned by [.catch(onTail)] has none. *)
Definition dropped (j : job) (c : completion) : list jsval :=
  match j, c with
  | JCatch _ _, Threw e => [e]
  | _, _ => []
  end.

(** Running one job. *)
Definition run_job (fuel : nat) (j : job) : M completion :=
  match j with
  | JThen r s => attempt (continuation fuel r s)
  | JCatch r e => attempt (onTail fuel r e)
  end.

(** The job queue runs until it is empty, oldest job first; [k] bounds the
    number of jobs.  The rejections left without a handler are reported
    when the queue is empty. *)
Fixpoint drain (k : nat) (fuel : nat) (st : promises) (q : list job)
    (unhandled : list jsval) {struct k} : M unit :=
  match q with
  | [] => report unhandled
  | j :: rest =>
      match k with
      | O => fun _ => OutOfFuel
      | S k' =>
          c <- run_job fuel j ;;
          new <- flush st ;;
          drain k' fuel st (rest ++ new ++ chained j c)
            (unhandled ++ dropped j c)
      end
  end.

(** What the environment does with a scheduler instance. *)
Inductive input :=
| Submit (t : ITask)                    (* mgr.addTask(t) *)
| Cancel (i : Z)                        (* mgr.cancelTask(i) *)
| Clear                                 (* mgr.clear() *)
| Settle (p : promise) (s : settlement). (* a promise settles *)

(** A promise settles once. *)
Definition settle (p : promise) (s : settlement) (st : promises) : promises :=
  match st !! p with
  | Some _ => st
  | None => <[ p := s ]> st
  end.

(** One step of the host code.  An exception that escapes [addTask] is
    the caller's. *)
Definition perform (fuel : nat) (st : promises) (i : input) : M promises :=
  match i with
  | Submit t => host (addTask fuel t) ;;; ret st
  | Cancel i => cancelTask i ;;; ret st
  | Clear => clear ;;; ret st
  | Settle p s => ret (settle p s st)
  end.

(** The host code of one turn of the event loop: its steps one after the
    other, none of them interrupted by a job. *)
Fixpoint calls (fuel : nat) (st : promises) (q : list job) (ins : list input)
  : M (promises * list job) :=
  match ins with
  | [] => ret (st, q)
  | i :: rest =>
      st' <- perform fuel st i ;;
      new <- flush st' ;;
      calls fuel st' (q ++ new) rest
  end.

(** One turn of the event loop: the host code, then the jobs. *)
Definition turn (fuel : nat) (st : promises) (ins : list input) : M promises :=
  x <- calls fuel st [] ins ;;
  drain fuel fuel (fst x) (snd x) [] ;;;
  ret (fst x).

Fixpoint turns (fuel : nat) (st : promises) (ts : list (list input))
  : M promises :=
  match ts with
  | [] => ret st
  | t :: rest => st' <- turn fuel st t ;; turns fuel st' rest
  end.

(** Every input in a turn of its own, no promise having settled before. *)
Definition run (fuel : nat) (ins : list input) : M unit :=
  turns fuel ∅ (map (fun i => [i]) ins) ;;; ret tt.

(** The trace of a complete run from a fresh instance. *)
Definition observe (fuel : nat) (ins : list input) : option (list event) :=
  match run fuel ins fresh with
  | Done _ w => Some (trace w)
  | _ => None
  end.

(** ** Sizes of client code

    Client code is finite, so every call into the scheduler terminates.
    The size of a work item bounds the number of entries its callable and
    callbacks can ever submit; the generic-error callback counts three
    times because it can be reached from the [catch] block of
    [handleFunctionTask], from the rejection continuation and from the
    trailing handler. *)

Local Open Scope nat_scope.

Fixpoint size_task (t : ITask) : nat :=
  let size_ops :=
    fix size_ops (l : list (op ITask)) : nat :=
      match l with
      | [] => 0
      | OpAdd t' :: l' => S (size_task t') + size_ops l'
      | _ :: l' => size_ops l'
      end in
  let size_opt (o : option (code ITask)) :=
    match o with Some c => size_ops (body c) | None => 0 end in
  match t with
  | Build_ITask tk _ rs _ rj ct =>
      S (size_ops (body tk) + size_opt rs + size_opt rj + 3 * size_opt ct)
  end.

Fixpoint size_ops (l : list (op ITask)) : nat :=
  match l with
  | [] => 0
  | OpAdd t' :: l' => S (size_task t') + size_ops l'
  | _ :: l' => size_ops l'
  end.

Definition size_code (c : code ITask) : nat := size_ops (body c).

Definition size_opt (o : option (code ITask)) : nat :=
  match o with Some c => size_code c | None => 0 end.

(** What remains to run of an entry once its callable has returned a
    promise. *)
Definition reaction_size (t : ITask) : nat :=
  size_opt (resolve t) + size_opt (reject t) + 2 * size_opt (catch t).

Definition task_cost (t : ITask) : nat :=
  size_code (task t) + size_opt (catch t) + reaction_size t.

Definition queue_size (q : list TaskInfo) : nat :=
  list_sum (map (fun ti => size_task (item ti)) q).

Definition reactions_size (rs : list Reaction) : nat :=
  list_sum (map (fun r => reaction_size (item (owner r))) rs).

(** The potential of a world: the pending entries and the registered
    reactions. *)
Definition potential (w : World) : nat :=
  queue_size (_tasks (mgr w)) + reactions_size (reactions w).

(** The size of the work the environment submits. *)
Definition input_size (i : input) : nat :=
  match i with
  | Submit t => size_task t
  | _ => 0
  end.

Definition inputs_size (ins : list input) : nat :=
  list_sum (map input_size ins).

(** ** Specifications of monadic computations *)

(** [spec oof o P E]: the outcome [o] satisfies [P] if it is a normal
    completion and [E] if an exception propagates; [oof] says what is
    claimed when the recursion bound is hit ([False] for total
    correctness, [True] for partial correctness). *)
Definition spec {A} (oof : Prop) (o : outcome A)
    (P : A -> World -> Prop) (E : World -> Prop) : Prop :=
  match o with
  | Done a w => P a w
  | Raised _ w => E w
  | OutOfFuel => oof
  end.

(** The postcondition does not depend on how the computation completes. *)
Definition lands {A} (oof : Prop) (o : outcome A) (Q : World -> Prop) : Prop :=
  spec oof o (fun _ => Q) Q.

(** The outcome is a completion, normal or not. *)
Definition finished {A} (o : outcome A) : Prop :=
  match o with OutOfFuel => False | _ => True end.

(** No exception escapes the host. *)
Definition quiet {A} (o : outcome A) : Prop :=
  match o with Raised _ _ => False | _ => True end.

(** The world an outcome leaves behind. *)
Definition world_of {A} (o : outcome A) (default : World) : World :=
  match o with
  | Done _ w | Raised _ w => w
  | OutOfFuel => default
  end.

(** [tot n c m]: under the recursion bound [n] and with [c] units of
    client code still to run, [m] completes and leaves a potential at most
    [c] higher. *)
Definition tot {A} (n c : nat) (m : M A) : Prop :=
  forall w, potential w + c < n ->
    lands False (m w) (fun w' => potential w' <= potential w + c).

(** ** Relations between the worlds of a run

    The methods never lower the session id, only add reactions, captured
    under the session id of a dispatch that has taken place, and only
    extend the trace; the methods reached from [_step] never issue an event
    from a promise continuation. *)

(** Events issued by the continuations installed in [handleAsyncTask]. *)
Definition from_settlement (e : event) : bool :=
  match e with
  | EvResolve SSync _ _ | EvCatch SSync _ _ | EvError SSync _ _ => false
  | EvResolve _ _ _ | EvCatch _ _ _ | EvError _ _ _ => true
  | EvReject _ _ => true
  | EvTask _ | EvUncaught _ => false
  end.

(** No constraint on the events issued. *)
Definition any_event (e : event) : bool := false.

(** [extends q w w']: the world [w'] comes after [w], and no event selected by
    [q] was issued in between. *)
Definition extends (q : event -> bool) (w w' : World) : Prop :=
  (_sessionId (mgr w) <= _sessionId (mgr w'))%Z /\
  (exists new,
      reactions w' = reactions w ++ new /\
      Forall (fun r => (session r <= _sessionId (mgr w'))%Z) new) /\
  trace w `prefix_of` trace w' /\
  List.filter q (trace w') = List.filter q (trace w).

(** Every registered reaction was captured under a session id that the
    live session id has reached. *)
Definition Inv (w : World) : Prop :=
  Forall (fun r => (session r <= _sessionId (mgr w))%Z) (reactions w).

(** A fact that holds in every world. *)
Definition everywhere (w : World) : Prop := True.

(** [safe q P m]: from a world where [P] holds, [m] only moves the world
    forward and issues no event selected by [q]. *)
Definition safe {A} (q : event -> bool) (P : World -> Prop) (m : M A) : Prop :=
  forall w, P w -> lands True (m w) (extends q w).

(** Between two worlds of a run of the host: the session id does not
    decrease, the invariant on the reactions is kept, and the trace is
    extended. *)
Definition evolves (w w' : World) : Prop :=
  (_sessionId (mgr w) <= _sessionId (mgr w'))%Z /\
  (Inv w -> Inv w') /\
  trace w `prefix_of` trace w'.

(** ** Worlds and events named in the statements *)

(** The world after an event has been issued. *)
Definition emitted (ev : event) (w : World) : World :=
  {| mgr := mgr w; reactions := reactions w; trace := trace w ++ [ev] |}.

(** The world after several events have been issued. *)
Definition emitted_all (evs : list event) (w : World) : World :=
  fold_left (fun w ev => emitted ev w) evs w.

(** The world after a reaction has been registered. *)
Definition registered (r : Reaction) (w : World) : World :=
  {| mgr := mgr w; reactions := reactions w ++ [r]; trace := trace w |}.

(** [this._runningTasks.delete(i)] *)
Definition running_removed (i : Z) (w : World) : World :=
  {| mgr := set_runningTasks (delete i (_runningTasks (mgr w))) (mgr w);
     reactions := reactions w; trace := trace w |}.

(** The world after [checkAndClearCanceled] has found the identifier in
    the cancellation set. *)
Definition unmarked (i : Z) (w : World) : World :=
  {| mgr := set_runningTasks (delete i (_runningTasks (mgr w)))
              (set_taskCancelSet (_taskCancelSet (mgr w) ∖ {[ i ]}) (mgr w));
     reactions := reactions w; trace := trace w |}.

(** The world after [clear()]. *)
Definition cleared (w : World) : World := world_of (clear w) w.

(** The world in which [addTask], called on an idle scheduler, calls
    [_step]. *)
Definition submitted (t : ITask) (w : World) : World :=
  {| mgr := set_running true
              (set_tasks (_tasks (mgr w) ++ [{| id := task_id (mgr w); item := t |}])
                 (set_nextId (_nextId (mgr w) + 1) (mgr w)));
     reactions := reactions w; trace := trace w |}.

(** The world in which [_step] hands the head of the queue to
    [handleFunctionTask]. *)
Definition head_dispatched (next : TaskInfo) (rest : list TaskInfo)
    (w : World) : World :=
  {| mgr := set_runningTasks (<[ id next := next ]> (_runningTasks (mgr w)))
              (set_tasks rest (mgr w));
     reactions := reactions w; trace := trace w |}.

(** The call of [_step] that ends a continuation of a wait-mode entry. *)
Definition advance_ (rec : M unit) (ti : TaskInfo) : M unit :=
  if shouldWait (item ti) then rec else ret tt.

(** Running the body of an optional callback. *)
Definition run_callback_ (rec : M unit) (cb : option (code ITask)) : M unit :=
  match cb with
  | Some f => call_ rec f ;;; ret tt
  | None => ret tt
  end.

(** How the [catch] block of [handleFunctionTask] reports an error. *)
Definition sync_report (ti : TaskInfo) (e : jsval) : event :=
  match catch (item ti) with
  | Some _ => EvCatch SSync (id ti) e
  | None => EvError SSync (taskDesc (item ti)) e
  end.

(** The event by which the rejection continuation reports a reason. *)
Definition rejection_report (ti : TaskInfo) (reason : jsval) : event :=
  match reject (item ti), catch (item ti) with
  | Some _, _ => EvReject (id ti) reason
  | None, Some _ => EvCatch SRejected (id ti) reason
  | None, None => EvError SRejected (taskDesc (item ti)) reason
  end.

(** The callback the rejection continuation invokes, if any. *)
Definition rejection_handler (ti : TaskInfo) : option (code ITask) :=
  match reject (item ti) with
  | Some f => Some f
  | None => catch (item ti)
  end.


(** The callable of [ti], called in [w], has completed in [w1] without
    returning a promise. *)
Definition completes_synchronously (o : outcome jsval) (w1 : World) : Prop :=
  match o with
  | Done (Plain _) w' => w' = w1
  | Raised _ w' => w' = w1
  | _ => False
  end.

(** ** Serving order *)

(** A callback that makes no call into the scheduler and returns. *)
Definition plain_callback (cb : option (code ITask)) : Prop :=
  match cb with
  | Some c => body c = [] /\ exists v, fin c = Return v
  | None => True
  end.

(** A wait-mode work item whose callable makes no call into the scheduler
    and whose callbacks are plain. *)
Definition simple (t : ITask) : Prop :=
  body (task t) = [] /\ plain_callback (resolve t) /\
  plain_callback (reject t) /\ plain_callback (catch t) /\
  shouldWait t = true.

(** Submissions of simple items and settlements of promises. *)
Definition simple_input (i : input) : Prop :=
  match i with
  | Submit t => simple t
  | Settle _ _ => True
  | _ => False
  end.

(** The work items of a sequence of inputs, in the order of submission. *)
Definition submitted_items (ins : list input) : list ITask :=
  flat_map (fun i => match i with Submit t => [t] | _ => [] end) ins.

(** The invocation of an optional callback, as an event. *)
Definition optional_event (cb : option (code ITask)) (ev : event)
  : list event :=
  match cb with
  | Some _ => [ev]
  | None => []
  end.

(** The events by which the outcome of an entry is delivered: [how] is
    [None] for an entry that completes synchronously and the settlement of
    its promise otherwise. *)
Definition completion_events (ti : TaskInfo) (how : option settlement)
  : list event :=
  match how with
  | Some (Fulfill v) =>
      optional_event (resolve (item ti)) (EvResolve SFulfilled (id ti) v)
  | Some (RejectWith r) => [rejection_report ti r]
  | None =>
      match fin (task (item ti)) with
      | Return v =>
          optional_event (resolve (item ti)) (EvResolve SSync (id ti) v)
      | Throw e => [sync_report ti e]
      end
  end.

(** Everything the trace holds about a served entry: the entry into its
    callable, then the delivery of its outcome. *)
Definition block (x : TaskInfo * option settlement) : list event :=
  EvTask (id (fst x)) :: completion_events (fst x) (snd x).

(** The trace of an entry that awaits its deferred result. *)
Definition started (inflight : option TaskInfo) : list event :=
  match inflight with
  | Some ti => [EvTask (id ti)]
  | None => []
  end.

(** The promises the environment has settled by the end of a sequence of
    inputs, each with its first settlement. *)
Definition settlements (ins : list input) : promises :=
  fold_left (fun st i => match i with Settle p s => settle p s st | _ => st end)
    ins ∅.

(** The entries that a fresh scheduler makes of the items [ts]: its
    counter goes up by one for each. *)
Fixpoint numbered (k : Z) (ts : list ITask) : list TaskInfo :=
  match ts with
  | [] => []
  | t :: rest =>
      {| id := task_id (set_nextId k create); item := t |}
      :: numbered (k + 1) rest
  end.

(** How an entry completes once the promises [st] have settled: [Some
    None] at once, [Some (Some s)] with the settlement [s] of the promise
    its callable returns, [None] not yet. *)
Definition outcome_of (st : promises) (ti : TaskInfo)
  : option (option settlement) :=
  match fin (task (item ti)) with
  | Return (Deferred p) =>
      match st !! p with
      | Some s => Some (Some s)
      | None => None
      end
  | _ => Some None
  end.

(** What has become of a sequence of entries: those that have completed,
    each with the way it has, the one that awaits its promise, and those
    still in the queue. *)
Record service := {
  completed : list (TaskInfo * option settlement);
  awaiting : option TaskInfo;
  queued : list TaskInfo
}.

(** Serving the entries one after the other, each to its completion, as
    far as the settled promises [st] allow. *)
Fixpoint serve (st : promises) (es : list TaskInfo) : service :=
  match es with
  | [] => {| completed := []; awaiting := None; queued := [] |}
  | ti :: rest =>
      match outcome_of st ti with
      | Some how =>
          let s := serve st rest in
          {| completed := (ti, how) :: completed s; awaiting := awaiting s;
             queued := queued s |}
      | None => {| completed := []; awaiting := Some ti; queued := rest |}
      end
  end.

(** The reaction and the job of the entry [inflight] that awaits its
    result: its continuations are registered on the promise, or the
    promise has settled and the job is in the queue. *)
Definition awaited (st : promises) (inflight : option TaskInfo)
    (rs : list Reaction) (q : list job) : Prop :=
  match inflight with
  | Some ti =>
      exists p, fin (task (item ti)) = Return (Deferred p) /\
        let r := {| on := p; owner := ti; session := 0 |} in
        (rs = [r] /\ q = []) \/
        (rs = [] /\ exists s, st !! p = Some s /\ q = [JThen r s])
  | None => rs = [] /\ q = []
  end.

(** The entries a scheduler has still to complete, oldest first. *)
Definition unserved (w : World) (inflight : option TaskInfo) : list TaskInfo :=
  match inflight with Some ti => [ti] | None => [] end ++ _tasks (mgr w).

(** The state of a scheduler and its job queue when the entries [served]
    have completed, in that order, and [inflight] awaits its deferred
    result. *)
Record serving (st : promises) (w : World) (q : list job)
    (served : list (TaskInfo * option settlement))
    (inflight : option TaskInfo) : Prop := {
  serving_trace : trace w = flat_map block served ++ started inflight;
  serving_await : awaited st inflight (reactions w) q;
  serving_served :
    Forall (fun x => outcome_of st (fst x) = Some (snd x)) served;
  serving_session : _sessionId (mgr w) = 0%Z;
  serving_cancel : _taskCancelSet (mgr w) = ∅;
  serving_running :
    _running (mgr w) = match inflight with Some _ => true | None => false end;
  serving_idle : inflight = None -> _tasks (mgr w) = [];
  serving_simple : Forall (fun ti => simple (item ti)) (_tasks (mgr w));
  serving_inflight : forall ti, inflight = Some ti -> simple (item ti)
}.

(** No registered reaction is on a settled promise. *)
Definition flushed (st : promises) (w : World) : Prop :=
  Forall (fun r => st !! on r = None) (reactions w).

(** At most one entry awaits its deferred result. *)
Definition one_at_a_time (w : World) : Prop := length (reactions w) <= 1.

(** ** Work items and worlds of the examples *)

(** An item that returns the value [v] at once, with a completion
    callback. *)
Definition sync_item (desc : string) (v : string) : ITask :=
  {| task := Code [] (Return (Plain v)); taskDesc := desc;
     resolve := Some (Code [] (Return (Plain "")));
     donotWaitAsync := None; reject := None; catch := None |}.

(** A wait-mode item that returns the promise [p], with a completion
    callback. *)
Definition async_item (desc : string) (p : promise) : ITask :=
  {| task := Code [] (Return (Deferred p)); taskDesc := desc;
     resolve := Some (Code [] (Return (Plain "")));
     donotWaitAsync := None; reject := None; catch := None |}.

(** An item whose callable raises, with a generic-error callback. *)
Definition caught_item (desc : string) : ITask :=
  {| task := Code [] (Throw (Plain "expected")); taskDesc := desc;
     resolve := None; donotWaitAsync := None; reject := None;
     catch := Some (Code [] (Return (Plain ""))) |}.

(** An item that returns the promise [p], with a failure callback. *)
Definition rejectable_item (desc : string) (p : promise) : ITask :=
  {| task := Code [] (Return (Deferred p)); taskDesc := desc;
     resolve := None; donotWaitAsync := None;
     reject := Some (Code [] (Return (Plain "")));
     catch := None |}.

(** A fire-and-forget item that returns the promise [p]. *)
Definition detached_item (desc : string) (p : promise) : ITask :=
  {| task := Code [] (Return (Deferred p)); taskDesc := desc;
     resolve := Some (Code [] (Return (Plain "")));
     donotWaitAsync := Some true; reject := None; catch := None |}.

(** An item that returns the promise [p], with a failure and a
    generic-error callback. *)
Definition guarded_item (desc : string) (p : promise) : ITask :=
  {| task := Code [] (Return (Deferred p)); taskDesc := desc;
     resolve := None; donotWaitAsync := None;
     reject := Some (Code [] (Return (Plain "")));
     catch := Some (Code [] (Return (Plain ""))) |}.

(** A wait-mode entry with a deferred result and both a completion and a
    generic-error callback. *)
Definition waiting_item (desc : string) (p : promise) : ITask :=
  {| task := Code [] (Return (Deferred p)); taskDesc := desc;
     resolve := Some (Code [] (Return (Plain "")));
     donotWaitAsync := None; reject := None;
     catch := Some (Code [] (Return (Plain ""))) |}.

(** An entry whose callable raises and whose generic-error callback
    raises in turn. *)
Definition thrower : ITask :=
  {| task := Code [] (Throw (Plain "boom")); taskDesc := "thrower";
     resolve := None; donotWaitAsync := None; reject := None;
     catch := Some (Code [] (Throw (Plain "handler failed"))) |}.

(** An item whose callable raises and has no error handler. *)
Definition failing_item : ITask :=
  {| task := Code [] (Throw (Plain "boom")); taskDesc := "failing";
     resolve := None; donotWaitAsync := None; reject := None;
     catch := None |}.


(** A fire-and-forget entry with a deferred result, a failure callback
    that throws and a generic-error callback. *)
Definition detached_rejecting (desc : string) (p : promise) : ITask :=
  {| task := Code [] (Return (Deferred p)); taskDesc := desc;
     resolve := None; donotWaitAsync := Some true;
     reject := Some (Code [] (Throw (Plain "reject failed")));
     catch := Some (Code [] (Return (Plain ""))) |}.

(** An entry whose callable cancels its own identifier and returns a
    value. *)
Definition self_cancelling : ITask :=
  {| task := Code [OpCancel 1%Z] (Return (Plain "v"));
     taskDesc := "self-cancelling";
     resolve := Some (Code [] (Return (Plain "")));
     donotWaitAsync := None; reject := None; catch := None |}.

(** The callable of an entry whose body clears the queue, submits a
    deferred item and a second item, and returns a value. *)
Definition clearing_item : ITask :=
  {| task := Code [OpClear; OpAdd (async_item "p" 7%Z);
                   OpAdd (sync_item "q" "rq")]
                  (Return (Plain "done"));
     taskDesc := "clearing";
     resolve := Some (Code [] (Return (Plain "")));
     donotWaitAsync := None; reject := None;
     catch := Some (Code [] (Return (Plain ""))) |}.

(** The world in which [addTask] on a fresh instance calls
    [handleFunctionTask]. *)
Definition dispatched (ti : TaskInfo) : World :=
  {| mgr := {| _nextId := id ti + 1; _running := true;
               _runningTasks := {[ id ti := ti ]}; _taskCancelSet := ∅;
               _sessionId := 0; _tasks := [] |};
     reactions := []; trace := [] |}.

(** The world in which [_step] has handed entry 1, a failing item, to
    [handleFunctionTask] while entry 2 is pending. *)
Definition failing_dispatched : World :=
  {| mgr := {| _nextId := 3; _running := true;
               _runningTasks := {[ 1%Z := {| id := 1; item := failing_item |} ]};
               _taskCancelSet := ∅; _sessionId := 0;
               _tasks := [ {| id := 2; item := sync_item "next" "rn" |} ] |};
     reactions := []; trace := [] |}.

(** Submitting several work items in a row, collecting the identifiers
    [addTask] returns. *)
Fixpoint submit_all (fuel : nat) (ts : list ITask) : M (list Z) :=
  match ts with
  | [] => ret []
  | t :: rest =>
      i <- addTask fuel t ;;
      ids <- submit_all fuel rest ;;
      ret (i :: ids)
  end.

(** Thirty-one bulk clears, then three submissions. *)
Definition after_31_clears : M (list Z) :=
  run 1 (repeat Clear 31) ;;;
  submit_all 2
    [async_item "a" 1%Z; async_item "b" 2%Z; async_item "c" 3%Z].

(** ** Sizes of the job queue *)

(** The reaction a job belongs to. *)
Definition job_reaction (j : job) : Reaction :=
  match j with
  | JThen r _ | JCatch r _ => r
  end.

(** The client code a job can still run: a continuation can run what
    the reaction holds, a trailing handler the generic-error callback. *)
Definition job_cost (j : job) : nat :=
  match j with
  | JThen r _ => reaction_size (item (owner r))
  | JCatch r _ => size_opt (catch (item (owner r)))
  end.

Definition jobs_cost (q : list job) : nat := list_sum (map job_cost q).

(** The jobs a job stands for: a continuation may leave a trailing
    handler behind. *)
Definition job_count (j : job) : nat :=
  match j with
  | JThen _ _ => 2
  | JCatch _ _ => 1
  end.

Definition jobs_count (q : list job) : nat := list_sum (map job_count q).

(** The potential of a world, with every registered reaction counted
    once more: a bound on the reactions that are registered or can still
    be. *)
Definition weight (w : World) : nat := potential w + length (reactions w).

(** [light c m]: [m] raises the weight by [c] at most. *)
Definition light {A} (c : nat) (m : M A) : Prop :=
  forall w, lands True (m w) (fun w' => weight w' <= weight w + c).

(** A bound on the number of jobs the event loop has still to run. *)
Definition backlog (w : World) (q : list job) : nat :=
  jobs_count q + 2 * (weight w + jobs_cost q).

(** The size of the work the environment submits in a sequence of
    turns. *)
Definition turns_size (ts : list (list input)) : nat :=
  inputs_size (concat ts).

(** Every job of the queue belongs to a reaction captured under a
    session id that the live session id has reached. *)
Definition Inv_jobs (w : World) (q : list job) : Prop :=
  Forall (fun j => (session (job_reaction j) <= _sessionId (mgr w))%Z) q.

(** ** Cancellation marks that nothing observes *)

(** The identifier [j] is that of a pending entry, or of an entry of the
    current epoch whose continuations are registered on its promise. *)
Definition carried (j : Z) (w : World) : Prop :=
  In j (map id (_tasks (mgr w))) \/
  exists r, In r (reactions w) /\ session r = _sessionId (mgr w) /\
            id (owner r) = j.

(** The identifier [j] is that of an entry of the current epoch with a
    job in the queue. *)
Definition carried_by_job (j : Z) (w : World) (q : list job) : Prop :=
  exists x, In x q /\ session (job_reaction x) = _sessionId (mgr w) /\
            id (owner (job_reaction x)) = j.

(** Between [w] and [w'], [addTask] has given the identifier [j] to an
    entry. *)
Definition issued (j : Z) (w w' : World) : Prop :=
  exists k, (_nextId (mgr w) <= k < _nextId (mgr w'))%Z /\
            task_id (set_nextId k (mgr w)) = j.

(** The identifier [j] is marked as cancelled and the scheduler has no
    entry that carries it. *)
Definition idle_mark (j : Z) (w : World) : Prop :=
  j ∈ _taskCancelSet (mgr w) /\ ~ carried j w.

(** The same, while the event loop runs. *)
Definition idle_mark_loop (j : Z) (w : World) (q : list job) : Prop :=
  idle_mark j w /\ ~ carried_by_job j w q.

(** Neither the session id nor the counter go back. *)
Definition onward (w w' : World) : Prop :=
  (_sessionId (mgr w) <= _sessionId (mgr w'))%Z /\
  (_nextId (mgr w) <= _nextId (mgr w'))%Z.

(** What stays of an idle mark between [w] and [w']: as long as the epoch
    is the same and the identifier has not been issued again, the mark is
    there and idle. *)
Definition mark_kept (j : Z) (C : Prop) (w w' : World) : Prop :=
  onward w w' /\
  (C -> idle_mark j w -> _sessionId (mgr w') = _sessionId (mgr w) ->
   ~ issued j w w' -> idle_mark j w').

(** [keeps j C m]: under the side condition [C], [m] keeps the idle mark
    [j]. *)
Definition keeps {A} (j : Z) (C : Prop) (m : M A) : Prop :=
  forall w, lands True (m w) (mark_kept j C w).

(** The same for the event loop: [P] before and [Q] after. *)
Definition kept (j : Z) (P Q : Prop) (w w' : World) : Prop :=
  onward w w' /\
  (P -> _sessionId (mgr w') = _sessionId (mgr w) -> ~ issued j w w' -> Q).

(** ** A scheduler that has stopped serving *)

(** An input other than [clear()]. *)
Definition keeps_epoch (i : input) : Prop :=
  match i with
  | Clear => False
  | _ => True
  end.

(** A scheduler whose flag is set while no entry awaits a deferred
    result. *)
Definition stalled (w : World) : Prop :=
  _running (mgr w) = true /\ reactions w = [].

(** A wait-mode entry with a deferred result whose completion callback and
    generic-error callback both throw. *)
Definition double_fault_item (p : promise) : ITask :=
  {| task := Code [] (Return (Deferred p)); taskDesc := "double fault";
     resolve := Some (Code [] (Throw (Plain "resolve failed")));
     donotWaitAsync := None; reject := None;
     catch := Some (Code [] (Throw (Plain "catch failed"))) |}.

(** ** Failures that stay inside the scheduler *)

(** A client function that returns. *)
Definition returns (c : code ITask) : bool :=
  match fin c with
  | Return _ => true
  | Throw _ => false
  end.

(** Client code whose generic-error callbacks return, at any depth; the
    callables and the other callbacks may throw. *)
Fixpoint calm (t : ITask) : bool :=
  let calm_ops :=
    fix calm_ops (l : list (op ITask)) : bool :=
      match l with
      | [] => true
      | OpAdd t' :: l' => calm t' && calm_ops l'
      | _ :: l' => calm_ops l'
      end in
  let calm_opt (o : option (code ITask)) :=
    match o with Some c => calm_ops (body c) | None => true end in
  match t with
  | Build_ITask tk _ rs _ rj ct =>
      calm_ops (body tk) && calm_opt rs && calm_opt rj && calm_opt ct
      && match ct with Some c => returns c | None => true end
  end.

Fixpoint calm_ops (l : list (op ITask)) : bool :=
  match l with
  | [] => true
  | OpAdd t' :: l' => calm t' && calm_ops l'
  | _ :: l' => calm_ops l'
  end.

Definition calm_opt (o : option (code ITask)) : bool :=
  match o with Some c => calm_ops (body c) | None => true end.

Definition calm_input (i : input) : bool :=
  match i with
  | Submit t => calm t
  | _ => true
  end.

(** An exception that nobody handled. *)
Definition is_uncaught (e : event) : bool :=
  match e with
  | EvUncaught _ => true
  | _ => false
  end.

(** The client code a world holds is calm, and no exception has reached
    the host. *)
Definition calm_world (w : World) : Prop :=
  Forall (fun ti => calm (item ti) = true) (_tasks (mgr w)) /\
  Forall (fun r => calm (item (owner r)) = true) (reactions w) /\
  Forall (fun e => is_uncaught e = false) (trace w).

(** With the flag unset the queue is empty. *)
Definition rests (w : World) : Prop :=
  _running (mgr w) = false -> _tasks (mgr w) = [].

(** A wait-mode entry of the current epoch awaits its promise. *)
Definition awaits (w : World) : Prop :=
  exists r, In r (reactions w) /\ session r = _sessionId (mgr w) /\
            shouldWait (item (owner r)) = true.

(** The scheduler is idle with an empty queue, or a wait-mode entry of
    the current epoch is in flight, whose settlement will call [_step]. *)
Definition well (w : World) : Prop :=
  (_running (mgr w) = false /\ _tasks (mgr w) = []) \/
  (_running (mgr w) = true /\ awaits w).

(** What client code, called while the loop runs, can make of a world. *)
Record client_step (w w' : World) : Prop := {
  cs_calm : calm_world w';
  cs_rests : rests w';
  cs_session : (_sessionId (mgr w) <= _sessionId (mgr w'))%Z;
  cs_running :
    _sessionId (mgr w') = _sessionId (mgr w) ->
    _running (mgr w) = true -> _running (mgr w') = true;
  cs_epoch : _sessionId (mgr w') <> _sessionId (mgr w) -> well w';
  cs_well : well w -> well w'
}.

(** [client raises m]: [m] behaves like client code, and throws only if
    [raises] is set. *)
Definition client {A} (raises : bool) (m : M A) : Prop :=
  forall w, calm_world w -> rests w ->
    match m w with
    | Done _ w' => client_step w w'
    | Raised _ w' => raises = true /\ client_step w w'
    | OutOfFuel => True
    end.

(** What a call of [_step] leaves behind. *)
Definition settled (w w' : World) : Prop :=
  calm_world w' /\ well w' /\ (_sessionId (mgr w) <= _sessionId (mgr w'))%Z.

(** [advancing P m]: from a world where [P] holds, [m] returns normally
    and leaves the scheduler idle or awaiting. *)
Definition advancing {A} (P : World -> Prop) (m : M A) : Prop :=
  forall w, calm_world w -> rests w -> P w ->
    match m w with
    | Done _ w' => settled w w'
    | Raised _ _ => False
    | OutOfFuel => True
    end.

(** The common shape of the two continuations passed to [then]: the
    epoch guard, the removal from the running set, the cancellation check
    around the callbacks, and the call of [_step]. *)
Definition guarded_ (rec : M unit) (r : Reaction) (callbacks : M unit)
  : M unit :=
  m <- get ;;
  if decide (_sessionId m <> session r) then ret tt
  else
    modify (fun m =>
      set_runningTasks (delete (id (owner r)) (_runningTasks m)) m) ;;;
    canceled <- checkAndClearCanceled (id (owner r)) ;;
    (if (canceled : bool) then ret tt else callbacks) ;;;
    if shouldWait (item (owner r)) then rec else ret tt.

(** No exception has reached the host so far, the client code is calm
    and the scheduler is idle or awaiting. *)
Definition healthy (w : World) : Prop := calm_world w /\ well w.

(** The reaction [r] belongs to a wait-mode entry of the current epoch:
    its jobs call [_step]. *)
Definition live (r : Reaction) (w : World) : Prop :=
  session r = _sessionId (mgr w) /\ shouldWait (item (owner r)) = true.

(** What a job of the reaction [r] that returns makes of a world: the job
    of a live reaction has called [_step]. *)
Definition job_done (r : Reaction) (w w' : World) : Prop :=
  (live r w -> settled w w') /\ (~ live r w -> client_step w w').

(** While the event loop runs, the entry the scheduler waits for may have
    a job in the queue instead of a registered reaction. *)
Definition token (w : World) (q : list job) : Prop :=
  awaits w \/ exists j, In j q /\ live (job_reaction j) w.

Definition well_loop (w : World) (q : list job) : Prop :=
  (_running (mgr w) = false /\ _tasks (mgr w) = []) \/
  (_running (mgr w) = true /\ token w q).

Definition calm_jobs (q : list job) : Prop :=
  Forall (fun j => calm (item (owner (job_reaction j))) = true) q.

(** Every work item the host code submits is calm. *)
Definition calm_turns (ts : list (list input)) : bool :=
  forallb (forallb calm_input) ts.

(** A wait-mode entry with a deferred result whose completion callback
    throws and whose generic-error callback returns. *)
Definition recovering_item (p : promise) : ITask :=
  {| task := Code [] (Return (Deferred p)); taskDesc := "recovering";
     resolve := Some (Code [] (Throw (Plain "resolve failed")));
     donotWaitAsync := None; reject := None;
     catch := Some (Code [] (Return (Plain ""))) |}.

(** * The variant without session ids (src/unnamed/part_001)

    The older variant of the class: identifiers are the plain values of the
    counter, there is no running set and no session id, and the
    continuations of [handleAsyncTask] have no guard against a [clear()].
    Work items, events, settlements and inputs are those of the model
    above. *)

Module Legacy.

#[local] Open Scope Z_scope.

Record TaskMgr := {
  _nextId : Z;
  _running : bool;
  _taskCancelSet : gset Z;
  _tasks : list TaskInfo
}.

(** [TaskMgr.create()] *)
Definition create : TaskMgr :=
  {| _nextId := 1; _running := false; _taskCancelSet := ∅; _tasks := [] |}.

Definition set_nextId (n : Z) (m : TaskMgr) : TaskMgr :=
  {| _nextId := n; _running := _running m;
     _taskCancelSet := _taskCancelSet m; _tasks := _tasks m |}.

Definition set_running (b : bool) (m : TaskMgr) : TaskMgr :=
  {| _nextId := _nextId m; _running := b;
     _taskCancelSet := _taskCancelSet m; _tasks := _tasks m |}.

Definition set_taskCancelSet (c : gset Z) (m : TaskMgr) : TaskMgr :=
  {| _nextId := _nextId m; _running := _running m;
     _taskCancelSet := c; _tasks := _tasks m |}.

Definition set_tasks (q : list TaskInfo) (m : TaskMgr) : TaskMgr :=
  {| _nextId := _nextId m; _running := _running m;
     _taskCancelSet := _taskCancelSet m; _tasks := q |}.

(** A continuation registered on a promise by [handleAsyncTask]: the
    closure captures the task. *)
Record Reaction := { on : promise; owner : TaskInfo }.

Record World := {
  mgr : TaskMgr;
  reactions : list Reaction;
  trace : list event
}.

Definition fresh : World :=
  {| mgr := create; reactions := []; trace := [] |}.

Inductive outcome (A : Type) :=
| Done (a : A) (w : World)
| Raised (e : jsval) (w : World)
| OutOfFuel.

Arguments Done {A} a w.
Arguments Raised {A} e w.
Arguments OutOfFuel {A}.

Definition M (A : Type) := World -> outcome A.

Definition ret {A} (a : A) : M A := fun w => Done a w.

Definition throw {A} (e : jsval) : M A := fun w => Raised e w.

Definition bind {A B} (m : M A) (k : A -> M B) : M B :=
  fun w =>
    match m w with
    | Done a w' => k a w'
    | Raised e w' => Raised e w'
    | OutOfFuel => OutOfFuel
    end.

Declare Scope legacy_scope.
Notation "x <- m ;; k" := (bind m (fun x => k))
  (at level 100, m at next level, right associativity) : legacy_scope.
Notation "m ;;; k" := (bind m (fun _ => k))
  (at level 100, right associativity) : legacy_scope.
#[local] Open Scope legacy_scope.

Definition try_catch {A} (m : M A) (handler : jsval -> M A) : M A :=
  fun w =>
    match m w with
    | Raised e w1 => handler e w1
    | Done a w1 => Done a w1
    | OutOfFuel => OutOfFuel
    end.

Definition get : M TaskMgr := fun w => Done (mgr w) w.

Definition modify (f : TaskMgr -> TaskMgr) : M unit :=
  fun w => Done tt {| mgr := f (mgr w); reactions := reactions w;
                      trace := trace w |}.

Definition emit (e : event) : M unit :=
  fun w => Done tt {| mgr := mgr w; reactions := reactions w;
                      trace := trace w ++ [e] |}.

Definition register (r : Reaction) : M unit :=
  fun w => Done tt {| mgr := mgr w; reactions := reactions w ++ [r];
                      trace := trace w |}.

(** [cancelTask(id)] *)
Definition cancelTask (i : Z) : M unit :=
  modify (fun m => set_taskCancelSet ({[ i ]} ∪ _taskCancelSet m) m).

(** [clear()] *)
Definition clear : M unit :=
  modify (fun m =>
    {| _nextId := _nextId m; _running := false; _taskCancelSet := ∅;
       _tasks := [] |}).

(** [checkAndClearCanceled(taskId)] *)
Definition checkAndClearCanceled (i : Z) : M bool :=
  m <- get ;;
  if decide (i ∈ _taskCancelSet m) then
    modify (fun m => set_taskCancelSet (_taskCancelSet m ∖ {[ i ]}) m) ;;;
    ret true
  else ret false.

Section Methods.

(** The recursive call [this._step()]. *)
Variable step_rec : M unit.

(** [addTask(task)]: the identifier is [this._nextId++]. *)
Definition addTask_ (t : ITask) : M Z :=
  m <- get ;;
  let i := _nextId m in
  modify (fun m => set_nextId (_nextId m + 1) m) ;;;
  modify (fun m => set_tasks (_tasks m ++ [{| id := i; item := t |}]) m) ;;;
  m <- get ;;
  (if negb (_running m) then modify (set_running true) ;;; step_rec
   else ret tt) ;;;
  ret i.

Fixpoint runOps_ (ops : list (op ITask)) : M unit :=
  match ops with
  | [] => ret tt
  | o :: rest =>
      match o with
      | OpCancel i => cancelTask i
      | OpClear => clear
      | OpAdd t => addTask_ t ;;; ret tt
      end ;;;
      runOps_ rest
  end.

Definition call_ (f : code ITask) : M jsval :=
  runOps_ (body f) ;;;
  match fin f with
  | Return v => ret v
  | Throw e => throw e
  end.

(** [handleAsyncTask(task, promise)] *)
Definition handleAsyncTask_ (ti : TaskInfo) (p : promise) : M unit :=
  register {| on := p; owner := ti |} ;;;
  if negb (shouldWait (item ti)) then step_rec else ret tt.

(** The [catch (error)] block of [handleFunctionTask]. *)
Definition sync_catch_ (ti : TaskInfo) (error : jsval) : M unit :=
  match catch (item ti) with
  | Some f => emit (EvCatch SSync (id ti) error) ;;; call_ f ;;; ret tt
  | None => emit (EvError SSync (taskDesc (item ti)) error)
  end.

(** The [finally] block of [handleFunctionTask]. *)
Definition sync_finally_ (isAsync : bool) : M unit :=
  if negb isAsync then step_rec else ret tt.

Definition try_catch_finally (protected : M unit)
    (handler : jsval -> M unit) (finally : M unit) : M unit :=
  fun w =>
    let caught :=
      match protected w with
      | Raised e w1 => handler e w1
      | o => o
      end in
    match caught with
    | Done _ w2 => finally w2
    | Raised e w2 =>
        match finally w2 with
        | Done _ w3 => Raised e w3
        | o => o
        end
    | OutOfFuel => OutOfFuel
    end.

(** The rest of the [try] block once the callable has returned a value
    that is not a promise: [task.resolve?.(result)]. *)
Definition sync_resolve_ (ti : TaskInfo) (result : jsval) : M unit :=
  match resolve (item ti) with
  | Some f => emit (EvResolve SSync (id ti) result) ;;; call_ f ;;; ret tt
  | None => ret tt
  end.

(** [handleFunctionTask(task)] *)
Definition handleFunctionTask_ (ti : TaskInfo) : M unit :=
  fun w =>
    match (emit (EvTask (id ti)) ;;; call_ (task (item ti))) w with
    | Done (Deferred p) w1 =>
        try_catch_finally (handleAsyncTask_ ti p) (sync_catch_ ti)
          (sync_finally_ true) w1
    | Done result w1 =>
        try_catch_finally (sync_resolve_ ti result) (sync_catch_ ti)
          (sync_finally_ false) w1
    | Raised error w1 =>
        try_catch_finally (throw error) (sync_catch_ ti)
          (sync_finally_ false) w1
    | OutOfFuel => OutOfFuel
    end.

(** The body of [_step()]. *)
Definition step_body : M unit :=
  m <- get ;;
  match _tasks m with
  | [] => modify (set_running false)
  | ti :: q =>
      modify (set_tasks q) ;;;
      canceled <- checkAndClearCanceled (id ti) ;;
      if (canceled : bool) then step_rec else handleFunctionTask_ ti
  end.

(** [(result) => { ... }], the first argument of [then]. *)
Definition onFulfilled_ (r : Reaction) (result : jsval) : M unit :=
  let ti := owner r in
  canceled <- checkAndClearCanceled (id ti) ;;
  (if (canceled : bool) then ret tt
   else
     match resolve (item ti) with
     | Some f =>
         emit (EvResolve SFulfilled (id ti) result) ;;; call_ f ;;; ret tt
     | None => ret tt
     end) ;;;
  if shouldWait (item ti) then step_rec else ret tt.

(** [(reason) => { ... }], the second argument of [then]. *)
Definition onRejected_ (r : Reaction) (reason : jsval) : M unit :=
  let ti := owner r in
  canceled <- checkAndClearCanceled (id ti) ;;
  (if (canceled : bool) then ret tt
   else
     match reject (item ti) with
     | Some f => emit (EvReject (id ti) reason) ;;; call_ f ;;; ret tt
     | None =>
         match catch (item ti) with
         | Some f =>
             emit (EvCatch SRejected (id ti) reason) ;;; call_ f ;;; ret tt
         | None => emit (EvError SRejected (taskDesc (item ti)) reason)
         end
     end) ;;;
  if shouldWait (item ti) then step_rec else ret tt.

(** [.catch((reason) => { ... })] *)
Definition onTail_ (r : Reaction) (reason : jsval) : M unit :=
  let ti := owner r in
  match catch (item ti) with
  | Some f => emit (EvCatch STail (id ti) reason) ;;; call_ f ;;; ret tt
  | None => emit (EvError STail (taskDesc (item ti)) reason)
  end ;;;
  if shouldWait (item ti) then step_rec else ret tt.

End Methods.

(** [_step()], with a bound on the depth of its recursion. *)
Fixpoint _step (fuel : nat) : M unit :=
  match fuel with
  | O => fun _ => OutOfFuel
  | S n => step_body (_step n)
  end.

Definition addTask (fuel : nat) : ITask -> M Z := addTask_ (_step fuel).
Definition handleFunctionTask (fuel : nat) := handleFunctionTask_ (_step fuel).
Definition onFulfilled (fuel : nat) := onFulfilled_ (_step fuel).
Definition onRejected (fuel : nat) := onRejected_ (_step fuel).
Definition onTail (fuel : nat) := onTail_ (_step fuel).

(** The continuation of [then] that matches the settlement. *)
Definition continuation (fuel : nat) (r : Reaction) (s : settlement)
  : M unit :=
  match s with
  | Fulfill v => onFulfilled fuel r v
  | RejectWith e => onRejected fuel r e
  end.

(** The jobs of [promise.then(onFulfilled, onRejected).catch(onTail)]. *)
Inductive job :=
| JThen (r : Reaction) (s : settlement)
| JCatch (r : Reaction) (reason : jsval).

Definition attempt {A} (m : M A) : M completion :=
  fun w =>
    match m w with
    | Done _ w1 => Done Returned w1
    | Raised e w1 => Done (Threw e) w1
    | OutOfFuel => OutOfFuel
    end.

Definition host {A} (m : M A) : M unit :=
  fun w =>
    match m w with
    | Done _ w1 => Done tt w1
    | Raised e w1 => emit (EvUncaught e) w1
    | OutOfFuel => OutOfFuel
    end.

Definition ready (st : promises) (r : Reaction) : list job :=
  match st !! on r with
  | Some s => [JThen r s]
  | None => []
  end.

Definition flush (st : promises) : M (list job) :=
  fun w =>
    Done (flat_map (ready st) (reactions w))
      {| mgr := mgr w;
         reactions := filter (fun r => st !! on r = None) (reactions w);
         trace := trace w |}.

Fixpoint report (unhandled : list jsval) : M unit :=
  match unhandled with
  | [] => ret tt
  | e :: rest => emit (EvUncaught e) ;;; report rest
  end.

Definition chained (j : job) (c : completion) : list job :=
  match j, c with
  | JThen r _, Threw e => [JCatch r e]
  | _, _ => []
  end.

Definition dropped (j : job) (c : completion) : list jsval :=
  match j, c with
  | JCatch _ _, Threw e => [e]
  | _, _ => []
  end.

Definition run_job (fuel : nat) (j : job) : M completion :=
  match j with
  | JThen r s => attempt (continuation fuel r s)
  | JCatch r e => attempt (onTail fuel r e)
  end.

Fixpoint drain (k : nat) (fuel : nat) (st : promises) (q : list job)
    (unhandled : list jsval) {struct k} : M unit :=
  match q with
  | [] => report unhandled
  | j :: rest =>
      match k with
      | O => fun _ => OutOfFuel
      | S k' =>
          c <- run_job fuel j ;;
          new <- flush st ;;
          drain k' fuel st (rest ++ new ++ chained j c)
            (unhandled ++ dropped j c)
      end
  end.

Definition perform (fuel : nat) (st : promises) (i : input) : M promises :=
  match i with
  | Submit t => host (addTask fuel t) ;;; ret st
  | Cancel i => cancelTask i ;;; ret st
  | Clear => clear ;;; ret st
  | Settle p s => ret (settle p s st)
  end.

Fixpoint calls (fuel : nat) (st : promises) (q : list job) (ins : list input)
  : M (promises * list job) :=
  match ins with
  | [] => ret (st, q)
  | i :: rest =>
      st' <- perform fuel st i ;;
      new <- flush st' ;;
      calls fuel st' (q ++ new) rest
  end.

Definition turn (fuel : nat) (st : promises) (ins : list input) : M promises :=
  x <- calls fuel st [] ins ;;
  drain fuel fuel (fst x) (snd x) [] ;;;
  ret (fst x).

Fixpoint turns (fuel : nat) (st : promises) (ts : list (list input))
  : M promises :=
  match ts with
  | [] => ret st
  | t :: rest => st' <- turn fuel st t ;; turns fuel st' rest
  end.

Definition run (fuel : nat) (ins : list input) : M unit :=
  turns fuel ∅ (map (fun i => [i]) ins) ;;; ret tt.

Definition observe (fuel : nat) (ins : list input) : option (list event) :=
  match run fuel ins fresh with
  | Done _ w => Some (trace w)
  | _ => None
  end.

(** Submitting several work items in a row, collecting the identifiers
    [addTask] returns. *)
Fixpoint submit_all (fuel : nat) (ts : list ITask) : M (list Z) :=
  match ts with
  | [] => ret []
  | t :: rest =>
      i <- addTask fuel t ;;
      ids <- submit_all fuel rest ;;
      ret (i :: ids)
  end.

(** *** Worlds, sizes and specifications *)

Definition emitted (ev : event) (w : World) : World :=
  {| mgr := mgr w; reactions := reactions w; trace := trace w ++ [ev] |}.

(** The world an outcome leaves behind. *)
Definition world_of {A} (o : outcome A) (default : World) : World :=
  match o with
  | Done _ w | Raised _ w => w
  | OutOfFuel => default
  end.

(** The world after [clear()]. *)
Definition cleared (w : World) : World := world_of (clear w) w.

Definition finished {A} (o : outcome A) : Prop :=
  match o with OutOfFuel => False | _ => True end.

Definition lands {A} (oof : Prop) (o : outcome A) (Q : World -> Prop) : Prop :=
  match o with
  | Done _ w | Raised _ w => Q w
  | OutOfFuel => oof
  end.

(** No exception escapes the host. *)
Definition quiet {A} (o : outcome A) : Prop :=
  match o with Raised _ _ => False | _ => True end.

Definition reactions_size (rs : list Reaction) : nat :=
  list_sum (map (fun r => reaction_size (item (owner r))) rs).

Definition potential (w : World) : nat :=
  (queue_size (_tasks (mgr w)) + reactions_size (reactions w))%nat.

(** [later w w']: the counter has not gone back and the trace has only
    been extended. *)
Definition later (w w' : World) : Prop :=
  _nextId (mgr w) <= _nextId (mgr w') /\ trace w `prefix_of` trace w'.

(** [tot n c m]: under the recursion bound [n] and with [c] units of
    client code still to run, [m] completes in a later world whose
    potential is at most [c] higher. *)
Definition tot {A} (n c : nat) (m : M A) : Prop :=
  forall w, (potential w + c < n)%nat ->
    lands False (m w)
      (fun w' => (potential w' <= potential w + c)%nat /\ later w w').

(** *** Sizes of the job queue *)

Definition job_reaction (j : job) : Reaction :=
  match j with
  | JThen r _ | JCatch r _ => r
  end.

Definition job_cost (j : job) : nat :=
  match j with
  | JThen r _ => reaction_size (item (owner r))
  | JCatch r _ => size_opt (catch (item (owner r)))
  end.

Definition jobs_cost (q : list job) : nat := list_sum (map job_cost q).

Definition job_count (j : job) : nat :=
  match j with
  | JThen _ _ => 2
  | JCatch _ _ => 1
  end.

Definition jobs_count (q : list job) : nat := list_sum (map job_count q).

Definition weight (w : World) : nat :=
  (potential w + length (reactions w))%nat.

(** [light c m]: [m] raises the weight by [c] at most. *)
Definition light {A} (c : nat) (m : M A) : Prop :=
  forall w, lands True (m w) (fun w' => (weight w' <= weight w + c)%nat).

Definition backlog (w : World) (q : list job) : nat :=
  (jobs_count q + 2 * (weight w + jobs_cost q))%nat.

End Legacy.

(** ** Comparing the two variants *)

(** Client code that never calls [clear()], at any depth. *)
Fixpoint clear_free (t : ITask) : bool :=
  let clear_free_ops :=
    fix clear_free_ops (l : list (op ITask)) : bool :=
      match l with
      | [] => true
      | OpClear :: _ => false
      | OpAdd t' :: l' => clear_free t' && clear_free_ops l'
      | OpCancel _ :: l' => clear_free_ops l'
      end in
  let clear_free_opt (o : option (code ITask)) :=
    match o with Some c => clear_free_ops (body c) | None => true end in
  match t with
  | Build_ITask tk _ rs _ rj ct =>
      clear_free_ops (body tk) && clear_free_opt rs && clear_free_opt rj
      && clear_free_opt ct
  end.

Fixpoint clear_free_ops (l : list (op ITask)) : bool :=
  match l with
  | [] => true
  | OpClear :: _ => false
  | OpAdd t' :: l' => clear_free t' && clear_free_ops l'
  | OpCancel _ :: l' => clear_free_ops l'
  end.

Definition clear_free_opt (o : option (code ITask)) : bool :=
  match o with Some c => clear_free_ops (body c) | None => true end.

Definition clear_free_input (i : input) : bool :=
  match i with
  | Submit t => clear_free t
  | Clear => false
  | Cancel _ | Settle _ _ => true
  end.

(** What the older variant keeps of the state of the newer one. *)
Definition forget_mgr (m : TaskMgr) : Legacy.TaskMgr :=
  {| Legacy._nextId := _nextId m; Legacy._running := _running m;
     Legacy._taskCancelSet := _taskCancelSet m; Legacy._tasks := _tasks m |}.

Definition forget_reaction (r : Reaction) : Legacy.Reaction :=
  {| Legacy.on := on r; Legacy.owner := owner r |}.

Definition forget (w : World) : Legacy.World :=
  {| Legacy.mgr := forget_mgr (mgr w);
     Legacy.reactions := map forget_reaction (reactions w);
     Legacy.trace := trace w |}.

Definition forget_outcome {A} (o : outcome A) : Legacy.outcome A :=
  match o with
  | Done a w => Legacy.Done a (forget w)
  | Raised e w => Legacy.Raised e (forget w)
  | OutOfFuel => Legacy.OutOfFuel
  end.

(** The client code a world still has to run, each pending entry counted
    without the submission that created it. *)
Definition load (w : World) : nat :=
  list_sum (map (fun ti => task_cost (item ti)) (_tasks (mgr w)))
  + reactions_size (reactions w).

(** A bound on the value the counter can reach from a world. *)
Definition reach (w : World) : Z := (_nextId (mgr w) + Z.of_nat (load w))%Z.

(** A world of the first epoch whose client code never calls [clear()]. *)
Definition first_epoch (w : World) : Prop :=
  _sessionId (mgr w) = 0%Z /\ (0 <= _nextId (mgr w))%Z /\
  Forall (fun ti => clear_free (item ti) = true) (_tasks (mgr w)) /\
  Forall (fun r => session r = 0%Z /\ clear_free (item (owner r)) = true)
    (reactions w).

(** [agree c m m']: from a world of the first epoch in which the counter
    cannot reach 2^32 with [c] more units of client code, the older
    variant [m'] does what the newer variant [m] does. *)
Definition agree_at {A} (c : nat) (m : M A) (m' : Legacy.M A) (w : World)
  : Prop :=
  first_epoch w -> (reach w + Z.of_nat c <= 2 ^ 32)%Z ->
  m' (forget w) = forget_outcome (m w) /\
  lands True (m w)
    (fun w' => first_epoch w' /\ (reach w' <= reach w + Z.of_nat c)%Z).

Definition agree {A} (c : nat) (m : M A) (m' : Legacy.M A) : Prop :=
  forall w, agree_at c m m' w.

(** What the older variant keeps of a job. *)
Definition forget_job (j : job) : Legacy.job :=
  match j with
  | JThen r s => Legacy.JThen (forget_reaction r) s
  | JCatch r e => Legacy.JCatch (forget_reaction r) e
  end.

(** The outcome of a computation of the newer variant, as the older
    variant sees it, with the result translated by [f]. *)
Definition forget_with {A B} (f : A -> B) (o : outcome A) : Legacy.outcome B :=
  match o with
  | Done a w => Legacy.Done (f a) (forget w)
  | Raised e w => Legacy.Raised e (forget w)
  | OutOfFuel => Legacy.OutOfFuel
  end.

(** Jobs of the first epoch whose client code never calls [clear()]. *)
Definition first_epoch_jobs (q : list job) : Prop :=
  Forall (fun j => session (job_reaction j) = 0%Z /\
                   clear_free (item (owner (job_reaction j))) = true) q.

(** * The test harness (src/unnamed/part_000)

    The static counters of [TaskMgrTest], its [assert] helper and the
    verdict [runAll] prints at the end. *)

Module TaskMgrTest.

#[local] Open Scope Z_scope.

Record counters := { testCount : Z; passCount : Z; failCount : Z }.

(** A line written to the console. *)
Inductive line :=
| Log (s : string)      (* console.log *)
| Error (s : string).   (* console.error *)

Record state := { stats : counters; console : list line }.

(** [assert(condition, message)] *)
Definition assert (condition : bool) (message : string) (st : state) : state :=
  let c := stats st in
  if condition then
    {| stats := {| testCount := testCount c + 1;
                   passCount := passCount c + 1;
                   failCount := failCount c |};
       console := console st ++ [Log ("✅ [PASS] " ++ message)] |}
  else
    {| stats := {| testCount := testCount c + 1;
                   passCount := passCount c;
                   failCount := failCount c + 1 |};
       console := console st ++ [Error ("❌ [FAIL] " ++ message)] |}.

(** The counters as [runAll] sets them before the first test. *)
Definition reset (st : state) : state :=
  {| stats := {| testCount := 0; passCount := 0; failCount := 0 |};
     console := console st |}.

(** The assertions of the tests, one after the other. *)
Definition assert_all (checks : list (bool * string)) (st : state) : state :=
  fold_left (fun st c => assert (fst c) (snd c) st) checks st.

(** The last line [runAll] prints. *)
Definition verdict (st : state) : line :=
  if failCount (stats st) =? 0 then Log "🎉 所有测试通过！"
  else Error "⚠️ 部分测试失败，请检查！".

(** The conditions that hold, and those that do not. *)
Definition passed (checks : list (bool * string)) : list (bool * string) :=
  List.filter (fun c => fst c) checks.

Definition failed (checks : list (bool * string)) : list (bool * string) :=
  List.filter (fun c => negb (fst c)) checks.

End TaskMgrTest.

(** * Proofs *)

Lemma size_task_unfold tk d rs dw rj ct :
  size_task (Build_ITask tk d rs dw rj ct)
  = S (size_code tk + size_opt rs + size_opt rj + 3 * size_opt ct).
Proof. reflexivity. Qed.

Lemma size_task_eq (t : ITask) : size_task t = S (task_cost t).
Proof.
  destruct t as [tk d rs dw rj ct]. rewrite size_task_unfold.
  unfold task_cost, reaction_size. simpl. lia.
Qed.

(** ** Specifications of monadic computations *)

Lemma spec_bind {A B} oof (m : M A) (k : A -> M B) w P E :
  spec oof (m w) (fun a w1 => spec oof (k a w1) P E) E ->
  spec oof (bind m k w) P E.
Proof. unfold bind, spec. destruct (m w); auto. Qed.

Lemma spec_mono {A} oof (o : outcome A) (P P' : A -> World -> Prop)
    (E E' : World -> Prop) :
  spec oof o P E ->
  (forall a w, P a w -> P' a w) -> (forall w, E w -> E' w) ->
  spec oof o P' E'.
Proof. destruct o; simpl; auto. Qed.

Lemma lands_mono {A} oof (o : outcome A) (Q Q' : World -> Prop) :
  lands oof o Q -> (forall w, Q w -> Q' w) -> lands oof o Q'.
Proof. intros H HQ. apply (spec_mono _ _ _ _ _ _ H); auto. Qed.

Lemma lands_bind {A B} oof (m : M A) (k : A -> M B) w Q :
  spec oof (m w) (fun a w1 => lands oof (k a w1) Q) Q ->
  lands oof (bind m k w) Q.
Proof. apply spec_bind. Qed.

Lemma lands_finished {A} (o : outcome A) Q : lands False o Q -> finished o.
Proof. destruct o; simpl; auto. Qed.

(** ** Termination

    With a recursion bound above the potential of the world, every method
    completes, and the potential never grows by more than the size of the
    client code that ran. *)

Lemma queue_size_app q1 q2 :
  queue_size (q1 ++ q2) = queue_size q1 + queue_size q2.
Proof. unfold queue_size. rewrite map_app, list_sum_app. reflexivity. Qed.

Lemma reactions_size_app r1 r2 :
  reactions_size (r1 ++ r2) = reactions_size r1 + reactions_size r2.
Proof. unfold reactions_size. rewrite map_app, list_sum_app. reflexivity. Qed.

Section Termination.

Variable n : nat.
Variable rec : M unit.
Hypothesis rec_total :
  forall w, potential w < n ->
    lands False (rec w) (fun w' => potential w' <= potential w).

Lemma tot_weaken {A} c c' (m : M A) : c <= c' -> tot n c m -> tot n c' m.
Proof.
  intros Hc H w Hw. eapply lands_mono; [apply H; lia |].
  simpl. intros. lia.
Qed.

Lemma tot_ret {A} (a : A) : tot n 0 (ret a).
Proof. intros w _. simpl. lia. Qed.

Lemma tot_throw {A} e : tot n 0 (@throw A e).
Proof. intros w _. simpl. lia. Qed.

Lemma tot_bind {A B} c1 c2 (m : M A) (k : A -> M B) :
  tot n c1 m -> (forall a, tot n c2 (k a)) -> tot n (c1 + c2) (bind m k).
Proof.
  intros Hm Hk w Hw. apply lands_bind.
  eapply spec_mono; [apply (Hm w); lia | |].
  - intros a w1 H1. cbv beta in H1.
    eapply lands_mono; [apply Hk; lia |].
    cbv beta. intros. lia.
  - cbv beta. intros. lia.
Qed.

Lemma tot_get : tot n 0 get.
Proof. intros w _. simpl. lia. Qed.

Lemma tot_modify f :
  (forall m, queue_size (_tasks (f m)) <= queue_size (_tasks m)) ->
  tot n 0 (modify f).
Proof.
  intros Hf w _. unfold potential. simpl. specialize (Hf (mgr w)). lia.
Qed.

Lemma tot_emit e : tot n 0 (emit e).
Proof. intros w _. unfold potential. simpl. lia. Qed.

Lemma tot_register r : tot n (reaction_size (item (owner r))) (register r).
Proof.
  intros w _. unfold potential. simpl. rewrite reactions_size_app.
  unfold reactions_size at 2. simpl. lia.
Qed.

Lemma tot_rec : tot n 0 rec.
Proof.
  intros w Hw. eapply lands_mono; [apply rec_total; lia |].
  simpl. intros. lia.
Qed.

Lemma tot_cancelTask i : tot n 0 (cancelTask i).
Proof. apply tot_modify. intros m. simpl. lia. Qed.

Lemma tot_clear : tot n 0 clear.
Proof. apply tot_modify. intros m. simpl. unfold queue_size. simpl. lia. Qed.

Lemma tot_checkAndClearCanceled i : tot n 0 (checkAndClearCanceled i).
Proof.
  unfold checkAndClearCanceled. apply (tot_bind 0 0); [apply tot_get |].
  intros m. destruct (decide _); [| apply tot_ret].
  apply (tot_bind 0 0); [apply tot_modify; intros; simpl; lia |]. intros _.
  apply (tot_bind 0 0); [apply tot_modify; intros; simpl; lia |]. intros _.
  apply tot_ret.
Qed.

Lemma tot_addTask t : tot n (size_task t) (addTask_ rec t).
Proof.
  unfold addTask_.
  apply (tot_weaken (0 + (0 + (size_task t + (0 + (0 + 0)))))); [lia |].
  apply tot_bind; [apply tot_get |]. intros m.
  apply tot_bind; [apply tot_modify; intros; simpl; lia |]. intros _.
  apply tot_bind.
  { intros w _. unfold potential. simpl. rewrite queue_size_app.
    unfold queue_size at 2. simpl. lia. }
  intros _. apply tot_bind; [apply tot_get |]. intros m'.
  apply tot_bind; [| intros; apply tot_ret].
  destruct (negb (_running m')); [| apply tot_ret].
  apply (tot_bind 0 0); [apply tot_modify; intros; simpl; lia |].
  intros _. apply tot_rec.
Qed.

Lemma tot_runOps ops : tot n (size_ops ops) (runOps_ rec ops).
Proof.
  induction ops as [| o rest IH]; simpl; [apply tot_ret |].
  destruct o as [i | | t].
  - apply (tot_bind 0); [apply tot_cancelTask | intros; apply IH].
  - apply (tot_bind 0); [apply tot_clear | intros; apply IH].
  - apply (tot_weaken ((size_task t + 0) + size_ops rest)); [lia |].
    apply tot_bind; [| intros; apply IH].
    apply tot_bind; [apply tot_addTask | intros; apply tot_ret].
Qed.

Lemma tot_call f : tot n (size_code f) (call_ rec f).
Proof.
  unfold call_. apply (tot_weaken (size_ops (body f) + 0)).
  { unfold size_code. lia. }
  apply tot_bind; [apply tot_runOps |]. intros _.
  destruct (fin f); [apply tot_ret | apply tot_throw].
Qed.

(** Invoking an optional callback. *)
Lemma tot_callback ev (cb : option (code ITask)) (skip : M unit) :
  tot n 0 skip ->
  tot n (size_opt cb)
    (match cb with
     | Some f => emit ev ;;; call_ rec f ;;; ret tt
     | None => skip
     end).
Proof.
  intros Hskip. destruct cb as [f |]; simpl; [| exact Hskip].
  apply (tot_weaken (0 + (size_code f + 0))); [lia |].
  apply tot_bind; [apply tot_emit |]. intros _.
  apply tot_bind; [apply tot_call |]. intros _. apply tot_ret.
Qed.

Lemma tot_handleAsyncTask ti p s :
  tot n (reaction_size (item ti)) (handleAsyncTask_ rec ti p s).
Proof.
  unfold handleAsyncTask_.
  apply (tot_weaken (reaction_size (item ti) + 0)); [lia |].
  apply tot_bind; [apply (tot_register {| on := p; owner := ti; session := s |}) |].
  intros _. destruct (negb _); [apply tot_rec | apply tot_ret].
Qed.

Lemma tot_sync_catch ti s e :
  tot n (size_opt (catch (item ti))) (sync_catch_ rec ti s e).
Proof.
  unfold sync_catch_.
  apply (tot_weaken (0 + size_opt (catch (item ti)))); [lia |].
  apply tot_bind; [apply tot_get |]. intros m.
  destruct (decide _).
  - apply tot_callback. apply tot_emit.
  - eapply tot_weaken; [| apply tot_ret]. lia.
Qed.

Lemma tot_sync_finally ti s b : tot n 0 (sync_finally_ rec ti s b).
Proof.
  unfold sync_finally_. apply (tot_bind 0 0); [apply tot_get |]. intros m.
  destruct (_ && _); [| apply tot_ret].
  apply (tot_bind 0 0); [apply tot_modify; intros; simpl; lia |].
  intros _. apply tot_rec.
Qed.

Lemma tot_sync_resolve ti s v :
  tot n (size_opt (resolve (item ti))) (sync_resolve_ rec ti s v).
Proof.
  unfold sync_resolve_.
  apply (tot_weaken (0 + size_opt (resolve (item ti)))); [lia |].
  apply tot_bind; [apply tot_get |]. intros m.
  destruct (decide _).
  - apply tot_callback. apply tot_ret.
  - eapply tot_weaken; [| apply tot_ret]. lia.
Qed.

Lemma tot_try_catch_finally cp ch cf protected handler finally :
  tot n cp protected -> (forall e, tot n ch (handler e)) -> tot n cf finally ->
  tot n (cp + ch + cf) (try_catch_finally protected handler finally).
Proof.
  intros Hp Hh Hf w Hw. unfold try_catch_finally.
  pose proof (Hp w ltac:(lia)) as H1.
  destruct (protected w) as [[] w1 | e w1 |]; simpl in H1; [| | contradiction].
  - pose proof (Hf w1 ltac:(lia)) as H2.
    eapply lands_mono; [exact H2 |]. simpl. intros. lia.
  - pose proof (Hh e w1 ltac:(lia)) as H2.
    destruct (handler e w1) as [[] w2 | e2 w2 |]; simpl in H2;
      [| | contradiction].
    + pose proof (Hf w2 ltac:(lia)) as H3.
      eapply lands_mono; [exact H3 |]. simpl. intros. lia.
    + pose proof (Hf w2 ltac:(lia)) as H3.
      destruct (finally w2) as [[] w3 | e3 w3 |]; simpl in *; lia.
Qed.

Lemma tot_handleFunctionTask ti :
  tot n (task_cost (item ti)) (handleFunctionTask_ rec ti).
Proof.
  intros w Hw. unfold handleFunctionTask_, bind at 1, get.
  assert (Hcall : tot n (size_code (task (item ti)))
                    (emit (EvTask (id ti)) ;;; call_ rec (task (item ti)))).
  { apply (tot_bind 0); [apply tot_emit | intros; apply tot_call]. }
  assert (Hr : reaction_size (item ti)
               = size_opt (resolve (item ti)) + size_opt (reject (item ti))
                 + 2 * size_opt (catch (item ti))) by reflexivity.
  unfold task_cost in *.
  pose proof (Hcall w ltac:(lia)) as H1.
  destruct ((emit (EvTask (id ti)) ;;; call_ rec (task (item ti))) w)
    as [v w1 | e w1 |]; simpl in H1; [| | contradiction].
  - destruct v as [s | p].
    + eapply lands_mono.
      * apply (tot_try_catch_finally _ _ _ _ _ _
                 (tot_sync_resolve ti _ _)
                 (tot_sync_catch ti _)
                 (tot_sync_finally ti _ _)). lia.
      * simpl. intros. lia.
    + eapply lands_mono.
      * apply (tot_try_catch_finally _ _ _ _ _ _
                 (tot_handleAsyncTask ti _ _)
                 (tot_sync_catch ti _)
                 (tot_sync_finally ti _ _)). lia.
      * simpl. intros. lia.
  - eapply lands_mono.
    + apply (tot_try_catch_finally 0 _ _ _ _ _
               (tot_throw _)
               (tot_sync_catch ti _)
               (tot_sync_finally ti _ _)). lia.
    + simpl. intros. lia.
Qed.

(** One more level of recursion serves a world whose potential is one
    higher. *)
Lemma step_body_total w :
  potential w < S n ->
  lands False (step_body rec w) (fun w' => potential w' <= potential w).
Proof.
  intros Hw. unfold step_body, bind at 1, get.
  destruct (_tasks (mgr w)) as [| ti q] eqn:Hq.
  - unfold potential. simpl. rewrite Hq. unfold queue_size. simpl. lia.
  - assert (Hpop : potential w
                   = S (task_cost (item ti)) + queue_size q
                     + reactions_size (reactions w)).
    { unfold potential. rewrite Hq. unfold queue_size. simpl.
      rewrite size_task_eq. reflexivity. }
    set (w1 := {| mgr := set_tasks q (mgr w); reactions := reactions w;
                  trace := trace w |}).
    assert (Hw1 : potential w1 = queue_size q + reactions_size (reactions w))
      by reflexivity.
    assert (Hrest : tot n (task_cost (item ti))
              (canceled <- checkAndClearCanceled (id ti) ;;
               if (canceled : bool) then rec
               else
                 modify (fun m =>
                   set_runningTasks (<[ id ti := ti ]> (_runningTasks m)) m) ;;;
                 handleFunctionTask_ rec ti)).
    { apply (tot_weaken (0 + task_cost (item ti))); [lia |].
      apply tot_bind; [apply tot_checkAndClearCanceled |].
      intros [|].
      - eapply tot_weaken; [| apply tot_rec]. lia.
      - apply (tot_bind 0); [apply tot_modify; intros; simpl; lia |].
        intros _. apply tot_handleFunctionTask. }
    unfold bind at 1. unfold modify at 1. fold w1.
    eapply lands_mono; [apply (Hrest w1); lia |].
    simpl. intros. lia.
Qed.

End Termination.

Theorem step_total (n : nat) (w : World) :
  potential w < n ->
  lands False (_step n w) (fun w' => potential w' <= potential w).
Proof.
  revert w. induction n as [| n IH]; intros w Hw; [lia |].
  simpl. apply (step_body_total n); auto.
Qed.

(** ** What a run of the scheduler can change *)

Lemma extends_refl q w : extends q w w.
Proof.
  split; [lia |]. split; [| done].
  exists []. by rewrite app_nil_r.
Qed.

Lemma extends_trans q w1 w2 w3 : extends q w1 w2 -> extends q w2 w3 -> extends q w1 w3.
Proof.
  intros (Hs1 & (n1 & Hr1 & Hn1) & Hp1 & Hf1)
         (Hs2 & (n2 & Hr2 & Hn2) & Hp2 & Hf2).
  split; [lia |]. split; [| split; [by etrans | congruence]].
  exists (n1 ++ n2). split; [by rewrite Hr2, Hr1, app_assoc |].
  apply Forall_app. split; [| done].
  eapply Forall_impl; [exact Hn1 |]. simpl. intros. lia.
Qed.

Lemma extends_session q w w' :
  extends q w w' -> (_sessionId (mgr w) <= _sessionId (mgr w'))%Z.
Proof. intros H. apply H. Qed.

Lemma extends_prefix q w w' : extends q w w' -> trace w `prefix_of` trace w'.
Proof. intros H. apply H. Qed.

Lemma extends_Inv q w w' : extends q w w' -> Inv w -> Inv w'.
Proof.
  intros (Hs & (new & Hr & Hn) & _) Hi. unfold Inv. rewrite Hr.
  apply Forall_app. split; [| done].
  eapply Forall_impl; [exact Hi |]. simpl. intros. lia.
Qed.

Lemma filter_any_event l : List.filter any_event l = [].
Proof. induction l; simpl; auto. Qed.

Lemma extends_any q w w' : extends q w w' -> extends any_event w w'.
Proof.
  intros (Hs & Hr & Hp & _). repeat split; auto.
  by rewrite !filter_any_event.
Qed.

(** The events issued between two worlds of a run. *)
Lemma extends_events q w w' :
  extends q w w' ->
  exists evs, trace w' = trace w ++ evs /\ List.filter q evs = [].
Proof.
  intros (_ & _ & (evs & Hp) & Hf). exists evs. split; [done |].
  rewrite Hp, List.filter_app in Hf.
  apply (app_inv_head (List.filter q (trace w))). by rewrite app_nil_r.
Qed.

Section Soundness.

(** The events that must not be issued. *)
Variable q : event -> bool.

(** A fact about the world that a run cannot destroy. *)
Variable P : World -> Prop.
Hypothesis P_stable : forall w w', P w -> extends q w w' -> P w'.

Variable rec : M unit.
Hypothesis rec_sound : forall w, lands True (rec w) (extends q w).

Lemma safe_ret {A} (a : A) : safe q P (ret a).
Proof. intros w _. simpl. apply extends_refl. Qed.

Lemma safe_throw {A} e : safe q P (@throw A e).
Proof. intros w _. simpl. apply extends_refl. Qed.

Lemma safe_bind {A B} (m : M A) (k : A -> M B) :
  safe q P m -> (forall a, safe q P (k a)) -> safe q P (bind m k).
Proof.
  intros Hm Hk w HP. apply lands_bind.
  eapply spec_mono; [apply (Hm w HP) | | auto].
  intros a w1 H1. cbv beta in H1.
  eapply lands_mono; [apply Hk; by eapply P_stable |].
  cbv beta. intros w2 H2. by eapply extends_trans.
Qed.

Lemma safe_get : safe q P get.
Proof. intros w _. simpl. apply extends_refl. Qed.

Lemma safe_modify f :
  (forall m, (_sessionId m <= _sessionId (f m))%Z) -> safe q P (modify f).
Proof.
  intros Hf w _. simpl. split; [| split; [| split]]; simpl; auto.
  exists []. by rewrite app_nil_r.
Qed.

Lemma safe_emit e : q e = false -> safe q P (emit e).
Proof.
  intros He w _. simpl. split; [| split; [| split]]; simpl.
  - lia.
  - exists []. by rewrite app_nil_r.
  - by apply prefix_app_r.
  - rewrite List.filter_app. simpl. rewrite He. by rewrite app_nil_r.
Qed.

Lemma safe_register r :
  (forall w, P w -> (session r <= _sessionId (mgr w))%Z) ->
  safe q P (register r).
Proof.
  intros Hr w HP. simpl. split; [| split; [| split]]; simpl; auto.
  - lia.
  - exists [r]. split; [done |]. constructor; [by apply Hr | constructor].
Qed.

Lemma safe_rec : safe q P rec.
Proof. intros w _. by apply rec_sound. Qed.

Lemma safe_cancelTask i : safe q P (cancelTask i).
Proof. apply safe_modify. intros m. simpl. lia. Qed.

Lemma safe_clear : safe q P clear.
Proof. apply safe_modify. intros m. simpl. lia. Qed.

Lemma safe_checkAndClearCanceled i : safe q P (checkAndClearCanceled i).
Proof.
  unfold checkAndClearCanceled. apply safe_bind; [apply safe_get |].
  intros m. destruct (decide _); [| apply safe_ret].
  apply safe_bind; [apply safe_modify; intros; simpl; lia |]. intros _.
  apply safe_bind; [apply safe_modify; intros; simpl; lia |]. intros _.
  apply safe_ret.
Qed.

Lemma safe_addTask t : safe q P (addTask_ rec t).
Proof.
  unfold addTask_. apply safe_bind; [apply safe_get |]. intros m.
  apply safe_bind; [apply safe_modify; intros; simpl; lia |]. intros _.
  apply safe_bind; [apply safe_modify; intros; simpl; lia |]. intros _.
  apply safe_bind; [apply safe_get |]. intros m'.
  apply safe_bind; [| intros; apply safe_ret].
  destruct (negb (_running m')); [| apply safe_ret].
  apply safe_bind; [apply safe_modify; intros; simpl; lia |].
  intros _. apply safe_rec.
Qed.

Lemma safe_runOps ops : safe q P (runOps_ rec ops).
Proof.
  induction ops as [| o rest IH]; simpl; [apply safe_ret |].
  apply safe_bind; [| intros; apply IH].
  destruct o as [i | | t];
    [apply safe_cancelTask | apply safe_clear |].
  apply safe_bind; [apply safe_addTask | intros; apply safe_ret].
Qed.

Lemma safe_call f : safe q P (call_ rec f).
Proof.
  unfold call_. apply safe_bind; [apply safe_runOps |]. intros _.
  destruct (fin f); [apply safe_ret | apply safe_throw].
Qed.

Lemma safe_callback ev (cb : option (code ITask)) (skip : M unit) :
  q ev = false -> safe q P skip ->
  safe q P (match cb with
       | Some f => emit ev ;;; call_ rec f ;;; ret tt
       | None => skip
       end).
Proof.
  intros Hev Hskip. destruct cb as [f |]; [| exact Hskip].
  apply safe_bind; [by apply safe_emit |]. intros _.
  apply safe_bind; [apply safe_call |]. intros _. apply safe_ret.
Qed.

Lemma safe_handleAsyncTask ti p s :
  (forall w, P w -> (s <= _sessionId (mgr w))%Z) ->
  safe q P (handleAsyncTask_ rec ti p s).
Proof.
  intros Hs. unfold handleAsyncTask_.
  apply safe_bind; [by apply safe_register |]. intros _.
  destruct (negb _); [apply safe_rec | apply safe_ret].
Qed.

Hypothesis q_sync : forall e, from_settlement e = false -> q e = false.

Lemma safe_sync_catch ti s e : safe q P (sync_catch_ rec ti s e).
Proof.
  unfold sync_catch_. apply safe_bind; [apply safe_get |]. intros m.
  destruct (decide _); [| apply safe_ret].
  apply safe_callback; [by apply q_sync | by apply safe_emit, q_sync].
Qed.

Lemma safe_sync_finally ti s b : safe q P (sync_finally_ rec ti s b).
Proof.
  unfold sync_finally_. apply safe_bind; [apply safe_get |]. intros m.
  destruct (_ && _); [| apply safe_ret].
  apply safe_bind; [apply safe_modify; intros; simpl; lia |].
  intros _. apply safe_rec.
Qed.

Lemma safe_sync_resolve ti s v : safe q P (sync_resolve_ rec ti s v).
Proof.
  unfold sync_resolve_. apply safe_bind; [apply safe_get |]. intros m.
  destruct (decide _); [| apply safe_ret].
  apply safe_callback; [by apply q_sync | apply safe_ret].
Qed.

Lemma safe_try_catch_finally protected handler finally :
  safe q P protected -> (forall e, safe q P (handler e)) -> safe q P finally ->
  safe q P (try_catch_finally protected handler finally).
Proof.
  intros Hp Hh Hf w HP. unfold try_catch_finally.
  pose proof (Hp w HP) as H1.
  destruct (protected w) as [[] w1 | e w1 |]; simpl in H1; [| | exact I].
  - eapply lands_mono; [apply Hf; by eapply P_stable |].
    cbv beta. intros. by eapply extends_trans.
  - pose proof (Hh e w1 (P_stable _ _ HP H1)) as H2.
    destruct (handler e w1) as [[] w2 | e2 w2 |]; simpl in H2; [| | exact I].
    + assert (H12 : extends q w w2) by exact (extends_trans _ _ _ _ H1 H2).
      eapply lands_mono; [apply Hf; by eapply P_stable |].
      cbv beta. intros w3 H3. exact (extends_trans _ _ _ _ H12 H3).
    + assert (H12 : extends q w w2) by exact (extends_trans _ _ _ _ H1 H2).
      pose proof (Hf w2 (P_stable _ _ HP H12)) as H3.
      destruct (finally w2) as [[] w3 | e3 w3 |]; simpl in *;
        try exact I; exact (extends_trans _ _ _ _ H12 H3).
Qed.

Lemma safe_try_catch {A} (m : M A) handler :
  safe q P m -> (forall e, safe q P (handler e)) -> safe q P (try_catch m handler).
Proof.
  intros Hm Hh w HP. unfold try_catch. pose proof (Hm w HP) as H1.
  destruct (m w) as [a w1 | e w1 |]; simpl in *; auto.
  eapply lands_mono; [apply Hh; by eapply P_stable |].
  cbv beta. intros w2 H2. exact (extends_trans _ _ _ _ H1 H2).
Qed.

End Soundness.

Lemma everywhere_stable q w w' : everywhere w -> extends q w w' -> everywhere w'.
Proof. done. Qed.

Section StepSoundness.

Variable q : event -> bool.
Hypothesis q_sync : forall e, from_settlement e = false -> q e = false.

Variable rec : M unit.
Hypothesis rec_sound : forall w, lands True (rec w) (extends q w).

(** The rest of a synchronous block, whatever its protected part. *)
Lemma sound_sync_block P ti cs b protected :
  (forall w1 w2, P w1 -> extends q w1 w2 -> P w2) ->
  safe q P protected ->
  safe q P (try_catch_finally protected (sync_catch_ rec ti cs)
             (sync_finally_ rec ti cs b)).
Proof.
  intros P_stable Hp. apply safe_try_catch_finally; auto.
  - intros e. by apply safe_sync_catch.
  - by apply safe_sync_finally.
Qed.

(** [handleFunctionTask] enters the callable first; everything else
    comes after that event. *)
Lemma sound_handleFunctionTask_entered ti w :
  lands True (handleFunctionTask_ rec ti w)
    (extends q {| mgr := mgr w; reactions := reactions w;
            trace := trace w ++ [EvTask (id ti)] |}).
Proof.
  unfold handleFunctionTask_, bind at 1, get.
  set (cs := _sessionId (mgr w)).
  set (w0 := {| mgr := mgr w; reactions := reactions w;
                trace := trace w ++ [EvTask (id ti)] |}).
  set (P := fun w' : World => (cs <= _sessionId (mgr w'))%Z).
  assert (P_stable : forall w1 w2, P w1 -> extends q w1 w2 -> P w2).
  { unfold P. intros w1 w2 H1 (H2 & _). lia. }
  assert (HP : P w0) by (unfold P, cs; simpl; lia).
  assert (Hcall : safe q P (call_ rec (task (item ti))))
    by (by apply safe_call).
  pose proof (Hcall w0 HP) as H1.
  change ((emit (EvTask (id ti)) ;;; call_ rec (task (item ti))) w)
    with (call_ rec (task (item ti)) w0).
  destruct (call_ rec (task (item ti)) w0)
    as [v w1 | e w1 |]; simpl in H1; [| | exact I].
  - destruct v as [s | p].
    + eapply lands_mono.
      * apply (sound_sync_block P); [done | | by eapply P_stable].
        by apply safe_sync_resolve.
      * cbv beta. intros w2 H2. exact (extends_trans _ _ _ _ H1 H2).
    + eapply lands_mono.
      * apply (sound_sync_block P); [done | | by eapply P_stable].
        apply safe_handleAsyncTask; auto.
      * cbv beta. intros w2 H2. exact (extends_trans _ _ _ _ H1 H2).
  - eapply lands_mono.
    + apply (sound_sync_block P); [done | | by eapply P_stable].
      apply safe_throw.
    + cbv beta. intros w2 H2. exact (extends_trans _ _ _ _ H1 H2).
Qed.

Lemma sound_handleFunctionTask ti w :
  lands True (handleFunctionTask_ rec ti w) (extends q w).
Proof.
  eapply lands_mono; [apply sound_handleFunctionTask_entered |].
  cbv beta. intros w2 H2. eapply extends_trans; [| exact H2].
  apply (safe_emit q everywhere (EvTask (id ti))); [by apply q_sync | done].
Qed.

Lemma sound_step_body w : lands True (step_body rec w) (extends q w).
Proof.
  assert (H : safe q everywhere (step_body rec)); [| by apply H].
  unfold step_body.
  apply safe_bind; [apply everywhere_stable | apply safe_get |]. intros m.
  destruct (_tasks m) as [| ti rest].
  { apply safe_modify. intros. simpl. lia. }
  apply safe_bind;
    [apply everywhere_stable | apply safe_modify; intros; simpl; lia |].
  intros _.
  apply safe_bind;
    [apply everywhere_stable
    | apply safe_checkAndClearCanceled, everywhere_stable |].
  intros [|]; [by apply safe_rec |].
  apply safe_bind;
    [apply everywhere_stable | apply safe_modify; intros; simpl; lia |].
  intros _ w1 _. by apply sound_handleFunctionTask.
Qed.

(** The continuations may issue any event. *)
Hypothesis q_any : forall e, q e = false.

Lemma sound_then_callback ev (cb : option (code ITask)) (skip : M unit) :
  safe q everywhere skip ->
  safe q everywhere
    (match cb with
     | Some f => emit ev ;;; call_ rec f ;;; ret tt
     | None => skip
     end).
Proof.
  intros. apply safe_callback;
    [apply everywhere_stable | exact rec_sound | apply q_any | assumption].
Qed.

Lemma sound_onFulfilled r v w :
  lands True (onFulfilled_ rec r v w) (extends q w).
Proof.
  assert (H : safe q everywhere (onFulfilled_ rec r v)); [| by apply H].
  unfold onFulfilled_.
  apply safe_bind; [apply everywhere_stable | apply safe_get |]. intros m.
  destruct (decide _); [apply safe_ret |].
  apply safe_bind;
    [apply everywhere_stable | apply safe_modify; intros; simpl; lia |].
  intros _.
  apply safe_bind;
    [apply everywhere_stable
    | apply safe_checkAndClearCanceled, everywhere_stable |].
  intros canceled.
  apply safe_bind; [apply everywhere_stable | |].
  - destruct canceled; [apply safe_ret |].
    apply sound_then_callback, safe_ret.
  - intros _. destruct (shouldWait _); [by apply safe_rec | apply safe_ret].
Qed.

Lemma sound_onRejected r v w :
  lands True (onRejected_ rec r v w) (extends q w).
Proof.
  assert (H : safe q everywhere (onRejected_ rec r v)); [| by apply H].
  unfold onRejected_.
  apply safe_bind; [apply everywhere_stable | apply safe_get |]. intros m.
  destruct (decide _); [apply safe_ret |].
  apply safe_bind;
    [apply everywhere_stable | apply safe_modify; intros; simpl; lia |].
  intros _.
  apply safe_bind;
    [apply everywhere_stable
    | apply safe_checkAndClearCanceled, everywhere_stable |].
  intros canceled.
  apply safe_bind; [apply everywhere_stable | |].
  - destruct canceled; [apply safe_ret |].
    apply sound_then_callback, sound_then_callback, safe_emit, q_any.
  - intros _. destruct (shouldWait _); [by apply safe_rec | apply safe_ret].
Qed.

Lemma sound_onTail r v w :
  lands True (onTail_ rec r v w) (extends q w).
Proof.
  assert (H : safe q everywhere (onTail_ rec r v)); [| by apply H].
  unfold onTail_.
  apply safe_bind; [apply everywhere_stable | apply safe_get |]. intros m.
  destruct (decide _); [apply safe_ret |].
  apply safe_bind;
    [apply everywhere_stable | apply safe_modify; intros; simpl; lia |].
  intros _.
  apply safe_bind; [apply everywhere_stable | |].
  - apply sound_then_callback, safe_emit, q_any.
  - intros _. destruct (shouldWait _); [by apply safe_rec | apply safe_ret].
Qed.

End StepSoundness.

(** A synchronous run only moves the world forward and issues no event of
    a promise continuation. *)
Theorem step_sound (n : nat) (w : World) :
  lands True (_step n w) (extends from_settlement w).
Proof.
  revert w. induction n as [| n IH]; intros w; [exact I |].
  simpl. by apply sound_step_body.
Qed.

Lemma step_sound_any (n : nat) (w : World) :
  lands True (_step n w) (extends any_event w).
Proof.
  eapply lands_mono; [by apply step_sound |].
  intros w'. apply extends_any.
Qed.

Lemma addTask_sound n t w :
  lands True (addTask n t w) (extends from_settlement w).
Proof.
  unfold addTask.
  apply (safe_addTask from_settlement everywhere);
    [apply everywhere_stable | apply step_sound | done].
Qed.

Lemma call_sound n f w : lands True (call n f w) (extends from_settlement w).
Proof.
  unfold call.
  apply (safe_call from_settlement everywhere);
    [apply everywhere_stable | apply step_sound | done].
Qed.

(** *** The host level *)

Lemma evolves_refl w : evolves w w.
Proof. by repeat split. Qed.

Lemma evolves_trans w1 w2 w3 : evolves w1 w2 -> evolves w2 w3 -> evolves w1 w3.
Proof.
  intros (Hs1 & Hi1 & Hp1) (Hs2 & Hi2 & Hp2).
  repeat split; [lia | auto | by etrans].
Qed.

Lemma extends_evolves q w w' : extends q w w' -> evolves w w'.
Proof.
  intros H. repeat split; [apply H | by eapply extends_Inv | apply H].
Qed.

Lemma evolves_bind {A B} (m : M A) (k : A -> M B) w :
  lands True (m w) (evolves w) ->
  (forall a w1, lands True (k a w1) (evolves w1)) ->
  lands True (bind m k w) (evolves w).
Proof.
  intros Hm Hk. apply lands_bind.
  eapply spec_mono; [exact Hm | | auto].
  intros a w1 H1. cbv beta in H1.
  eapply lands_mono; [apply Hk |].
  cbv beta. intros w2 H2. exact (evolves_trans _ _ _ H1 H2).
Qed.

Lemma continuation_sound n r s w :
  lands True (continuation n r s w) (extends any_event w).
Proof.
  destruct s; [apply sound_onFulfilled | apply sound_onRejected];
    auto using step_sound_any.
Qed.

Lemma onTail_sound n r e w : lands True (onTail n r e w) (extends any_event w).
Proof. apply sound_onTail; auto using step_sound_any. Qed.

Lemma attempt_sound {A} (m : M A) w :
  lands True (m w) (evolves w) -> lands True (attempt m w) (evolves w).
Proof. unfold attempt. by destruct (m w). Qed.

Lemma run_job_sound n j w : lands True (run_job n j w) (evolves w).
Proof.
  destruct j as [r s | r e]; apply attempt_sound.
  - eapply lands_mono; [apply continuation_sound |].
    intros w'. apply extends_evolves.
  - eapply lands_mono; [apply onTail_sound |].
    intros w'. apply extends_evolves.
Qed.

Lemma host_sound {A} (m : M A) w :
  lands True (m w) (evolves w) -> lands True (host m w) (evolves w).
Proof.
  unfold host. destruct (m w) as [a w1 | e w1 |]; simpl; auto.
  intros (Hs & Hi & Hp). repeat split; simpl; auto.
  by apply prefix_app_r.
Qed.

Lemma flush_sound st w : lands True (flush st w) (evolves w).
Proof.
  simpl. repeat split; simpl; auto; [lia |]. intros Hi.
  unfold Inv. simpl. apply Forall_forall. intros r Hr.
  apply list_elem_of_filter in Hr as [_ Hr].
  unfold Inv in Hi. rewrite Forall_forall in Hi. by apply Hi.
Qed.

Lemma report_sound es w : lands True (report es w) (evolves w).
Proof.
  revert w. induction es as [| e rest IH]; intros w; simpl.
  - apply evolves_refl.
  - apply evolves_bind; [| auto]. simpl. repeat split; simpl; auto; [lia |].
    by apply prefix_app_r.
Qed.

Lemma drain_sound k n st q es w : lands True (drain k n st q es w) (evolves w).
Proof.
  revert q es w. induction k as [| k IH]; intros q es w;
    (destruct q as [| j rest]; [apply report_sound |]); [exact I |].
  cbn [drain]. apply evolves_bind; [apply run_job_sound |]. intros c w1.
  apply evolves_bind; [apply flush_sound |]. intros new w2. apply IH.
Qed.

Lemma perform_sound n st i w : lands True (perform n st i w) (evolves w).
Proof.
  destruct i as [t | i | | p s]; cbn [perform].
  - apply evolves_bind; [| intros; apply evolves_refl].
    apply host_sound. eapply lands_mono; [by apply addTask_sound |].
    intros w'. apply extends_evolves.
  - apply evolves_bind; [| intros; apply evolves_refl].
    eapply lands_mono;
      [by apply (safe_cancelTask any_event everywhere) |].
    intros w'. apply extends_evolves.
  - apply evolves_bind; [| intros; apply evolves_refl].
    eapply lands_mono; [by apply (safe_clear any_event everywhere) |].
    intros w'. apply extends_evolves.
  - apply evolves_refl.
Qed.

Lemma calls_sound n ins : forall st q w, lands True (calls n st q ins w) (evolves w).
Proof.
  induction ins as [| i rest IH]; intros st q w; simpl.
  - apply evolves_refl.
  - apply evolves_bind; [apply perform_sound |]. intros st' w1.
    apply evolves_bind; [apply flush_sound |]. intros new w2. apply IH.
Qed.

Lemma turn_sound n st ins w : lands True (turn n st ins w) (evolves w).
Proof.
  unfold turn. apply evolves_bind; [apply calls_sound |]. intros x w1.
  apply evolves_bind; [apply drain_sound |]. intros _ w2. apply evolves_refl.
Qed.

Lemma turns_sound n ts : forall st w, lands True (turns n st ts w) (evolves w).
Proof.
  induction ts as [| t rest IH]; intros st w; simpl.
  - apply evolves_refl.
  - apply evolves_bind; [apply turn_sound | auto].
Qed.

Lemma run_sound n ins w : lands True (run n ins w) (evolves w).
Proof.
  unfold run. apply evolves_bind; [apply turns_sound |].
  intros. apply evolves_refl.
Qed.


(** *** The weight of a world *)

Section Weight.

Variable rec : M unit.
Hypothesis rec_light : light 0 rec.

Lemma light_weaken {A} c c' (m : M A) : c <= c' -> light c m -> light c' m.
Proof.
  intros Hc H w. eapply lands_mono; [apply H |]. simpl. intros. lia.
Qed.

Lemma light_ret {A} (a : A) : light 0 (ret a).
Proof. intros w. simpl. lia. Qed.

Lemma light_throw {A} e : light 0 (@throw A e).
Proof. intros w. simpl. lia. Qed.

Lemma light_bind {A B} c1 c2 (m : M A) (k : A -> M B) :
  light c1 m -> (forall a, light c2 (k a)) -> light (c1 + c2) (bind m k).
Proof.
  intros Hm Hk w. apply lands_bind.
  eapply spec_mono; [apply (Hm w) | |].
  - intros a w1 H1. cbv beta in H1.
    eapply lands_mono; [apply Hk |]. cbv beta. intros. lia.
  - cbv beta. intros. lia.
Qed.

Lemma light_get : light 0 get.
Proof. intros w. simpl. lia. Qed.

Lemma light_modify f :
  (forall m, queue_size (_tasks (f m)) <= queue_size (_tasks m)) ->
  light 0 (modify f).
Proof.
  intros Hf w. unfold weight, potential. simpl. specialize (Hf (mgr w)). lia.
Qed.

Lemma light_emit e : light 0 (emit e).
Proof. intros w. unfold weight, potential. simpl. lia. Qed.

Lemma light_register r :
  light (S (reaction_size (item (owner r)))) (register r).
Proof.
  intros w. unfold weight, potential. simpl.
  rewrite reactions_size_app, length_app.
  unfold reactions_size at 2. simpl. lia.
Qed.

Lemma light_cancelTask i : light 0 (cancelTask i).
Proof. apply light_modify. intros m. simpl. lia. Qed.

Lemma light_clear : light 0 clear.
Proof. apply light_modify. intros m. simpl. unfold queue_size. simpl. lia. Qed.

Lemma light_checkAndClearCanceled i : light 0 (checkAndClearCanceled i).
Proof.
  unfold checkAndClearCanceled. apply (light_bind 0 0); [apply light_get |].
  intros m. destruct (decide _); [| apply light_ret].
  apply (light_bind 0 0); [apply light_modify; intros; simpl; lia |]. intros _.
  apply (light_bind 0 0); [apply light_modify; intros; simpl; lia |]. intros _.
  apply light_ret.
Qed.

Lemma light_addTask t : light (size_task t) (addTask_ rec t).
Proof.
  unfold addTask_.
  apply (light_weaken (0 + (0 + (size_task t + (0 + (0 + 0)))))); [lia |].
  apply light_bind; [apply light_get |]. intros m.
  apply light_bind; [apply light_modify; intros; simpl; lia |]. intros _.
  apply light_bind.
  { intros w. unfold weight, potential. simpl. rewrite queue_size_app.
    unfold queue_size at 2. simpl. lia. }
  intros _. apply light_bind; [apply light_get |]. intros m'.
  apply light_bind; [| intros; apply light_ret].
  destruct (negb (_running m')); [| apply light_ret].
  apply (light_bind 0 0); [apply light_modify; intros; simpl; lia |].
  intros _. apply rec_light.
Qed.

Lemma light_runOps ops : light (size_ops ops) (runOps_ rec ops).
Proof.
  induction ops as [| o rest IH]; simpl; [apply light_ret |].
  destruct o as [i | | t].
  - apply (light_bind 0); [apply light_cancelTask | intros; apply IH].
  - apply (light_bind 0); [apply light_clear | intros; apply IH].
  - apply (light_weaken ((size_task t + 0) + size_ops rest)); [lia |].
    apply light_bind; [| intros; apply IH].
    apply light_bind; [apply light_addTask | intros; apply light_ret].
Qed.

Lemma light_call f : light (size_code f) (call_ rec f).
Proof.
  unfold call_. apply (light_weaken (size_ops (body f) + 0)).
  { unfold size_code. lia. }
  apply light_bind; [apply light_runOps |]. intros _.
  destruct (fin f); [apply light_ret | apply light_throw].
Qed.

Lemma light_callback ev (cb : option (code ITask)) (skip : M unit) :
  light 0 skip ->
  light (size_opt cb)
    (match cb with
     | Some f => emit ev ;;; call_ rec f ;;; ret tt
     | None => skip
     end).
Proof.
  intros Hskip. destruct cb as [f |]; simpl; [| exact Hskip].
  apply (light_weaken (0 + (size_code f + 0))); [lia |].
  apply light_bind; [apply light_emit |]. intros _.
  apply light_bind; [apply light_call |]. intros _. apply light_ret.
Qed.

Lemma light_handleAsyncTask ti p s :
  light (S (reaction_size (item ti))) (handleAsyncTask_ rec ti p s).
Proof.
  unfold handleAsyncTask_.
  apply (light_weaken (S (reaction_size (item ti)) + 0)); [lia |].
  apply light_bind;
    [apply (light_register {| on := p; owner := ti; session := s |}) |].
  intros _. destruct (negb _); [apply rec_light | apply light_ret].
Qed.

Lemma light_sync_catch ti s e :
  light (size_opt (catch (item ti))) (sync_catch_ rec ti s e).
Proof.
  unfold sync_catch_.
  apply (light_weaken (0 + size_opt (catch (item ti)))); [lia |].
  apply light_bind; [apply light_get |]. intros m.
  destruct (decide _).
  - apply light_callback. apply light_emit.
  - eapply light_weaken; [| apply light_ret]. lia.
Qed.

Lemma light_sync_finally ti s b : light 0 (sync_finally_ rec ti s b).
Proof.
  unfold sync_finally_. apply (light_bind 0 0); [apply light_get |]. intros m.
  destruct (_ && _); [| apply light_ret].
  apply (light_bind 0 0); [apply light_modify; intros; simpl; lia |].
  intros _. apply rec_light.
Qed.

Lemma light_sync_resolve ti s v :
  light (size_opt (resolve (item ti))) (sync_resolve_ rec ti s v).
Proof.
  unfold sync_resolve_.
  apply (light_weaken (0 + size_opt (resolve (item ti)))); [lia |].
  apply light_bind; [apply light_get |]. intros m.
  destruct (decide _).
  - apply light_callback. apply light_ret.
  - eapply light_weaken; [| apply light_ret]. lia.
Qed.

Lemma light_try_catch_finally cp ch cf protected handler finally :
  light cp protected -> (forall e, light ch (handler e)) -> light cf finally ->
  light (cp + ch + cf) (try_catch_finally protected handler finally).
Proof.
  intros Hp Hh Hf w. unfold try_catch_finally.
  pose proof (Hp w) as H1.
  destruct (protected w) as [[] w1 | e w1 |]; simpl in H1; [| | exact I].
  - pose proof (Hf w1) as H2.
    eapply lands_mono; [exact H2 |]. simpl. intros. lia.
  - pose proof (Hh e w1) as H2.
    destruct (handler e w1) as [[] w2 | e2 w2 |]; simpl in H2; [| | exact I].
    + pose proof (Hf w2) as H3.
      eapply lands_mono; [exact H3 |]. simpl. intros. lia.
    + pose proof (Hf w2) as H3.
      destruct (finally w2) as [[] w3 | e3 w3 |]; simpl in *; lia.
Qed.

Lemma light_handleFunctionTask ti :
  light (size_task (item ti)) (handleFunctionTask_ rec ti).
Proof.
  intros w. unfold handleFunctionTask_, bind at 1, get.
  assert (Hcall : light (size_code (task (item ti)))
                    (emit (EvTask (id ti)) ;;; call_ rec (task (item ti)))).
  { apply (light_bind 0); [apply light_emit | intros; apply light_call]. }
  assert (Hr : reaction_size (item ti)
               = size_opt (resolve (item ti)) + size_opt (reject (item ti))
                 + 2 * size_opt (catch (item ti))) by reflexivity.
  rewrite size_task_eq. unfold task_cost.
  pose proof (Hcall w) as H1.
  destruct ((emit (EvTask (id ti)) ;;; call_ rec (task (item ti))) w)
    as [v w1 | e w1 |]; simpl in H1; [| | exact I].
  - destruct v as [s | p].
    + eapply lands_mono.
      * apply (light_try_catch_finally _ _ _ _ _ _
                 (light_sync_resolve ti _ _)
                 (light_sync_catch ti _)
                 (light_sync_finally ti _ _)).
      * simpl. intros. lia.
    + eapply lands_mono.
      * apply (light_try_catch_finally _ _ _ _ _ _
                 (light_handleAsyncTask ti _ _)
                 (light_sync_catch ti _)
                 (light_sync_finally ti _ _)).
      * simpl. intros. lia.
  - eapply lands_mono.
    + apply (light_try_catch_finally 0 _ _ _ _ _
               (light_throw _)
               (light_sync_catch ti _)
               (light_sync_finally ti _ _)).
    + simpl. intros. lia.
Qed.

Lemma light_step_body : light 0 (step_body rec).
Proof.
  intros w. unfold step_body, bind at 1, get.
  destruct (_tasks (mgr w)) as [| ti q] eqn:Hq.
  - unfold weight, potential. simpl. rewrite Hq. unfold queue_size. simpl. lia.
  - set (w1 := {| mgr := set_tasks q (mgr w); reactions := reactions w;
                  trace := trace w |}).
    assert (Hw1 : weight w1 + size_task (item ti) = weight w).
    { unfold weight, potential. simpl. rewrite Hq. unfold queue_size. simpl.
      lia. }
    assert (Hrest : light (size_task (item ti))
              (canceled <- checkAndClearCanceled (id ti) ;;
               if (canceled : bool) then rec
               else
                 modify (fun m =>
                   set_runningTasks (<[ id ti := ti ]> (_runningTasks m)) m) ;;;
                 handleFunctionTask_ rec ti)).
    { apply (light_weaken (0 + size_task (item ti))); [lia |].
      apply light_bind; [apply light_checkAndClearCanceled |].
      intros [|].
      - eapply light_weaken; [| apply rec_light]. lia.
      - apply (light_bind 0); [apply light_modify; intros; simpl; lia |].
        intros _. apply light_handleFunctionTask. }
    unfold bind at 1. unfold modify at 1. fold w1.
    eapply lands_mono; [apply (Hrest w1) |].
    simpl. intros. lia.
Qed.

Lemma light_after_callback (ti : TaskInfo) (m : M unit) c :
  light c m ->
  light c (m ;;; if shouldWait (item ti) then rec else ret tt).
Proof.
  intros Hm. apply (light_weaken (c + 0)); [lia |].
  apply light_bind; [exact Hm |]. intros _.
  destruct (shouldWait _); [apply rec_light | apply light_ret].
Qed.

Lemma light_onFulfilled r v :
  light (size_opt (resolve (item (owner r)))) (onFulfilled_ rec r v).
Proof.
  unfold onFulfilled_.
  apply (light_weaken (0 + (0 + (0 + size_opt (resolve (item (owner r)))))));
    [lia |].
  apply light_bind; [apply light_get |]. intros m.
  destruct (decide _).
  { eapply light_weaken; [| apply light_ret]. lia. }
  apply light_bind; [apply light_modify; intros; simpl; lia |]. intros _.
  apply light_bind; [apply light_checkAndClearCanceled |]. intros canceled.
  apply light_after_callback. destruct canceled.
  - eapply light_weaken; [| apply light_ret]. lia.
  - apply light_callback. apply light_ret.
Qed.

Lemma light_onRejected r v :
  light (size_opt (reject (item (owner r)))
         + size_opt (catch (item (owner r))))
    (onRejected_ rec r v).
Proof.
  unfold onRejected_.
  set (c := size_opt (reject (item (owner r)))
            + size_opt (catch (item (owner r)))).
  apply (light_weaken (0 + (0 + (0 + c)))); [lia |].
  apply light_bind; [apply light_get |]. intros m.
  destruct (decide _).
  { eapply light_weaken; [| apply light_ret]. lia. }
  apply light_bind; [apply light_modify; intros; simpl; lia |]. intros _.
  apply light_bind; [apply light_checkAndClearCanceled |]. intros canceled.
  apply light_after_callback. destruct canceled.
  { eapply light_weaken; [| apply light_ret]. lia. }
  unfold c. destruct (reject (item (owner r))) as [f |].
  - eapply light_weaken;
      [| apply (light_callback _ (Some f) (ret tt)), light_ret].
    lia.
  - simpl. apply light_callback. apply light_emit.
Qed.

Lemma light_onTail r v :
  light (size_opt (catch (item (owner r)))) (onTail_ rec r v).
Proof.
  unfold onTail_.
  apply (light_weaken (0 + (0 + size_opt (catch (item (owner r))))));
    [lia |].
  apply light_bind; [apply light_get |]. intros m.
  destruct (decide _).
  { eapply light_weaken; [| apply light_ret]. lia. }
  apply light_bind; [apply light_modify; intros; simpl; lia |]. intros _.
  apply light_after_callback.
  apply light_callback. apply light_emit.
Qed.

End Weight.

Lemma step_light (n : nat) : light 0 (_step n).
Proof.
  induction n as [| n IH]; [by intros w |].
  simpl. by apply light_step_body.
Qed.

(** *** Termination of the continuations and of the host *)

Section ContinuationsTerminate.

Variable n : nat.
Variable rec : M unit.
Hypothesis rec_total :
  forall w, potential w < n ->
    lands False (rec w) (fun w' => potential w' <= potential w).

Lemma tot_after_callback (ti : TaskInfo) (m : M unit) c :
  tot n c m ->
  tot n c (m ;;; if shouldWait (item ti) then rec else ret tt).
Proof.
  intros Hm. apply (tot_weaken n (c + 0)); [lia |].
  apply tot_bind; [exact Hm |]. intros _.
  destruct (shouldWait _); [by apply tot_rec | apply tot_ret].
Qed.

Lemma tot_onFulfilled r v :
  tot n (size_opt (resolve (item (owner r)))) (onFulfilled_ rec r v).
Proof.
  unfold onFulfilled_.
  apply (tot_weaken n (0 + (0 + (0 + size_opt (resolve (item (owner r)))))));
    [lia |].
  apply tot_bind; [apply tot_get |]. intros m.
  destruct (decide _).
  { eapply tot_weaken; [| apply tot_ret]. lia. }
  apply tot_bind; [apply tot_modify; intros; simpl; lia |]. intros _.
  apply tot_bind; [apply tot_checkAndClearCanceled |]. intros canceled.
  apply tot_after_callback. destruct canceled.
  - eapply tot_weaken; [| apply tot_ret]. lia.
  - apply tot_callback; [exact rec_total | apply tot_ret].
Qed.

Lemma tot_onRejected r v :
  tot n (size_opt (reject (item (owner r)))
         + size_opt (catch (item (owner r))))
    (onRejected_ rec r v).
Proof.
  unfold onRejected_.
  set (c := size_opt (reject (item (owner r)))
            + size_opt (catch (item (owner r)))).
  apply (tot_weaken n (0 + (0 + (0 + c)))); [lia |].
  apply tot_bind; [apply tot_get |]. intros m.
  destruct (decide _).
  { eapply tot_weaken; [| apply tot_ret]. lia. }
  apply tot_bind; [apply tot_modify; intros; simpl; lia |]. intros _.
  apply tot_bind; [apply tot_checkAndClearCanceled |]. intros canceled.
  apply tot_after_callback. destruct canceled.
  { eapply tot_weaken; [| apply tot_ret]. lia. }
  unfold c. destruct (reject (item (owner r))) as [f |].
  - eapply tot_weaken;
      [| apply (tot_callback n rec rec_total _ (Some f) (ret tt)), tot_ret].
    lia.
  - simpl. apply tot_callback; [exact rec_total | apply tot_emit].
Qed.

Lemma tot_onTail r v :
  tot n (size_opt (catch (item (owner r)))) (onTail_ rec r v).
Proof.
  unfold onTail_.
  apply (tot_weaken n (0 + (0 + size_opt (catch (item (owner r))))));
    [lia |].
  apply tot_bind; [apply tot_get |]. intros m.
  destruct (decide _).
  { eapply tot_weaken; [| apply tot_ret]. lia. }
  apply tot_bind; [apply tot_modify; intros; simpl; lia |]. intros _.
  apply tot_after_callback.
  apply tot_callback; [exact rec_total | apply tot_emit].
Qed.

Lemma tot_try_catch {A} c1 c2 (m : M A) handler :
  tot n c1 m -> (forall e, tot n c2 (handler e)) ->
  tot n (c1 + c2) (try_catch m handler).
Proof.
  intros Hm Hh w Hw. unfold try_catch.
  pose proof (Hm w ltac:(lia)) as H1.
  destruct (m w) as [a w1 | e w1 |]; simpl in *; [lia | | done].
  eapply lands_mono; [apply Hh; lia |]. cbv beta. intros. lia.
Qed.

Lemma tot_host {A} c (m : M A) : tot n c m -> tot n c (host m).
Proof.
  intros Hm w Hw. unfold host. pose proof (Hm w Hw) as H1.
  destruct (m w) as [a w1 | e w1 |]; simpl in *; auto.
Qed.

End ContinuationsTerminate.

(** *** Termination of the event loop *)

Lemma jobs_cost_app q1 q2 : jobs_cost (q1 ++ q2) = jobs_cost q1 + jobs_cost q2.
Proof. unfold jobs_cost. by rewrite map_app, list_sum_app. Qed.

Lemma jobs_count_app q1 q2 :
  jobs_count (q1 ++ q2) = jobs_count q1 + jobs_count q2.
Proof. unfold jobs_count. by rewrite map_app, list_sum_app. Qed.

(** [flush] moves reactions from the world to the queue. *)
Lemma flush_moves st (rs : list Reaction) :
  reactions_size (filter (fun r => st !! on r = None) rs)
  + jobs_cost (flat_map (ready st) rs) = reactions_size rs /\
  2 * length (filter (fun r => st !! on r = None) rs)
  + jobs_count (flat_map (ready st) rs) = 2 * length rs.
Proof.
  induction rs as [| r rest [IH1 IH2]]; [done |].
  rewrite filter_cons. cbn [flat_map].
  rewrite jobs_cost_app, jobs_count_app. unfold ready at 1 3.
  change (reactions_size (r :: rest))
    with (reaction_size (item (owner r)) + reactions_size rest).
  destruct (st !! on r) as [s |] eqn:Hs.
  - rewrite decide_False by done. unfold jobs_cost at 1, jobs_count at 1.
    simpl. lia.
  - rewrite decide_True by done.
    change (reactions_size (r :: filter (fun r => st !! on r = None) rest))
      with (reaction_size (item (owner r))
            + reactions_size (filter (fun r => st !! on r = None) rest)).
    unfold jobs_cost at 1, jobs_count at 1. simpl. lia.
Qed.

Lemma flush_spec st w :
  exists new w',
    flush st w = Done new w' /\
    potential w' + jobs_cost new = potential w /\
    backlog w' new = 2 * weight w /\
    mgr w' = mgr w /\ trace w' = trace w.
Proof.
  eexists _, _. split; [reflexivity |].
  destruct (flush_moves st (reactions w)) as [H1 H2].
  unfold backlog, weight, potential. simpl. repeat split; lia.
Qed.

(** What running one job costs; a job never throws. *)
Lemma attempt_total {A} n c (m : M A) w :
  tot n c m -> light c m -> potential w + c < n ->
  spec False (attempt m w)
    (fun _ w' => potential w' <= potential w + c /\ weight w' <= weight w + c)
    (fun _ => False).
Proof.
  intros Ht Hl Hn. unfold attempt.
  pose proof (Ht w Hn) as H1. pose proof (Hl w) as H2.
  by destruct (m w).
Qed.

Lemma run_job_total n j w :
  let c := job_cost j - jobs_cost (chained j (Threw (Plain ""))) in
  potential w + c < n ->
  spec False (run_job n j w)
    (fun _ w' => potential w' <= potential w + c /\ weight w' <= weight w + c)
    (fun _ => False).
Proof.
  intros c Hn. subst c.
  destruct j as [r s | r e]; cbn [run_job];
    apply (attempt_total n); try exact Hn; unfold jobs_cost; simpl;
    unfold continuation, reaction_size.
  - destruct s.
    + eapply tot_weaken; [| apply tot_onFulfilled, step_total]. lia.
    + eapply tot_weaken; [| apply tot_onRejected, step_total]. lia.
  - destruct s.
    + eapply light_weaken; [| apply light_onFulfilled, step_light]. lia.
    + eapply light_weaken; [| apply light_onRejected, step_light]. lia.
  - eapply tot_weaken; [| apply tot_onTail, step_total]. lia.
  - eapply light_weaken; [| apply light_onTail, step_light]. lia.
Qed.

Lemma chained_cost j c :
  jobs_cost (chained j c) <= jobs_cost (chained j (Threw (Plain ""))) /\
  jobs_cost (chained j (Threw (Plain ""))) <= job_cost j /\
  jobs_count (chained j c) < job_count j.
Proof.
  destruct j as [r s | r e], c as [| e']; unfold jobs_cost, jobs_count;
    simpl; unfold reaction_size; lia.
Qed.

Lemma report_total es w :
  exists w', report es w = Done tt w' /\ mgr w' = mgr w /\
             reactions w' = reactions w /\
             trace w' = trace w ++ map EvUncaught es.
Proof.
  revert w. induction es as [| e rest IH]; intros w; simpl.
  - exists w. by rewrite app_nil_r.
  - unfold bind, emit.
    destruct (IH {| mgr := mgr w; reactions := reactions w;
                    trace := trace w ++ [EvUncaught e] |})
      as (w' & H1 & H2 & H3 & H4).
    exists w'. split; [exact H1 |]. split; [exact H2 |]. split; [exact H3 |].
    rewrite H4. simpl. by rewrite <- app_assoc.
Qed.

(** The loop runs the queue empty when the bounds are above the work at
    hand; it never throws. *)
Lemma drain_total k n st :
  forall q es w,
    potential w + jobs_cost q < n ->
    backlog w q <= k ->
    spec False (drain k n st q es w)
      (fun _ w' => weight w' <= weight w + jobs_cost q) (fun _ => False).
Proof.
  induction k as [| k IH]; intros q es w Hn Hk.
  - destruct q as [| j rest].
    + simpl. destruct (report_total es w) as (w' & -> & Hm & Hr & _).
      simpl. unfold weight, potential. rewrite Hm, Hr. lia.
    + exfalso. unfold backlog, jobs_count in Hk. simpl in Hk.
      destruct j; simpl in Hk; lia.
  - destruct q as [| j rest].
    + simpl. destruct (report_total es w) as (w' & -> & Hm & Hr & _).
      simpl. unfold weight, potential. rewrite Hm, Hr. lia.
    + cbn [drain]. unfold bind at 1.
      change (jobs_cost (j :: rest)) with (job_cost j + jobs_cost rest) in *.
      assert (Hk' : job_count j + jobs_count rest
                    + 2 * (weight w + (job_cost j + jobs_cost rest)) <= S k)
        by exact Hk.
      set (c0 := job_cost j - jobs_cost (chained j (Threw (Plain "")))).
      pose proof (run_job_total n j w ltac:(fold c0; lia)) as H1.
      cbv zeta in H1. fold c0 in H1.
      destruct (run_job n j w) as [c w1 | e w1 |]; simpl in H1;
        [| done | done].
      destruct H1 as [H1 H2]. unfold bind at 1.
      destruct (flush_spec st w1) as (new & w2 & -> & Hp2 & Hb2 & _).
      destruct (chained_cost j c) as (Hc1 & Hc2 & Hc3).
      eapply spec_mono.
      * apply IH.
        -- rewrite !jobs_cost_app. lia.
        -- unfold backlog in *. rewrite !jobs_cost_app, !jobs_count_app. lia.
      * cbv beta. intros _ w' H. unfold backlog in *.
        rewrite !jobs_cost_app in H. lia.
      * done.
Qed.

Lemma perform_total n st i w :
  potential w + input_size i < n ->
  spec False (perform n st i w)
    (fun _ w' => weight w' <= weight w + input_size i) (fun _ => False).
Proof.
  intros Hn. destruct i as [t | j | | p s]; cbn [perform input_size] in *.
  - unfold bind, host, addTask.
    pose proof (tot_addTask n (_step n) (step_total n) t w Hn) as H1.
    pose proof (light_addTask (_step n) (step_light n) t w) as H2.
    destruct (addTask_ (_step n) t w) as [i w1 | e w1 |]; simpl in *;
      [done | | done].
    unfold weight, potential in *. simpl. lia.
  - unfold bind. pose proof (light_cancelTask j w) as H. simpl in *. lia.
  - unfold bind. pose proof (light_clear w) as H. simpl in *. lia.
  - simpl. lia.
Qed.

Lemma weight_potential w : potential w <= weight w.
Proof. unfold weight. lia. Qed.

Lemma calls_total n ins :
  forall st q w,
    backlog w q + 2 * inputs_size ins < n ->
    spec False (calls n st q ins w)
      (fun x w' => backlog w' (snd x) <= backlog w q + 2 * inputs_size ins)
      (fun _ => False).
Proof.
  induction ins as [| i rest IH]; intros st q w Hn.
  - simpl. lia.
  - change (inputs_size (i :: rest)) with (input_size i + inputs_size rest)
      in *.
    cbn [calls]. unfold bind at 1.
    pose proof (weight_potential w) as Hwp.
    pose proof (perform_total n st i w
                  ltac:(unfold backlog in Hn; lia)) as H1.
    destruct (perform n st i w) as [st' w1 | e w1 |]; simpl in H1;
      [| done | done].
    unfold bind at 1.
    destruct (flush_spec st' w1) as (new & w2 & -> & Hp2 & Hb2 & _).
    eapply spec_mono.
    + apply IH. unfold backlog in *.
      rewrite jobs_cost_app, jobs_count_app. lia.
    + cbv beta. intros x w' H. unfold backlog in *.
      rewrite jobs_cost_app, jobs_count_app in H. lia.
    + done.
Qed.

Lemma turn_total n st ins w :
  2 * (weight w + inputs_size ins) < n ->
  spec False (turn n st ins w)
    (fun _ w' => weight w' <= weight w + inputs_size ins) (fun _ => False).
Proof.
  intros Hn. unfold turn, bind at 1.
  pose proof (calls_total n ins st [] w) as H1.
  assert (Hb : backlog w [] = 2 * weight w)
    by (unfold backlog, jobs_count, jobs_cost; simpl; lia).
  rewrite Hb in H1. specialize (H1 ltac:(lia)).
  destruct (calls n st [] ins w) as [[st' q] w1 | e w1 |]; simpl in H1;
    [| done | done].
  unfold bind at 1. simpl fst. simpl snd.
  pose proof (weight_potential w1) as Hwp.
  pose proof (drain_total n n st' q [] w1
                ltac:(unfold backlog in H1; lia) ltac:(lia)) as H2.
  destruct (drain n n st' q [] w1) as [[] w2 | e w2 |]; simpl in H2;
    [| done | done].
  simpl. unfold backlog in H1. lia.
Qed.

Lemma turns_total n ts :
  forall st w,
    2 * (weight w + turns_size ts) < n ->
    spec False (turns n st ts w)
      (fun _ w' => weight w' <= weight w + turns_size ts) (fun _ => False).
Proof.
  induction ts as [| t rest IH]; intros st w Hn.
  - simpl. lia.
  - assert (Hsize : turns_size (t :: rest)
                    = inputs_size t + turns_size rest).
    { unfold turns_size, inputs_size. simpl.
      by rewrite map_app, list_sum_app. }
    rewrite Hsize in *. cbn [turns]. unfold bind at 1.
    pose proof (turn_total n st t w ltac:(lia)) as H1.
    destruct (turn n st t w) as [st' w1 | e w1 |]; simpl in H1;
      [| done | done].
    eapply spec_mono; [apply IH; lia | | done].
    cbv beta. intros. lia.
Qed.

Lemma turns_size_singletons ins :
  turns_size (map (fun i => [i]) ins) = inputs_size ins.
Proof.
  unfold turns_size. induction ins as [| i rest IH]; [done |].
  simpl. unfold inputs_size in *. simpl. by rewrite IH.
Qed.

Lemma run_total n ins w :
  2 * (weight w + inputs_size ins) < n ->
  exists w', run n ins w = Done tt w' /\
             weight w' <= weight w + inputs_size ins.
Proof.
  intros Hn. unfold run, bind.
  pose proof (turns_total n (map (fun i => [i]) ins) ∅ w) as H.
  rewrite turns_size_singletons in H. specialize (H Hn).
  destruct (turns n ∅ (map (fun i => [i]) ins) w) as [st w' | e w' |];
    [| done | done].
  exists w'. by split.
Qed.

(** X1.  However the host groups its calls of [addTask], [cancelTask]
    and [clear()] and the settlements of promises into turns of the event
    loop, every turn runs to its end: each call returns or throws, each
    promise job completes, and the job queue runs empty, under a bound
    above twice the size of the submitted client code.  The host of the
    model goes on after an exception that escapes [addTask] and after a
    rejection that no handler takes, and records them in the trace
    ([EvUncaught]); the call of [addTask] itself completes either way:
    after the run it returns an identifier or throws, for every work
    item. *)
Theorem run_terminates (n : nat) (ts : list (list input)) :
  2 * turns_size ts < n ->
  exists st w,
    turns n ∅ ts fresh = Done st w /\
    weight w <= turns_size ts /\
    forall t, 2 * turns_size ts + size_task t < n -> finished (addTask n t w).
Proof.
  intros Hn. pose proof (turns_total n ts ∅ fresh) as H.
  specialize (H ltac:(unfold weight, potential, queue_size, reactions_size;
                      simpl; lia)).
  destruct (turns n ∅ ts fresh) as [st w | e w |]; [| done | done].
  exists st, w. split; [done |]. simpl in H.
  unfold weight, potential, queue_size, reactions_size in H. simpl in H.
  split; [exact H |]. intros t Ht.
  pose proof (weight_potential w) as Hw.
  assert (Hp : potential w + size_task t < n).
  { unfold weight, potential, queue_size, reactions_size in *. lia. }
  pose proof (tot_addTask n (_step n) (step_total n) t w Hp) as H1.
  unfold addTask. by destruct (addTask_ (_step n) t w).
Qed.

(** *** The order of the promise jobs *)

(** Two promises are rejected in the same turn.  The rejection
    continuations run first, in the order of registration; the exception
    each failure callback throws rejects the promise returned by [then],
    and the trailing handlers run after both continuations. *)
Example trailing_handlers_run_after_the_continuations :
  exists st w,
    turns 5 ∅ [[Submit (detached_rejecting "a" 1%Z);
                Submit (detached_rejecting "b" 2%Z)];
               [Settle 1%Z (RejectWith (Plain "ra"));
                Settle 2%Z (RejectWith (Plain "rb"))]] fresh = Done st w /\
    trace w = [EvTask 1; EvTask 2;
               EvReject 1 (Plain "ra"); EvReject 2 (Plain "rb");
               EvCatch STail 1 (Plain "reject failed");
               EvCatch STail 2 (Plain "reject failed")]%Z.
Proof. eexists _, _. split; [vm_compute; reflexivity | reflexivity]. Qed.

(** A continuation registered on a promise that has settled already runs
    in the turn of its registration, after the synchronous code. *)
Example settled_promise_is_served_in_the_same_turn :
  exists st w,
    turns 5 ∅ [[Settle 1%Z (Fulfill (Plain "v"))];
               [Submit (async_item "a" 1%Z); Submit (sync_item "b" "rb")]]
      fresh = Done st w /\
    trace w = [EvTask 1; EvResolve SFulfilled 1 (Plain "v");
               EvTask 2; EvResolve SSync 2 (Plain "rb")]%Z.
Proof. eexists _, _. split; [vm_compute; reflexivity | reflexivity]. Qed.

(** An exception that escapes [addTask] is the caller's: the call throws,
    and the host of a run records it. *)
Example addTask_throws_to_its_caller :
  (exists w, addTask 3 thrower fresh = Raised (Plain "handler failed") w) /\
  observe 3 [Submit thrower]
  = Some [EvTask 1; EvCatch SSync 1 (Plain "boom");
          EvUncaught (Plain "handler failed")]%Z.
Proof. split; [eexists; vm_compute; reflexivity | vm_compute; reflexivity]. Qed.

(** ** Scenarios of the test suite

    The scenarios of the unit tests of the repository, with the outcomes
    the tests expect. *)

(** Two synchronous items: each completion callback runs before the next
    callable. *)
Example test1_basicSync :
  observe 2 [Submit (sync_item "sync 1" "result1");
             Submit (sync_item "sync 2" "result2")]
  = Some [EvTask 1; EvResolve SSync 1 (Plain "result1");
          EvTask 2; EvResolve SSync 2 (Plain "result2")]%Z.
Proof. vm_compute. reflexivity. Qed.

(** Two deferred items: the second waits for the first. *)
Example test2_basicAsync :
  observe 3 [Submit (async_item "async 1" 1%Z);
             Submit (async_item "async 2" 2%Z);
             Settle 1%Z (Fulfill (Plain "result1"));
             Settle 2%Z (Fulfill (Plain "result2"))]
  = Some [EvTask 1; EvResolve SFulfilled 1 (Plain "result1");
          EvTask 2; EvResolve SFulfilled 2 (Plain "result2")]%Z.
Proof. vm_compute. reflexivity. Qed.

(** A synchronous error goes to the generic-error callback and the next
    item runs. *)
Example test3_syncErrorWithCatch :
  observe 3 [Submit (caught_item "failing"); Submit (sync_item "next" "r")]
  = Some [EvTask 1; EvCatch SSync 1 (Plain "expected");
          EvTask 2; EvResolve SSync 2 (Plain "r")]%Z.
Proof. vm_compute. reflexivity. Qed.

(** A synchronous error without handler is logged and the next item
    runs. *)
Example test4_syncErrorWithoutCatch :
  observe 3 [Submit failing_item; Submit (sync_item "next" "r")]
  = Some [EvTask 1; EvError SSync "failing" (Plain "boom");
          EvTask 2; EvResolve SSync 2 (Plain "r")]%Z.
Proof. vm_compute. reflexivity. Qed.

(** A rejection goes to the failure callback and the next item runs. *)
Example test5_asyncErrorWithReject :
  observe 3 [Submit (rejectable_item "async" 1%Z);
             Submit (sync_item "next" "r");
             Settle 1%Z (RejectWith (Plain "reason"))]
  = Some [EvTask 1; EvReject 1 (Plain "reason");
          EvTask 2; EvResolve SSync 2 (Plain "r")]%Z.
Proof. vm_compute. reflexivity. Qed.

(** Without a failure callback, a rejection goes to the generic-error
    callback. *)
Example test6_asyncErrorWithCatch :
  observe 3 [Submit (waiting_item "async" 1%Z);
             Submit (sync_item "next" "r");
             Settle 1%Z (RejectWith (Plain "error"))]
  = Some [EvTask 1; EvCatch SRejected 1 (Plain "error");
          EvTask 2; EvResolve SSync 2 (Plain "r")]%Z.
Proof. vm_compute. reflexivity. Qed.

(** Without any error callback, a rejection is logged. *)
Example test7_asyncErrorWithoutHandlers :
  observe 3 [Submit (async_item "async" 1%Z);
             Submit (sync_item "next" "r");
             Settle 1%Z (RejectWith (Plain "unhandled"))]
  = Some [EvTask 1; EvError SRejected "async" (Plain "unhandled");
          EvTask 2; EvResolve SSync 2 (Plain "r")]%Z.
Proof. vm_compute. reflexivity. Qed.

(** Pending items that are cancelled never run. *)
Example test8_cancelTask :
  observe 4 [Submit (async_item "blocking" 1%Z);
             Submit (sync_item "task1" "r1"); Submit (sync_item "task2" "r2");
             Submit (sync_item "task3" "r3");
             Cancel 2%Z; Cancel 4%Z;
             Settle 1%Z (Fulfill (Plain "done"))]
  = Some [EvTask 1; EvResolve SFulfilled 1 (Plain "done");
          EvTask 3; EvResolve SSync 3 (Plain "r2")]%Z.
Proof. vm_compute. reflexivity. Qed.

(** A dispatched item that is cancelled does not get its completion
    callback. *)
Example test9_cancelRunningAsyncTask :
  observe 2 [Submit (async_item "async" 1%Z); Cancel 1%Z;
             Settle 1%Z (Fulfill (Plain "result1"))]
  = Some [EvTask 1%Z].
Proof. vm_compute. reflexivity. Qed.

(** Fire-and-forget items do not hold back the queue and complete in the
    order of their settlements. *)
Example test10_noWaitAsync :
  observe 4 [Submit (detached_item "async 1" 1%Z);
             Submit (detached_item "async 2" 2%Z);
             Submit (sync_item "sync 3" "r3");
             Settle 2%Z (Fulfill (Plain "result2"));
             Settle 1%Z (Fulfill (Plain "result1"))]
  = Some [EvTask 1; EvTask 2; EvTask 3; EvResolve SSync 3 (Plain "r3");
          EvResolve SFulfilled 2 (Plain "result2");
          EvResolve SFulfilled 1 (Plain "result1")]%Z.
Proof. vm_compute. reflexivity. Qed.

(** After [clear()] nothing of the old queue runs. *)
Example test11_clearTasks :
  observe 3 [Submit (async_item "blocking" 1%Z);
             Submit (sync_item "task1" "r1"); Submit (sync_item "task2" "r2");
             Clear; Settle 1%Z (Fulfill (Plain "done"))]
  = Some [EvTask 1%Z].
Proof. vm_compute. reflexivity. Qed.

(** Synchronous, wait-mode and fire-and-forget items in one queue. *)
Example test12_mixedTasks :
  observe 6 [Submit (sync_item "sync 1" "r1");
             Submit (async_item "async 2" 2%Z);
             Submit (sync_item "sync 3" "r3");
             Submit (detached_item "async 4" 4%Z);
             Submit (sync_item "sync 5" "r5");
             Settle 2%Z (Fulfill (Plain "done"));
             Settle 4%Z (Fulfill (Plain "done"))]
  = Some [EvTask 1; EvResolve SSync 1 (Plain "r1");
          EvTask 2; EvResolve SFulfilled 2 (Plain "done");
          EvTask 3; EvResolve SSync 3 (Plain "r3");
          EvTask 4;
          EvTask 5; EvResolve SSync 5 (Plain "r5");
          EvResolve SFulfilled 4 (Plain "done")]%Z.
Proof. vm_compute. reflexivity. Qed.

(** With a failure and a generic-error callback, a rejection goes to the
    failure callback only. *)
Example test15_rejectAndCatchBoth :
  observe 2 [Submit (guarded_item "both" 1%Z);
             Settle 1%Z (RejectWith (Plain "error"))]
  = Some [EvTask 1; EvReject 1 (Plain "error")]%Z.
Proof. vm_compute. reflexivity. Qed.

(** * The specification, claim by claim *)

(** ** Liveness query *)

(** The three tests of [isTaskAlive], in their order: the cancellation
    set, the running set, the pending entries. *)
Lemma isTaskAlive_cases (i : Z) (m : TaskMgr) :
  (i ∈ _taskCancelSet m -> isTaskAlive i m = false) /\
  (i ∉ _taskCancelSet m -> is_Some (_runningTasks m !! i) ->
   isTaskAlive i m = true) /\
  (i ∉ _taskCancelSet m -> (exists ti, In ti (_tasks m) /\ id ti = i) ->
   isTaskAlive i m = true) /\
  (i ∉ _taskCancelSet m -> _runningTasks m !! i = None ->
   (forall ti, In ti (_tasks m) -> id ti <> i) ->
   isTaskAlive i m = false).
Proof.
  unfold isTaskAlive. repeat split.
  - intros Hc. by rewrite decide_True.
  - intros Hc Hr. rewrite decide_False by done. by rewrite decide_True.
  - intros Hc (ti & Hin & Hid). rewrite decide_False by done.
    destruct (decide _); [done |].
    apply existsb_exists. exists ti. split; [done |]. by apply Z.eqb_eq.
  - intros Hc Hr Hq. rewrite decide_False by done.
    rewrite decide_False by (rewrite Hr; by intros [? ?]).
    apply not_true_is_false. intros H.
    apply existsb_exists in H as (ti & Hin & Heq).
    apply Z.eqb_eq in Heq. by eapply Hq.
Qed.

(** ** Identifiers *)

(** The 32-bit operators, arithmetically. *)
Lemma task_id_formula (m : TaskMgr) :
  task_id m
  = ((_nextId m * 2 ^ (_sessionId m mod 32)) mod 2 ^ 32)%Z.
Proof.
  unfold task_id, js_ushr, js_shl, ToUint32, ToInt32.
  change (Z.land (0 mod 2 ^ 32) 31) with 0%Z. rewrite Z.shiftr_0_r.
  assert (Hmask : Z.land (_sessionId m mod 2 ^ 32) 31
                  = (_sessionId m mod 32)%Z).
  { change 31%Z with (Z.ones 5). rewrite Z.land_ones by lia.
    change (2 ^ 5)%Z with 32%Z.
    apply Z.mod_mod_divide. exists (2 ^ 27)%Z. reflexivity. }
  rewrite Hmask.
  assert (Hk : (0 <= _sessionId m mod 32 < 32)%Z) by (apply Z.mod_pos_bound; lia).
  set (k := (_sessionId m mod 32)%Z) in *.
  rewrite Z.shiftl_mul_pow2 by lia.
  assert (Hto : forall z, ((if (z mod 2 ^ 32 <? 2 ^ 31)%Z
                            then z mod 2 ^ 32
                            else z mod 2 ^ 32 - 2 ^ 32) mod 2 ^ 32
                           = z mod 2 ^ 32)%Z).
  { intros z. destruct (_ <? _)%Z.
    - by rewrite Z.mod_mod by lia.
    - rewrite <- (Z.mod_add _ 1) by lia.
      replace (z mod 2 ^ 32 - 2 ^ 32 + 1 * 2 ^ 32)%Z with (z mod 2 ^ 32)%Z
        by lia.
      by rewrite Z.mod_mod by lia. }
  rewrite Hto.
  rewrite <- Z.mul_mod_idemp_l by lia. rewrite Hto.
  by rewrite Z.mul_mod_idemp_l by lia.
Qed.

(** In the first epoch the identifiers are the successive values of the
    counter, as long as it fits in 32 bits. *)
Lemma task_id_first_epoch (m : TaskMgr) :
  _sessionId m = 0%Z -> (0 <= _nextId m < 2 ^ 32)%Z ->
  task_id m = _nextId m.
Proof.
  intros Hs Hn. rewrite task_id_formula, Hs. change (0 mod 32)%Z with 0%Z.
  rewrite Z.mul_1_r. by apply Z.mod_small.
Qed.

(** C5. After 31 calls of [clear()] the shift in
    [(this._nextId++ << this._sessionId) >>> 0] keeps one bit of the
    counter: three submissions in that epoch receive the identifiers
    2147483648, 0 and 2147483648, which are neither increasing nor
    distinct. *)
Theorem identifiers_collide_after_31_clears :
  exists w, after_31_clears fresh = Done [2147483648; 0; 2147483648]%Z w.
Proof. eexists. vm_compute. reflexivity. Qed.

(** C7.  After 31 calls of [clear()] the identifiers collide (see C5).  A
    fire-and-forget entry gets the identifier 2147483648 and awaits its
    promise; the third entry submitted gets the same identifier, and when
    it completes, its identifier is deleted from the running set.
    [isTaskAlive] then answers [false] for the first entry, which is not
    cancelled and still in flight: its continuation is registered under
    the current session id, and the fulfilment of its promise invokes its
    completion callback. *)
Theorem inflight_entry_is_reported_dead :
  let ins := repeat Clear 31
             ++ [Submit (detached_item "d" 1%Z); Submit (sync_item "a" "ra");
                 Submit (sync_item "b" "rb")] in
  exists w w',
    run 3 ins fresh = Done tt w /\
    map (fun r => (id (owner r), session r)) (reactions w)
    = [(2147483648, 31)]%Z /\
    _sessionId (mgr w) = 31%Z /\
    (2147483648%Z ∉ _taskCancelSet (mgr w)) /\
    isTaskAlive 2147483648 (mgr w) = false /\
    run 3 (ins ++ [Settle 1%Z (Fulfill (Plain "v"))]) fresh = Done tt w' /\
    trace w' = trace w ++ [EvResolve SFulfilled 2147483648 (Plain "v")]%Z.
Proof.
  eexists _, _. split; [vm_compute; reflexivity |].
  split; [reflexivity |]. split; [reflexivity |].
  split; [apply not_elem_of_empty |]. split; [by vm_compute |].
  split; [vm_compute; reflexivity | reflexivity].
Qed.

(** ** The epoch guard of the synchronous path *)

(** [clear()] advances the session id. *)
Lemma runOps_clear_advances n ops w w1 :
  runOps n ops w = Done tt w1 -> In OpClear ops ->
  (_sessionId (mgr w) < _sessionId (mgr w1))%Z.
Proof.
  unfold runOps. revert w. induction ops as [| o rest IH]; intros w Hrun Hin;
    [destruct Hin |].
  simpl in Hrun. unfold bind at 1 in Hrun.
  assert (Hrest : forall w', lands True (runOps_ (_step n) rest w')
                               (extends from_settlement w')).
  { intros w'. apply (safe_runOps from_settlement everywhere);
      [apply everywhere_stable | apply step_sound | done]. }
  destruct Hin as [-> | Hin].
  - simpl in Hrun. specialize (Hrest (world_of (clear w) w)).
    simpl in Hrest. rewrite Hrun in Hrest. apply extends_session in Hrest.
    simpl in Hrest. lia.
  - assert (Hop : lands True
                    (match o with
                     | OpCancel i => cancelTask i
                     | OpClear => clear
                     | OpAdd t => addTask_ (_step n) t;;; ret tt
                     end w) (extends from_settlement w)).
    { destruct o as [i | | t].
      - by apply (safe_cancelTask from_settlement everywhere).
      - by apply (safe_clear from_settlement everywhere).
      - apply (safe_bind from_settlement everywhere);
          [apply everywhere_stable | | | done].
        + apply safe_addTask; [apply everywhere_stable | apply step_sound].
        + intros. apply safe_ret. }
    destruct (match o with
              | OpCancel i => cancelTask i
              | OpClear => clear
              | OpAdd t => addTask_ (_step n) t;;; ret tt
              end w) as [[] w' | |]; try discriminate.
    simpl in Hop. apply extends_session in Hop.
    specialize (IH w' Hrun Hin). lia.
Qed.

(** C10. When the session id has changed by the time the callable
    completes synchronously (a [clear()] ran during its execution), the
    rest of [handleFunctionTask] does nothing: no completion callback, no
    error handling, no removal from the running set, no call of [_step];
    an exception of the callable is swallowed. *)
Theorem stale_sync_completion_is_dropped
    (n : nat) (ti : TaskInfo) (w w1 : World) :
  completes_synchronously
    ((emit (EvTask (id ti)) ;;; call n (task (item ti))) w) w1 ->
  _sessionId (mgr w1) <> _sessionId (mgr w) ->
  handleFunctionTask n ti w = Done tt w1.
Proof.
  intros Hc Hs. unfold handleFunctionTask, handleFunctionTask_.
  unfold bind at 1, get. unfold call in Hc.
  destruct ((emit (EvTask (id ti)) ;;; call_ (_step n) (task (item ti))) w)
    as [[v | p] w' | e w' |]; simpl in Hc; try contradiction; subst w'.
  - unfold try_catch_finally, sync_resolve_, sync_finally_, bind, get.
    rewrite decide_False by done. unfold ret.
    rewrite bool_decide_eq_false_2 by done. reflexivity.
  - unfold try_catch_finally, throw, sync_catch_, sync_finally_, bind, get.
    rewrite decide_False by done. unfold ret.
    rewrite bool_decide_eq_false_2 by done. reflexivity.
Qed.

Lemma stale_sync_completion_witness :
  let ti := {| id := 1; item := clearing_item |} in
  let w := dispatched ti in
  let w1 := world_of ((emit (EvTask (id ti)) ;;; call 3 (task (item ti))) w) w in
  _sessionId (mgr w1) <> _sessionId (mgr w) /\
  handleFunctionTask 3 ti w = Done tt w1 /\
  trace w1 = [EvTask 1; EvTask 4]%Z /\
  map id (_tasks (mgr w1)) = [6%Z].
Proof.
  intros ti w w1.
  assert (Hs : _sessionId (mgr w1) <> _sessionId (mgr w))
    by (vm_compute; discriminate).
  split; [exact Hs |]. split; [| split; vm_compute; reflexivity].
  apply (stale_sync_completion_is_dropped 3 ti w w1); [| exact Hs].
  vm_compute. reflexivity.
Defined.

(** ** Helper lemmas on traces *)

Lemma lands_events {A} q (o : outcome A) (w d : World) :
  lands True o (extends q w) -> finished o ->
  exists evs, trace (world_of o d) = trace w ++ evs /\ List.filter q evs = [].
Proof.
  destruct o as [a w' | e w' |]; simpl; intros H Hf; try done;
    by apply extends_events.
Qed.

Lemma no_reject_event evs :
  List.filter from_settlement evs = [] ->
  forall i r, ~ In (EvReject i r) evs.
Proof.
  intros Hf i r Hin.
  assert (H : In (EvReject i r) (List.filter from_settlement evs))
    by (apply filter_In; by split).
  rewrite Hf in H. destruct H.
Qed.

Lemma handleFunctionTask_starts n ti w d :
  finished (handleFunctionTask n ti w) ->
  exists evs,
    trace (world_of (handleFunctionTask n ti w) d)
    = trace w ++ EvTask (id ti) :: evs
    /\ List.filter from_settlement evs = [].
Proof.
  intros Hf. unfold handleFunctionTask in *.
  pose proof (sound_handleFunctionTask_entered from_settlement
                (fun e H => H) (_step n) (step_sound n) ti w) as H.
  destruct (lands_events _ _ _ d H Hf) as (evs & Ht & Hq).
  exists evs. split; [| done]. rewrite Ht. simpl. by rewrite <- app_assoc.
Qed.

Lemma step_dispatches_head n w next rest :
  _tasks (mgr w) = next :: rest ->
  id next ∉ _taskCancelSet (mgr w) ->
  _step (S n) w = handleFunctionTask n next (head_dispatched next rest w).
Proof.
  intros Hq Hc. simpl. unfold step_body, bind at 1, get. rewrite Hq.
  unfold bind at 1, modify at 1.
  unfold checkAndClearCanceled, bind at 1, bind at 1, get. simpl.
  rewrite decide_False by done. reflexivity.
Qed.

(** [_step] starts the entry at the head of the queue unless it is marked
    as cancelled. *)
Lemma step_starts_head n w next rest d :
  _tasks (mgr w) = next :: rest ->
  id next ∉ _taskCancelSet (mgr w) ->
  finished (_step n w) ->
  exists evs,
    trace (world_of (_step n w) d) = trace w ++ EvTask (id next) :: evs
    /\ List.filter from_settlement evs = [].
Proof.
  intros Hq Hc Hf. destruct n as [| n]; [done |].
  rewrite (step_dispatches_head n w next rest Hq Hc) in *.
  by apply (handleFunctionTask_starts n next _ d) in Hf.
Qed.

Lemma try_catch_finally_cong (p p' : M unit) handler finally w w' :
  p w = p' w' ->
  try_catch_finally p handler finally w
  = try_catch_finally p' handler finally w'.
Proof. unfold try_catch_finally. by intros ->. Qed.

Lemma handleFunctionTask_finished n ti w :
  potential w + task_cost (item ti) < n ->
  finished (handleFunctionTask n ti w).
Proof.
  intros Hn. eapply lands_finished.
  by apply (tot_handleFunctionTask n (_step n) (step_total n) ti w).
Qed.

(** ** Synchronous completion *)

(** C6.  The callable of entry 1 requests the cancellation of entry 1
    between the pop and the completion: the completion callback is invoked
    all the same, and the mark stays in the cancellation set.  The two
    continuations of [handleAsyncTask] call [checkAndClearCanceled] before
    the callbacks; the [try] block of [handleFunctionTask] does not. *)
Theorem cancel_in_sync_window_is_ignored :
  exists w,
    run 2 [Submit self_cancelling] fresh = Done tt w /\
    trace w = [EvTask 1; EvResolve SSync 1 (Plain "v")]%Z /\
    1%Z ∈ _taskCancelSet (mgr w).
Proof.
  eexists. split; [vm_compute; reflexivity |].
  split; [reflexivity |]. by vm_compute.
Qed.

(** When the callable returns a value that is not a promise and the
    session id is unchanged, the completion callback, if supplied, is
    invoked with that value. *)
Lemma sync_value_reaches_resolve
    (n : nat) (ti : TaskInfo) (w w1 : World) (v : string) (f : code ITask) :
  potential w + task_cost (item ti) < n ->
  (emit (EvTask (id ti)) ;;; call n (task (item ti))) w = Done (Plain v) w1 ->
  _sessionId (mgr w1) = _sessionId (mgr w) ->
  resolve (item ti) = Some f ->
  finished (handleFunctionTask n ti w) /\
  exists evs,
    trace (world_of (handleFunctionTask n ti w) w)
    = trace w1 ++ EvResolve SSync (id ti) (Plain v) :: evs.
Proof.
  intros Hn Hcall Hs Hres.
  pose proof (handleFunctionTask_finished n ti w Hn) as Hf.
  split; [exact Hf |].
  set (w1' := {| mgr := mgr w1; reactions := reactions w1;
                 trace := trace w1 ++ [EvResolve SSync (id ti) (Plain v)] |}).
  assert (Heq : sync_resolve_ (_step n) ti (_sessionId (mgr w)) (Plain v) w1
                = (call_ (_step n) f ;;; ret tt) w1').
  { unfold sync_resolve_, bind at 1, get. rewrite decide_True by done.
    by rewrite Hres. }
  assert (Ho : handleFunctionTask n ti w
               = try_catch_finally (call_ (_step n) f ;;; ret tt)
                   (sync_catch_ (_step n) ti (_sessionId (mgr w)))
                   (sync_finally_ (_step n) ti (_sessionId (mgr w)) false)
                   w1').
  { unfold handleFunctionTask, handleFunctionTask_, bind at 1, get.
    unfold call in Hcall. rewrite Hcall.
    apply try_catch_finally_cong, Heq. }
  rewrite Ho in *. clear Ho.
  assert (Hsound : safe from_settlement everywhere (call_ (_step n) f ;;; ret tt)).
  { apply safe_bind; [apply everywhere_stable | | intros; apply safe_ret].
    apply safe_call; [apply everywhere_stable | apply step_sound]. }
  pose proof (sound_sync_block from_settlement (fun e H => H) (_step n)
                (step_sound n) everywhere ti (_sessionId (mgr w)) false _
                (everywhere_stable _) Hsound w1' I) as H.
  destruct (lands_events _ _ _ w H Hf) as (evs & Ht & _).
  exists evs. rewrite Ht. simpl. by rewrite <- app_assoc.
Qed.

Lemma sync_value_reaches_resolve_witness :
  let ti := {| id := 1; item := self_cancelling |} in
  let w := dispatched ti in
  let w1 := world_of ((emit (EvTask (id ti)) ;;; call 3 (task (item ti))) w) w in
  1%Z ∈ _taskCancelSet (mgr w1) /\
  finished (handleFunctionTask 3 ti w) /\
  exists evs,
    trace (world_of (handleFunctionTask 3 ti w) w)
    = trace w1 ++ EvResolve SSync 1 (Plain "v") :: evs.
Proof.
  intros ti w w1. split; [by vm_compute |].
  apply (sync_value_reaches_resolve 3 ti w w1 "v" (Code [] (Return (Plain "")))).
  - vm_compute. lia.
  - vm_compute. reflexivity.
  - reflexivity.
  - reflexivity.
Defined.

(** ** Synchronous failure *)

(** Every diagnostic quotes the description of the item. *)
Lemma diagnostic_quotes_description (s : site) (desc : string) :
  exists before after, diagnostic s desc = (before ++ desc ++ after)%string.
Proof. destruct s; simpl; eexists; eexists; reflexivity. Qed.

Lemma sync_catch_live rec ti e w1 :
  sync_catch_ rec ti (_sessionId (mgr w1)) e w1
  = match catch (item ti) with
    | Some f => (call_ rec f ;;; ret tt) (emitted (sync_report ti e) w1)
    | None => Done tt (emitted (sync_report ti e) w1)
    end.
Proof.
  unfold sync_catch_, sync_report, bind at 1, get.
  rewrite decide_True by done. by destruct (catch (item ti)).
Qed.

Lemma callback_body_sound n f :
  safe from_settlement everywhere (call_ (_step n) f ;;; ret tt).
Proof.
  apply safe_bind; [apply everywhere_stable | | intros; apply safe_ret].
  apply safe_call; [apply everywhere_stable | apply step_sound].
Qed.

Lemma sync_catch_reports n ti e w1 :
  finished (sync_catch_ (_step n) ti (_sessionId (mgr w1)) e w1) ->
  exists evs,
    trace (world_of (sync_catch_ (_step n) ti (_sessionId (mgr w1)) e w1) w1)
    = trace w1 ++ sync_report ti e :: evs.
Proof.
  rewrite sync_catch_live.
  destruct (catch (item ti)) as [f |]; [| intros _; by exists []].
  intros Hf.
  destruct (lands_events _ _ _ w1
              (callback_body_sound n f (emitted (sync_report ti e) w1) I) Hf)
    as (evs & Ht & _).
  exists evs. rewrite Ht. simpl. by rewrite <- app_assoc.
Qed.

(** C8. When the callable raises synchronously and the session id is
    unchanged, the error goes to the generic-error callback if there is
    one and to a diagnostic that quotes the description otherwise; the
    failure callback is not invoked; and, the session id still being
    unchanged after the handler, [_step] is called, so the next pending
    entry that is not cancelled is started. *)
Theorem sync_raise_is_reported_and_loop_advances
    (n : nat) (ti : TaskInfo) (w w1 : World) (e : jsval) :
  potential w + task_cost (item ti) < n ->
  (emit (EvTask (id ti)) ;;; call n (task (item ti))) w = Raised e w1 ->
  _sessionId (mgr w1) = _sessionId (mgr w) ->
  let handled := sync_catch_ (_step n) ti (_sessionId (mgr w)) e w1 in
  let w2 := world_of handled w1 in
  let o := handleFunctionTask n ti w in
  finished o /\
  (exists evs, trace w2 = trace w1 ++ sync_report ti e :: evs) /\
  (exists before after,
      diagnostic SSync (taskDesc (item ti))
      = (before ++ taskDesc (item ti) ++ after)%string) /\
  (exists evs, trace (world_of o w) = trace w ++ evs /\
               forall i r, ~ In (EvReject i r) evs) /\
  (_sessionId (mgr w2) = _sessionId (mgr w) ->
   world_of o w = world_of (_step n (running_removed (id ti) w2)) w /\
   forall next rest,
     _tasks (mgr w2) = next :: rest ->
     id next ∉ _taskCancelSet (mgr w2) ->
     exists evs, trace (world_of o w) = trace w2 ++ EvTask (id next) :: evs).
Proof.
  intros Hn Hcall Hs handled w2 o.
  pose proof (handleFunctionTask_finished n ti w Hn) as Hf. fold o in Hf.
  assert (Ho : o = try_catch_finally (throw e)
                     (sync_catch_ (_step n) ti (_sessionId (mgr w)))
                     (sync_finally_ (_step n) ti (_sessionId (mgr w)) false) w1).
  { unfold o, handleFunctionTask, handleFunctionTask_, bind at 1, get.
    unfold call in Hcall. by rewrite Hcall. }
  unfold try_catch_finally, throw in Ho. fold handled in Ho.
  assert (Hh : finished handled).
  { rewrite Ho in Hf. by destruct handled. }
  split; [exact Hf |]. split; [| split; [| split]].
  - clear Ho Hf. subst w2 handled. rewrite <- Hs in Hh |- *.
    by apply sync_catch_reports.
  - apply diagnostic_quotes_description.
  - pose proof (sound_handleFunctionTask from_settlement (fun e H => H)
                  (_step n) (step_sound n) ti w) as H.
    destruct (lands_events _ _ _ w H Hf) as (evs & Ht & Hq).
    exists evs. split; [exact Ht |]. by apply no_reject_event.
  - intros Hs2.
    assert (Hfin : sync_finally_ (_step n) ti (_sessionId (mgr w)) false w2
                   = _step n (running_removed (id ti) w2)).
    { unfold sync_finally_, bind at 1, get.
      rewrite bool_decide_eq_true_2 by done. reflexivity. }
    assert (Hw : world_of o w
                 = world_of (_step n (running_removed (id ti) w2)) w
                 /\ finished (_step n (running_removed (id ti) w2))).
    { rewrite Ho in Hf |- *. unfold w2 in *.
      destruct handled as [[] w' | e' w' |]; simpl in *; try done;
        rewrite Hfin in *;
        by destruct (_step n (running_removed (id ti) w')) as [[] ? | |]. }
    destruct Hw as [Hw Hstep]. split; [exact Hw |].
    intros next rest Hq Hc.
    destruct (step_starts_head n (running_removed (id ti) w2) next rest w
                Hq Hc Hstep) as (evs & Ht & _).
    exists evs. by rewrite Hw, Ht.
Qed.

Lemma sync_raise_witness :
  let ti := {| id := 1; item := failing_item |} in
  let w := failing_dispatched in
  let e := Plain "boom" in
  let w1 := emitted (EvTask 1) w in
  let w2 := emitted (EvError SSync "failing" e) w1 in
  potential w + task_cost (item ti) < 5 /\
  (emit (EvTask (id ti)) ;;; call 5 (task (item ti))) w = Raised e w1 /\
  finished (handleFunctionTask 5 ti w) /\
  exists evs,
    trace (world_of (handleFunctionTask 5 ti w) w)
    = trace w2 ++ EvTask 2 :: evs.
Proof.
  intros ti w e w1 w2.
  assert (Hn : potential w + task_cost (item ti) < 5) by (vm_compute; lia).
  assert (Hcall : (emit (EvTask (id ti)) ;;; call 5 (task (item ti))) w
                  = Raised e w1) by reflexivity.
  split; [exact Hn |]. split; [exact Hcall |].
  destruct (sync_raise_is_reported_and_loop_advances 5 ti w w1 e Hn Hcall
              eq_refl) as (Hf & _ & _ & _ & Hadv).
  split; [exact Hf |].
  destruct (Hadv eq_refl) as [_ Hnext].
  apply (Hnext {| id := 2; item := sync_item "next" "rn" |} []).
  - reflexivity.
  - apply not_elem_of_empty.
Defined.

(** ** The continuations, case by case *)

Lemma checkAndClearCanceled_marked i w :
  i ∈ _taskCancelSet (mgr w) ->
  checkAndClearCanceled i w = Done true (unmarked i w).
Proof.
  intros H. unfold checkAndClearCanceled, bind at 1, get.
  by rewrite decide_True.
Qed.

Lemma checkAndClearCanceled_unmarked i w :
  i ∉ _taskCancelSet (mgr w) ->
  checkAndClearCanceled i w = Done false w.
Proof.
  intros H. unfold checkAndClearCanceled, bind at 1, get.
  by rewrite decide_False.
Qed.

Lemma unmarked_not_member i w : i ∉ _taskCancelSet (mgr (unmarked i w)).
Proof.
  simpl. apply not_elem_of_difference. right. by apply elem_of_singleton.
Qed.




Lemma onFulfilled_cancelled rec r v w :
  _sessionId (mgr w) = session r ->
  id (owner r) ∈ _taskCancelSet (mgr w) ->
  onFulfilled_ rec r v w
  = advance_ rec (owner r)
      (unmarked (id (owner r)) (running_removed (id (owner r)) w)).
Proof.
  intros Hs Hc. unfold onFulfilled_, bind at 1, get.
  rewrite decide_False by (intros Hne; exact (Hne Hs)).
  unfold bind at 1, modify at 1. fold (running_removed (id (owner r)) w).
  unfold bind at 1. rewrite checkAndClearCanceled_marked by done.
  reflexivity.
Qed.

Lemma onRejected_cancelled rec r v w :
  _sessionId (mgr w) = session r ->
  id (owner r) ∈ _taskCancelSet (mgr w) ->
  onRejected_ rec r v w
  = advance_ rec (owner r)
      (unmarked (id (owner r)) (running_removed (id (owner r)) w)).
Proof.
  intros Hs Hc. unfold onRejected_, bind at 1, get.
  rewrite decide_False by (intros Hne; exact (Hne Hs)).
  unfold bind at 1, modify at 1. fold (running_removed (id (owner r)) w).
  unfold bind at 1. rewrite checkAndClearCanceled_marked by done.
  reflexivity.
Qed.

Lemma onRejected_live rec r reason w :
  _sessionId (mgr w) = session r ->
  id (owner r) ∉ _taskCancelSet (mgr w) ->
  onRejected_ rec r reason w
  = (run_callback_ rec (rejection_handler (owner r)) ;;;
     advance_ rec (owner r))
      (emitted (rejection_report (owner r) reason)
         (running_removed (id (owner r)) w)).
Proof.
  intros Hs Hc. unfold onRejected_, bind at 1, get.
  rewrite decide_False by (intros Hne; exact (Hne Hs)).
  unfold bind at 1, modify at 1. fold (running_removed (id (owner r)) w).
  unfold bind at 1. rewrite checkAndClearCanceled_unmarked by done.
  unfold rejection_report, rejection_handler, run_callback_.
  destruct (reject (item (owner r))) as [f |];
    [| destruct (catch (item (owner r))) as [g |]]; reflexivity.
Qed.

Lemma step_skips_cancelled_head n w ti rest :
  _tasks (mgr w) = ti :: rest ->
  id ti ∈ _taskCancelSet (mgr w) ->
  _step (S n) w
  = _step n (unmarked (id ti)
               {| mgr := set_tasks rest (mgr w); reactions := reactions w;
                  trace := trace w |}).
Proof.
  intros Hq Hc. simpl. unfold step_body, bind at 1, get. rewrite Hq.
  unfold bind at 1, modify at 1. unfold bind at 1.
  by rewrite checkAndClearCanceled_marked.
Qed.

(** ** Cancellation *)

(** A pending entry that is marked when it is popped is dropped without a
    trace, and its mark is removed. *)
Lemma pending_cancelled_is_skipped n w ti rest :
  _tasks (mgr w) = ti :: rest ->
  id ti ∈ _taskCancelSet (mgr w) ->
  exists w',
    _step (S n) w = _step n w' /\
    trace w' = trace w /\ _tasks (mgr w') = rest /\
    reactions w' = reactions w /\
    _runningTasks (mgr w') !! id ti = None /\
    id ti ∉ _taskCancelSet (mgr w').
Proof.
  intros Hq Hc. eexists. split; [by apply step_skips_cancelled_head |].
  repeat split; simpl.
  - apply lookup_delete_eq.
  - apply unmarked_not_member.
Qed.

(** The continuations of a marked entry invoke none of its callbacks;
    they only let the loop advance. *)
Lemma cancelled_continuation_is_silent n r s w :
  _sessionId (mgr w) = session r ->
  id (owner r) ∈ _taskCancelSet (mgr w) ->
  let o :=
    match s with
    | Fulfill v => onFulfilled n r v w
    | RejectWith e => onRejected n r e w
    end in
  finished o ->
  exists evs,
    trace (world_of o w) = trace w ++ evs /\
    List.filter from_settlement evs = [].
Proof.
  intros Hs Hc o Hf.
  assert (Ho : o = advance_ (_step n) (owner r)
                     (unmarked (id (owner r))
                        (running_removed (id (owner r)) w))).
  { unfold o. destruct s;
      [by apply onFulfilled_cancelled | by apply onRejected_cancelled]. }
  rewrite Ho in *. unfold advance_ in *.
  destruct (shouldWait (item (owner r))); [| exists []; by rewrite app_nil_r].
  destruct (lands_events from_settlement _ _ w (step_sound n _) Hf)
    as (evs & Ht & Hq).
  exists evs. split; [exact Ht | exact Hq].
Qed.

(** C3.  A wait-mode entry is dispatched, a second entry whose
    generic-error callback throws is queued, the first entry is cancelled
    and its promise is then fulfilled.  The continuation suppresses the
    completion callback and advances the loop; the exception that escapes
    the advance reaches the trailing handler, which invokes the
    generic-error callback of the cancelled entry. *)
Theorem cancelled_entry_error_callback_fires :
  exists w,
    run 3 [Submit (waiting_item "A" 1%Z); Submit thrower; Cancel 1%Z;
           Settle 1%Z (Fulfill (Plain "v"))] fresh = Done tt w /\
    trace w = [EvTask 1; EvTask 2; EvCatch SSync 2 (Plain "boom");
               EvCatch STail 1 (Plain "handler failed")]%Z.
Proof. eexists. split; [vm_compute; reflexivity | reflexivity]. Qed.

(** ** Rejection of a deferred result *)







(** ** Entries that make no call into the scheduler *)

Lemma addTask_idle rec t w :
  _running (mgr w) = false ->
  addTask_ rec t w = (rec ;;; ret (task_id (mgr w))) (submitted t w).
Proof.
  intros Hr. unfold addTask_, bind at 1, get.
  unfold bind at 1, modify at 1. unfold bind at 1, modify at 1.
  unfold bind at 1, get. simpl. rewrite Hr. reflexivity.
Qed.

Lemma trace_emitted_all evs w : trace (emitted_all evs w) = trace w ++ evs.
Proof.
  revert w. induction evs as [| ev evs IH]; intros w; simpl.
  - by rewrite app_nil_r.
  - rewrite IH. simpl. by rewrite <- app_assoc.
Qed.

Lemma mgr_emitted_all evs w : mgr (emitted_all evs w) = mgr w.
Proof. revert w. induction evs as [| ev evs IH]; intros w; simpl; [done |]. by rewrite IH. Qed.

Lemma reactions_emitted_all evs w : reactions (emitted_all evs w) = reactions w.
Proof. revert w. induction evs as [| ev evs IH]; intros w; simpl; [done |]. by rewrite IH. Qed.

Lemma call_plain rec (c : code ITask) w :
  body c = [] ->
  call_ rec c w
  = match fin c with Return v => Done v w | Throw e => Raised e w end.
Proof. intros Hb. unfold call_. rewrite Hb. simpl. by destruct (fin c). Qed.

(** Invoking an optional plain callback only leaves its event. *)
Lemma plain_callback_runs rec cb ev (skip : M unit) w :
  plain_callback cb ->
  (match cb with
   | Some f => emit ev ;;; call_ rec f ;;; ret tt
   | None => skip
   end) w
  = match cb with
    | Some _ => Done tt (emitted ev w)
    | None => skip w
    end.
Proof.
  destruct cb as [f |]; [| done]. intros (Hb & v & Hf).
  unfold bind at 1, emit. unfold bind. rewrite call_plain by done.
  by rewrite Hf.
Qed.

Lemma sync_finally_live rec ti w :
  sync_finally_ rec ti (_sessionId (mgr w)) false w
  = rec (running_removed (id ti) w).
Proof.
  unfold sync_finally_, bind at 1, get.
  rewrite bool_decide_eq_true_2 by done. reflexivity.
Qed.

(** [handleFunctionTask] on a simple entry: a deferred result is awaited;
    any other outcome is delivered and the loop advances. *)
Lemma handleFunctionTask_simple rec ti w :
  simple (item ti) ->
  handleFunctionTask_ rec ti w
  = match fin (task (item ti)) with
    | Return (Deferred p) =>
        Done tt (registered {| on := p; owner := ti;
                               session := _sessionId (mgr w) |}
                   (emitted (EvTask (id ti)) w))
    | _ => rec (running_removed (id ti) (emitted_all (block (ti, None)) w))
    end.
Proof.
  intros (Hb & Hrs & Hrj & Hct & Hw).
  unfold handleFunctionTask_, bind at 1, get.
  change ((emit (EvTask (id ti)) ;;; call_ rec (task (item ti))) w)
    with (call_ rec (task (item ti)) (emitted (EvTask (id ti)) w)).
  rewrite call_plain by done.
  set (w1 := emitted (EvTask (id ti)) w).
  change (_sessionId (mgr w)) with (_sessionId (mgr w1)).
  unfold block, completion_events. simpl fst. simpl snd.
  destruct (fin (task (item ti))) as [[v | p] | e]; unfold try_catch_finally.
  - unfold sync_resolve_, bind at 1, get. rewrite decide_True by done.
    rewrite plain_callback_runs by done.
    destruct (resolve (item ti)); simpl;
      unfold ret; by rewrite <- sync_finally_live.
  - unfold handleAsyncTask_, bind at 1, register. rewrite Hw. reflexivity.
  - unfold throw. rewrite sync_catch_live. unfold sync_report.
    destruct (catch (item ti)) as [f |] eqn:Hc.
    + destruct Hct as (Hbf & v & Hf).
      unfold bind. rewrite call_plain by done. rewrite Hf. simpl.
      by rewrite <- sync_finally_live.
    + simpl. by rewrite <- sync_finally_live.
Qed.

Lemma addTask_busy rec t w :
  _running (mgr w) = true ->
  addTask_ rec t w
  = Done (task_id (mgr w))
      {| mgr := set_tasks (_tasks (mgr w) ++ [{| id := task_id (mgr w); item := t |}])
                  (set_nextId (_nextId (mgr w) + 1) (mgr w));
         reactions := reactions w; trace := trace w |}.
Proof.
  intros Hr. unfold addTask_, bind at 1, get.
  unfold bind at 1, modify at 1. unfold bind at 1, modify at 1.
  unfold bind at 1, get. simpl. rewrite Hr. reflexivity.
Qed.

Lemma continuation_simple rec r s w :
  simple (item (owner r)) ->
  _sessionId (mgr w) = session r ->
  id (owner r) ∉ _taskCancelSet (mgr w) ->
  match s with
  | Fulfill v => onFulfilled_ rec r v w
  | RejectWith e => onRejected_ rec r e w
  end
  = rec (emitted_all (completion_events (owner r) (Some s))
           (running_removed (id (owner r)) w)).
Proof.
  intros (Hb & Hrs & Hrj & Hct & Hw) Hs Hc. destruct s as [v | e].
  - unfold onFulfilled_, bind at 1, get.
    rewrite decide_False by (intros Hne; exact (Hne Hs)).
    unfold bind at 1, modify at 1. fold (running_removed (id (owner r)) w).
    unfold bind at 1. rewrite checkAndClearCanceled_unmarked by done.
    unfold bind at 1. rewrite plain_callback_runs by done.
    rewrite Hw. simpl. by destruct (resolve (item (owner r))).
  - rewrite onRejected_live by done. simpl.
    unfold run_callback_, rejection_handler, rejection_report, advance_, bind.
    rewrite Hw.
    destruct (reject (item (owner r))) as [f |].
    + destruct Hrj as (Hbf & v & Hf). rewrite call_plain by done.
      by rewrite Hf.
    + destruct (catch (item (owner r))) as [g |]; [| done].
      destruct Hct as (Hbg & v & Hg). rewrite call_plain by done.
      by rewrite Hg.
Qed.

(** ** Bulk clear *)


(** A reaction captured before a [clear()] is stale ever after. *)
Lemma stale_after_clear w1 r w2 :
  Inv w1 -> In r (reactions w1) -> evolves (cleared w1) w2 ->
  (session r < _sessionId (mgr w2))%Z.
Proof.
  intros Hi Hr (Hs & _). unfold Inv in Hi. rewrite Forall_forall in Hi.
  apply list_elem_of_In, Hi in Hr. simpl in Hs. lia.
Qed.







(** After a [clear()], the settlement of an old promise leaves no trace,
    and a new deferred entry is dispatched and gets its completion
    callback. *)
Example fresh_submission_after_clear :
  observe 3 [Submit (async_item "old" 1%Z); Clear;
             Submit (async_item "new" 2%Z);
             Settle 1%Z (Fulfill (Plain "late"));
             Settle 2%Z (Fulfill (Plain "v"))]
  = Some [EvTask 1; EvTask 4; EvResolve SFulfilled 4 (Plain "v")]%Z.
Proof. vm_compute. reflexivity. Qed.

(** ** Cancellation marks that nothing observes *)

Lemma onward_refl w : onward w w.
Proof. split; lia. Qed.

Lemma onward_trans w1 w2 w3 : onward w1 w2 -> onward w2 w3 -> onward w1 w3.
Proof. intros [? ?] [? ?]. split; lia. Qed.

Lemma mark_kept_refl j C w : mark_kept j C w w.
Proof. split; [apply onward_refl | auto]. Qed.

Lemma mark_kept_trans j C w1 w2 w3 :
  mark_kept j C w1 w2 -> mark_kept j C w2 w3 -> mark_kept j C w1 w3.
Proof.
  intros [[Hs1 Hn1] H1] [[Hs2 Hn2] H2].
  split; [split; lia |]. intros HC Hi Hs Hni.
  assert (Hs12 : _sessionId (mgr w2) = _sessionId (mgr w1)) by lia.
  apply H2; [done | | lia |].
  - apply H1; [done | done | done |].
    intros (k & Hk & Hid). apply Hni. exists k. split; [lia | done].
  - intros (k & Hk & Hid). apply Hni. exists k. split; [lia |].
    unfold task_id in *. simpl in *. by rewrite <- Hs12.
Qed.

Lemma mark_kept_weaken j (C C' : Prop) w w' :
  (C' -> C) -> mark_kept j C w w' -> mark_kept j C' w w'.
Proof. intros HC [Ho H]. split; [done | auto]. Qed.

(** A change of the state that touches neither the session id, the
    counter, the pending entries nor the reactions, and takes no mark
    but [i] away. *)
Lemma mark_kept_neutral j i w w' :
  _sessionId (mgr w') = _sessionId (mgr w) ->
  _nextId (mgr w') = _nextId (mgr w) ->
  _tasks (mgr w') = _tasks (mgr w) ->
  reactions w' = reactions w ->
  (forall x, x <> i -> x ∈ _taskCancelSet (mgr w) ->
             x ∈ _taskCancelSet (mgr w')) ->
  mark_kept j (i <> j) w w'.
Proof.
  intros Hs Hn Hq Hr Hc. split; [split; lia |].
  intros Hij [Hm Hnc] _ _. split; [apply Hc; [congruence | done] |].
  unfold carried. by rewrite Hq, Hr, Hs.
Qed.

Lemma mark_kept_same j C w w' :
  mgr w' = mgr w -> reactions w' = reactions w -> mark_kept j C w w'.
Proof.
  intros Hm Hr. split; [unfold onward; rewrite Hm; split; lia |].
  intros _ [Hc Hnc] _ _. unfold idle_mark, carried. by rewrite Hm, Hr.
Qed.

(** [addTask] puts an entry with the next identifier in the queue. *)
Lemma mark_kept_push j C t w w' :
  _sessionId (mgr w') = _sessionId (mgr w) ->
  _nextId (mgr w') = (_nextId (mgr w) + 1)%Z ->
  _taskCancelSet (mgr w') = _taskCancelSet (mgr w) ->
  _tasks (mgr w')
  = _tasks (mgr w) ++ [{| id := task_id (mgr w); item := t |}] ->
  reactions w' = reactions w ->
  mark_kept j C w w'.
Proof.
  intros Hs Hn Hc Hq Hr. split; [split; lia |].
  intros _ [Hm Hnc] _ Hni. split; [by rewrite Hc |].
  intros [Hin | (r & Hin & Hsr & Hid)]; apply Hnc.
  - rewrite Hq, map_app in Hin.
    apply in_app_or in Hin as [Hin | [Hid | []]]; [by left |].
    exfalso. apply Hni. exists (_nextId (mgr w)). split; [lia |].
    simpl in Hid. rewrite <- Hid. reflexivity.
  - right. exists r. rewrite Hr in Hin. rewrite Hs in Hsr. done.
Qed.

Section Marks.

Variable j : Z.
Variable rec : M unit.
Hypothesis rec_keeps : keeps j True rec.

Lemma keeps_weaken {A} (C C' : Prop) (m : M A) :
  (C' -> C) -> keeps j C m -> keeps j C' m.
Proof.
  intros HC H w. eapply lands_mono; [apply H |].
  intros w'. by apply mark_kept_weaken.
Qed.

Lemma keeps_ret {A} C (a : A) : keeps j C (ret a).
Proof. intros w. apply mark_kept_refl. Qed.

Lemma keeps_throw {A} C e : keeps j C (@throw A e).
Proof. intros w. apply mark_kept_refl. Qed.

Lemma keeps_get C : keeps j C get.
Proof. intros w. apply mark_kept_refl. Qed.

Lemma keeps_bind {A B} C (m : M A) (k : A -> M B) :
  keeps j C m -> (forall a, keeps j C (k a)) -> keeps j C (bind m k).
Proof.
  intros Hm Hk w. apply lands_bind.
  eapply spec_mono; [apply (Hm w) | |].
  - intros a w1 H1. cbv beta in H1.
    eapply lands_mono; [apply Hk |]. cbv beta.
    intros w2 H2. by eapply mark_kept_trans.
  - auto.
Qed.

Lemma keeps_rec C : keeps j C rec.
Proof. by apply (keeps_weaken True). Qed.

Lemma keeps_neutral C i f :
  (C -> i <> j) ->
  (forall m, _sessionId (f m) = _sessionId m /\ _nextId (f m) = _nextId m /\
             _tasks (f m) = _tasks m /\
             forall x, x <> i -> x ∈ _taskCancelSet m ->
                       x ∈ _taskCancelSet (f m)) ->
  keeps j C (modify f).
Proof.
  intros HC Hf w. destruct (Hf (mgr w)) as (Hs & Hn & Hq & Hc).
  eapply mark_kept_weaken; [exact HC |].
  by apply mark_kept_neutral.
Qed.

Lemma keeps_running C f :
  (forall m, _sessionId (f m) = _sessionId m /\ _nextId (f m) = _nextId m /\
             _tasks (f m) = _tasks m /\
             _taskCancelSet (f m) = _taskCancelSet m) ->
  keeps j C (modify f).
Proof.
  intros Hf w. destruct (Hf (mgr w)) as (Hs & Hn & Hq & Hc).
  split; [split; simpl; lia |].
  intros _ [Hm Hnc] _ _. split; [simpl; by rewrite Hc |].
  unfold carried. simpl. by rewrite Hq, Hs.
Qed.

Lemma keeps_emit C e : keeps j C (emit e).
Proof. intros w. by apply mark_kept_same. Qed.

Lemma keeps_register r : keeps j (id (owner r) <> j) (register r).
Proof.
  intros w. split; [split; simpl; lia |].
  intros Hr [Hm Hnc] _ _. split; [done |].
  intros [Hq | (r' & Hin & Hs & Hid)]; apply Hnc; [by left |].
  simpl in Hin. apply in_app_or in Hin as [Hin | [<- | []]]; [| done].
  right. by exists r'.
Qed.

Lemma keeps_cancelTask C i : keeps j C (cancelTask i).
Proof.
  intros w. split; [split; simpl; lia |].
  intros _ [Hm Hnc] _ _. split; [| done].
  simpl. by apply elem_of_union_r.
Qed.

Lemma keeps_clear C : keeps j C clear.
Proof.
  intros w. split; [split; simpl; lia |].
  intros _ _ Hs. simpl in Hs. lia.
Qed.

Lemma keeps_checkAndClearCanceled i :
  keeps j (i <> j) (checkAndClearCanceled i).
Proof.
  unfold checkAndClearCanceled. apply keeps_bind; [apply keeps_get |].
  intros m. destruct (decide _); [| apply keeps_ret].
  apply keeps_bind.
  { apply (keeps_neutral _ i); [done |]. intros m0. simpl.
    repeat split; try done. intros x Hx Hin.
    apply elem_of_difference. split; [done |].
    by intros ->%elem_of_singleton. }
  intros _. apply keeps_bind; [by apply keeps_running | intros; apply keeps_ret].
Qed.

Lemma keeps_addTask C t : keeps j C (addTask_ rec t).
Proof.
  intros w. destruct (_running (mgr w)) eqn:Hrun.
  - rewrite addTask_busy by done. by apply (mark_kept_push j C t).
  - rewrite addTask_idle by done.
    assert (H1 : mark_kept j C w (submitted t w))
      by (by apply (mark_kept_push j C t)).
    apply lands_bind. eapply spec_mono; [apply (keeps_rec C) | |].
    + intros a w1 H2. simpl. by eapply mark_kept_trans.
    + intros w1 H2. by eapply mark_kept_trans.
Qed.

Lemma keeps_runOps C ops : keeps j C (runOps_ rec ops).
Proof.
  induction ops as [| o rest IH]; simpl; [apply keeps_ret |].
  apply keeps_bind; [| intros; apply IH].
  destruct o as [i | | t].
  - apply keeps_cancelTask.
  - apply keeps_clear.
  - apply keeps_bind; [apply keeps_addTask | intros; apply keeps_ret].
Qed.

Lemma keeps_call C f : keeps j C (call_ rec f).
Proof.
  unfold call_. apply keeps_bind; [apply keeps_runOps |]. intros _.
  destruct (fin f); [apply keeps_ret | apply keeps_throw].
Qed.

Lemma keeps_callback C ev (cb : option (code ITask)) (skip : M unit) :
  keeps j C skip ->
  keeps j C
    (match cb with
     | Some f => emit ev ;;; call_ rec f ;;; ret tt
     | None => skip
     end).
Proof.
  intros Hskip. destruct cb as [f |]; [| exact Hskip].
  apply keeps_bind; [apply keeps_emit |]. intros _.
  apply keeps_bind; [apply keeps_call | intros; apply keeps_ret].
Qed.

Lemma keeps_handleAsyncTask ti p s :
  keeps j (id ti <> j) (handleAsyncTask_ rec ti p s).
Proof.
  unfold handleAsyncTask_. apply keeps_bind.
  - apply (keeps_register {| on := p; owner := ti; session := s |}).
  - intros _. destruct (negb _); [apply keeps_rec | apply keeps_ret].
Qed.

Lemma keeps_sync_catch C ti s e : keeps j C (sync_catch_ rec ti s e).
Proof.
  unfold sync_catch_. apply keeps_bind; [apply keeps_get |]. intros m.
  destruct (decide _); [| apply keeps_ret].
  apply keeps_callback, keeps_emit.
Qed.

Lemma keeps_sync_finally C ti s b : keeps j C (sync_finally_ rec ti s b).
Proof.
  unfold sync_finally_. apply keeps_bind; [apply keeps_get |]. intros m.
  destruct (_ && _); [| apply keeps_ret].
  apply keeps_bind; [by apply keeps_running | intros; apply keeps_rec].
Qed.

Lemma keeps_sync_resolve C ti s v : keeps j C (sync_resolve_ rec ti s v).
Proof.
  unfold sync_resolve_. apply keeps_bind; [apply keeps_get |]. intros m.
  destruct (decide _); [| apply keeps_ret].
  apply keeps_callback, keeps_ret.
Qed.

Lemma keeps_try_catch_finally C protected handler finally :
  keeps j C protected -> (forall e, keeps j C (handler e)) ->
  keeps j C finally ->
  keeps j C (try_catch_finally protected handler finally).
Proof.
  intros Hp Hh Hf w. unfold try_catch_finally.
  pose proof (Hp w) as H1.
  destruct (protected w) as [[] w1 | e w1 |]; simpl in H1; [| | exact I].
  - pose proof (Hf w1) as H2.
    eapply lands_mono; [exact H2 |]. intros w2 H3.
    by eapply mark_kept_trans.
  - pose proof (Hh e w1) as H2.
    destruct (handler e w1) as [[] w2 | e2 w2 |]; simpl in H2; [| | exact I].
    + pose proof (Hf w2) as H3.
      eapply lands_mono; [exact H3 |]. intros w3 H4.
      eapply mark_kept_trans; [exact H1 |]. by eapply mark_kept_trans.
    + pose proof (Hf w2) as H3.
      destruct (finally w2) as [[] w3 | e3 w3 |]; simpl in *; [| | exact I];
        (eapply mark_kept_trans; [exact H1 |]; by eapply mark_kept_trans).
Qed.

Lemma keeps_handleFunctionTask ti :
  keeps j (id ti <> j) (handleFunctionTask_ rec ti).
Proof.
  intros w. unfold handleFunctionTask_, bind at 1, get.
  assert (Hcall : keeps j (id ti <> j)
                    (emit (EvTask (id ti)) ;;; call_ rec (task (item ti)))).
  { apply keeps_bind; [apply keeps_emit | intros; apply keeps_call]. }
  pose proof (Hcall w) as H1.
  destruct ((emit (EvTask (id ti)) ;;; call_ rec (task (item ti))) w)
    as [v w1 | e w1 |]; simpl in H1; [| | exact I].
  - destruct v as [s | p].
    + eapply lands_mono.
      * apply (keeps_try_catch_finally (id ti <> j) _ _ _
                 (keeps_sync_resolve _ ti _ _)
                 (keeps_sync_catch _ ti _)
                 (keeps_sync_finally _ ti _ _)).
      * intros w2 H2. by eapply mark_kept_trans.
    + eapply lands_mono.
      * apply (keeps_try_catch_finally (id ti <> j) _ _ _
                 (keeps_handleAsyncTask ti _ _)
                 (keeps_sync_catch _ ti _)
                 (keeps_sync_finally _ ti _ _)).
      * intros w2 H2. by eapply mark_kept_trans.
  - eapply lands_mono.
    + apply (keeps_try_catch_finally (id ti <> j) _ _ _
               (keeps_throw _ _)
               (keeps_sync_catch _ ti _)
               (keeps_sync_finally _ ti _ _)).
    + intros w2 H2. by eapply mark_kept_trans.
Qed.

Lemma keeps_step_body C : keeps j C (step_body rec).
Proof.
  apply (keeps_weaken True); [done |].
  intros w. unfold step_body, bind at 1, get.
  destruct (_tasks (mgr w)) as [| ti q] eqn:Hq.
  - by apply keeps_running.
  - set (w1 := {| mgr := set_tasks q (mgr w); reactions := reactions w;
                  trace := trace w |}).
    assert (Hrest : keeps j (id ti <> j)
              (canceled <- checkAndClearCanceled (id ti) ;;
               if (canceled : bool) then rec
               else
                 modify (fun m =>
                   set_runningTasks (<[ id ti := ti ]> (_runningTasks m)) m) ;;;
                 handleFunctionTask_ rec ti)).
    { apply keeps_bind; [apply keeps_checkAndClearCanceled |].
      intros [|]; [apply keeps_rec |].
      apply keeps_bind; [by apply keeps_running |].
      intros _. apply keeps_handleFunctionTask. }
    unfold bind at 1. unfold modify at 1. fold w1.
    eapply lands_mono; [apply (Hrest w1) |].
    intros w2 [Ho H2]. split; [exact Ho |].
    intros _ [Hm Hnc] Hs Hni.
    assert (Hne : id ti <> j).
    { intros Heq. apply Hnc. left. rewrite Hq. simpl. by left. }
    apply H2; [done | | done | done].
    split; [done |]. intros [Hin | Hr]; apply Hnc.
    + left. rewrite Hq. simpl. by right.
    + by right.
Qed.

Lemma keeps_after_callback C (ti : TaskInfo) (m : M unit) :
  keeps j C m ->
  keeps j C (m ;;; if shouldWait (item ti) then rec else ret tt).
Proof.
  intros Hm. apply keeps_bind; [exact Hm |]. intros _.
  destruct (shouldWait _); [apply keeps_rec | apply keeps_ret].
Qed.

(** A continuation observes the mark of its own entry only, and only in
    the epoch of its dispatch. *)
Lemma keeps_continuation r s w :
  lands True
    (match s with
     | Fulfill v => onFulfilled_ rec r v
     | RejectWith e => onRejected_ rec r e
     end w)
    (mark_kept j (session r = _sessionId (mgr w) -> id (owner r) <> j) w).
Proof.
  assert (Hrunning : keeps j (id (owner r) <> j)
            (modify (fun m =>
               set_runningTasks (delete (id (owner r)) (_runningTasks m)) m)))
    by (by apply keeps_running).
  destruct s as [v | e].
  - unfold onFulfilled_, bind at 1, get.
    destruct (decide _) as [Hne | Heq]; [apply mark_kept_refl |].
    eapply lands_mono.
    + apply (keeps_bind (id (owner r) <> j)); [exact Hrunning |]. intros _.
      apply keeps_bind; [apply keeps_checkAndClearCanceled |].
      intros canceled. apply keeps_after_callback. destruct canceled.
      * apply keeps_ret.
      * apply keeps_callback, keeps_ret.
    + intros w'. apply mark_kept_weaken. intros Hr. apply Hr.
      symmetry. by destruct (decide (_sessionId (mgr w) = session r)).
  - unfold onRejected_, bind at 1, get.
    destruct (decide _) as [Hne | Heq]; [apply mark_kept_refl |].
    eapply lands_mono.
    + apply (keeps_bind (id (owner r) <> j)); [exact Hrunning |]. intros _.
      apply keeps_bind; [apply keeps_checkAndClearCanceled |].
      intros canceled. apply keeps_after_callback. destruct canceled.
      * apply keeps_ret.
      * destruct (reject (item (owner r))) as [f |].
        -- apply (keeps_callback _ _ (Some f) (ret tt)), keeps_ret.
        -- apply keeps_callback, keeps_emit.
    + intros w'. apply mark_kept_weaken. intros Hr. apply Hr.
      symmetry. by destruct (decide (_sessionId (mgr w) = session r)).
Qed.

Lemma keeps_onTail C r e : keeps j C (onTail_ rec r e).
Proof.
  unfold onTail_. apply keeps_bind; [apply keeps_get |]. intros m.
  destruct (decide _); [apply keeps_ret |].
  apply keeps_bind; [by apply keeps_running |]. intros _.
  apply keeps_after_callback. apply keeps_callback, keeps_emit.
Qed.

End Marks.

Lemma step_keeps (j : Z) (n : nat) : keeps j True (_step n).
Proof.
  induction n as [| n IH]; [by intros w |].
  simpl. by apply keeps_step_body.
Qed.

(** *** The event loop *)

Lemma kept_of_mark_kept j (C P : Prop) w w' :
  (P -> C /\ idle_mark j w) ->
  mark_kept j C w w' -> kept j P (idle_mark j w') w w'.
Proof.
  intros HP [Ho H]. split; [done |]. intros Hp. destruct (HP Hp). by apply H.
Qed.

Lemma kept_trans j (P Q R : Prop) w1 w2 w3 :
  kept j P Q w1 w2 -> kept j Q R w2 w3 -> kept j P R w1 w3.
Proof.
  intros [[Hs1 Hn1] H1] [[Hs2 Hn2] H2].
  split; [split; lia |]. intros Hp Hs Hni.
  assert (Hs12 : _sessionId (mgr w2) = _sessionId (mgr w1)) by lia.
  apply H2; [| lia |].
  - apply H1; [done | done |].
    intros (k & Hk & Hid). apply Hni. exists k. split; [lia | done].
  - intros (k & Hk & Hid). apply Hni. exists k. split; [lia |].
    unfold task_id in *. simpl in *. by rewrite <- Hs12.
Qed.

Lemma kept_same j (P Q : Prop) w w' :
  mgr w' = mgr w -> (P -> Q) -> kept j P Q w w'.
Proof.
  intros Hm HPQ. split; [unfold onward; rewrite Hm; split; lia | auto].
Qed.

Lemma kept_weaken j (P P' Q Q' : Prop) w w' :
  (P' -> P) -> (Q -> Q') -> kept j P Q w w' -> kept j P' Q' w w'.
Proof. intros HP HQ [Ho H]. split; [done | auto]. Qed.

Lemma idle_mark_loop_incl j w q q' :
  (forall x, In x q' -> In x q) ->
  idle_mark_loop j w q -> idle_mark_loop j w q'.
Proof.
  intros Hincl [Hi Hn]. split; [done |].
  intros (x & Hin & Hx). apply Hn. exists x. split; [by apply Hincl | done].
Qed.

(** Moving reactions to the job queue takes no mark away. *)
Lemma flush_keeps j st w q :
  exists new w',
    flush st w = Done new w' /\ mgr w' = mgr w /\
    (idle_mark_loop j w q -> idle_mark_loop j w' (q ++ new)).
Proof.
  eexists _, _. split; [reflexivity |]. split; [reflexivity |].
  intros [[Hm Hnc] Hnj]. split; [split; [done |] |].
  - intros [Hq | (r & Hin & Hs & Hid)]; apply Hnc; [by left |].
    right. exists r. split; [| done]. simpl in Hin.
    apply list_elem_of_In, list_elem_of_filter in Hin as [_ Hin].
    by apply list_elem_of_In.
  - intros (x & Hin & Hs & Hid). apply in_app_or in Hin as [Hin | Hin].
    + apply Hnj. by exists x.
    + apply Hnc. right. apply in_flat_map in Hin as (r & Hin & Hx).
      unfold ready in Hx. destruct (st !! on r); [| by destruct Hx].
      destruct Hx as [<- | []]. by exists r.
Qed.

(** One job takes away the mark of its own entry at most. *)
Lemma run_job_keeps j n x rest w :
  match run_job n x w with
  | Done c w' =>
      kept j (idle_mark_loop j w (x :: rest))
        (idle_mark_loop j w' (rest ++ chained x c)) w w'
  | Raised _ _ => False
  | OutOfFuel => True
  end.
Proof.
  assert (Hgen : forall c w',
            mark_kept j (session (job_reaction x) = _sessionId (mgr w) ->
                         id (owner (job_reaction x)) <> j) w w' ->
            (forall y, In y (chained x c) -> job_reaction y = job_reaction x) ->
            kept j (idle_mark_loop j w (x :: rest))
              (idle_mark_loop j w' (rest ++ chained x c)) w w').
  { intros c w' [Ho H] Hch. split; [exact Ho |].
    intros [Hi Hnj] Hs Hni. split.
    - apply H; [| done | done | done].
      intros Hsx Hid. apply Hnj. exists x. split; [by left | done].
    - intros (y & Hin & Hsy & Hid). apply Hnj.
      apply in_app_or in Hin as [Hin | Hin].
      + exists y. split; [by right |]. split; [congruence | done].
      + exists x. split; [by left |]. rewrite <- (Hch y Hin).
        split; [congruence | done]. }
  destruct x as [r s | r e]; cbn [run_job]; unfold attempt.
  - pose proof (keeps_continuation j (_step n) (step_keeps j n) r s w) as H.
    change (match s with
            | Fulfill v => onFulfilled_ (_step n) r v
            | RejectWith e => onRejected_ (_step n) r e
            end w) with (continuation n r s w) in H.
    destruct (continuation n r s w) as [[] w' | e w' |]; [| | done];
      apply Hgen; try exact H; simpl; [tauto |].
    intros y [<- | []]. reflexivity.
  - pose proof (keeps_onTail j (_step n) (step_keeps j n)
                  (session r = _sessionId (mgr w) -> id (owner r) <> j) r e w)
      as H.
    change (onTail_ (_step n) r e w) with (onTail n r e w) in H.
    destruct (onTail n r e w) as [[] w' | e' w' |]; [| | done];
      apply Hgen; try exact H; simpl; tauto.
Qed.

(** The event loop keeps an idle mark. *)
Lemma drain_keeps j k n st :
  forall q es w,
    lands True (drain k n st q es w)
      (fun w' => kept j (idle_mark_loop j w q) (idle_mark j w') w w').
Proof.
  assert (Hnil : forall k0 es w,
            lands True (drain k0 n st [] es w)
              (fun w' => kept j (idle_mark_loop j w []) (idle_mark j w') w w')).
  { intros k0 es w.
    assert (Hd : drain k0 n st [] es w = report es w) by (by destruct k0).
    rewrite Hd. destruct (report_total es w) as (w' & -> & Hm & Hr & _).
    simpl. apply kept_same; [done |]. intros [[Hc Hnc] _].
    unfold idle_mark, carried. by rewrite Hm, Hr. }
  induction k as [| k IH]; intros q es w;
    (destruct q as [| x rest]; [apply Hnil |]); [exact I |].
  cbn [drain]. unfold bind at 1.
  pose proof (run_job_keeps j n x rest w) as H1.
  destruct (run_job n x w) as [c w1 | e w1 |]; [| done | exact I].
  unfold bind at 1.
  destruct (flush_keeps j st w1 (rest ++ chained x c))
    as (new & w2 & -> & Hm2 & H2).
  eapply lands_mono; [apply IH |]. cbv beta. intros w' H3.
  eapply kept_trans; [exact H1 |].
  eapply kept_trans; [| exact H3].
  apply kept_same; [done |]. intros Hi.
  eapply idle_mark_loop_incl; [| exact (H2 Hi)].
  intros y. rewrite !in_app_iff. tauto.
Qed.

Lemma perform_keeps j n st i w q :
  spec True (perform n st i w)
    (fun _ w' => kept j (idle_mark_loop j w q) (idle_mark_loop j w' q) w w')
    (fun _ => False).
Proof.
  assert (Hgen : forall w',
            mark_kept j True w w' ->
            kept j (idle_mark_loop j w q) (idle_mark_loop j w' q) w w').
  { intros w' [Ho H]. split; [exact Ho |].
    intros [Hi Hnj] Hs Hni. split; [by apply H |].
    intros (y & Hin & Hsy & Hid). apply Hnj. exists y.
    split; [done |]. split; [congruence | done]. }
  destruct i as [t | i | | p s]; cbn [perform]; unfold bind.
  - unfold host, addTask.
    pose proof (keeps_addTask j (_step n) (step_keeps j n) True t w) as H.
    destruct (addTask_ (_step n) t w) as [i w1 | e w1 |]; simpl in *;
      [by apply Hgen | | done].
    eapply kept_trans; [by apply Hgen |].
    apply kept_same; [done |]. intros [[Hc Hnc] Hnj]. by repeat split.
  - apply Hgen. apply (keeps_cancelTask j True i w).
  - apply Hgen. apply (keeps_clear j True w).
  - simpl. by apply kept_same.
Qed.

Lemma calls_keeps j n ins :
  forall st q w,
    spec True (calls n st q ins w)
      (fun x w' => kept j (idle_mark_loop j w q) (idle_mark_loop j w' (snd x))
                     w w')
      (fun _ => False).
Proof.
  induction ins as [| i rest IH]; intros st q w.
  - simpl. by apply kept_same.
  - cbn [calls]. unfold bind at 1.
    pose proof (perform_keeps j n st i w q) as H1.
    destruct (perform n st i w) as [st1 w1 | e w1 |]; simpl in H1;
      [| done | exact I].
    unfold bind at 1.
    destruct (flush_keeps j st1 w1 q) as (new & w2 & -> & Hm2 & H2).
    eapply spec_mono; [apply IH | | done]. cbv beta. intros x w' H3.
    eapply kept_trans; [exact H1 |].
    eapply kept_trans; [| exact H3].
    by apply kept_same.
Qed.

Lemma turn_keeps j n st ins w :
  lands True (turn n st ins w)
    (fun w' => kept j (idle_mark j w) (idle_mark j w') w w').
Proof.
  unfold turn, bind at 1.
  pose proof (calls_keeps j n ins st [] w) as H1.
  destruct (calls n st [] ins w) as [[st1 q] w1 | e w1 |]; simpl in H1;
    [| done | exact I].
  cbn [fst snd]. unfold bind at 1.
  pose proof (drain_keeps j n n st1 q [] w1) as H2.
  assert (H3 : kept j (idle_mark j w) (idle_mark_loop j w1 q) w w1).
  { eapply kept_weaken; [| | exact H1]; [| done].
    intros Hi. split; [done |]. by intros (y & [] & _). }
  destruct (drain n n st1 q [] w1) as [[] w2 | e w2 |]; simpl in *;
    [| | exact I]; by eapply kept_trans.
Qed.

Lemma turns_keep j n ts :
  forall st w,
    lands True (turns n st ts w)
      (fun w' => kept j (idle_mark j w) (idle_mark j w') w w').
Proof.
  induction ts as [| t rest IH]; intros st w.
  - simpl. by apply kept_same.
  - cbn [turns]. apply lands_bind.
    eapply spec_mono; [apply (turn_keeps j n st t w) | |].
    + intros st1 w1 H1. cbv beta in H1.
      eapply lands_mono; [apply IH |]. cbv beta. intros w2 H2.
      by eapply kept_trans.
    + auto.
Qed.

(** C9, as stated, fails: the identifier 1, cancelled after its entry has
    completed, and the identifier 7, which no entry carries, are still in
    the cancellation set when every entry has been served and the scheduler
    is idle. *)
Lemma cancel_mark_stays_counterexample :
  exists w,
    run 3 [Submit (sync_item "a" "ra"); Cancel 1%Z; Cancel 7%Z;
           Submit (async_item "b" 1%Z);
           Settle 1%Z (Fulfill (Plain "v"))] fresh = Done tt w /\
    1%Z ∈ _taskCancelSet (mgr w) /\ 7%Z ∈ _taskCancelSet (mgr w) /\
    _running (mgr w) = false /\ _tasks (mgr w) = [] /\ reactions w = [].
Proof.
  eexists. split; [vm_compute; reflexivity |].
  split; [by vm_compute |]. split; [by vm_compute |]. by repeat split.
Qed.

(** C9, amended.  [cancelTask] adds its argument to the cancellation
    set and nothing else.  The scheduler takes an identifier out of the
    set when it observes it, and takes out that identifier only: at the
    pop of a pending entry that carries it, and at the cancellation check
    of a continuation of the entry that carries it, in the epoch of the
    dispatch.  [clear()] empties the set.  Nothing else takes a mark
    away: a marked identifier that no pending entry and no entry awaiting
    its promise carries is still marked after any number of turns of the
    event loop, as long as [clear()] has not been called and [addTask]
    has not given the identifier to a new entry. *)
Theorem cancel_mark_is_removed_when_observed (n : nat) (w : World) :
  (forall i,
      _taskCancelSet (mgr (world_of (cancelTask i w) w))
      = {[ i ]} ∪ _taskCancelSet (mgr w)) /\
  (forall ti rest,
      _tasks (mgr w) = ti :: rest -> id ti ∈ _taskCancelSet (mgr w) ->
      exists w', _step (S n) w = _step n w' /\
                 _taskCancelSet (mgr w')
                 = _taskCancelSet (mgr w) ∖ {[ id ti ]}) /\
  (forall r s,
      _sessionId (mgr w) = session r ->
      id (owner r) ∈ _taskCancelSet (mgr w) ->
      exists w',
        continuation n r s w = advance_ (_step n) (owner r) w' /\
        _taskCancelSet (mgr w')
        = _taskCancelSet (mgr w) ∖ {[ id (owner r) ]}) /\
  _taskCancelSet (mgr (world_of (clear w) w)) = ∅ /\
  (forall j ts st st' w',
      j ∈ _taskCancelSet (mgr w) -> ~ carried j w ->
      turns n st ts w = Done st' w' ->
      _sessionId (mgr w') = _sessionId (mgr w) ->
      ~ issued j w w' ->
      j ∈ _taskCancelSet (mgr w')).
Proof.
  split; [| split; [| split; [| split]]].
  - intros i. reflexivity.
  - intros ti rest Hq Hc. eexists.
    split; [by apply step_skips_cancelled_head |]. reflexivity.
  - intros r s Hs Hc. eexists. split.
    + destruct s; [by apply onFulfilled_cancelled
                  | by apply onRejected_cancelled].
    + reflexivity.
  - reflexivity.
  - intros j ts st st' w' Hm Hnc Hrun Hs Hni.
    pose proof (turns_keep j n ts st w) as H. rewrite Hrun in H.
    destruct H as [_ H]. by apply H.
Qed.

(** ** Ordering *)

(** C1.  Four wait-mode entries are submitted: a deferred one, one whose
    callable and generic-error callback both throw, and two more deferred
    ones.  When the first promise is fulfilled, its continuation advances
    the loop: entry 2 fails, entry 3 is dispatched, and the exception of
    the callback of entry 2 escapes the advance.  The trailing handler
    of entry 1 then calls [_step] a second time: the callable of entry 4
    is entered while entry 3 is still awaiting its deferred result. *)
Theorem later_entry_starts_before_outcome :
  exists w,
    run 4 [Submit (async_item "t1" 1%Z); Submit thrower;
           Submit (async_item "t3" 3%Z); Submit (async_item "t4" 4%Z);
           Settle 1%Z (Fulfill (Plain "v1"))] fresh = Done tt w /\
    trace w = [EvTask 1; EvResolve SFulfilled 1 (Plain "v1");
               EvTask 2; EvCatch SSync 2 (Plain "boom");
               EvTask 3; EvError STail "t1" (Plain "handler failed");
               EvTask 4]%Z /\
    map (fun r => id (owner r)) (reactions w) = [3; 4]%Z /\
    ~ one_at_a_time w.
Proof.
  eexists. split; [vm_compute; reflexivity |]. split; [reflexivity |].
  split; [reflexivity |]. unfold one_at_a_time. simpl. lia.
Qed.


(** ** Serving order of simple wait-mode entries *)

Lemma task_id_of_counter (m : TaskMgr) :
  _sessionId m = 0%Z -> task_id m = task_id (set_nextId (_nextId m) create).
Proof. intros Hs. unfold task_id. simpl. by rewrite Hs. Qed.

Lemma numbered_app ts1 :
  forall k ts2,
    numbered k (ts1 ++ ts2)
    = numbered k ts1 ++ numbered (k + Z.of_nat (length ts1)) ts2.
Proof.
  induction ts1 as [| t rest IH]; intros k ts2; simpl.
  - by rewrite Z.add_0_r.
  - rewrite IH. do 3 f_equal. lia.
Qed.

(** A settlement is for good. *)
Lemma settle_keeps p s st p0 s0 :
  st !! p0 = Some s0 -> settle p s st !! p0 = Some s0.
Proof.
  intros H. unfold settle. destruct (st !! p) as [s1 |] eqn:Hp; [done |].
  unfold promises in *. rewrite lookup_insert_ne; [done |].
  intros ->. congruence.
Qed.

Lemma outcome_of_settle p s st ti how :
  outcome_of st ti = Some how -> outcome_of (settle p s st) ti = Some how.
Proof.
  unfold outcome_of. destruct (fin (task (item ti))) as [[v | p0] | e]; try done.
  destruct (st !! p0) as [s0 |] eqn:H0; [| done].
  by rewrite (settle_keeps p s st p0 s0 H0).
Qed.

Lemma serving_settle p s st w q served inflight :
  serving st w q served inflight ->
  serving (settle p s st) w q served inflight.
Proof.
  intros [Ht Hr Hsv Hs Hc Hrun Hidle Hsimple Hcur].
  constructor; try done.
  - destruct inflight as [ti |]; [| done].
    destruct Hr as (p0 & Hfin & [Hr | (Hr & s0 & Hs0 & Hq)]);
      exists p0; (split; [done |]); [by left | right].
    split; [done |]. exists s0. split; [| done]. by apply settle_keeps.
  - eapply Forall_impl; [exact Hsv |]. intros x Hx. by apply outcome_of_settle.
Qed.

(** The loop serves the simple entries at the head of the queue until it
    reaches one with a deferred result, or the end of the queue. *)
Lemma step_drains_queue st q :
  forall n w served,
    length q < n ->
    _tasks (mgr w) = q ->
    Forall (fun ti => simple (item ti)) q ->
    _sessionId (mgr w) = 0%Z ->
    _taskCancelSet (mgr w) = ∅ ->
    reactions w = [] ->
    _running (mgr w) = true ->
    trace w = flat_map block served ->
    Forall (fun x => outcome_of st (fst x) = Some (snd x)) served ->
    exists w' more inflight',
      _step n w = Done tt w' /\
      serving st w' [] (served ++ more) inflight' /\
      map fst more ++ unserved w' inflight' = q /\
      _nextId (mgr w') = _nextId (mgr w).
Proof.
  induction q as [| ti rest IH];
    intros n w served Hn Hq Hsimple Hs Hc Hr Hrun Ht Hsv;
    (destruct n as [| n]; [simpl in Hn; lia |]).
  - exists {| mgr := set_running false (mgr w); reactions := reactions w;
              trace := trace w |}, [], None.
    split; [| split; [| split]].
    + simpl. unfold step_body, bind at 1, get. by rewrite Hq.
    + rewrite app_nil_r.
      constructor; simpl; auto;
        [by rewrite app_nil_r | by rewrite Hq | discriminate].
    + unfold unserved. simpl. by rewrite Hq.
    + done.
  - assert (Hnot : id ti ∉ _taskCancelSet (mgr w))
      by (rewrite Hc; apply not_elem_of_empty).
    rewrite (step_dispatches_head n w ti rest Hq Hnot).
    unfold handleFunctionTask.
    inversion Hsimple as [| ? ? Hti Hrest]; subst.
    rewrite handleFunctionTask_simple by done.
    set (w0 := head_dispatched ti rest w).
    assert (Hnext :
              outcome_of st ti = Some None ->
              exists w' more inflight',
                _step n (running_removed (id ti)
                           (emitted_all (block (ti, None)) w0)) = Done tt w' /\
                serving st w' [] (served ++ more) inflight' /\
                map fst more ++ unserved w' inflight' = ti :: rest /\
                _nextId (mgr w') = _nextId (mgr w)).
    { intros Hout.
      destruct (IH n (running_removed (id ti)
                        (emitted_all (block (ti, None)) w0))
                  (served ++ [(ti, None)]))
        as (w' & more & inflight' & H1 & H2 & H3 & H4).
      - simpl in Hn. lia.
      - simpl. by rewrite mgr_emitted_all.
      - done.
      - simpl. by rewrite mgr_emitted_all.
      - simpl. by rewrite mgr_emitted_all.
      - simpl. by rewrite reactions_emitted_all.
      - simpl. by rewrite mgr_emitted_all.
      - simpl. rewrite trace_emitted_all. simpl. rewrite Ht.
        rewrite flat_map_app. simpl. by rewrite ?app_nil_r, <- app_assoc.
      - apply Forall_app. split; [done |]. by constructor.
      - exists w', ((ti, None) :: more), inflight'. split; [done |].
        split; [by rewrite <- app_assoc in H2 |]. split.
        + simpl. by rewrite H3.
        + rewrite H4. simpl. by rewrite mgr_emitted_all. }
    unfold outcome_of in Hnext.
    destruct (fin (task (item ti))) as [[v | p] | e] eqn:Hfin;
      try exact (Hnext eq_refl).
    eexists _, [], (Some ti). split; [reflexivity |]. split; [| split].
    + rewrite app_nil_r. constructor; simpl; auto.
      * by rewrite Ht.
      * exists p. split; [done |]. left. by rewrite Hr, Hs.
      * discriminate.
      * by intros ? [= <-].
    + unfold unserved. simpl. reflexivity.
    + done.
Qed.

(** Moving the reactions on settled promises to the job queue. *)
Lemma flush_keeps_serving st w q served inflight :
  serving st w q served inflight ->
  exists new w',
    flush st w = Done new w' /\
    serving st w' (q ++ new) served inflight /\
    flushed st w' /\ mgr w' = mgr w.
Proof.
  intros [Ht Hr Hsv Hs Hc Hrun Hidle Hsimple Hcur].
  eexists _, _. split; [reflexivity |].
  split; [| split; [| done]].
  - constructor; simpl; auto.
    destruct inflight as [ti |]; simpl in *.
    + destruct Hr as (p & Hfin & [[Hr Hq] | (Hr & s & Hp & Hq)]);
        exists p; (split; [done |]); rewrite Hr, Hq; simpl.
      * unfold ready. simpl.
        destruct (st !! p) as [s |] eqn:Hp.
        -- right. rewrite filter_cons_False, filter_nil by (simpl; congruence).
           split; [done |]. by exists s.
        -- left. by rewrite filter_cons_True, filter_nil by done.
      * right. rewrite filter_nil. split; [done |]. by exists s.
    + destruct Hr as [-> ->]. by rewrite filter_nil.
  - unfold flushed. simpl. apply Forall_forall. intros r Hin.
    by apply list_elem_of_filter in Hin as [Hin _].
Qed.

(** A submission to a scheduler that serves simple entries. *)
Lemma submit_keeps_serving n st t w q served inflight :
  serving st w q served inflight -> simple t ->
  length (unserved w inflight) + 1 < n ->
  exists w' more inflight',
    perform n st (Submit t) w = Done st w' /\
    serving st w' q (served ++ more) inflight' /\
    map fst more ++ unserved w' inflight'
    = unserved w inflight ++ numbered (_nextId (mgr w)) [t] /\
    _nextId (mgr w') = (_nextId (mgr w) + 1)%Z.
Proof.
  intros [Ht Hr Hsv Hs Hc Hrun Hidle Hsimple Hcur] Hsim Hn.
  cbn [numbered]. rewrite <- (task_id_of_counter (mgr w) Hs).
  set (ti := {| id := task_id (mgr w); item := t |}).
  cbn [perform]. unfold bind at 1, host, addTask.
  destruct inflight as [cur |].
  - rewrite addTask_busy by done.
    eexists _, [], (Some cur). split; [reflexivity |].
    split; [| split; [| done]].
    + rewrite app_nil_r. constructor; simpl; auto; [discriminate |].
      apply Forall_app. split; [done |]. by constructor.
    + unfold unserved. simpl. reflexivity.
  - specialize (Hidle eq_refl). destruct Hr as [Hr ->].
    rewrite addTask_idle by done. unfold bind.
    destruct (step_drains_queue st [ti] n (submitted t w) served)
      as (w' & more & inflight' & H1 & H2 & H3 & H4); simpl; auto.
    + unfold unserved in Hn. simpl in Hn. lia.
    + by rewrite Hidle.
    + simpl in Ht. by rewrite app_nil_r in Ht.
    + rewrite H1. exists w', more, inflight'.
      split; [done |]. split; [done |]. split; [| done].
      rewrite H3. unfold unserved. simpl. by rewrite Hidle.
Qed.

(** The event loop at a scheduler that serves simple entries: the job of
    the entry in flight delivers its outcome and the loop serves on. *)
Lemma drain_keeps_serving k :
  forall n st w q served inflight,
    serving st w q served inflight -> flushed st w ->
    length (unserved w inflight) < k ->
    length (unserved w inflight) < n ->
    exists w' more inflight',
      drain k n st q [] w = Done tt w' /\
      serving st w' [] (served ++ more) inflight' /\
      flushed st w' /\
      map fst more ++ unserved w' inflight' = unserved w inflight /\
      _nextId (mgr w') = _nextId (mgr w).
Proof.
  induction k as [| k IH]; intros n st w q served inflight Hserv Hfl Hk Hn;
    [lia |].
  assert (Hrest : q = [] ->
            exists w' more inflight',
              drain (S k) n st q [] w = Done tt w' /\
              serving st w' [] (served ++ more) inflight' /\
              flushed st w' /\
              map fst more ++ unserved w' inflight' = unserved w inflight /\
              _nextId (mgr w') = _nextId (mgr w)).
  { intros ->. exists w, [], inflight. rewrite app_nil_r.
    split; [reflexivity |]. split; [done |]. split; [done |]. by split. }
  pose proof Hserv as [Ht Hr Hsv Hs Hc Hrun Hidle Hsimple Hcur].
  destruct inflight as [ti |]; [| apply Hrest; by destruct Hr].
  destruct Hr as (p & Hfin & [[Hr Hq] | (Hr & s & Hp & Hq)]);
    [by apply Hrest |].
  subst q. set (r := {| on := p; owner := ti; session := 0 |}).
  cbn [drain run_job]. unfold bind at 1, attempt.
  assert (Hk1 : continuation n r s w
                = _step n (emitted_all (completion_events ti (Some s))
                             (running_removed (id ti) w))).
  { etrans;
      [| apply (continuation_simple (_step n) r s w);
         [by apply Hcur | exact Hs
         | simpl; rewrite Hc; apply not_elem_of_empty]].
    by destruct s. }
  rewrite Hk1.
  destruct (step_drains_queue st (_tasks (mgr w)) n
              (emitted_all (completion_events ti (Some s))
                 (running_removed (id ti) w))
              (served ++ [(ti, Some s)]))
    as (w1 & more1 & inflight1 & H1 & H2 & H3 & H4).
  - unfold unserved in Hn. simpl in Hn. lia.
  - by rewrite mgr_emitted_all.
  - done.
  - by rewrite mgr_emitted_all.
  - by rewrite mgr_emitted_all.
  - by rewrite reactions_emitted_all.
  - by rewrite mgr_emitted_all.
  - rewrite trace_emitted_all. simpl. rewrite Ht, flat_map_app. simpl.
    by rewrite ?app_nil_r, <- app_assoc.
  - apply Forall_app. split; [done |]. constructor; [| done].
    simpl. unfold outcome_of. by rewrite Hfin, Hp.
  - rewrite H1. unfold bind at 1.
    destruct (flush_keeps_serving st w1 [] _ _ H2)
      as (new & w2 & -> & H5 & H6 & H7).
    cbn [chained dropped app]. rewrite app_nil_r.
    assert (Hlen : length (unserved w2 inflight1) <= length (_tasks (mgr w))).
    { unfold unserved in *. rewrite H7. rewrite <- H3, !length_app. lia. }
    destruct (IH n st w2 new _ inflight1 H5 H6)
      as (w' & more & inflight' & H8 & H9 & H10 & H11 & H12).
    + unfold unserved in Hk at 1. simpl in Hk. lia.
    + unfold unserved in Hn at 1. simpl in Hn. lia.
    + exists w', ((ti, Some s) :: more1 ++ more), inflight'.
      split; [exact H8 |]. split.
      { rewrite <- !app_assoc in H9. exact H9. }
      split; [done |]. split.
      * simpl. rewrite map_app, <- app_assoc, H11.
        unfold unserved at 1. rewrite H7. fold (unserved w1 inflight1).
        rewrite H3. reflexivity.
      * rewrite H12, H7, H4. by rewrite mgr_emitted_all.
Qed.

Lemma settlements_from st ins1 :
  forall st0,
    fold_left (fun st i => match i with Settle p s => settle p s st | _ => st end)
      ins1 st0 = st ->
    forall ins2,
      fold_left (fun st i => match i with Settle p s => settle p s st | _ => st end)
        (ins1 ++ ins2) st0
      = fold_left (fun st i => match i with Settle p s => settle p s st | _ => st end)
          ins2 st.
Proof. intros st0 <- ins2. by rewrite fold_left_app. Qed.

(** The calls of one turn. *)
Lemma calls_keep_serving n ins :
  forall st w q served inflight,
    serving st w q served inflight -> flushed st w ->
    Forall simple_input ins ->
    length (unserved w inflight) + length ins < n ->
    exists st' q' w' more inflight',
      calls n st q ins w = Done (st', q') w' /\
      st' = fold_left (fun st i =>
                         match i with Settle p s => settle p s st | _ => st end)
              ins st /\
      serving st' w' q' (served ++ more) inflight' /\
      flushed st' w' /\
      map fst more ++ unserved w' inflight'
      = unserved w inflight ++ numbered (_nextId (mgr w)) (submitted_items ins) /\
      _nextId (mgr w')
      = (_nextId (mgr w) + Z.of_nat (length (submitted_items ins)))%Z /\
      length (unserved w' inflight') <= length (unserved w inflight) + length ins.
Proof.
  induction ins as [| i rest IH]; intros st w q served inflight Hserv Hfl Hins Hn.
  - exists st, q, w, [], inflight. simpl. rewrite !app_nil_r, Z.add_0_r.
    split; [reflexivity |]. split; [done |]. split; [done |].
    split; [done |]. split; [done |]. split; [done | lia].
  - inversion Hins as [| ? ? Hi Hrest]; subst. simpl in Hn.
    cbn [calls]. unfold bind at 1.
    destruct i as [t | j | | p s]; try (by destruct Hi).
    + destruct (submit_keeps_serving n st t w q served inflight Hserv Hi)
        as (w1 & more1 & inflight1 & H1 & H2 & H3 & H4); [lia |].
      rewrite H1. unfold bind at 1.
      destruct (flush_keeps_serving st w1 q _ _ H2)
        as (new & w2 & -> & H5 & H6 & H7).
      assert (Hu : unserved w2 inflight1 = unserved w1 inflight1)
        by (unfold unserved; by rewrite H7).
      assert (Hlen : length (unserved w1 inflight1)
                     <= length (unserved w inflight) + 1).
      { apply (f_equal (@length _)) in H3. rewrite !length_app in H3.
        simpl in H3. lia. }
      destruct (IH st w2 (q ++ new) _ inflight1 H5 H6 Hrest)
        as (st' & q' & w' & more & inflight' & H8 & H9 & H10 & H11 & H12 & H13
            & H14).
      { rewrite Hu. lia. }
      exists st', q', w', (more1 ++ more), inflight'.
      split; [exact H8 |]. split; [exact H9 |]. split.
      { by rewrite <- app_assoc in H10. }
      split; [done |]. split; [| split].
      * rewrite map_app, <- app_assoc, H12, Hu, H7, H4.
        rewrite app_assoc, H3. cbn [submitted_items flat_map app numbered].
        by rewrite <- app_assoc.
      * rewrite H13, H7, H4. unfold submitted_items.
        cbn [flat_map app length]. lia.
      * rewrite Hu in H14. cbn [length]. lia.
    + cbn [perform]. unfold ret at 1. unfold bind at 1.
      pose proof (serving_settle p s st w q served inflight Hserv) as H2.
      destruct (flush_keeps_serving (settle p s st) w q _ _ H2)
        as (new & w2 & -> & H5 & H6 & H7).
      assert (Hu : unserved w2 inflight = unserved w inflight)
        by (unfold unserved; by rewrite H7).
      destruct (IH (settle p s st) w2 (q ++ new) _ inflight H5 H6 Hrest)
        as (st' & q' & w' & more & inflight' & H8 & H9 & H10 & H11 & H12 & H13
            & H14).
      { rewrite Hu. lia. }
      exists st', q', w', more, inflight'.
      split; [exact H8 |]. split; [exact H9 |]. split; [done |].
      split; [done |]. split; [| split].
      * rewrite H12, Hu, H7. reflexivity.
      * rewrite H13, H7. reflexivity.
      * rewrite Hu in H14. cbn [length]. lia.
Qed.

(** One turn of the event loop. *)
Lemma turn_keeps_serving n ins st w served inflight :
  serving st w [] served inflight -> flushed st w ->
  Forall simple_input ins ->
  length (unserved w inflight) + length ins < n ->
  exists st' w' more inflight',
    turn n st ins w = Done st' w' /\
    st' = fold_left (fun st i =>
                       match i with Settle p s => settle p s st | _ => st end)
            ins st /\
    serving st' w' [] (served ++ more) inflight' /\
    flushed st' w' /\
    map fst more ++ unserved w' inflight'
    = unserved w inflight ++ numbered (_nextId (mgr w)) (submitted_items ins) /\
    _nextId (mgr w')
    = (_nextId (mgr w) + Z.of_nat (length (submitted_items ins)))%Z /\
    length (unserved w' inflight') <= length (unserved w inflight) + length ins.
Proof.
  intros Hserv Hfl Hins Hn. unfold turn, bind at 1.
  destruct (calls_keep_serving n ins st w [] served inflight Hserv Hfl Hins Hn)
    as (st' & q' & w1 & more1 & inflight1 & H1 & H2 & H3 & H4 & H5 & H6 & H7).
  rewrite H1. cbn [fst snd]. unfold bind at 1.
  destruct (drain_keeps_serving n n st' w1 q' _ inflight1 H3 H4)
    as (w' & more & inflight' & H8 & H9 & H10 & H11 & H12); [lia | lia |].
  rewrite H8. exists st', w', (more1 ++ more), inflight'.
  split; [done |]. split; [done |]. split.
  { by rewrite <- app_assoc in H9. }
  split; [done |]. split; [| split].
  - by rewrite map_app, <- app_assoc, H11, H5.
  - by rewrite H12, H6.
  - apply (f_equal (@length _)) in H11. rewrite length_app in H11. lia.
Qed.

Lemma submitted_items_app ins1 ins2 :
  submitted_items (ins1 ++ ins2) = submitted_items ins1 ++ submitted_items ins2.
Proof. unfold submitted_items. by rewrite flat_map_app. Qed.

(** Turn after turn. *)
Lemma turns_keep_serving n ts :
  forall st w served inflight,
    serving st w [] served inflight -> flushed st w ->
    Forall simple_input (concat ts) ->
    length (unserved w inflight) + length (concat ts) < n ->
    exists st' w' more inflight',
      turns n st ts w = Done st' w' /\
      st' = fold_left (fun st i =>
                         match i with Settle p s => settle p s st | _ => st end)
              (concat ts) st /\
      serving st' w' [] (served ++ more) inflight' /\
      flushed st' w' /\
      map fst more ++ unserved w' inflight'
      = unserved w inflight
        ++ numbered (_nextId (mgr w)) (submitted_items (concat ts)).
Proof.
  induction ts as [| t rest IH]; intros st w served inflight Hserv Hfl Hins Hn.
  - exists st, w, [], inflight. simpl. rewrite !app_nil_r.
    split; [reflexivity |]. split; [done |]. split; [done |]. by split.
  - simpl in Hins, Hn. apply Forall_app in Hins as [Ht Hrest].
    rewrite length_app in Hn.
    cbn [turns]. unfold bind at 1.
    destruct (turn_keeps_serving n t st w served inflight Hserv Hfl Ht)
      as (st1 & w1 & more1 & inflight1 & H1 & H2 & H3 & H4 & H5 & H6 & H7);
      [lia |].
    rewrite H1.
    destruct (IH st1 w1 _ inflight1 H3 H4 Hrest)
      as (st' & w' & more & inflight' & H8 & H9 & H10 & H11 & H12); [lia |].
    exists st', w', (more1 ++ more), inflight'.
    split; [done |]. split.
    { cbn [concat]. rewrite fold_left_app, <- H2. exact H9. }
    split; [by rewrite <- app_assoc in H10 |]. split; [done |].
    rewrite map_app, <- app_assoc, H12, app_assoc, H5, H6.
    cbn [concat]. rewrite submitted_items_app, numbered_app.
    by rewrite <- app_assoc.
Qed.

(** What [serve] makes of the entries of a scheduler that serves simple
    entries. *)
Lemma serve_spec st served inflight pending :
  Forall (fun x => outcome_of st (fst x) = Some (snd x)) served ->
  (forall ti, inflight = Some ti -> outcome_of st ti = None) ->
  (inflight = None -> pending = []) ->
  serve st (map fst served
            ++ match inflight with Some ti => [ti] | None => [] end ++ pending)
  = {| completed := served; awaiting := inflight; queued := pending |}.
Proof.
  intros Hsv Hin Hnone. induction Hsv as [| [ti how] rest Hx _ IH].
  - destruct inflight as [ti |]; simpl.
    + by rewrite (Hin ti eq_refl).
    + by rewrite (Hnone eq_refl).
  - simpl in *. by rewrite Hx, IH.
Qed.

(** X2.  Wait-mode entries whose callables and callbacks neither throw
    out of a callback nor call back into the scheduler are served strictly
    in the order of their submission, each to its completion before the
    next one starts.  Whatever the turns in which the environment submits
    the items and settles promises, the run ends in the state that
    [serve] computes from the entries in the order of submission and from
    the first settlement of each promise: the entries up to the first
    one whose promise has not settled have completed, the trace is the
    sequence of their blocks (the entry into the callable, then the
    delivery of the outcome, which for a deferred result is the settlement
    of its promise), followed by the entry into the callable of the entry
    that awaits its promise; the entries behind it are in the queue,
    their callables not entered; the only reaction registered is that
    of the awaiting entry. *)
Theorem simple_entries_are_served_in_order (n : nat) (ts : list (list input)) :
  Forall simple_input (concat ts) ->
  length (concat ts) < n ->
  let result :=
    serve (settlements (concat ts)) (numbered 1 (submitted_items (concat ts)))
  in
  exists st w,
    turns n ∅ ts fresh = Done st w /\
    trace w = flat_map block (completed result) ++ started (awaiting result) /\
    _tasks (mgr w) = queued result /\
    map owner (reactions w)
    = match awaiting result with Some ti => [ti] | None => [] end /\
    one_at_a_time w.
Proof.
  intros Hins Hn result.
  destruct (turns_keep_serving n ts ∅ fresh [] None)
    as (st & w & served & inflight & H1 & H2 & H3 & H4 & H5).
  - constructor; simpl; auto. discriminate.
  - constructor.
  - done.
  - simpl. lia.
  - simpl in H3, H5.
    pose proof H3 as [Ht Hr Hsv Hs Hc Hrun Hidle Hsimple Hcur].
    assert (Hres : result
                   = {| completed := served; awaiting := inflight;
                        queued := _tasks (mgr w) |}).
    { unfold result, settlements. rewrite <- H2, <- H5.
      unfold unserved. apply serve_spec; [done | | done].
      intros ti ->. destruct Hr as (p & Hfin & [[Hr _] | (_ & s & _ & Hq)]);
        [| discriminate].
      unfold flushed in H4. rewrite Hr in H4.
      apply Forall_inv in H4. simpl in H4.
      unfold outcome_of. by rewrite Hfin, H4. }
    exists st, w. rewrite Hres. simpl.
    split; [done |]. split; [done |]. split; [done |].
    unfold one_at_a_time.
    destruct inflight as [ti |]; simpl in Hr.
    + destruct Hr as (p & _ & [[-> _] | (_ & s & _ & Hq)]); [| discriminate].
      simpl. split; [done | lia].
    + destruct Hr as [-> _]. simpl. split; [done | lia].
Qed.

(** ** Liveness of an entry that awaits its result *)

(** X5.  Once [_step] has dispatched a simple entry whose callable
    returns a promise, its continuations are registered on the promise,
    the entry is in the running set and [isTaskAlive] answers [true] for
    it. *)
Lemma awaiting_entry_is_alive n w ti rest p :
  _tasks (mgr w) = ti :: rest ->
  id ti ∉ _taskCancelSet (mgr w) ->
  simple (item ti) ->
  fin (task (item ti)) = Return (Deferred p) ->
  exists w',
    _step (S n) w = Done tt w' /\
    In {| on := p; owner := ti; session := _sessionId (mgr w) |}
       (reactions w') /\
    isTaskAlive (id ti) (mgr w') = true.
Proof.
  intros Hq Hc Hsimple Hfin.
  rewrite (step_dispatches_head n w ti rest Hq Hc).
  unfold handleFunctionTask. rewrite handleFunctionTask_simple by done.
  rewrite Hfin. eexists. split; [reflexivity |]. split.
  - simpl. apply in_or_app. right. by left.
  - unfold isTaskAlive. simpl. rewrite decide_False by done.
    rewrite decide_True; [done |]. rewrite lookup_insert_eq. by eexists.
Qed.

(** * Further properties of the scheduler *)

Lemma run_terminates_witness :
  let ts := [[Submit clearing_item; Submit thrower];
             [Settle 7%Z (RejectWith (Plain "no")); Clear];
             [Submit (sync_item "s" "r")]] in
  exists st w,
    turns 19 ∅ ts fresh = Done st w /\
    weight w <= turns_size ts /\
    forall t, 2 * turns_size ts + size_task t < 19 -> finished (addTask 19 t w).
Proof. intros ts. apply (run_terminates 19 ts). vm_compute. lia. Defined.

Lemma simple_entries_witness :
  let ts := [[Submit (async_item "a" 1%Z); Submit (sync_item "b" "rb")];
             [Submit (guarded_item "c" 3%Z);
              Settle 3%Z (RejectWith (Plain "no"))];
             [Settle 1%Z (Fulfill (Plain "va"))]] in
  let result :=
    serve (settlements (concat ts)) (numbered 1 (submitted_items (concat ts)))
  in
  exists st w,
    turns 6 ∅ ts fresh = Done st w /\
    trace w = flat_map block (completed result) ++ started (awaiting result) /\
    _tasks (mgr w) = queued result /\
    map owner (reactions w)
    = match awaiting result with Some ti => [ti] | None => [] end /\
    one_at_a_time w.
Proof.
  intros ts. apply (simple_entries_are_served_in_order 6 ts).
  - repeat constructor; simpl; eauto.
  - simpl. lia.
Defined.

Lemma awaiting_entry_witness :
  let ti := {| id := 1; item := async_item "a" 1%Z |} in
  let w := submitted (async_item "a" 1%Z) fresh in
  exists w',
    _step 2 w = Done tt w' /\
    In {| on := 1%Z; owner := ti; session := 0 |} (reactions w') /\
    isTaskAlive 1 (mgr w') = true.
Proof.
  intros ti w. apply (awaiting_entry_is_alive 1 w ti [] 1%Z).
  - reflexivity.
  - apply not_elem_of_empty.
  - repeat split; simpl; eauto.
  - reflexivity.
Defined.

Lemma task_id_in_range (m : TaskMgr) :
  (0 <= _sessionId m < 32)%Z -> (0 <= _nextId m)%Z ->
  (_nextId m * 2 ^ _sessionId m < 2 ^ 32)%Z ->
  task_id m = (_nextId m * 2 ^ _sessionId m)%Z.
Proof.
  intros Hs Hn Hb. rewrite task_id_formula.
  rewrite (Z.mod_small (_sessionId m)) by lia.
  apply Z.mod_small. split; [| done].
  apply Z.mul_nonneg_nonneg; [done |]. apply Z.pow_nonneg. lia.
Qed.

(** X3.  As long as the counter shifted by the session id stays below
    2^32 (and the session id below 32), the identifier [addTask] computes
    is the counter times 2^sessionId, so a later submission gets a larger
    identifier than an earlier one, also across [clear()]. *)
Theorem identifiers_increase_below_overflow (m1 m2 : TaskMgr) :
  (0 <= _nextId m1 < _nextId m2)%Z ->
  (0 <= _sessionId m1 <= _sessionId m2)%Z ->
  (_sessionId m2 < 32)%Z ->
  (_nextId m2 * 2 ^ _sessionId m2 < 2 ^ 32)%Z ->
  task_id m1 = (_nextId m1 * 2 ^ _sessionId m1)%Z /\
  task_id m2 = (_nextId m2 * 2 ^ _sessionId m2)%Z /\
  (task_id m1 < task_id m2)%Z.
Proof.
  intros Hn Hs Hs2 Hb.
  assert (Hp1 : (0 < 2 ^ _sessionId m1)%Z) by (apply Z.pow_pos_nonneg; lia).
  assert (Hp : (2 ^ _sessionId m1 <= 2 ^ _sessionId m2)%Z)
    by (apply Z.pow_le_mono_r; lia).
  assert (Hlt : (_nextId m1 * 2 ^ _sessionId m1
                 < _nextId m2 * 2 ^ _sessionId m2)%Z) by nia.
  rewrite !task_id_in_range by lia. done.
Qed.

Lemma identifiers_increase_witness :
  let m1 := create in
  let m2 := {| _nextId := 5; _running := false; _runningTasks := ∅;
               _taskCancelSet := ∅; _sessionId := 3; _tasks := [] |} in
  task_id m1 = 1%Z /\ task_id m2 = 40%Z /\ (task_id m1 < task_id m2)%Z.
Proof.
  intros m1 m2.
  destruct (identifiers_increase_below_overflow m1 m2) as (H1 & H2 & H3);
    [simpl; lia | simpl; lia | simpl; lia | simpl; lia |].
  split; [exact H1 |]. split; [exact H2 | exact H3].
Defined.

(* ---------- liveness and the public operations ---------- *)

(** X4.  [isTaskAlive] after the public operations: an identifier is not
    alive right after [cancelTask] for it; no identifier is alive after
    [clear()]; and a submission made while the loop is running returns at
    once, leaves the trace unchanged, and its identifier is alive unless
    the cancellation set already holds it. *)
Theorem liveness_follows_operations (w : World) (i : Z) :
  isTaskAlive i (mgr (world_of (cancelTask i w) w)) = false /\
  isTaskAlive i (mgr (cleared w)) = false /\
  (forall n t,
      _running (mgr w) = true ->
      exists w',
        addTask n t w = Done (task_id (mgr w)) w' /\
        trace w' = trace w /\
        isTaskAlive (task_id (mgr w)) (mgr w')
        = negb (bool_decide (task_id (mgr w) ∈ _taskCancelSet (mgr w)))).
Proof.
  split; [| split].
  - unfold isTaskAlive. simpl. rewrite decide_True; [done |].
    apply elem_of_union_l. by apply elem_of_singleton.
  - unfold isTaskAlive. simpl.
    rewrite decide_False by apply not_elem_of_empty.
    rewrite decide_False; [done |]. rewrite lookup_empty. by intros [? ?].
  - intros n t Hr. eexists. split; [by apply addTask_busy |].
    split; [reflexivity |]. unfold isTaskAlive. simpl.
    destruct (decide (task_id (mgr w) ∈ _taskCancelSet (mgr w))) as [Hc | Hc].
    + by rewrite bool_decide_eq_true_2.
    + rewrite bool_decide_eq_false_2 by done. simpl.
      destruct (decide _); [done |].
      rewrite existsb_app. simpl. rewrite Z.eqb_refl. simpl.
      by rewrite orb_true_r.
Qed.

(* ---------- fire-and-forget entries ---------- *)

Lemma handleFunctionTask_detached rec ti p w :
  donotWaitAsync (item ti) = Some true ->
  body (task (item ti)) = [] ->
  fin (task (item ti)) = Return (Deferred p) ->
  handleFunctionTask_ rec ti w
  = try_catch rec (sync_catch_ rec ti (_sessionId (mgr w)))
      (registered {| on := p; owner := ti; session := _sessionId (mgr w) |}
         (emitted (EvTask (id ti)) w)).
Proof.
  intros Hd Hb Hfin. unfold handleFunctionTask_, bind at 1, get.
  change ((emit (EvTask (id ti)) ;;; call_ rec (task (item ti))) w)
    with (call_ rec (task (item ti)) (emitted (EvTask (id ti)) w)).
  rewrite call_plain by done. rewrite Hfin.
  unfold try_catch_finally, try_catch, handleAsyncTask_, bind at 1, register.
  unfold shouldWait. rewrite Hd. cbn [negb].
  fold (registered {| on := p; owner := ti; session := _sessionId (mgr w) |}
          (emitted (EvTask (id ti)) w)).
  set (w1 := registered _ _).
  destruct (rec w1) as [[] w2 | e w2 |]; try reflexivity.
  destruct (sync_catch_ rec ti (_sessionId (mgr w)) e w2) as [[] w3 | e3 w3 |];
    reflexivity.
Qed.

(** X6.  An entry with [donotWaitAsync] does not hold the queue: when
    its callable returns a promise, the continuations are registered and
    [_step] is called at once, so the callable of the next pending entry
    is entered before the promise settles. *)
Theorem fire_and_forget_does_not_hold_the_queue
    (n : nat) (w : World) (ti next : TaskInfo) (rest : list TaskInfo)
    (p : promise) :
  (potential w < n)%nat ->
  _tasks (mgr w) = ti :: next :: rest ->
  id ti ∉ _taskCancelSet (mgr w) ->
  id next ∉ _taskCancelSet (mgr w) ->
  donotWaitAsync (item ti) = Some true ->
  body (task (item ti)) = [] ->
  fin (task (item ti)) = Return (Deferred p) ->
  let o := _step n w in
  finished o /\
  exists evs,
    trace (world_of o w)
    = trace w ++ EvTask (id ti) :: EvTask (id next) :: evs /\
    List.filter from_settlement evs = [] /\
    In {| on := p; owner := ti; session := _sessionId (mgr w) |}
       (reactions (world_of o w)).
Proof.
  intros Hn Hq Hc Hc' Hd Hb Hfin o.
  assert (Hf : finished o) by (eapply lands_finished; by apply step_total).
  split; [exact Hf |].
  destruct n as [| n]; [by destruct Hf |].
  unfold o in *. rewrite (step_dispatches_head n w ti (next :: rest) Hq Hc) in *.
  unfold handleFunctionTask in *.
  rewrite (handleFunctionTask_detached _ ti p) in * by done.
  set (w0 := head_dispatched ti (next :: rest) w) in *.
  set (r := {| on := p; owner := ti; session := _sessionId (mgr w0) |}) in *.
  set (w1 := registered r (emitted (EvTask (id ti)) w0)) in *.
  assert (Hstep : finished (_step n w1)).
  { unfold try_catch in Hf. by destruct (_step n w1). }
  destruct (step_starts_head n w1 next rest w eq_refl Hc' Hstep)
    as (evs1 & Ht1 & Hq1).
  pose proof (step_sound n w1) as Hs1.
  unfold try_catch in *.
  destruct (_step n w1) as [[] w2 | e w2 |]; [| | done].
  - simpl in *. exists evs1. split; [| split]; [by rewrite Ht1, <- app_assoc | done |].
    destruct Hs1 as (_ & (new & -> & _) & _). apply in_or_app. left.
    simpl. apply in_or_app. right. by left.
  - simpl in Hs1, Ht1.
    pose proof (safe_sync_catch from_settlement everywhere
                  (everywhere_stable _) (_step n) (step_sound n) (fun e H => H)
                  ti (_sessionId (mgr w0)) e w2 I) as Hs2.
    destruct (lands_events _ _ _ w Hs2 Hf) as (evs2 & Ht2 & Hq2).
    exists (evs1 ++ evs2). split; [| split].
    + rewrite Ht2, Ht1. simpl. by rewrite <- !app_assoc.
    + by rewrite List.filter_app, Hq1, Hq2.
    + assert (Hr2 : In r (reactions w2)).
      { destruct Hs1 as (_ & (new & -> & _) & _). apply in_or_app. left.
        simpl. apply in_or_app. right. by left. }
      destruct (sync_catch_ (_step n) ti (_sessionId (mgr w0)) e w2)
        as [[] w3 | e3 w3 |]; [| | done]; simpl in *;
        destruct Hs2 as (_ & (new & -> & _) & _); apply in_or_app; by left.
Qed.

Lemma fire_and_forget_witness :
  let ti := {| id := 1; item := detached_item "d" 1%Z |} in
  let next := {| id := 2; item := sync_item "s" "rs" |} in
  let w := {| mgr := {| _nextId := 3; _running := true; _runningTasks := ∅;
                        _taskCancelSet := ∅; _sessionId := 0;
                        _tasks := [ti; next] |};
              reactions := []; trace := [] |} in
  finished (_step 5 w) /\
  exists evs,
    trace (world_of (_step 5 w) w) = [] ++ EvTask 1 :: EvTask 2 :: evs /\
    List.filter from_settlement evs = [] /\
    In {| on := 1%Z; owner := ti; session := 0 |}
       (reactions (world_of (_step 5 w) w)).
Proof.
  intros ti next w.
  apply (fire_and_forget_does_not_hold_the_queue 5 w ti next [] 1%Z).
  - vm_compute. lia.
  - reflexivity.
  - apply not_elem_of_empty.
  - apply not_elem_of_empty.
  - reflexivity.
  - reflexivity.
  - reflexivity.
Defined.

(** X7.  [handleAsyncTask] calls [_step] for an entry with
    [donotWaitAsync] inside the [try] block of [handleFunctionTask]: an
    exception that escapes that call (thrown by the generic-error callback
    of a later entry) is caught by the [catch] block and reported as a
    synchronous failure of the fire-and-forget entry, to its generic-error
    callback or as a diagnostic with its description. *)
Theorem advance_failure_goes_to_detached_entry
    (n : nat) (ti : TaskInfo) (p : promise) (w w2 : World) (e : jsval) :
  (potential w + task_cost (item ti) < n)%nat ->
  donotWaitAsync (item ti) = Some true ->
  body (task (item ti)) = [] ->
  fin (task (item ti)) = Return (Deferred p) ->
  _step n (registered {| on := p; owner := ti; session := _sessionId (mgr w) |}
             (emitted (EvTask (id ti)) w)) = Raised e w2 ->
  _sessionId (mgr w2) = _sessionId (mgr w) ->
  let o := handleFunctionTask n ti w in
  finished o /\
  exists evs, trace (world_of o w) = trace w2 ++ sync_report ti e :: evs.
Proof.
  intros Hn Hd Hb Hfin Hstep Hs o.
  pose proof (handleFunctionTask_finished n ti w Hn) as Hf. fold o in Hf.
  split; [exact Hf |].
  assert (Ho : o = sync_catch_ (_step n) ti (_sessionId (mgr w2)) e w2).
  { unfold o, handleFunctionTask.
    rewrite (handleFunctionTask_detached _ ti p) by done.
    unfold try_catch. by rewrite Hstep, Hs. }
  rewrite Ho in *. clear Ho.
  destruct (sync_catch_reports n ti e w2 Hf) as (evs & Ht).
  exists evs.
  by destruct (sync_catch_ (_step n) ti (_sessionId (mgr w2)) e w2).
Qed.

Lemma advance_failure_witness :
  let ti := {| id := 1; item := detached_item "d" 1%Z |} in
  let w := {| mgr := {| _nextId := 3; _running := true;
                        _runningTasks := {[ 1%Z := ti ]};
                        _taskCancelSet := ∅; _sessionId := 0;
                        _tasks := [ {| id := 2; item := thrower |} ] |};
              reactions := []; trace := [] |} in
  let w1 := registered {| on := 1%Z; owner := ti; session := 0 |}
              (emitted (EvTask 1) w) in
  let w2 := world_of (_step 5 w1) w1 in
  trace w2 = [EvTask 1; EvTask 2; EvCatch SSync 2 (Plain "boom")]%Z /\
  finished (handleFunctionTask 5 ti w) /\
  exists evs,
    trace (world_of (handleFunctionTask 5 ti w) w)
    = trace w2 ++ EvError SSync "d" (Plain "handler failed") :: evs.
Proof.
  intros ti w w1 w2. split; [reflexivity |].
  apply (advance_failure_goes_to_detached_entry 5 ti 1%Z w w2
           (Plain "handler failed")).
  - vm_compute. lia.
  - reflexivity.
  - reflexivity.
  - reflexivity.
  - vm_compute. reflexivity.
  - reflexivity.
Defined.

(* ---------- a stalled scheduler ---------- *)

Lemma perform_stalled n st i w :
  stalled w -> keeps_epoch i ->
  exists st' w',
    perform n st i w = Done st' w' /\
    stalled w' /\ trace w' = trace w /\
    map item (_tasks (mgr w'))
    = map item (_tasks (mgr w)) ++ submitted_items [i].
Proof.
  intros [Hrun Hr] Hi. destruct i as [t | j | | p s]; [| | destruct Hi |].
  - cbn [perform]. unfold bind, host, addTask. rewrite addTask_busy by done.
    eexists _, _. split; [reflexivity |]. split; [by split |].
    split; [done |]. simpl. by rewrite map_app.
  - eexists _, _. split; [reflexivity |]. split; [by split |].
    split; [done |]. simpl. by rewrite app_nil_r.
  - eexists _, _. split; [reflexivity |]. split; [by split |].
    split; [done |]. simpl. by rewrite app_nil_r.
Qed.

Lemma flush_stalled st w :
  stalled w ->
  exists w', flush st w = Done [] w' /\ stalled w' /\ trace w' = trace w /\
             mgr w' = mgr w.
Proof.
  intros [Hrun Hr]. unfold flush. rewrite Hr. rewrite filter_nil.
  eexists. split; [reflexivity |]. split; [by split |]. by split.
Qed.

Lemma calls_stalled n ins :
  forall st w,
    stalled w -> Forall keeps_epoch ins ->
    exists st' w',
      calls n st [] ins w = Done (st', []) w' /\
      stalled w' /\ trace w' = trace w /\
      map item (_tasks (mgr w'))
      = map item (_tasks (mgr w)) ++ submitted_items ins.
Proof.
  induction ins as [| i rest IH]; intros st w Hst Hins.
  - exists st, w. simpl. by rewrite app_nil_r.
  - inversion Hins as [| ? ? Hi Hrest]; subst. cbn [calls]. unfold bind at 1.
    destruct (perform_stalled n st i w Hst Hi) as (st1 & w1 & -> & H1 & H2 & H3).
    unfold bind at 1.
    destruct (flush_stalled st1 w1 H1) as (w2 & -> & H4 & H5 & H6).
    destruct (IH st1 w2 H4 Hrest) as (st' & w' & H7 & H8 & H9 & H10).
    exists st', w'. split; [exact H7 |]. split; [exact H8 |].
    split; [by rewrite H9, H5 |].
    rewrite H10, H6, H3. simpl. rewrite app_nil_r, <- app_assoc.
    by destruct i.
Qed.

Lemma turns_stalled n ts :
  forall st w,
    stalled w -> Forall keeps_epoch (concat ts) ->
    exists st' w',
      turns n st ts w = Done st' w' /\
      stalled w' /\ trace w' = trace w /\
      map item (_tasks (mgr w'))
      = map item (_tasks (mgr w)) ++ submitted_items (concat ts).
Proof.
  induction ts as [| t rest IH]; intros st w Hst Hins.
  - exists st, w. simpl. by rewrite app_nil_r.
  - simpl in Hins. apply Forall_app in Hins as [Ht Hrest].
    cbn [turns]. unfold bind at 1, turn, bind at 1.
    destruct (calls_stalled n t st w Hst Ht) as (st1 & w1 & -> & H1 & H2 & H3).
    cbn [fst snd]. unfold bind at 1.
    assert (Hd : drain n n st1 [] [] w1 = Done tt w1) by (by destruct n).
    rewrite Hd. unfold ret at 1.
    destruct (IH st1 w1 H1 Hrest) as (st' & w' & H7 & H8 & H9 & H10).
    exists st', w'. split; [exact H7 |]. split; [exact H8 |].
    split; [by rewrite H9 |].
    rewrite H10, H3. cbn [concat].
    by rewrite submitted_items_app, <- app_assoc.
Qed.

Lemma concat_singletons {A} (l : list A) : concat (map (fun i => [i]) l) = l.
Proof. induction l as [| a rest IH]; [done |]. simpl. by rewrite IH. Qed.

(** X8.  [addTask] calls [_step] only when [_running] is unset, and
    otherwise only the continuations of a promise do.  So when the flag is
    set and no continuation is registered, which is the state an
    exception of a generic-error callback in the trailing handler leaves
    behind, nothing is served any more: submissions are queued,
    cancellations are recorded and settlements find nothing, until
    [clear()] is called. *)
Theorem stalled_scheduler_runs_nothing (n : nat) (ins : list input) (w : World) :
  stalled w ->
  Forall keeps_epoch ins ->
  exists w',
    run n ins w = Done tt w' /\
    stalled w' /\
    trace w' = trace w /\
    map item (_tasks (mgr w')) = map item (_tasks (mgr w)) ++ submitted_items ins.
Proof.
  intros Hst Hins. unfold run, bind.
  destruct (turns_stalled n (map (fun i => [i]) ins) ∅ w Hst)
    as (st' & w' & -> & H1 & H2 & H3).
  - by rewrite concat_singletons.
  - exists w'. rewrite concat_singletons in H3.
    split; [reflexivity |]. split; [done |]. by split.
Qed.

Lemma stalled_scheduler_witness :
  let w := world_of (run 3 [Submit (double_fault_item 1%Z);
                            Submit (sync_item "waiting" "r");
                            Settle 1%Z (Fulfill (Plain "v"))] fresh) fresh in
  trace w = [EvTask 1; EvResolve SFulfilled 1 (Plain "v");
             EvCatch STail 1 (Plain "resolve failed");
             EvUncaught (Plain "catch failed")]%Z /\
  map id (_tasks (mgr w)) = [2%Z] /\
  exists w',
    run 3 [Submit (sync_item "later" "r"); Settle 1%Z (Fulfill (Plain "v"))] w
    = Done tt w' /\
    trace w' = trace w /\
    map id (_tasks (mgr w')) = [2%Z; 3%Z].
Proof.
  intros w. split; [reflexivity |]. split; [reflexivity |].
  destruct (stalled_scheduler_runs_nothing 3
              [Submit (sync_item "later" "r"); Settle 1%Z (Fulfill (Plain "v"))] w)
    as (w' & H1 & H2 & H3 & H4).
  - split; reflexivity.
  - repeat constructor.
  - exists w'. split; [exact H1 |]. split; [exact H3 |].
    vm_compute in H1. injection H1 as <-. reflexivity.
Defined.

(** * Failures that stay inside the scheduler *)

Lemma calm_unfold tk d rs dw rj ct :
  calm (Build_ITask tk d rs dw rj ct)
  = calm_ops (body tk) && calm_opt rs && calm_opt rj && calm_opt ct
    && match ct with Some c => returns c | None => true end.
Proof. reflexivity. Qed.

Lemma calm_parts (t : ITask) :
  calm t = true ->
  calm_ops (body (task t)) = true /\ calm_opt (resolve t) = true /\
  calm_opt (reject t) = true /\ calm_opt (catch t) = true /\
  (forall c, catch t = Some c -> returns c = true).
Proof.
  destruct t as [tk d rs dw rj ct]. rewrite calm_unfold. simpl.
  rewrite !andb_true_iff. intros ((((H1 & H2) & H3) & H4) & H5).
  repeat split; try done. intros c ->. done.
Qed.

Lemma well_rests w : well w -> rests w.
Proof. intros [[_ Hq] | [Hr _]] Hrun; [done | congruence]. Qed.

Lemma client_step_refl w : calm_world w -> rests w -> client_step w w.
Proof.
  intros Hc Hr. constructor; auto; [lia | intros H; by destruct H].
Qed.

Lemma client_step_trans w1 w2 w3 :
  client_step w1 w2 -> client_step w2 w3 -> client_step w1 w3.
Proof.
  intros [Hc1 Hr1 Hs1 Hn1 He1 Hw1] [Hc2 Hr2 Hs2 Hn2 He2 Hw2].
  constructor; auto.
  - lia.
  - intros Hs Hrun. apply Hn2; [lia |]. apply Hn1; [lia | done].
  - intros Hs.
    destruct (decide (_sessionId (mgr w2) = _sessionId (mgr w1))) as [He | He].
    + apply He2. congruence.
    + apply Hw2, He1, He.
Qed.

Section Isolation.

Variable rec : M unit.
Hypothesis rec_advances : advancing (fun _ => True) rec.

Lemma client_weaken {A} raises (m : M A) : client false m -> client raises m.
Proof.
  intros H w Hc Hr. specialize (H w Hc Hr).
  destruct (m w); auto. by destruct H.
Qed.

Lemma client_ret {A} (a : A) : client false (ret a).
Proof. intros w Hc Hr. by apply client_step_refl. Qed.

Lemma client_throw {A} e : client true (@throw A e).
Proof. intros w Hc Hr. split; [done | by apply client_step_refl]. Qed.

Lemma client_bind {A B} raises (m : M A) (k : A -> M B) :
  client raises m -> (forall a, client raises (k a)) ->
  client raises (bind m k).
Proof.
  intros Hm Hk w Hc Hr. unfold bind. specialize (Hm w Hc Hr).
  destruct (m w) as [a w1 | e w1 |]; [| exact Hm | exact I].
  specialize (Hk a w1 (cs_calm _ _ Hm) (cs_rests _ _ Hm)).
  destruct (k a w1) as [b w2 | e w2 |]; [| | exact I].
  - by eapply client_step_trans.
  - destruct Hk as [? Hk]. split; [done | by eapply client_step_trans].
Qed.

(** A change of the fields the scheduling state does not depend on. *)
Lemma client_step_neutral w w' :
  calm_world w -> rests w ->
  _running (mgr w') = _running (mgr w) -> _tasks (mgr w') = _tasks (mgr w) ->
  _sessionId (mgr w') = _sessionId (mgr w) ->
  reactions w' = reactions w -> trace w' = trace w ->
  client_step w w'.
Proof.
  intros Hc Hr H1 H2 H3 H4 H5.
  assert (Hwell : well w -> well w').
  { unfold well, awaits. by rewrite H1, H2, H3, H4. }
  constructor.
  - unfold calm_world in *. by rewrite H2, H4, H5.
  - unfold rests in *. by rewrite H1, H2.
  - lia.
  - by rewrite H1.
  - intros Hne. by destruct Hne.
  - exact Hwell.
Qed.

Lemma client_modify_neutral f :
  (forall m, _running (f m) = _running m /\ _tasks (f m) = _tasks m
             /\ _sessionId (f m) = _sessionId m) ->
  client false (modify f).
Proof.
  intros Hf w Hc Hr. destruct (Hf (mgr w)) as (H1 & H2 & H3). simpl.
  by apply client_step_neutral.
Qed.

Lemma client_emit e : is_uncaught e = false -> client false (emit e).
Proof.
  intros He w (Hq & Hrs & Ht) Hr. simpl. constructor; simpl; auto.
  - split; [done |]. split; [done |]. simpl.
    apply Forall_app. split; [done |]. by constructor.
  - lia.
  - intros Hne. by destruct Hne.
Qed.

Lemma client_cancelTask i : client false (cancelTask i).
Proof. by apply client_modify_neutral. Qed.

Lemma client_clear : client false clear.
Proof.
  intros w (Hq & Hrs & Ht) Hr. simpl. constructor; simpl.
  - split; [constructor | done].
  - done.
  - lia.
  - lia.
  - intros _. by left.
  - intros _. by left.
Qed.

Lemma client_checkAndClearCanceled i : client false (checkAndClearCanceled i).
Proof.
  intros w Hc Hr.
  destruct (decide (i ∈ _taskCancelSet (mgr w))) as [Hi | Hi].
  - rewrite checkAndClearCanceled_marked by done.
    by apply client_step_neutral.
  - rewrite checkAndClearCanceled_unmarked by done.
    by apply client_step_refl.
Qed.

Lemma calm_world_push t w :
  calm t = true -> calm_world w ->
  calm_world
    {| mgr := set_tasks (_tasks (mgr w) ++ [{| id := task_id (mgr w); item := t |}])
                (set_nextId (_nextId (mgr w) + 1) (mgr w));
       reactions := reactions w; trace := trace w |}.
Proof.
  intros Ht (Hq & Hrs & Htr). split; [| done]. simpl.
  apply Forall_app. split; [done |]. by constructor.
Qed.

Lemma client_addTask t : calm t = true -> client false (addTask_ rec t).
Proof.
  intros Ht w Hc Hr. destruct (_running (mgr w)) eqn:Hrun.
  - rewrite addTask_busy by done. constructor; simpl.
    + by apply calm_world_push.
    + unfold rests. simpl. congruence.
    + lia.
    + done.
    + intros Hne. by destruct Hne.
    + intros [[Hidle _] | [_ (r & Hin & Hs & Hw)]]; [congruence |].
      right. split; [done |]. by exists r.
  - rewrite addTask_idle by done. unfold bind.
    assert (Hcs : calm_world (submitted t w)) by (by apply calm_world_push).
    assert (Hrs : rests (submitted t w)) by (unfold rests; simpl; congruence).
    pose proof (rec_advances (submitted t w) Hcs Hrs I) as H.
    destruct (rec (submitted t w)) as [[] w' | e w' |]; [| done | done].
    destruct H as (Hc' & Hw' & Hs'). simpl in Hs'. simpl. constructor; auto.
    + by apply well_rests.
    + congruence.
Qed.

Lemma client_runOps ops :
  calm_ops ops = true -> client false (runOps_ rec ops).
Proof.
  induction ops as [| o rest IH]; simpl; intros Hops; [apply client_ret |].
  destruct o as [i | | t].
  - apply client_bind; [apply client_cancelTask | intros; by apply IH].
  - apply client_bind; [apply client_clear | intros; by apply IH].
  - apply andb_true_iff in Hops as [Ht Hrest].
    apply client_bind; [| intros; by apply IH].
    apply client_bind; [by apply client_addTask | intros; apply client_ret].
Qed.

Lemma client_call raises f :
  calm_ops (body f) = true -> returns f = true \/ raises = true ->
  client raises (call_ rec f).
Proof.
  intros Hops Hfin. unfold call_.
  apply client_bind; [by apply client_weaken, client_runOps |]. intros _.
  unfold returns in Hfin. destruct (fin f).
  - apply client_weaken, client_ret.
  - destruct Hfin as [? | ->]; [done | apply client_throw].
Qed.

(** Invoking an optional callback. *)
Lemma client_callback raises ev (cb : option (code ITask)) (skip : M unit) :
  calm_opt cb = true -> is_uncaught ev = false ->
  (forall f, cb = Some f -> returns f = true \/ raises = true) ->
  client raises skip ->
  client raises
    (match cb with
     | Some f => emit ev ;;; call_ rec f ;;; ret tt
     | None => skip
     end).
Proof.
  intros Hcb Hev Hfin Hskip. destruct cb as [f |]; [| exact Hskip].
  apply client_bind; [by apply client_weaken, client_emit |]. intros _.
  apply client_bind; [apply client_call; [exact Hcb | by apply Hfin] |].
  intros _. apply client_weaken, client_ret.
Qed.

Lemma client_sync_resolve ti cs v :
  calm (item ti) = true -> client true (sync_resolve_ rec ti cs v).
Proof.
  intros Ht w Hc Hr. unfold sync_resolve_, bind at 1, get.
  destruct (decide _); [| by apply client_step_refl].
  apply (client_callback true); auto.
  - by apply calm_parts.
  - apply client_weaken, client_ret.
Qed.

Lemma client_sync_catch ti cs e :
  calm (item ti) = true -> client false (sync_catch_ rec ti cs e).
Proof.
  intros Ht w Hc Hr. unfold sync_catch_, bind at 1, get.
  destruct (decide _); [| by apply client_step_refl].
  destruct (calm_parts _ Ht) as (_ & _ & _ & Hct & Hret).
  apply (client_callback false); auto. by apply client_emit.
Qed.

(** *** The loop advances *)

(** The [finally] block of [handleFunctionTask], reached through client
    code from the world [w0] of the dispatch. *)
Lemma finally_advances ti w0 w :
  client_step w0 w ->
  match sync_finally_ rec ti (_sessionId (mgr w0)) false w with
  | Done _ w' => settled w0 w'
  | Raised _ _ => False
  | OutOfFuel => True
  end.
Proof.
  intros [Hc Hr Hs Hn He Hw]. unfold sync_finally_, bind at 1, get. simpl.
  destruct (decide (_sessionId (mgr w) = _sessionId (mgr w0))) as [Heq | Hne].
  - rewrite bool_decide_eq_true_2 by done. unfold bind, modify.
    fold (running_removed (id ti) w).
    pose proof (rec_advances (running_removed (id ti) w) Hc Hr I) as H.
    destruct (rec (running_removed (id ti) w)) as [[] w' | e w' |];
      [| done | done].
    destruct H as (Hc' & Hw' & Hs'). simpl in Hs'.
    split; [done |]. split; [done | lia].
  - rewrite bool_decide_eq_false_2 by done. simpl.
    split; [done |]. split; [by apply He | done].
Qed.

Lemma protected_then_finally ti w0 w1 (protected : M unit) :
  calm (item ti) = true ->
  client true protected ->
  client_step w0 w1 ->
  match try_catch_finally protected
          (sync_catch_ rec ti (_sessionId (mgr w0)))
          (sync_finally_ rec ti (_sessionId (mgr w0)) false) w1 with
  | Done _ w' => settled w0 w'
  | Raised _ _ => False
  | OutOfFuel => True
  end.
Proof.
  intros Ht Hp H01. unfold try_catch_finally.
  pose proof (Hp w1 (cs_calm _ _ H01) (cs_rests _ _ H01)) as H1.
  destruct (protected w1) as [[] w2 | e w2 |]; [| | done].
  - assert (H02 : client_step w0 w2) by (by eapply client_step_trans).
    pose proof (finally_advances ti w0 w2 H02) as H.
    by destruct (sync_finally_ rec ti (_sessionId (mgr w0)) false w2).
  - destruct H1 as [_ H12].
    assert (H02 : client_step w0 w2) by (by eapply client_step_trans).
    pose proof (client_sync_catch ti (_sessionId (mgr w0)) e Ht w2
                  (cs_calm _ _ H02) (cs_rests _ _ H02)) as H2.
    destruct (sync_catch_ rec ti (_sessionId (mgr w0)) e w2)
      as [[] w3 | e3 w3 |]; [| by destruct H2 | done].
    assert (H03 : client_step w0 w3) by (by eapply client_step_trans).
    pose proof (finally_advances ti w0 w3 H03) as H.
    by destruct (sync_finally_ rec ti (_sessionId (mgr w0)) false w3).
Qed.

Lemma handleFunctionTask_advances ti :
  calm (item ti) = true ->
  advancing (fun w => _running (mgr w) = true) (handleFunctionTask_ rec ti).
Proof.
  intros Ht w Hc Hr Hrun. unfold handleFunctionTask_, bind at 1, get.
  destruct (calm_parts _ Ht) as (Htk & _).
  assert (Hcall : client true
                    (emit (EvTask (id ti)) ;;; call_ rec (task (item ti)))).
  { apply client_bind; [by apply client_weaken, client_emit |]. intros _.
    apply client_call; auto. }
  pose proof (Hcall w Hc Hr) as H1.
  destruct ((emit (EvTask (id ti)) ;;; call_ rec (task (item ti))) w)
    as [v w1 | e w1 |]; [| | done].
  - destruct v as [s | p].
    + apply (protected_then_finally ti w w1); auto.
      by apply client_sync_resolve.
    + destruct H1 as [Hc1 Hr1 Hs1 Hn1 He1 Hw1].
      set (r := {| on := p; owner := ti; session := _sessionId (mgr w) |}).
      assert (Hcr : calm_world (registered r w1)).
      { destruct Hc1 as (Hq & Hrs & Htr). split; [done |]. split; [| done].
        simpl. apply Forall_app. split; [done |]. by constructor. }
      assert (Hwr : shouldWait (item ti) = true -> well (registered r w1)).
      { intros Hsw.
        destruct (decide (_sessionId (mgr w1) = _sessionId (mgr w)))
          as [Heq | Hne].
        - right. split; [by apply Hn1 |]. exists r. split; [| by split].
          simpl. apply in_or_app. right. by left.
        - destruct (He1 Hne) as [Hidle | [Hrun1 (r1 & Hin & Hs & Hw)]];
            [by left |].
          right. split; [done |]. exists r1. split; [| by split].
          simpl. apply in_or_app. by left. }
      unfold try_catch_finally, handleAsyncTask_, bind at 1, register.
      subst r. unfold registered in *.
      destruct (shouldWait (item ti)) eqn:Hsw; cbn [negb].
      * simpl. split; [done |]. split; [by apply Hwr | done].
      * pose proof (rec_advances _ Hcr Hr1 I) as H.
        destruct (rec _) as [[] w2 | e w2 |]; [| done | done].
        simpl. destruct H as (Hc2 & Hw2 & Hs2). simpl in Hs2.
        split; [done |]. split; [done | lia].
  - destruct H1 as [_ H1].
    apply (protected_then_finally ti w w1); auto. apply client_throw.
Qed.

Lemma step_body_advances : advancing (fun _ => True) (step_body rec).
Proof.
  intros w Hc Hr _. unfold step_body, bind at 1, get.
  destruct (_tasks (mgr w)) as [| ti q] eqn:Hq.
  - simpl. destruct Hc as (Hq' & Hrs & Htr).
    split; [| split; [| simpl; lia]].
    + split; [simpl; by rewrite Hq | done].
    + left. simpl. by rewrite Hq.
  - assert (Hrun : _running (mgr w) = true).
    { destruct (_running (mgr w)) eqn:Hrun; [done |].
      specialize (Hr Hrun). congruence. }
    assert (Hti : calm (item ti) = true).
    { destruct Hc as (Hq' & _). rewrite Hq in Hq'. by inversion Hq'. }
    set (w1 := {| mgr := set_tasks q (mgr w); reactions := reactions w;
                  trace := trace w |}).
    assert (Hc1 : calm_world w1).
    { destruct Hc as (Hq' & Hrs & Htr). rewrite Hq in Hq'.
      inversion Hq'; subst. by split. }
    assert (Hr1 : rests w1) by (unfold rests; simpl; congruence).
    unfold bind at 1, modify at 1. fold w1. unfold bind at 1.
    destruct (decide (id ti ∈ _taskCancelSet (mgr w1))) as [Hi | Hi].
    + rewrite checkAndClearCanceled_marked by done.
      assert (Hc2 : calm_world (unmarked (id ti) w1)) by exact Hc1.
      assert (Hr2 : rests (unmarked (id ti) w1)) by exact Hr1.
      pose proof (rec_advances _ Hc2 Hr2 I) as H.
      destruct (rec (unmarked (id ti) w1)) as [[] w' | e w' |];
        [| done | done].
      destruct H as (Hc' & Hw' & Hs'). by split.
    + rewrite checkAndClearCanceled_unmarked by done.
      unfold bind, modify.
      set (w2 := {| mgr := set_runningTasks _ (mgr w1);
                    reactions := reactions w1; trace := trace w1 |}).
      assert (Hc2 : calm_world w2) by exact Hc1.
      assert (Hr2 : rests w2) by exact Hr1.
      pose proof (handleFunctionTask_advances ti Hti w2 Hc2 Hr2 Hrun) as H.
      destruct (handleFunctionTask_ rec ti w2) as [[] w' | e w' |];
        [| done | done].
      destruct H as (Hc' & Hw' & Hs'). by split.
Qed.

End Isolation.

Lemma step_advances (n : nat) : advancing (fun _ => True) (_step n).
Proof.
  induction n as [| n IH]; [by intros w Hc Hr _ |].
  simpl. by apply step_body_advances.
Qed.

(** *** The continuations *)

Lemma live_dec r w : live r w \/ ~ live r w.
Proof.
  unfold live.
  destruct (decide (session r = _sessionId (mgr w)));
    destruct (shouldWait (item (owner r))); intuition congruence.
Qed.

Section Continuations.

Variable rec : M unit.
Hypothesis rec_advances : advancing (fun _ => True) rec.

Lemma onFulfilled_guarded r v :
  onFulfilled_ rec r v
  = guarded_ rec r
      (match resolve (item (owner r)) with
       | Some f =>
           emit (EvResolve SFulfilled (id (owner r)) v) ;;;
           call_ rec f ;;; ret tt
       | None => ret tt
       end).
Proof. reflexivity. Qed.

Lemma onRejected_guarded r v :
  onRejected_ rec r v
  = guarded_ rec r
      (match reject (item (owner r)) with
       | Some f => emit (EvReject (id (owner r)) v) ;;; call_ rec f ;;; ret tt
       | None =>
           match catch (item (owner r)) with
           | Some f =>
               emit (EvCatch SRejected (id (owner r)) v) ;;;
               call_ rec f ;;; ret tt
           | None => emit (EvError SRejected (taskDesc (item (owner r))) v)
           end
       end).
Proof. reflexivity. Qed.

(** The call of [_step] that ends a continuation whose epoch guard has
    passed in [w]. *)
Lemma advance_serves r w w2 :
  session r = _sessionId (mgr w) ->
  client_step w w2 ->
  match (if shouldWait (item (owner r)) then rec else ret tt) w2 with
  | Done _ w' => job_done r w w'
  | Raised _ _ => False
  | OutOfFuel => True
  end.
Proof.
  intros Hs H. destruct (shouldWait (item (owner r))) eqn:Hsw.
  - pose proof (rec_advances w2 (cs_calm _ _ H) (cs_rests _ _ H) I) as H2.
    destruct (rec w2) as [[] w' | e w' |]; [| done | done].
    destruct H2 as (Hc & Hw & Hs2). split.
    + intros _. split; [done |]. split; [done |].
      pose proof (cs_session _ _ H). lia.
    + intros Hn. destruct Hn. by split.
  - simpl. split; [| done]. intros [_ Hl]. congruence.
Qed.

Lemma stale_serves r w :
  calm_world w -> rests w -> _sessionId (mgr w) <> session r ->
  job_done r w w.
Proof.
  intros Hc Hr Hne. split.
  - intros [Hs _]. by destruct Hne.
  - intros _. by apply client_step_refl.
Qed.

Lemma guarded_serves r callbacks :
  client true callbacks ->
  forall w, calm_world w -> rests w ->
    match guarded_ rec r callbacks w with
    | Done _ w' => job_done r w w'
    | Raised _ w' => client_step w w'
    | OutOfFuel => True
    end.
Proof.
  intros Hcb w Hc Hr. unfold guarded_, bind at 1, get.
  destruct (decide (_sessionId (mgr w) <> session r)) as [Hne | Heq].
  { simpl. by apply stale_serves. }
  assert (Hs : session r = _sessionId (mgr w)).
  { destruct (decide (session r = _sessionId (mgr w))) as [-> | Hn]; [done |].
    destruct Heq. congruence. }
  set (prefix :=
         modify (fun m =>
           set_runningTasks (delete (id (owner r)) (_runningTasks m)) m) ;;;
         canceled <- checkAndClearCanceled (id (owner r)) ;;
         if (canceled : bool) then ret tt else callbacks).
  assert (Hprefix : client true prefix).
  { apply client_bind; [by apply client_weaken, client_modify_neutral |].
    intros _.
    apply client_bind;
      [by apply client_weaken, client_checkAndClearCanceled |].
    intros [|]; [apply client_weaken, client_ret | exact Hcb]. }
  assert (Hshape :
            (modify (fun m =>
               set_runningTasks (delete (id (owner r)) (_runningTasks m)) m) ;;;
             canceled <- checkAndClearCanceled (id (owner r)) ;;
             (if (canceled : bool) then ret tt else callbacks) ;;;
             if shouldWait (item (owner r)) then rec else ret tt) w
            = (prefix ;;; if shouldWait (item (owner r)) then rec else ret tt) w).
  { unfold prefix, bind, modify.
    destruct (checkAndClearCanceled _ _) as [[|] w1 | e w1 |]; try reflexivity. }
  rewrite Hshape. unfold bind at 1.
  pose proof (Hprefix w Hc Hr) as H1.
  destruct (prefix w) as [[] w2 | e w2 |]; [| by destruct H1 | done].
  pose proof (advance_serves r w w2 Hs H1) as H2.
  by destruct ((if shouldWait (item (owner r)) then rec else ret tt) w2).
Qed.

Lemma continuation_serves r s :
  calm (item (owner r)) = true ->
  forall w, calm_world w -> rests w ->
    match match s with
          | Fulfill v => onFulfilled_ rec r v
          | RejectWith e => onRejected_ rec r e
          end w with
    | Done _ w' => job_done r w w'
    | Raised _ w' => client_step w w'
    | OutOfFuel => True
    end.
Proof.
  intros Ht. destruct (calm_parts _ Ht) as (_ & Hrs & Hrj & Hct & Hret).
  destruct s as [v | e].
  - rewrite onFulfilled_guarded. apply guarded_serves.
    apply client_callback; auto. apply client_weaken, client_ret.
  - rewrite onRejected_guarded. apply guarded_serves.
    apply client_callback; auto.
    apply client_callback; auto. by apply client_weaken, client_emit.
Qed.

(** The trailing handler never throws. *)
Lemma onTail_serves r e w :
  calm (item (owner r)) = true ->
  calm_world w -> rests w ->
  match onTail_ rec r e w with
  | Done _ w' => job_done r w w'
  | Raised _ _ => False
  | OutOfFuel => True
  end.
Proof.
  intros Ht Hc Hr. destruct (calm_parts _ Ht) as (_ & _ & _ & Hct & Hret).
  unfold onTail_, bind at 1, get.
  destruct (decide (_sessionId (mgr w) <> session r)) as [Hne | Heq].
  { simpl. by apply stale_serves. }
  assert (Hs : session r = _sessionId (mgr w)).
  { destruct (decide (session r = _sessionId (mgr w))) as [-> | Hn]; [done |].
    destruct Heq. congruence. }
  set (prefix :=
         modify (fun m =>
           set_runningTasks (delete (id (owner r)) (_runningTasks m)) m) ;;;
         match catch (item (owner r)) with
         | Some f =>
             emit (EvCatch STail (id (owner r)) e) ;;; call_ rec f ;;; ret tt
         | None => emit (EvError STail (taskDesc (item (owner r))) e)
         end).
  assert (Hprefix : client false prefix).
  { apply client_bind; [by apply client_modify_neutral |]. intros _.
    apply client_callback; auto. by apply client_emit. }
  assert (Hshape :
            (modify (fun m =>
               set_runningTasks (delete (id (owner r)) (_runningTasks m)) m) ;;;
             match catch (item (owner r)) with
             | Some f =>
                 emit (EvCatch STail (id (owner r)) e) ;;; call_ rec f ;;; ret tt
             | None => emit (EvError STail (taskDesc (item (owner r))) e)
             end ;;;
             if shouldWait (item (owner r)) then rec else ret tt) w
            = (prefix ;;; if shouldWait (item (owner r)) then rec else ret tt) w).
  { reflexivity. }
  rewrite Hshape. unfold bind at 1.
  pose proof (Hprefix w Hc Hr) as H1.
  destruct (prefix w) as [[] w3 | e3 w3 |]; [| by destruct H1 | done].
  by apply advance_serves.
Qed.

End Continuations.

(** *** The event loop *)

Lemma well_loop_rests w q : well_loop w q -> rests w.
Proof. intros [[_ Hq] | [Hr _]] Hrun; [done | congruence]. Qed.

Lemma well_loop_of_well w q : well w -> well_loop w q.
Proof.
  intros [Hidle | [Hrun Ha]]; [by left |]. right. split; [done | by left].
Qed.

Lemma well_loop_nil w : well_loop w [] -> well w.
Proof.
  intros [Hidle | [Hrun [Ha | (j & [] & _)]]]; [by left |].
  right. by split.
Qed.

Lemma well_loop_incl w q q' :
  (forall j, In j q -> live (job_reaction j) w ->
             exists j', In j' q' /\ job_reaction j' = job_reaction j) ->
  well_loop w q -> well_loop w q'.
Proof.
  intros Hincl [Hidle | [Hrun [Ha | (j & Hin & Hl)]]]; [by left | |].
  - right. split; [done | by left].
  - right. split; [done |]. right.
    destruct (Hincl j Hin Hl) as (j' & Hin' & Heq).
    exists j'. split; [done |]. by rewrite Heq.
Qed.

(** Client code keeps the loop in order. *)
Lemma client_step_loop w w' q :
  client_step w w' -> well_loop w q -> well_loop w' q.
Proof.
  intros [Hc Hr Hs Hn He Hw] [Hidle | [Hrun [Ha | (j & Hin & [Hl1 Hl2])]]].
  - apply well_loop_of_well, Hw. by left.
  - apply well_loop_of_well, Hw. right. by split.
  - destruct (decide (_sessionId (mgr w') = _sessionId (mgr w))) as [Heq | Hne].
    + right. split; [by apply Hn |]. right. exists j. split; [done |].
      split; [congruence | done].
    + by apply well_loop_of_well, He.
Qed.

Lemma flush_loop st w q :
  calm_world w -> calm_jobs q -> well_loop w q ->
  exists new w',
    flush st w = Done new w' /\
    calm_world w' /\ calm_jobs (q ++ new) /\ well_loop w' (q ++ new).
Proof.
  intros (Hq & Hrs & Htr) Hj Hw. eexists _, _. split; [reflexivity |].
  split; [| split].
  - split; [done |]. split; [| done]. simpl.
    apply Forall_forall. intros r Hin.
    apply list_elem_of_filter in Hin as [_ Hin].
    rewrite Forall_forall in Hrs. by apply Hrs.
  - apply Forall_app. split; [done |].
    apply Forall_forall. intros j Hin. apply list_elem_of_In in Hin.
    apply in_flat_map in Hin as (r & Hin & Hj').
    unfold ready in Hj'. destruct (st !! on r); [| by destruct Hj'].
    destruct Hj' as [<- | []]. simpl.
    rewrite Forall_forall in Hrs. by apply Hrs, list_elem_of_In.
  - destruct Hw as [Hidle | [Hrun [(r & Hin & Hl) | (j & Hin & Hl)]]];
      [by left | |].
    + right. split; [done |].
      destruct (st !! on r) as [s |] eqn:Hs.
      * right. exists (JThen r s). split; [| done].
        apply in_or_app. right. apply in_flat_map. exists r.
        split; [done |]. unfold ready. rewrite Hs. by left.
      * left. exists r. split; [| done]. simpl.
        apply list_elem_of_In, list_elem_of_filter. split; [done |].
        by apply list_elem_of_In.
    + right. split; [done |]. right. exists j. split; [| done].
      apply in_or_app. by left.
Qed.

(** One job: it completes without leaving a rejection unhandled, and the
    loop stays in order. *)
Lemma run_job_loop n j rest w :
  calm_world w -> calm_jobs (j :: rest) -> well_loop w (j :: rest) ->
  match run_job n j w with
  | Done c w' =>
      calm_world w' /\ calm_jobs (rest ++ chained j c) /\
      well_loop w' (rest ++ chained j c) /\ dropped j c = []
  | Raised _ _ => False
  | OutOfFuel => True
  end.
Proof.
  intros Hc Hj Hw. pose proof (well_loop_rests _ _ Hw) as Hr.
  inversion Hj as [| ? ? Ht Hrest]; subst.
  assert (Hother : forall r, job_reaction j = r -> ~ live r w ->
                             well_loop w rest).
  { intros r Hjr Hn. eapply well_loop_incl; [| exact Hw].
    intros j' [<- | Hin] Hl; [by rewrite Hjr in Hl | by exists j']. }
  assert (Hdone : forall r w', job_reaction j = r -> job_done r w w' ->
                    calm_world w' /\ calm_jobs (rest ++ []) /\
                    well_loop w' (rest ++ [])).
  { intros r w' Hjr [Hlive Hnot]. rewrite app_nil_r.
    destruct (live_dec r w) as [Hl | Hn].
    - destruct (Hlive Hl) as (Hc' & Hw' & _).
      split; [done |]. split; [done |]. by apply well_loop_of_well.
    - pose proof (Hnot Hn) as Hcs.
      split; [exact (cs_calm _ _ Hcs) |]. split; [done |].
      eapply client_step_loop; [exact Hcs |]. by eapply Hother. }
  destruct j as [r s | r e]; cbn [run_job]; unfold attempt; simpl in Ht.
  - pose proof (continuation_serves (_step n) (step_advances n) r s Ht w Hc Hr)
      as H.
    change (match s with
            | Fulfill v => onFulfilled_ (_step n) r v
            | RejectWith e => onRejected_ (_step n) r e
            end w) with (continuation n r s w) in H.
    destruct (continuation n r s w) as [[] w' | e w' |]; [| | done].
    + destruct (Hdone r w' eq_refl H) as (H1 & H2 & H3).
      split; [done |]. split; [done |]. by split.
    + cbn [chained dropped]. split; [exact (cs_calm _ _ H) |].
      split; [| split; [| done]].
      * apply Forall_app. split; [done |]. by constructor.
      * eapply client_step_loop; [exact H |].
        eapply well_loop_incl; [| exact Hw].
        intros j' [<- | Hin] Hl.
        -- exists (JCatch r e). split; [| done]. apply in_or_app. right.
           by left.
        -- exists j'. split; [| done]. apply in_or_app. by left.
  - pose proof (onTail_serves (_step n) (step_advances n) r e w Ht Hc Hr) as H.
    change (onTail_ (_step n) r e w) with (onTail n r e w) in H.
    destruct (onTail n r e w) as [[] w' | e' w' |]; [| done | done].
    destruct (Hdone r w' eq_refl H) as (H1 & H2 & H3).
      split; [done |]. split; [done |]. by split.
Qed.

Lemma drain_heals k n st :
  forall q w,
    calm_world w -> calm_jobs q -> well_loop w q ->
    match drain k n st q [] w with
    | Done _ w' => healthy w'
    | Raised _ _ => False
    | OutOfFuel => True
    end.
Proof.
  induction k as [| k IH]; intros q w Hc Hj Hw;
    (destruct q as [| j rest];
     [simpl; split; [done | by apply well_loop_nil] |]); [done |].
  cbn [drain]. unfold bind at 1.
  pose proof (run_job_loop n j rest w Hc Hj Hw) as H1.
  destruct (run_job n j w) as [c w1 | e w1 |]; [| done | done].
  destruct H1 as (Hc1 & Hj1 & Hw1 & Hd). rewrite Hd, app_nil_r.
  unfold bind at 1.
  destruct (flush_loop st w1 _ Hc1 Hj1 Hw1) as (new & w2 & -> & Hc2 & Hj2 & Hw2).
  assert (Hperm : forall j', In j' ((rest ++ chained j c) ++ new) ->
                             In j' (rest ++ new ++ chained j c)).
  { intros j'. rewrite !in_app_iff. tauto. }
  apply IH; [done | |].
  - apply Forall_forall. intros j' Hin. apply list_elem_of_In in Hin.
    rewrite !in_app_iff in Hin. unfold calm_jobs in Hj2.
    rewrite Forall_forall in Hj2. apply Hj2, list_elem_of_In.
    rewrite !in_app_iff. tauto.
  - eapply well_loop_incl; [| exact Hw2].
    intros j' Hin _. exists j'. split; [by apply Hperm | done].
Qed.

Lemma perform_loop n st i w q :
  calm_input i = true -> calm_world w -> well_loop w q ->
  match perform n st i w with
  | Done _ w' => calm_world w' /\ well_loop w' q
  | Raised _ _ => False
  | OutOfFuel => True
  end.
Proof.
  intros Hi Hc Hw. pose proof (well_loop_rests _ _ Hw) as Hr.
  destruct i as [t | j | | p s]; cbn [perform]; unfold bind.
  - unfold host, addTask.
    pose proof (client_addTask (_step n) (step_advances n) t Hi w Hc Hr) as H.
    destruct (addTask_ (_step n) t w) as [i w' | e w' |];
      [| by destruct H | done].
    split; [exact (cs_calm _ _ H) | by eapply client_step_loop].
  - pose proof (client_cancelTask j w Hc Hr) as H. simpl in H. simpl.
    split; [exact (cs_calm _ _ H) | by eapply client_step_loop].
  - pose proof (client_clear w Hc Hr) as H. simpl in H. simpl.
    split; [exact (cs_calm _ _ H) | by eapply client_step_loop].
  - by split.
Qed.

Lemma calls_loop n ins :
  forall st q w,
    forallb calm_input ins = true ->
    calm_world w -> calm_jobs q -> well_loop w q ->
    match calls n st q ins w with
    | Done x w' => calm_world w' /\ calm_jobs (snd x) /\ well_loop w' (snd x)
    | Raised _ _ => False
    | OutOfFuel => True
    end.
Proof.
  induction ins as [| i rest IH]; intros st q w Hins Hc Hj Hw; [by simpl |].
  simpl in Hins. apply andb_true_iff in Hins as [Hi Hrest].
  cbn [calls]. unfold bind at 1.
  pose proof (perform_loop n st i w q Hi Hc Hw) as H1.
  destruct (perform n st i w) as [st' w1 | e w1 |]; [| done | done].
  destruct H1 as [Hc1 Hw1]. unfold bind at 1.
  destruct (flush_loop st' w1 q Hc1 Hj Hw1) as (new & w2 & -> & Hc2 & Hj2 & Hw2).
  by apply IH.
Qed.

Lemma turn_heals n st ins w :
  forallb calm_input ins = true -> healthy w ->
  match turn n st ins w with
  | Done _ w' => healthy w'
  | Raised _ _ => False
  | OutOfFuel => True
  end.
Proof.
  intros Hins [Hc Hw]. unfold turn, bind at 1.
  pose proof (calls_loop n ins st [] w Hins Hc ltac:(constructor)
                (well_loop_of_well _ _ Hw)) as H1.
  destruct (calls n st [] ins w) as [[st' q] w1 | e w1 |]; [| done | done].
  destruct H1 as (Hc1 & Hj1 & Hw1). simpl in Hj1, Hw1. unfold bind at 1.
  simpl fst. simpl snd.
  pose proof (drain_heals n n st' q w1 Hc1 Hj1 Hw1) as H2.
  by destruct (drain n n st' q [] w1).
Qed.

Lemma turns_heal n ts :
  forall st w,
    calm_turns ts = true -> healthy w ->
    match turns n st ts w with
    | Done _ w' => healthy w'
    | Raised _ _ => False
    | OutOfFuel => True
    end.
Proof.
  induction ts as [| t rest IH]; intros st w Hts Hw; simpl; [done |].
  simpl in Hts. apply andb_true_iff in Hts as [Ht Hrest].
  unfold bind. pose proof (turn_heals n st t w Ht Hw) as H.
  destruct (turn n st t w) as [st' w1 | e w1 |]; [| done | done].
  by apply IH.
Qed.

Lemma healthy_fresh : healthy fresh.
Proof. split; [by repeat split | by left]. Qed.

(** X14.  Failures stay inside the scheduler as long as no generic-error
    callback throws: whatever the callables and the other callbacks do
    (throw, call [addTask], [cancelTask] or [clear()] at any depth), and
    however the host groups its calls and the settlements of promises into
    turns of the event loop, every turn runs to its end, no exception
    reaches the caller of [addTask], no rejection is left without a
    handler, and after every turn the scheduler is idle with an empty
    queue or a wait-mode entry of the current epoch awaits its promise; it
    is never left stalled. *)
Theorem failures_stay_inside (n : nat) (ts : list (list input)) :
  calm_turns ts = true ->
  2 * turns_size ts < n ->
  exists st w,
    turns n ∅ ts fresh = Done st w /\
    well w /\
    ~ stalled w /\
    Forall (fun e => is_uncaught e = false) (trace w).
Proof.
  intros Hts Hn.
  pose proof (turns_total n ts ∅ fresh) as Htot.
  specialize (Htot ltac:(unfold weight, potential, queue_size, reactions_size;
                         simpl; lia)).
  pose proof (turns_heal n ts ∅ fresh Hts healthy_fresh) as H.
  destruct (turns n ∅ ts fresh) as [st w | e w |]; [| done | done].
  exists st, w. destruct H as [(_ & _ & Htr) Hw].
  split; [done |]. split; [done |]. split; [| done].
  intros [Hrun Hnone].
  destruct Hw as [[Hidle _] | [_ (r & Hin & _)]]; [congruence |].
  rewrite Hnone in Hin. destruct Hin.
Qed.

Lemma failures_stay_inside_witness :
  exists st w,
    turns 9 ∅ [[Submit (recovering_item 1%Z); Submit (sync_item "next" "r")];
               [Settle 1%Z (Fulfill (Plain "v")); Submit (sync_item "last" "r")]]
      fresh = Done st w /\
    well w /\ ~ stalled w /\
    Forall (fun e => is_uncaught e = false) (trace w).
Proof.
  apply (failures_stay_inside 9).
  - reflexivity.
  - vm_compute. lia.
Defined.

(** * The two variants compared *)

Lemma clear_free_unfold tk d rs dw rj ct :
  clear_free (Build_ITask tk d rs dw rj ct)
  = clear_free_ops (body tk) && clear_free_opt rs && clear_free_opt rj
    && clear_free_opt ct.
Proof. reflexivity. Qed.

Lemma clear_free_parts (t : ITask) :
  clear_free t = true ->
  clear_free_ops (body (task t)) = true /\ clear_free_opt (resolve t) = true /\
  clear_free_opt (reject t) = true /\ clear_free_opt (catch t) = true.
Proof.
  destruct t as [tk d rs dw rj ct]. rewrite clear_free_unfold. simpl.
  rewrite !andb_true_iff. tauto.
Qed.

Section Agreement.

Variable rec : M unit.
Variable rec' : Legacy.M unit.
Hypothesis rec_agree : agree 0 rec rec'.

(** The newer variant may be replaced by what it comes to in a world of
    the first epoch. *)
Lemma agree_at_eq {A} c (m m1 : M A) m' w :
  (first_epoch w -> m w = m1 w) -> agree_at c m1 m' w -> agree_at c m m' w.
Proof. intros He H HG. rewrite (He HG). by apply H. Qed.

Lemma agree_weaken {A} c c' (m : M A) m' : c <= c' -> agree c m m' -> agree c' m m'.
Proof.
  intros Hc H w HG Hb. destruct (H w HG ltac:(lia)) as [Heq Hpost].
  split; [exact Heq |]. eapply lands_mono; [exact Hpost |].
  cbv beta. intros w' [? ?]. split; [done | lia].
Qed.

Lemma agree_ret {A} (a : A) : agree 0 (ret a) (Legacy.ret a).
Proof. intros w HG Hb. split; [reflexivity |]. simpl. split; [done | lia]. Qed.

Lemma agree_throw {A} e : agree 0 (@throw A e) (Legacy.throw e).
Proof. intros w HG Hb. split; [reflexivity |]. simpl. split; [done | lia]. Qed.

Lemma agree_bind {A B} c1 c2 (m : M A) m' (k : A -> M B) k' :
  agree c1 m m' -> (forall a, agree c2 (k a) (k' a)) ->
  agree (c1 + c2) (bind m k) (Legacy.bind m' k').
Proof.
  intros Hm Hk w HG Hb. destruct (Hm w HG ltac:(lia)) as [Heq Hpost].
  unfold bind, Legacy.bind. rewrite Heq.
  destruct (m w) as [a w1 | e w1 |]; simpl in *.
  - destruct Hpost as [HG1 Hb1].
    destruct (Hk a w1 HG1 ltac:(lia)) as [Heq2 Hpost2].
    split; [exact Heq2 |]. eapply lands_mono; [exact Hpost2 |].
    cbv beta. intros w' [? ?]. split; [done | lia].
  - split; [reflexivity |]. destruct Hpost. split; [done | lia].
  - done.
Qed.


Lemma agree_modify c f f' :
  (forall m, forget_mgr (f m) = f' (forget_mgr m)) ->
  (forall w, first_epoch w -> (reach w + Z.of_nat c <= 2 ^ 32)%Z ->
     let w' := {| mgr := f (mgr w); reactions := reactions w;
                  trace := trace w |} in
     first_epoch w' /\ (reach w' <= reach w + Z.of_nat c)%Z) ->
  agree c (modify f) (Legacy.modify f').
Proof.
  intros Hf Hw w HG Hb. split.
  - unfold Legacy.modify, modify, forget_outcome, forget.
    cbn [Legacy.mgr Legacy.reactions Legacy.trace mgr reactions trace].
    by rewrite Hf.
  - simpl. by apply Hw.
Qed.

(** An update of the fields the comparison does not depend on. *)
Lemma agree_modify_neutral f f' :
  (forall m, forget_mgr (f m) = f' (forget_mgr m)) ->
  (forall m, _sessionId (f m) = _sessionId m /\ _nextId (f m) = _nextId m
             /\ _tasks (f m) = _tasks m) ->
  agree 0 (modify f) (Legacy.modify f').
Proof.
  intros Hf Hn. apply agree_modify; [exact Hf |].
  intros w (Hs & H0 & Hq & Hr) Hb. destruct (Hn (mgr w)) as (Hs' & Hn' & Hq').
  unfold first_epoch, reach, load. simpl. rewrite Hs', Hn', Hq'.
  split; [done | lia].
Qed.

Lemma agree_emit e : agree 0 (emit e) (Legacy.emit e).
Proof.
  intros w HG Hb. split; [reflexivity |]. simpl.
  split; [exact HG |]. unfold reach, load. simpl. lia.
Qed.

Lemma agree_register r :
  session r = 0%Z -> clear_free (item (owner r)) = true ->
  agree (reaction_size (item (owner r))) (register r)
    (Legacy.register (forget_reaction r)).
Proof.
  intros Hs Hcf w (H1 & H2 & H3 & H4) Hb. split.
  - unfold Legacy.register, register, forget_outcome, forget.
    cbn [Legacy.mgr Legacy.reactions Legacy.trace mgr reactions trace].
    by rewrite List.map_app.
  - simpl. split.
    + split; [done |]. split; [done |]. split; [done |]. simpl.
      apply Forall_app. split; [done |]. by constructor.
    + unfold reach, load. simpl. rewrite reactions_size_app.
      unfold reactions_size at 2. simpl. lia.
Qed.

Lemma agree_cancelTask i : agree 0 (cancelTask i) (Legacy.cancelTask i).
Proof. by apply agree_modify_neutral. Qed.

Lemma agree_checkAndClearCanceled i :
  agree 0 (checkAndClearCanceled i) (Legacy.checkAndClearCanceled i).
Proof.
  intros w HG Hb.
  destruct (decide (i ∈ _taskCancelSet (mgr w))) as [Hc | Hc].
  - rewrite checkAndClearCanceled_marked by done.
    assert (Hleg : Legacy.checkAndClearCanceled i (forget w)
                   = Legacy.Done true (forget (unmarked i w))).
    { unfold Legacy.checkAndClearCanceled, Legacy.bind at 1, Legacy.get.
      simpl. by rewrite decide_True. }
    split; [exact Hleg |]. simpl. split; [exact HG |].
    unfold reach, load. simpl. lia.
  - rewrite checkAndClearCanceled_unmarked by done.
    assert (Hleg : Legacy.checkAndClearCanceled i (forget w)
                   = Legacy.Done false (forget w)).
    { unfold Legacy.checkAndClearCanceled, Legacy.bind at 1, Legacy.get.
      simpl. by rewrite decide_False. }
    split; [exact Hleg |]. simpl. split; [exact HG | lia].
Qed.

Lemma agree_rec : agree 0 rec rec'.
Proof. exact rec_agree. Qed.

Lemma agree_addTask t :
  clear_free t = true ->
  agree (size_task t) (addTask_ rec t) (Legacy.addTask_ rec' t).
Proof.
  intros Hcf w HG Hb.
  assert (Hid : task_id (mgr w) = _nextId (mgr w)).
  { destruct HG as (Hs & H0 & _). apply task_id_first_epoch; [done |].
    unfold reach in Hb. rewrite size_task_eq in Hb. lia. }
  assert (Hleg : Legacy.addTask_ rec' t (forget w)
                 = if _running (mgr w)
                   then Legacy.Done (_nextId (mgr w))
                          (forget
                             {| mgr := set_tasks
                                         (_tasks (mgr w)
                                          ++ [{| id := _nextId (mgr w); item := t |}])
                                         (set_nextId (_nextId (mgr w) + 1) (mgr w));
                                reactions := reactions w; trace := trace w |})
                   else Legacy.bind rec' (fun _ => Legacy.ret (_nextId (mgr w)))
                          (forget
                             {| mgr := set_running true
                                         (set_tasks
                                            (_tasks (mgr w)
                                             ++ [{| id := _nextId (mgr w); item := t |}])
                                            (set_nextId (_nextId (mgr w) + 1) (mgr w)));
                                reactions := reactions w; trace := trace w |})).
  { unfold Legacy.addTask_, Legacy.bind at 1, Legacy.get.
    unfold Legacy.bind at 1, Legacy.modify at 1.
    unfold Legacy.bind at 1, Legacy.modify at 1.
    unfold Legacy.bind at 1, Legacy.get. simpl.
    by destruct (_running (mgr w)). }
  rewrite Hleg. clear Hleg.
  set (wq := {| mgr := set_tasks
                         (_tasks (mgr w)
                          ++ [{| id := _nextId (mgr w); item := t |}])
                         (set_nextId (_nextId (mgr w) + 1) (mgr w));
                reactions := reactions w; trace := trace w |}).
  assert (Hpush : first_epoch wq
                  /\ (reach wq = reach w + Z.of_nat (size_task t))%Z).
  { destruct HG as (Hs & H0 & Hq & Hr). split.
    - split; [done |]. split; [simpl; lia |]. split; [| done]. simpl.
      apply Forall_app. split; [done |]. by constructor.
    - unfold reach, load. simpl. rewrite List.map_app, list_sum_app. simpl.
      rewrite size_task_eq. lia. }
  destruct Hpush as [H1 H2].
  destruct (_running (mgr w)) eqn:Hrun.
  - rewrite addTask_busy by done. rewrite Hid. fold wq.
    split; [reflexivity |]. simpl. split; [exact H1 | lia].
  - rewrite addTask_idle by done. rewrite Hid. unfold submitted. rewrite Hid.
    set (ws := {| mgr := set_running true _; reactions := _; trace := _ |}).
    assert (H1s : first_epoch ws) by exact H1.
    assert (H2s : (reach ws = reach w + Z.of_nat (size_task t))%Z) by exact H2.
    destruct (rec_agree ws H1s ltac:(lia)) as [Heq Hpost].
    unfold bind, Legacy.bind. rewrite Heq.
    destruct (rec ws) as [[] w1 | e w1 |]; simpl in *.
    + split; [reflexivity |]. destruct Hpost. split; [done | lia].
    + split; [reflexivity |]. destruct Hpost. split; [done | lia].
    + done.
Qed.

Lemma agree_runOps ops :
  clear_free_ops ops = true ->
  agree (size_ops ops) (runOps_ rec ops) (Legacy.runOps_ rec' ops).
Proof.
  induction ops as [| o rest IH]; simpl; intros Hcf; [apply agree_ret |].
  destruct o as [i | | t]; [| discriminate |].
  - apply (agree_bind 0); [apply agree_cancelTask | intros; by apply IH].
  - apply andb_true_iff in Hcf as [Ht Hrest].
    apply (agree_weaken ((size_task t + 0) + size_ops rest)); [lia |].
    apply agree_bind; [| intros; by apply IH].
    apply agree_bind; [by apply agree_addTask | intros; apply agree_ret].
Qed.

Lemma agree_call f :
  clear_free_ops (body f) = true ->
  agree (size_code f) (call_ rec f) (Legacy.call_ rec' f).
Proof.
  intros Hcf. unfold call_, Legacy.call_.
  apply (agree_weaken (size_ops (body f) + 0)); [unfold size_code; lia |].
  apply agree_bind; [by apply agree_runOps |]. intros _.
  destruct (fin f); [apply agree_ret | apply agree_throw].
Qed.

Lemma agree_callback ev (cb : option (code ITask)) skip skip' :
  clear_free_opt cb = true ->
  agree 0 skip skip' ->
  agree (size_opt cb)
    (match cb with
     | Some f => emit ev ;;; call_ rec f ;;; ret tt
     | None => skip
     end)
    (match cb with
     | Some f =>
         Legacy.bind (Legacy.emit ev)
           (fun _ => Legacy.bind (Legacy.call_ rec' f) (fun _ => Legacy.ret tt))
     | None => skip'
     end).
Proof.
  intros Hcf Hskip. destruct cb as [f |]; simpl; [| exact Hskip].
  apply (agree_weaken (0 + (size_code f + 0))); [lia |].
  apply agree_bind; [apply agree_emit |]. intros _.
  apply agree_bind; [by apply agree_call |]. intros _. apply agree_ret.
Qed.


Lemma agree_handleAsyncTask ti p :
  clear_free (item ti) = true ->
  agree (reaction_size (item ti)) (handleAsyncTask_ rec ti p 0%Z)
    (Legacy.handleAsyncTask_ rec' ti p).
Proof.
  intros Hcf. unfold handleAsyncTask_, Legacy.handleAsyncTask_.
  apply (agree_weaken (reaction_size (item ti) + 0)); [lia |].
  apply agree_bind.
  - by apply (agree_register {| on := p; owner := ti; session := 0 |}).
  - intros _. destruct (negb _); [apply agree_rec | apply agree_ret].
Qed.

Lemma agree_sync_catch ti e :
  clear_free (item ti) = true ->
  agree (size_opt (catch (item ti))) (sync_catch_ rec ti 0%Z e)
    (Legacy.sync_catch_ rec' ti e).
Proof.
  intros Hcf w.
  apply (agree_at_eq _ _
           (match catch (item ti) with
            | Some f => emit (EvCatch SSync (id ti) e) ;;; call_ rec f ;;; ret tt
            | None => emit (EvError SSync (taskDesc (item ti)) e)
            end)).
  { intros HG. unfold sync_catch_, bind at 1, get.
    rewrite decide_True; [done | apply HG]. }
  unfold Legacy.sync_catch_.
  apply agree_callback; [by apply clear_free_parts | apply agree_emit].
Qed.

Lemma agree_sync_resolve ti v :
  clear_free (item ti) = true ->
  agree (size_opt (resolve (item ti))) (sync_resolve_ rec ti 0%Z v)
    (Legacy.sync_resolve_ rec' ti v).
Proof.
  intros Hcf w.
  apply (agree_at_eq _ _
           (match resolve (item ti) with
            | Some f => emit (EvResolve SSync (id ti) v) ;;; call_ rec f ;;; ret tt
            | None => ret tt
            end)).
  { intros HG. unfold sync_resolve_, bind at 1, get.
    rewrite decide_True; [done | apply HG]. }
  unfold Legacy.sync_resolve_.
  apply agree_callback; [by apply clear_free_parts | apply agree_ret].
Qed.

(** The world after [this._runningTasks.delete(i)] is the same world to
    the older variant. *)
Lemma agree_running_removed i w :
  first_epoch w ->
  first_epoch (running_removed i w) /\ reach (running_removed i w) = reach w.
Proof. intros HG. split; [exact HG | reflexivity]. Qed.

Lemma agree_sync_finally ti b :
  agree 0 (sync_finally_ rec ti 0%Z b) (Legacy.sync_finally_ rec' b).
Proof.
  intros w.
  apply (agree_at_eq _ _
           (if negb b then fun w => rec (running_removed (id ti) w)
            else ret tt)).
  { intros HG. unfold sync_finally_, bind at 1, get.
    rewrite bool_decide_eq_true_2 by apply HG. rewrite andb_true_r.
    by destruct (negb b). }
  unfold Legacy.sync_finally_. destruct (negb b); [| by apply agree_ret].
  intros HG Hb.
  destruct (agree_running_removed (id ti) w HG) as [HG1 Hb1].
  destruct (rec_agree (running_removed (id ti) w) HG1 ltac:(lia))
    as [Heq Hpost].
  split; [exact Heq |]. eapply lands_mono; [exact Hpost |].
  cbv beta. intros w' [? ?]. split; [done | lia].
Qed.

Lemma agree_try_catch_finally c1 c2 c3 protected protected' handler handler'
    finally finally' :
  agree c1 protected protected' ->
  (forall e, agree c2 (handler e) (handler' e)) ->
  agree c3 finally finally' ->
  agree (c1 + c2 + c3) (try_catch_finally protected handler finally)
    (Legacy.try_catch_finally protected' handler' finally').
Proof.
  intros Hp Hh Hf w HG Hb.
  unfold try_catch_finally, Legacy.try_catch_finally.
  destruct (Hp w HG ltac:(lia)) as [Heq1 Hpost1]. rewrite Heq1.
  destruct (protected w) as [[] w1 | e w1 |]; simpl in *; [| | done].
  - destruct Hpost1 as [HG1 Hb1].
    destruct (Hf w1 HG1 ltac:(lia)) as [Heq3 Hpost3].
    split; [exact Heq3 |]. eapply lands_mono; [exact Hpost3 |].
    cbv beta. intros w' [? ?]. split; [done | lia].
  - destruct Hpost1 as [HG1 Hb1].
    destruct (Hh e w1 HG1 ltac:(lia)) as [Heq2 Hpost2]. rewrite Heq2.
    destruct (handler e w1) as [[] w2 | e2 w2 |]; simpl in *; [| | done].
    + destruct Hpost2 as [HG2 Hb2].
      destruct (Hf w2 HG2 ltac:(lia)) as [Heq3 Hpost3].
      split; [exact Heq3 |]. eapply lands_mono; [exact Hpost3 |].
      cbv beta. intros w' [? ?]. split; [done | lia].
    + destruct Hpost2 as [HG2 Hb2].
      destruct (Hf w2 HG2 ltac:(lia)) as [Heq3 Hpost3]. rewrite Heq3.
      destruct (finally w2) as [[] w3 | e3 w3 |]; simpl in *; [| | done].
      * split; [reflexivity |]. destruct Hpost3. split; [done | lia].
      * split; [reflexivity |]. destruct Hpost3. split; [done | lia].
Qed.

Lemma agree_handleFunctionTask ti :
  clear_free (item ti) = true ->
  agree (task_cost (item ti)) (handleFunctionTask_ rec ti)
    (Legacy.handleFunctionTask_ rec' ti).
Proof.
  intros Hcf w.
  apply (agree_at_eq _ _
           (fun w =>
              match (emit (EvTask (id ti)) ;;; call_ rec (task (item ti))) w with
              | Done (Deferred p) w1 =>
                  try_catch_finally (handleAsyncTask_ rec ti p 0%Z)
                    (sync_catch_ rec ti 0%Z) (sync_finally_ rec ti 0%Z true) w1
              | Done result w1 =>
                  try_catch_finally (sync_resolve_ rec ti 0%Z result)
                    (sync_catch_ rec ti 0%Z) (sync_finally_ rec ti 0%Z false) w1
              | Raised error w1 =>
                  try_catch_finally (throw error)
                    (sync_catch_ rec ti 0%Z) (sync_finally_ rec ti 0%Z false) w1
              | OutOfFuel => OutOfFuel
              end)).
  { intros HG. unfold handleFunctionTask_, bind at 1, get.
    assert (Hs : _sessionId (mgr w) = 0%Z) by apply HG. by rewrite Hs. }
  intros HG Hb. unfold Legacy.handleFunctionTask_.
  assert (Hcall : agree (0 + size_code (task (item ti)))
                    (emit (EvTask (id ti)) ;;; call_ rec (task (item ti)))
                    (Legacy.bind (Legacy.emit (EvTask (id ti)))
                       (fun _ => Legacy.call_ rec' (task (item ti))))).
  { apply agree_bind; [apply agree_emit |]. intros _.
    by apply agree_call, clear_free_parts. }
  assert (Hr : reaction_size (item ti)
               = size_opt (resolve (item ti)) + size_opt (reject (item ti))
                 + 2 * size_opt (catch (item ti))) by reflexivity.
  unfold task_cost in Hb.
  destruct (Hcall w HG ltac:(lia)) as [Heq Hpost]. rewrite Heq.
  destruct ((emit (EvTask (id ti)) ;;; call_ rec (task (item ti))) w)
    as [v w1 | e w1 |]; simpl in Hpost |- *; [| | done];
    destruct Hpost as [HG1 Hb1].
  - destruct v as [s | p]; cbn [forget_outcome].
    + destruct (agree_try_catch_finally _ _ _ _ _ _ _ _ _
                  (agree_sync_resolve ti (Plain s) Hcf)
                  (fun e => agree_sync_catch ti e Hcf)
                  (agree_sync_finally ti false) w1 HG1 ltac:(lia))
        as [Heq2 Hpost2].
      split; [exact Heq2 |]. eapply lands_mono; [exact Hpost2 |].
      cbv beta. unfold task_cost. intros w' [? ?]. split; [done | lia].
    + destruct (agree_try_catch_finally _ _ _ _ _ _ _ _ _
                  (agree_handleAsyncTask ti p Hcf)
                  (fun e => agree_sync_catch ti e Hcf)
                  (agree_sync_finally ti true) w1 HG1 ltac:(lia))
        as [Heq2 Hpost2].
      split; [exact Heq2 |]. eapply lands_mono; [exact Hpost2 |].
      cbv beta. unfold task_cost. intros w' [? ?]. split; [done | lia].
  - destruct (agree_try_catch_finally _ _ _ _ _ _ _ _ _
                (agree_throw e)
                (fun e => agree_sync_catch ti e Hcf)
                (agree_sync_finally ti false) w1 HG1 ltac:(lia))
      as [Heq2 Hpost2].
    split; [exact Heq2 |]. eapply lands_mono; [exact Hpost2 |].
    cbv beta. unfold task_cost. intros w' [? ?]. split; [done | lia].
Qed.

Lemma agree_dispatch ti :
  clear_free (item ti) = true ->
  agree (task_cost (item ti))
    (canceled <- checkAndClearCanceled (id ti) ;;
     if (canceled : bool) then rec
     else
       modify (fun m =>
         set_runningTasks (<[ id ti := ti ]> (_runningTasks m)) m) ;;;
       handleFunctionTask_ rec ti)
    (Legacy.bind (Legacy.checkAndClearCanceled (id ti))
       (fun canceled : bool =>
          if canceled then rec' else Legacy.handleFunctionTask_ rec' ti)).
Proof.
  intros Hcf. apply (agree_weaken (0 + task_cost (item ti))); [lia |].
  apply agree_bind; [apply agree_checkAndClearCanceled |].
  intros [|].
  - eapply agree_weaken; [| apply agree_rec]. lia.
  - intros w2 HG2 Hb2. unfold bind, modify.
    set (w3 := {| mgr := set_runningTasks _ (mgr w2);
                  reactions := reactions w2; trace := trace w2 |}).
    exact (agree_handleFunctionTask ti Hcf w3 HG2 Hb2).
Qed.

Lemma agree_step_body : agree 0 (step_body rec) (Legacy.step_body rec').
Proof.
  intros w HG Hb.
  destruct (_tasks (mgr w)) as [| ti q] eqn:Hq.
  - assert (Hcur : step_body rec w = modify (set_running false) w).
    { unfold step_body, bind at 1, get. by rewrite Hq. }
    assert (Hleg : Legacy.step_body rec' (forget w)
                   = Legacy.modify (Legacy.set_running false) (forget w)).
    { unfold Legacy.step_body, Legacy.bind at 1, Legacy.get.
      change (Legacy._tasks (Legacy.mgr (forget w))) with (_tasks (mgr w)).
      by rewrite Hq. }
    rewrite Hcur, Hleg.
    by apply (agree_modify_neutral (set_running false)
                (Legacy.set_running false)).
  - set (w1 := {| mgr := set_tasks q (mgr w); reactions := reactions w;
                  trace := trace w |}).
    assert (Hcf : clear_free (item ti) = true).
    { destruct HG as (_ & _ & Hq' & _). rewrite Hq in Hq'.
      by inversion Hq'. }
    assert (HG1 : first_epoch w1).
    { destruct HG as (Hs & H0 & Hq' & Hr). rewrite Hq in Hq'.
      inversion Hq'; subst. by repeat split. }
    assert (Hb1 : (reach w1 + Z.of_nat (task_cost (item ti)) = reach w)%Z).
    { unfold reach, load. simpl. rewrite Hq. simpl. lia. }
    assert (Hcur : step_body rec w
                   = (canceled <- checkAndClearCanceled (id ti) ;;
                      if (canceled : bool) then rec
                      else
                        modify (fun m =>
                          set_runningTasks (<[ id ti := ti ]> (_runningTasks m)) m) ;;;
                        handleFunctionTask_ rec ti) w1).
    { unfold step_body, bind at 1, get. by rewrite Hq. }
    assert (Hleg : Legacy.step_body rec' (forget w)
                   = Legacy.bind (Legacy.checkAndClearCanceled (id ti))
                       (fun canceled : bool =>
                          if canceled then rec'
                          else Legacy.handleFunctionTask_ rec' ti) (forget w1)).
    { unfold Legacy.step_body, Legacy.bind at 1, Legacy.get.
      change (Legacy._tasks (Legacy.mgr (forget w))) with (_tasks (mgr w)).
      by rewrite Hq. }
    rewrite Hcur, Hleg.
    destruct (agree_dispatch ti Hcf w1 HG1 ltac:(lia)) as [Heq Hpost].
    split; [exact Heq |]. eapply lands_mono; [exact Hpost |].
    cbv beta. intros w' [? ?]. split; [done | lia].
Qed.


(** *** The continuations *)

Lemma agree_advance ti :
  agree 0 (if shouldWait (item ti) then rec else ret tt)
    (if shouldWait (item ti) then rec' else Legacy.ret tt).
Proof. destruct (shouldWait _); [apply agree_rec | apply agree_ret]. Qed.

Lemma agree_onFulfilled r v :
  session r = 0%Z -> clear_free (item (owner r)) = true ->
  agree (size_opt (resolve (item (owner r)))) (onFulfilled_ rec r v)
    (Legacy.onFulfilled_ rec' (forget_reaction r) v).
Proof.
  intros Hs Hcf w.
  set (rest :=
         canceled <- checkAndClearCanceled (id (owner r)) ;;
         (if (canceled : bool) then ret tt
          else
            match resolve (item (owner r)) with
            | Some f =>
                emit (EvResolve SFulfilled (id (owner r)) v) ;;;
                call_ rec f ;;; ret tt
            | None => ret tt
            end) ;;;
         if shouldWait (item (owner r)) then rec else ret tt).
  apply (agree_at_eq _ _ (fun w => rest (running_removed (id (owner r)) w))).
  { intros HG. unfold onFulfilled_, bind at 1, get.
    rewrite decide_False; [done |]. intros Hne. apply Hne. rewrite Hs.
    apply HG. }
  assert (Hrest : agree (size_opt (resolve (item (owner r)))) rest
                    (Legacy.onFulfilled_ rec' (forget_reaction r) v)).
  { unfold rest, Legacy.onFulfilled_. simpl Legacy.owner.
    apply (agree_weaken (0 + (size_opt (resolve (item (owner r))) + 0)));
      [lia |].
    apply agree_bind; [apply agree_checkAndClearCanceled |]. intros canceled.
    apply agree_bind; [| intros; apply agree_advance].
    destruct canceled.
    - eapply agree_weaken; [| apply agree_ret]. lia.
    - apply agree_callback; [by apply clear_free_parts | apply agree_ret]. }
  exact (Hrest (running_removed (id (owner r)) w)).
Qed.

Lemma agree_onRejected r v :
  session r = 0%Z -> clear_free (item (owner r)) = true ->
  agree (size_opt (reject (item (owner r)))
         + size_opt (catch (item (owner r))))
    (onRejected_ rec r v)
    (Legacy.onRejected_ rec' (forget_reaction r) v).
Proof.
  intros Hs Hcf w.
  set (c := size_opt (reject (item (owner r)))
            + size_opt (catch (item (owner r)))).
  set (rest :=
         canceled <- checkAndClearCanceled (id (owner r)) ;;
         (if (canceled : bool) then ret tt
          else
            match reject (item (owner r)) with
            | Some f =>
                emit (EvReject (id (owner r)) v) ;;; call_ rec f ;;; ret tt
            | None =>
                match catch (item (owner r)) with
                | Some f =>
                    emit (EvCatch SRejected (id (owner r)) v) ;;;
                    call_ rec f ;;; ret tt
                | None =>
                    emit (EvError SRejected (taskDesc (item (owner r))) v)
                end
            end) ;;;
         if shouldWait (item (owner r)) then rec else ret tt).
  apply (agree_at_eq _ _ (fun w => rest (running_removed (id (owner r)) w))).
  { intros HG. unfold onRejected_, bind at 1, get.
    rewrite decide_False; [done |]. intros Hne. apply Hne. rewrite Hs.
    apply HG. }
  assert (Hrest : agree c rest
                    (Legacy.onRejected_ rec' (forget_reaction r) v)).
  { unfold rest, Legacy.onRejected_. simpl Legacy.owner.
    apply (agree_weaken (0 + (c + 0))); [lia |].
    apply agree_bind; [apply agree_checkAndClearCanceled |]. intros canceled.
    apply agree_bind; [| intros; apply agree_advance].
    destruct canceled.
    - eapply agree_weaken; [| apply agree_ret]. lia.
    - unfold c. destruct (clear_free_parts _ Hcf) as (_ & _ & Hrj & Hct).
      destruct (reject (item (owner r))) as [f |].
      + eapply agree_weaken;
          [| apply (agree_callback _ (Some f) (ret tt) (Legacy.ret tt));
             [exact Hrj | apply agree_ret]].
        lia.
      + simpl. apply agree_callback; [exact Hct | apply agree_emit]. }
  exact (Hrest (running_removed (id (owner r)) w)).
Qed.

Lemma agree_onTail r v :
  session r = 0%Z -> clear_free (item (owner r)) = true ->
  agree (size_opt (catch (item (owner r)))) (onTail_ rec r v)
    (Legacy.onTail_ rec' (forget_reaction r) v).
Proof.
  intros Hs Hcf w.
  set (rest :=
         match catch (item (owner r)) with
         | Some f =>
             emit (EvCatch STail (id (owner r)) v) ;;; call_ rec f ;;; ret tt
         | None => emit (EvError STail (taskDesc (item (owner r))) v)
         end ;;;
         if shouldWait (item (owner r)) then rec else ret tt).
  apply (agree_at_eq _ _ (fun w => rest (running_removed (id (owner r)) w))).
  { intros HG. unfold onTail_, bind at 1, get.
    rewrite decide_False; [done |]. intros Hne. apply Hne. rewrite Hs.
    apply HG. }
  assert (Hrest : agree (size_opt (catch (item (owner r)))) rest
                    (Legacy.onTail_ rec' (forget_reaction r) v)).
  { unfold rest, Legacy.onTail_. simpl Legacy.owner.
    apply (agree_weaken (size_opt (catch (item (owner r))) + 0)); [lia |].
    apply agree_bind; [| intros; apply agree_advance].
    apply agree_callback; [by apply clear_free_parts | apply agree_emit]. }
  exact (Hrest (running_removed (id (owner r)) w)).
Qed.

Lemma agree_try_catch {A} c1 c2 (m : M A) m' handler handler' :
  agree c1 m m' -> (forall e, agree c2 (handler e) (handler' e)) ->
  agree (c1 + c2) (try_catch m handler) (Legacy.try_catch m' handler').
Proof.
  intros Hm Hh w HG Hb. unfold try_catch, Legacy.try_catch.
  destruct (Hm w HG ltac:(lia)) as [Heq Hpost]. rewrite Heq.
  destruct (m w) as [a w1 | e w1 |]; simpl in *; [| | done].
  - split; [reflexivity |]. destruct Hpost. split; [done | lia].
  - destruct Hpost as [HG1 Hb1].
    destruct (Hh e w1 HG1 ltac:(lia)) as [Heq2 Hpost2].
    split; [exact Heq2 |]. eapply lands_mono; [exact Hpost2 |].
    cbv beta. intros w' [? ?]. split; [done | lia].
Qed.

Lemma agree_host {A} c (m : M A) m' :
  agree c m m' -> agree c (host m) (Legacy.host m').
Proof.
  intros Hm w HG Hb. unfold host, Legacy.host.
  destruct (Hm w HG Hb) as [Heq Hpost]. rewrite Heq.
  destruct (m w) as [a w1 | e w1 |]; simpl in *; [| | done].
  - split; [reflexivity | exact Hpost].
  - split; [reflexivity |]. destruct Hpost as [HG1 Hb1].
    split; [exact HG1 |]. unfold reach, load in *. simpl. lia.
Qed.

End Agreement.

(** [_step] in the two variants. *)
Lemma agree_step (n : nat) : agree 0 (_step n) (Legacy._step n).
Proof.
  induction n as [| n IH]; [by intros w HG Hb |].
  simpl. by apply agree_step_body.
Qed.

(** *** The event loop *)

Lemma agree_continuation n r s :
  session r = 0%Z -> clear_free (item (owner r)) = true ->
  agree (size_opt (resolve (item (owner r)))
         + size_opt (reject (item (owner r)))
         + size_opt (catch (item (owner r))))
    (continuation n r s) (Legacy.continuation n (forget_reaction r) s).
Proof.
  intros Hs Hcf. destruct s.
  - eapply agree_weaken;
      [| by apply agree_onFulfilled; [apply agree_step | |]]. lia.
  - eapply agree_weaken;
      [| by apply agree_onRejected; [apply agree_step | |]]. lia.
Qed.

Lemma forget_chained j c :
  map forget_job (chained j c) = Legacy.chained (forget_job j) c.
Proof. by destruct j, c. Qed.

Lemma forget_dropped j c : Legacy.dropped (forget_job j) c = dropped j c.
Proof. by destruct j, c. Qed.

(** One job in the two variants. *)
Lemma agree_run_job n j w :
  first_epoch w -> first_epoch_jobs [j] ->
  (reach w + Z.of_nat (job_cost j) <= 2 ^ 32)%Z ->
  Legacy.run_job n (forget_job j) (forget w) = forget_outcome (run_job n j w) /\
  spec True (run_job n j w)
    (fun c w' =>
       first_epoch w' /\ first_epoch_jobs (chained j c) /\
       (reach w' + Z.of_nat (jobs_cost (chained j c))
        <= reach w + Z.of_nat (job_cost j))%Z)
    (fun _ => False).
Proof.
  intros HG Hj Hb. apply Forall_inv in Hj as [Hs Hcf].
  destruct j as [r s | r e]; cbn [run_job forget_job Legacy.run_job];
    unfold attempt, Legacy.attempt; simpl in Hs, Hcf, Hb;
    unfold reaction_size in Hb.
  - destruct (agree_continuation n r s Hs Hcf w HG ltac:(lia)) as [Heq Hpost].
    rewrite Heq.
    destruct (continuation n r s w) as [[] w1 | e w1 |]; simpl in *;
      [| | done]; destruct Hpost as [HG1 Hb1].
    + split; [done |]. split; [done |]. split; [constructor |].
      unfold jobs_cost, reaction_size. simpl. lia.
    + split; [done |]. split; [done |]. split; [by repeat constructor |].
      unfold jobs_cost, reaction_size. simpl. lia.
  - destruct (agree_onTail (_step n) (Legacy._step n) (agree_step n) r e Hs Hcf
                w HG ltac:(lia)) as [Heq Hpost].
    change (Legacy.onTail n (forget_reaction r) e (forget w))
      with (Legacy.onTail_ (Legacy._step n) (forget_reaction r) e (forget w)).
    rewrite Heq. change (onTail n r e w) with (onTail_ (_step n) r e w).
    destruct (onTail_ (_step n) r e w) as [[] w1 | e1 w1 |]; simpl in *;
      [| | done]; destruct Hpost as [HG1 Hb1].
    + split; [done |]. split; [done |]. split; [constructor |].
      unfold jobs_cost. simpl. lia.
    + split; [done |]. split; [done |]. split; [constructor |].
      unfold jobs_cost. simpl. lia.
Qed.

Lemma forget_ready st r :
  map forget_job (ready st r) = Legacy.ready st (forget_reaction r).
Proof. unfold ready, Legacy.ready. simpl. by destruct (st !! on r). Qed.

Lemma forget_flush_jobs st rs :
  map forget_job (flat_map (ready st) rs)
  = flat_map (Legacy.ready st) (map forget_reaction rs).
Proof.
  induction rs as [| r rest IH]; [done |].
  simpl. by rewrite map_app, forget_ready, IH.
Qed.

Lemma forget_flush_rest (st : promises) rs :
  filter (fun r => st !! Legacy.on r = None) (map forget_reaction rs)
  = map forget_reaction (filter (fun r => st !! on r = None) rs).
Proof.
  induction rs as [| r rest IH]; [done |].
  simpl map. rewrite !filter_cons. simpl Legacy.on.
  destruct (decide (st !! on r = None)); simpl; by rewrite IH.
Qed.

(** The reactions on settled promises become jobs in both variants. *)
Lemma agree_flush st w :
  first_epoch w ->
  exists new w',
    flush st w = Done new w' /\
    Legacy.flush st (forget w) = Legacy.Done (map forget_job new) (forget w') /\
    first_epoch w' /\ first_epoch_jobs new /\
    (reach w' + Z.of_nat (jobs_cost new) = reach w)%Z.
Proof.
  intros (Hs & H0 & Hq & Hr). eexists _, _. split; [reflexivity |]. split.
  { unfold Legacy.flush, forget.
    cbn [Legacy.mgr Legacy.reactions Legacy.trace mgr reactions trace].
    by rewrite forget_flush_jobs, forget_flush_rest. }
  rewrite Forall_forall in Hr. split; [| split].
  - split; [done |]. split; [done |]. split; [done |].
    apply Forall_forall. intros r Hin.
    apply list_elem_of_filter in Hin as [_ Hin]. by apply Hr.
  - apply Forall_forall. intros j Hin. apply list_elem_of_In in Hin.
    apply in_flat_map in Hin as (r & Hin & Hj).
    unfold ready in Hj. destruct (st !! on r); [| by destruct Hj].
    destruct Hj as [<- | []]. simpl. by apply Hr, list_elem_of_In.
  - destruct (flush_moves st (reactions w)) as [H1 _].
    unfold reach, load. simpl. lia.
Qed.

Lemma agree_report es : agree 0 (report es) (Legacy.report es).
Proof.
  induction es as [| e rest IH]; simpl; [apply agree_ret |].
  change 0 with (0 + 0). apply agree_bind; [apply agree_emit | by intros].
Qed.

(** The event loop in the two variants. *)
Lemma agree_drain k n st :
  forall q es w,
    first_epoch w -> first_epoch_jobs q ->
    (reach w + Z.of_nat (jobs_cost q) <= 2 ^ 32)%Z ->
    Legacy.drain k n st (map forget_job q) es (forget w)
    = forget_outcome (drain k n st q es w) /\
    lands True (drain k n st q es w)
      (fun w' => first_epoch w' /\
                 (reach w' <= reach w + Z.of_nat (jobs_cost q))%Z).
Proof.
  assert (Hnil : forall k0 es w,
            first_epoch w -> (reach w <= 2 ^ 32)%Z ->
            Legacy.drain k0 n st [] es (forget w)
            = forget_outcome (drain k0 n st [] es w) /\
            lands True (drain k0 n st [] es w)
              (fun w' => first_epoch w' /\
                         (reach w' <= reach w + Z.of_nat (jobs_cost []))%Z)).
  { intros k0 es w HG Hb.
    destruct (agree_report es w HG ltac:(lia)) as [Heq Hpost].
    destruct k0; (split; [exact Heq |]);
      (eapply lands_mono; [exact Hpost |]); cbv beta;
      intros w' [? ?]; (split; [done | lia]). }
  induction k as [| k IH]; intros q es w HG Hq Hb;
    (destruct q as [| j rest];
     [apply Hnil; [done | unfold jobs_cost in Hb; simpl in Hb; lia] |]).
  - by split.
  - cbn [drain Legacy.drain map]. unfold bind, Legacy.bind.
    change (jobs_cost (j :: rest)) with (job_cost j + jobs_cost rest) in *.
    inversion Hq as [| ? ? Hj Hrest]; subst.
    destruct (agree_run_job n j w HG ltac:(by constructor) ltac:(lia))
      as [Heq Hpost].
    rewrite Heq.
    destruct (run_job n j w) as [c w1 | e w1 |]; simpl in Hpost;
      [| done | by split].
    destruct Hpost as (HG1 & Hq1 & Hb1).
    cbn [forget_outcome].
    destruct (agree_flush st w1 HG1) as (new & w2 & -> & -> & HG2 & Hq2 & Hb2).
    rewrite forget_dropped, <- forget_chained, <- !map_app.
    destruct (IH (rest ++ new ++ chained j c) (es ++ dropped j c) w2 HG2)
      as [Heq2 Hpost2].
    + apply Forall_app. split; [done |]. by apply Forall_app.
    + rewrite !jobs_cost_app. lia.
    + split; [exact Heq2 |]. eapply lands_mono; [exact Hpost2 |].
      cbv beta. intros w' [? H]. split; [done |].
      rewrite !jobs_cost_app in H. lia.
Qed.

Lemma agree_perform n st i :
  clear_free_input i = true ->
  agree (input_size i) (perform n st i) (Legacy.perform n st i).
Proof.
  destruct i as [t | j | | p s]; simpl; intros Hcf.
  - rewrite <- (Nat.add_0_r (size_task t)).
    apply agree_bind; [| intros; apply agree_ret].
    by apply agree_host, agree_addTask; [apply agree_step |].
  - change 0 with (0 + 0).
    apply agree_bind; [apply agree_cancelTask | intros; apply agree_ret].
  - discriminate.
  - apply agree_ret.
Qed.

(** The calls of one turn in the two variants. *)
Lemma agree_calls n ins :
  forall st q w,
    forallb clear_free_input ins = true ->
    first_epoch w -> first_epoch_jobs q ->
    (reach w + Z.of_nat (jobs_cost q + inputs_size ins) <= 2 ^ 32)%Z ->
    Legacy.calls n st (map forget_job q) ins (forget w)
    = forget_with (fun x => (fst x, map forget_job (snd x)))
        (calls n st q ins w) /\
    spec True (calls n st q ins w)
      (fun x w' =>
         first_epoch w' /\ first_epoch_jobs (snd x) /\
         (reach w' + Z.of_nat (jobs_cost (snd x))
          <= reach w + Z.of_nat (jobs_cost q + inputs_size ins))%Z)
      (fun w' =>
         first_epoch w' /\
         (reach w' <= reach w + Z.of_nat (jobs_cost q + inputs_size ins))%Z).
Proof.
  induction ins as [| i rest IH]; intros st q w Hcf HG Hq Hb.
  - simpl. split; [reflexivity |]. split; [done |]. split; [done |].
    unfold inputs_size. simpl. lia.
  - simpl in Hcf. apply andb_true_iff in Hcf as [Hi Hrest].
    change (inputs_size (i :: rest)) with (input_size i + inputs_size rest)
      in *.
    cbn [calls Legacy.calls]. unfold bind, Legacy.bind.
    destruct (agree_perform n st i Hi w HG ltac:(lia)) as [Heq Hpost].
    rewrite Heq.
    destruct (perform n st i w) as [st1 w1 | e w1 |]; simpl in Hpost;
      [| | by split].
    2: { destruct Hpost as [HG1 Hb1]. simpl.
         split; [reflexivity |]. split; [done | lia]. }
    destruct Hpost as [HG1 Hb1].
    cbn [forget_outcome].
    destruct (agree_flush st1 w1 HG1) as (new & w2 & -> & -> & HG2 & Hq2 & Hb2).
    rewrite <- map_app.
    destruct (IH st1 (q ++ new) w2 Hrest HG2) as [Heq2 Hpost2].
    + by apply Forall_app.
    + rewrite jobs_cost_app. lia.
    + split; [exact Heq2 |].
      destruct (calls n st1 (q ++ new) rest w2) as [x w3 | e w3 |];
        simpl in *; [| | done].
      * destruct Hpost2 as (? & ? & H). split; [done |]. split; [done |].
        rewrite jobs_cost_app in H. lia.
      * destruct Hpost2 as (? & H). split; [done |].
        rewrite jobs_cost_app in H. lia.
Qed.

(** One turn of the event loop in the two variants. *)
Lemma agree_turn n st ins :
  forallb clear_free_input ins = true ->
  agree (inputs_size ins) (turn n st ins) (Legacy.turn n st ins).
Proof.
  intros Hcf w HG Hb. unfold turn, Legacy.turn, bind, Legacy.bind.
  destruct (agree_calls n ins st [] w Hcf HG ltac:(constructor))
    as [Heq Hpost].
  { unfold jobs_cost. simpl. lia. }
  change (map forget_job []) with (@nil Legacy.job) in Heq. rewrite Heq.
  destruct (calls n st [] ins w) as [[st1 q] w1 | e w1 |]; simpl in Hpost;
    [| | by split].
  - destruct Hpost as (HG1 & Hq1 & Hb1).
    cbn [forget_with fst snd].
    destruct (agree_drain n n st1 q [] w1 HG1 Hq1) as [Heq2 Hpost2].
    { unfold jobs_cost in *. simpl in Hb1. lia. }
    rewrite Heq2.
    destruct (drain n n st1 q [] w1) as [[] w2 | e w2 |]; simpl in *;
      [| | by split].
    + destruct Hpost2 as [HG2 Hb2]. split; [reflexivity |].
      split; [done |]. unfold jobs_cost in *. simpl in Hb1. lia.
    + destruct Hpost2 as [HG2 Hb2]. split; [reflexivity |].
      split; [done |]. unfold jobs_cost in *. simpl in Hb1. lia.
  - destruct Hpost as [HG1 Hb1]. simpl. split; [reflexivity |].
    split; [done |]. unfold jobs_cost in *. simpl in Hb1. lia.
Qed.

Lemma agree_turns n ts :
  forall st,
    forallb (forallb clear_free_input) ts = true ->
    agree (turns_size ts) (turns n st ts) (Legacy.turns n st ts).
Proof.
  induction ts as [| t rest IH]; intros st Hcf; [apply agree_ret |].
  simpl in Hcf. apply andb_true_iff in Hcf as [Ht Hrest].
  assert (Hsize : turns_size (t :: rest) = inputs_size t + turns_size rest).
  { unfold turns_size, inputs_size. simpl.
    by rewrite map_app, list_sum_app. }
  rewrite Hsize. cbn [turns Legacy.turns].
  apply agree_bind; [by apply agree_turn | intros; by apply IH].
Qed.

Lemma agree_run n ins :
  forallb clear_free_input ins = true ->
  agree (inputs_size ins) (run n ins) (Legacy.run n ins).
Proof.
  intros Hcf. unfold run, Legacy.run.
  rewrite <- (Nat.add_0_r (inputs_size ins)), <- turns_size_singletons.
  apply agree_bind; [| intros; apply agree_ret].
  apply agree_turns. induction ins as [| i rest IH]; [done |].
  simpl in *. apply andb_true_iff in Hcf as [Hi Hrest].
  by rewrite Hi, IH.
Qed.


Lemma first_epoch_fresh : first_epoch fresh.
Proof. repeat split; simpl; (lia || constructor). Qed.

(** X9.  Without [clear()], and with less client code than the counter
    has values below 2^32, the two variants of the class do the same: the
    same callbacks and diagnostics in the same order, the same
    identifiers, the same pending entries and cancellation marks, and the
    same outcome under every bound on the recursion depth. *)
Theorem variants_agree_without_clear (n : nat) (ins : list input) :
  forallb clear_free_input ins = true ->
  (Z.of_nat (inputs_size ins) < 2 ^ 32)%Z ->
  Legacy.run n ins Legacy.fresh = forget_outcome (run n ins fresh) /\
  Legacy.observe n ins = observe n ins.
Proof.
  intros Hcf Hb.
  destruct (agree_run n ins Hcf fresh first_epoch_fresh) as [Heq _].
  { change (reach fresh) with 1%Z. lia. }
  change (forget fresh) with Legacy.fresh in Heq.
  split; [exact Heq |].
  unfold Legacy.observe, observe. rewrite Heq.
  by destruct (run n ins fresh).
Qed.

(** ** The older variant: termination, the counter and the trace *)

Lemma legacy_later_refl w : Legacy.later w w.
Proof. split; [lia | done]. Qed.

Lemma legacy_later_trans w1 w2 w3 :
  Legacy.later w1 w2 -> Legacy.later w2 w3 -> Legacy.later w1 w3.
Proof. intros [H1 H2] [H3 H4]. split; [lia | by etrans]. Qed.

Lemma legacy_lands_mono {A} oof (o : Legacy.outcome A) (Q Q' : Legacy.World -> Prop) :
  Legacy.lands oof o Q -> (forall w, Q w -> Q' w) -> Legacy.lands oof o Q'.
Proof. destruct o; simpl; auto. Qed.

Lemma legacy_lands_finished {A} (o : Legacy.outcome A) Q :
  Legacy.lands False o Q -> Legacy.finished o.
Proof. destruct o; simpl; auto. Qed.

Lemma legacy_reactions_size_app r1 r2 :
  Legacy.reactions_size (r1 ++ r2)
  = Legacy.reactions_size r1 + Legacy.reactions_size r2.
Proof.
  unfold Legacy.reactions_size. rewrite List.map_app, list_sum_app. reflexivity.
Qed.

Section LegacyTermination.

Variable n : nat.
Variable rec : Legacy.M unit.
Hypothesis rec_total : Legacy.tot n 0 rec.

Lemma legacy_tot_weaken {A} c c' (m : Legacy.M A) :
  c <= c' -> Legacy.tot n c m -> Legacy.tot n c' m.
Proof.
  intros Hc H w Hw. eapply legacy_lands_mono; [apply H; lia |].
  cbv beta. intros w' [? ?]. split; [lia | done].
Qed.

Lemma legacy_tot_ret {A} (a : A) : Legacy.tot n 0 (Legacy.ret a).
Proof. intros w _. simpl. split; [lia | apply legacy_later_refl]. Qed.

Lemma legacy_tot_throw {A} e : Legacy.tot n 0 (@Legacy.throw A e).
Proof. intros w _. simpl. split; [lia | apply legacy_later_refl]. Qed.

Lemma legacy_tot_bind {A B} c1 c2 (m : Legacy.M A) (k : A -> Legacy.M B) :
  Legacy.tot n c1 m -> (forall a, Legacy.tot n c2 (k a)) ->
  Legacy.tot n (c1 + c2) (Legacy.bind m k).
Proof.
  intros Hm Hk w Hw. unfold Legacy.bind.
  pose proof (Hm w ltac:(lia)) as H1.
  destruct (m w) as [a w1 | e w1 |]; simpl in H1; [| | done].
  - destruct H1 as [Hp1 Hl1].
    eapply legacy_lands_mono; [apply Hk; lia |].
    cbv beta. intros w' [? ?].
    split; [lia | by eapply legacy_later_trans].
  - simpl. destruct H1. split; [lia | done].
Qed.

Lemma legacy_tot_modify f :
  (forall m, queue_size (Legacy._tasks (f m)) <= queue_size (Legacy._tasks m)
             /\ (Legacy._nextId m <= Legacy._nextId (f m))%Z) ->
  Legacy.tot n 0 (Legacy.modify f).
Proof.
  intros Hf w _. destruct (Hf (Legacy.mgr w)) as [Hq Hn].
  unfold Legacy.potential, Legacy.later. simpl. split; [lia | done].
Qed.

Lemma legacy_tot_emit e : Legacy.tot n 0 (Legacy.emit e).
Proof.
  intros w _. unfold Legacy.potential, Legacy.later. simpl.
  split; [lia |]. split; [lia | by apply prefix_app_r].
Qed.

Lemma legacy_tot_register r :
  Legacy.tot n (reaction_size (item (Legacy.owner r))) (Legacy.register r).
Proof.
  intros w _. unfold Legacy.potential, Legacy.later. simpl.
  rewrite legacy_reactions_size_app. unfold Legacy.reactions_size at 2. simpl.
  split; [lia | done].
Qed.

Lemma legacy_tot_cancelTask i : Legacy.tot n 0 (Legacy.cancelTask i).
Proof. apply legacy_tot_modify. intros m. simpl. split; lia. Qed.

Lemma legacy_tot_clear : Legacy.tot n 0 Legacy.clear.
Proof.
  apply legacy_tot_modify. intros m. simpl. unfold queue_size. simpl.
  split; lia.
Qed.

Lemma legacy_tot_checkAndClearCanceled i :
  Legacy.tot n 0 (Legacy.checkAndClearCanceled i).
Proof.
  unfold Legacy.checkAndClearCanceled.
  intros w Hw. unfold Legacy.bind at 1, Legacy.get.
  destruct (decide _); [| by apply legacy_tot_ret].
  apply (legacy_tot_bind 0 0); [| intros; apply legacy_tot_ret | done].
  apply legacy_tot_modify. intros; simpl; split; lia.
Qed.

Lemma legacy_tot_addTask t :
  Legacy.tot n (size_task t) (Legacy.addTask_ rec t).
Proof.
  intros w Hw.
  set (w1 := {| Legacy.mgr :=
                  Legacy.set_tasks
                    (Legacy._tasks (Legacy.mgr w)
                     ++ [{| id := Legacy._nextId (Legacy.mgr w); item := t |}])
                    (Legacy.set_nextId (Legacy._nextId (Legacy.mgr w) + 1)
                       (Legacy.mgr w));
                Legacy.reactions := Legacy.reactions w;
                Legacy.trace := Legacy.trace w |}).
  assert (Hp : Legacy.potential w1 = Legacy.potential w + size_task t).
  { unfold Legacy.potential. simpl. rewrite queue_size_app.
    unfold queue_size at 2. simpl. lia. }
  assert (Hl : Legacy.later w w1) by (split; simpl; [lia | done]).
  assert (Heq : Legacy.addTask_ rec t w
                = if Legacy._running (Legacy.mgr w)
                  then Legacy.Done (Legacy._nextId (Legacy.mgr w)) w1
                  else Legacy.bind rec
                         (fun _ => Legacy.ret (Legacy._nextId (Legacy.mgr w)))
                         {| Legacy.mgr := Legacy.set_running true (Legacy.mgr w1);
                            Legacy.reactions := Legacy.reactions w;
                            Legacy.trace := Legacy.trace w |}).
  { unfold Legacy.addTask_, Legacy.bind at 1, Legacy.get.
    unfold Legacy.bind at 1, Legacy.modify at 1.
    unfold Legacy.bind at 1, Legacy.modify at 1.
    unfold Legacy.bind at 1, Legacy.get. simpl.
    by destruct (Legacy._running (Legacy.mgr w)). }
  rewrite Heq. destruct (Legacy._running (Legacy.mgr w)).
  - simpl. split; [lia | done].
  - set (w2 := {| Legacy.mgr := Legacy.set_running true (Legacy.mgr w1);
                  Legacy.reactions := _; Legacy.trace := _ |}).
    assert (Hp2 : Legacy.potential w2 = Legacy.potential w1) by reflexivity.
    assert (Hl2 : Legacy.later w1 w2) by (split; simpl; [lia | done]).
    unfold Legacy.bind. pose proof (rec_total w2 ltac:(lia)) as H.
    destruct (rec w2) as [[] w3 | e w3 |]; simpl in *; [| | done];
      destruct H as [H1 H2];
      (split; [lia |]);
      eapply legacy_later_trans; [exact Hl | | exact Hl | ];
      by eapply legacy_later_trans.
Qed.

Lemma legacy_tot_runOps ops :
  Legacy.tot n (size_ops ops) (Legacy.runOps_ rec ops).
Proof.
  induction ops as [| o rest IH]; simpl; [apply legacy_tot_ret |].
  destruct o as [i | | t].
  - apply (legacy_tot_bind 0); [apply legacy_tot_cancelTask | intros; apply IH].
  - apply (legacy_tot_bind 0); [apply legacy_tot_clear | intros; apply IH].
  - apply (legacy_tot_weaken ((size_task t + 0) + size_ops rest)); [lia |].
    apply legacy_tot_bind; [| intros; apply IH].
    apply legacy_tot_bind; [apply legacy_tot_addTask | intros; apply legacy_tot_ret].
Qed.

Lemma legacy_tot_call f :
  Legacy.tot n (size_code f) (Legacy.call_ rec f).
Proof.
  unfold Legacy.call_. apply (legacy_tot_weaken (size_ops (body f) + 0)).
  { unfold size_code. lia. }
  apply legacy_tot_bind; [apply legacy_tot_runOps |]. intros _.
  destruct (fin f); [apply legacy_tot_ret | apply legacy_tot_throw].
Qed.

Lemma legacy_tot_callback ev (cb : option (code ITask)) (skip : Legacy.M unit) :
  Legacy.tot n 0 skip ->
  Legacy.tot n (size_opt cb)
    (match cb with
     | Some f =>
         Legacy.bind (Legacy.emit ev)
           (fun _ => Legacy.bind (Legacy.call_ rec f) (fun _ => Legacy.ret tt))
     | None => skip
     end).
Proof.
  intros Hskip. destruct cb as [f |]; simpl; [| exact Hskip].
  apply (legacy_tot_weaken (0 + (size_code f + 0))); [lia |].
  apply legacy_tot_bind; [apply legacy_tot_emit |]. intros _.
  apply legacy_tot_bind; [apply legacy_tot_call |]. intros _.
  apply legacy_tot_ret.
Qed.

Lemma legacy_tot_handleAsyncTask ti p :
  Legacy.tot n (reaction_size (item ti)) (Legacy.handleAsyncTask_ rec ti p).
Proof.
  unfold Legacy.handleAsyncTask_.
  apply (legacy_tot_weaken (reaction_size (item ti) + 0)); [lia |].
  apply legacy_tot_bind;
    [apply (legacy_tot_register {| Legacy.on := p; Legacy.owner := ti |}) |].
  intros _. destruct (negb _); [exact rec_total | apply legacy_tot_ret].
Qed.

Lemma legacy_tot_sync_catch ti e :
  Legacy.tot n (size_opt (catch (item ti))) (Legacy.sync_catch_ rec ti e).
Proof. apply legacy_tot_callback, legacy_tot_emit. Qed.

Lemma legacy_tot_sync_finally b : Legacy.tot n 0 (Legacy.sync_finally_ rec b).
Proof.
  unfold Legacy.sync_finally_.
  destruct (negb b); [exact rec_total | apply legacy_tot_ret].
Qed.

Lemma legacy_tot_sync_resolve ti v :
  Legacy.tot n (size_opt (resolve (item ti))) (Legacy.sync_resolve_ rec ti v).
Proof. apply legacy_tot_callback, legacy_tot_ret. Qed.

Lemma legacy_tot_try_catch_finally cp ch cf protected handler finally :
  Legacy.tot n cp protected -> (forall e, Legacy.tot n ch (handler e)) ->
  Legacy.tot n cf finally ->
  Legacy.tot n (cp + ch + cf)
    (Legacy.try_catch_finally protected handler finally).
Proof.
  intros Hp Hh Hf w Hw. unfold Legacy.try_catch_finally.
  pose proof (Hp w ltac:(lia)) as H1.
  destruct (protected w) as [[] w1 | e w1 |]; simpl in H1; [| | contradiction];
    destruct H1 as [Hp1 Hl1].
  - pose proof (Hf w1 ltac:(lia)) as H2.
    eapply legacy_lands_mono; [exact H2 |]. cbv beta. intros w' [? ?].
    split; [lia | by eapply legacy_later_trans].
  - pose proof (Hh e w1 ltac:(lia)) as H2.
    destruct (handler e w1) as [[] w2 | e2 w2 |]; simpl in H2;
      [| | contradiction]; destruct H2 as [Hp2 Hl2];
      assert (Hl12 : Legacy.later w w2) by (by eapply legacy_later_trans).
    + pose proof (Hf w2 ltac:(lia)) as H3.
      eapply legacy_lands_mono; [exact H3 |]. cbv beta. intros w' [? ?].
      split; [lia | by eapply legacy_later_trans].
    + pose proof (Hf w2 ltac:(lia)) as H3.
      destruct (finally w2) as [[] w3 | e3 w3 |]; simpl in *; [| | done];
        destruct H3; (split; [lia | by eapply legacy_later_trans]).
Qed.

Lemma legacy_tot_handleFunctionTask ti :
  Legacy.tot n (task_cost (item ti)) (Legacy.handleFunctionTask_ rec ti).
Proof.
  intros w Hw. unfold Legacy.handleFunctionTask_.
  assert (Hcall : Legacy.tot n (0 + size_code (task (item ti)))
                    (Legacy.bind (Legacy.emit (EvTask (id ti)))
                       (fun _ => Legacy.call_ rec (task (item ti))))).
  { apply legacy_tot_bind; [apply legacy_tot_emit | intros; apply legacy_tot_call]. }
  assert (Hr : reaction_size (item ti)
               = size_opt (resolve (item ti)) + size_opt (reject (item ti))
                 + 2 * size_opt (catch (item ti))) by reflexivity.
  unfold task_cost in *.
  pose proof (Hcall w ltac:(lia)) as H1.
  destruct (Legacy.bind (Legacy.emit (EvTask (id ti)))
              (fun _ => Legacy.call_ rec (task (item ti))) w)
    as [v w1 | e w1 |]; simpl in H1; [| | contradiction];
    destruct H1 as [Hp1 Hl1].
  - destruct v as [s | p].
    + eapply legacy_lands_mono.
      * apply (legacy_tot_try_catch_finally _ _ _ _ _ _
                 (legacy_tot_sync_resolve ti _)
                 (legacy_tot_sync_catch ti)
                 (legacy_tot_sync_finally _)). lia.
      * cbv beta. intros w' [? ?].
        split; [lia | by eapply legacy_later_trans].
    + eapply legacy_lands_mono.
      * apply (legacy_tot_try_catch_finally _ _ _ _ _ _
                 (legacy_tot_handleAsyncTask ti _)
                 (legacy_tot_sync_catch ti)
                 (legacy_tot_sync_finally _)). lia.
      * cbv beta. intros w' [? ?].
        split; [lia | by eapply legacy_later_trans].
  - eapply legacy_lands_mono.
    + apply (legacy_tot_try_catch_finally 0 _ _ _ _ _
               (legacy_tot_throw _)
               (legacy_tot_sync_catch ti)
               (legacy_tot_sync_finally _)). lia.
    + cbv beta. intros w' [? ?].
      split; [lia | by eapply legacy_later_trans].
Qed.

Lemma legacy_step_body_total w :
  Legacy.potential w < S n ->
  Legacy.lands False (Legacy.step_body rec w)
    (fun w' => Legacy.potential w' <= Legacy.potential w /\ Legacy.later w w').
Proof.
  intros Hw. unfold Legacy.step_body, Legacy.bind at 1, Legacy.get.
  destruct (Legacy._tasks (Legacy.mgr w)) as [| ti q] eqn:Hq.
  - unfold Legacy.potential, Legacy.later. simpl. rewrite Hq.
    unfold queue_size. simpl. split; [lia |]. split; [lia | done].
  - assert (Hpop : Legacy.potential w
                   = S (task_cost (item ti)) + queue_size q
                     + Legacy.reactions_size (Legacy.reactions w)).
    { unfold Legacy.potential. rewrite Hq. unfold queue_size. simpl.
      rewrite size_task_eq. reflexivity. }
    set (w1 := {| Legacy.mgr := Legacy.set_tasks q (Legacy.mgr w);
                  Legacy.reactions := Legacy.reactions w;
                  Legacy.trace := Legacy.trace w |}).
    assert (Hw1 : Legacy.potential w1
                  = queue_size q + Legacy.reactions_size (Legacy.reactions w))
      by reflexivity.
    assert (Hl1 : Legacy.later w w1) by (split; simpl; [lia | done]).
    assert (Hrest : Legacy.tot n (0 + task_cost (item ti))
              (Legacy.bind (Legacy.checkAndClearCanceled (id ti))
                 (fun canceled : bool =>
                    if canceled then rec
                    else Legacy.handleFunctionTask_ rec ti))).
    { apply legacy_tot_bind; [apply legacy_tot_checkAndClearCanceled |].
      intros [|].
      - eapply legacy_tot_weaken; [| exact rec_total]. lia.
      - apply legacy_tot_handleFunctionTask. }
    unfold Legacy.bind at 1. unfold Legacy.modify at 1. fold w1.
    eapply legacy_lands_mono; [apply (Hrest w1); lia |].
    cbv beta. intros w' [? ?].
    split; [lia | by eapply legacy_later_trans].
Qed.

End LegacyTermination.

Lemma legacy_step_total (n : nat) : Legacy.tot n 0 (Legacy._step n).
Proof.
  induction n as [| n IH]; intros w Hw; [lia |].
  simpl. eapply legacy_lands_mono.
  - apply (legacy_step_body_total n); [exact IH | lia].
  - cbv beta. intros w' [? ?]. split; [lia | done].
Qed.

Section LegacyContinuations.

Variable n : nat.
Variable rec : Legacy.M unit.
Hypothesis rec_total : Legacy.tot n 0 rec.

Lemma legacy_tot_after_callback (ti : TaskInfo) (m : Legacy.M unit) c :
  Legacy.tot n c m ->
  Legacy.tot n c
    (Legacy.bind m
       (fun _ => if shouldWait (item ti) then rec else Legacy.ret tt)).
Proof.
  intros Hm. apply (legacy_tot_weaken n (c + 0)); [lia |].
  apply legacy_tot_bind; [exact Hm |]. intros _.
  destruct (shouldWait _); [exact rec_total | apply legacy_tot_ret].
Qed.

Lemma legacy_tot_onFulfilled r v :
  Legacy.tot n (size_opt (resolve (item (Legacy.owner r))))
    (Legacy.onFulfilled_ rec r v).
Proof.
  unfold Legacy.onFulfilled_.
  apply (legacy_tot_weaken n (0 + size_opt (resolve (item (Legacy.owner r)))));
    [lia |].
  apply legacy_tot_bind; [apply legacy_tot_checkAndClearCanceled |].
  intros canceled. apply legacy_tot_after_callback. destruct canceled.
  - eapply legacy_tot_weaken; [| apply legacy_tot_ret]. lia.
  - apply legacy_tot_callback; [exact rec_total | apply legacy_tot_ret].
Qed.

Lemma legacy_tot_onRejected r v :
  Legacy.tot n (size_opt (reject (item (Legacy.owner r)))
                + size_opt (catch (item (Legacy.owner r))))
    (Legacy.onRejected_ rec r v).
Proof.
  unfold Legacy.onRejected_.
  set (c := size_opt (reject (item (Legacy.owner r)))
            + size_opt (catch (item (Legacy.owner r)))).
  apply (legacy_tot_weaken n (0 + c)); [lia |].
  apply legacy_tot_bind; [apply legacy_tot_checkAndClearCanceled |].
  intros canceled. apply legacy_tot_after_callback. destruct canceled.
  { eapply legacy_tot_weaken; [| apply legacy_tot_ret]. lia. }
  unfold c. destruct (reject (item (Legacy.owner r))) as [f |].
  - eapply legacy_tot_weaken;
      [| apply (legacy_tot_callback n rec rec_total _ (Some f) (Legacy.ret tt)),
           legacy_tot_ret].
    lia.
  - simpl. apply legacy_tot_callback; [exact rec_total | apply legacy_tot_emit].
Qed.

Lemma legacy_tot_onTail r v :
  Legacy.tot n (size_opt (catch (item (Legacy.owner r))))
    (Legacy.onTail_ rec r v).
Proof.
  unfold Legacy.onTail_. apply legacy_tot_after_callback.
  apply legacy_tot_callback; [exact rec_total | apply legacy_tot_emit].
Qed.

Lemma legacy_tot_try_catch {A} c1 c2 (m : Legacy.M A) handler :
  Legacy.tot n c1 m -> (forall e, Legacy.tot n c2 (handler e)) ->
  Legacy.tot n (c1 + c2) (Legacy.try_catch m handler).
Proof.
  intros Hm Hh w Hw. unfold Legacy.try_catch.
  pose proof (Hm w ltac:(lia)) as H1.
  destruct (m w) as [a w1 | e w1 |]; simpl in *; [| | done];
    destruct H1 as [Hp1 Hl1]; [split; [lia | done] |].
  eapply legacy_lands_mono; [apply Hh; lia |]. cbv beta. intros w' [? ?].
  split; [lia | by eapply legacy_later_trans].
Qed.

Lemma legacy_tot_host {A} c (m : Legacy.M A) :
  Legacy.tot n c m -> Legacy.tot n c (Legacy.host m).
Proof.
  intros Hm w Hw. unfold Legacy.host. pose proof (Hm w Hw) as H1.
  destruct (m w) as [a w1 | e w1 |]; simpl in *; [done | | done].
  destruct H1 as [Hp1 [Hn1 Ht1]]. split; [exact Hp1 |]. split; [exact Hn1 |].
  simpl. etrans; [exact Ht1 | by apply prefix_app_r].
Qed.

End LegacyContinuations.

(** *** The weight of a world *)

Section LegacyWeight.

Variable rec : Legacy.M unit.
Hypothesis rec_light : Legacy.light 0 rec.

Lemma legacy_light_weaken {A} c c' (m : Legacy.M A) :
  c <= c' -> Legacy.light c m -> Legacy.light c' m.
Proof.
  intros Hc H w. eapply legacy_lands_mono; [apply H |]. cbv beta. intros. lia.
Qed.

Lemma legacy_light_ret {A} (a : A) : Legacy.light 0 (Legacy.ret a).
Proof. intros w. simpl. lia. Qed.

Lemma legacy_light_throw {A} e : Legacy.light 0 (@Legacy.throw A e).
Proof. intros w. simpl. lia. Qed.

Lemma legacy_light_bind {A B} c1 c2 (m : Legacy.M A) (k : A -> Legacy.M B) :
  Legacy.light c1 m -> (forall a, Legacy.light c2 (k a)) ->
  Legacy.light (c1 + c2) (Legacy.bind m k).
Proof.
  intros Hm Hk w. unfold Legacy.bind. pose proof (Hm w) as H1.
  destruct (m w) as [a w1 | e w1 |]; simpl in H1; [| | done].
  - eapply legacy_lands_mono; [apply Hk |]. cbv beta. intros. lia.
  - simpl. lia.
Qed.

Lemma legacy_light_get : Legacy.light 0 Legacy.get.
Proof. intros w. simpl. lia. Qed.

Lemma legacy_light_modify f :
  (forall m, queue_size (Legacy._tasks (f m)) <= queue_size (Legacy._tasks m)) ->
  Legacy.light 0 (Legacy.modify f).
Proof.
  intros Hf w. unfold Legacy.weight, Legacy.potential. simpl.
  specialize (Hf (Legacy.mgr w)). lia.
Qed.

Lemma legacy_light_emit e : Legacy.light 0 (Legacy.emit e).
Proof. intros w. unfold Legacy.weight, Legacy.potential. simpl. lia. Qed.

Lemma legacy_light_register r :
  Legacy.light (S (reaction_size (item (Legacy.owner r)))) (Legacy.register r).
Proof.
  intros w. unfold Legacy.weight, Legacy.potential. simpl.
  rewrite legacy_reactions_size_app, length_app.
  unfold Legacy.reactions_size at 2. simpl. lia.
Qed.

Lemma legacy_light_cancelTask i : Legacy.light 0 (Legacy.cancelTask i).
Proof. apply legacy_light_modify. intros m. simpl. lia. Qed.

Lemma legacy_light_clear : Legacy.light 0 Legacy.clear.
Proof.
  apply legacy_light_modify. intros m. simpl. unfold queue_size. simpl. lia.
Qed.

Lemma legacy_light_checkAndClearCanceled i :
  Legacy.light 0 (Legacy.checkAndClearCanceled i).
Proof.
  unfold Legacy.checkAndClearCanceled.
  apply (legacy_light_bind 0 0); [apply legacy_light_get |]. intros m.
  destruct (decide _); [| apply legacy_light_ret].
  apply (legacy_light_bind 0 0); [| intros; apply legacy_light_ret].
  apply legacy_light_modify. intros; simpl; lia.
Qed.

Lemma legacy_light_addTask t :
  Legacy.light (size_task t) (Legacy.addTask_ rec t).
Proof.
  unfold Legacy.addTask_.
  apply (legacy_light_weaken (0 + (0 + (size_task t + (0 + (0 + 0))))));
    [lia |].
  apply legacy_light_bind; [apply legacy_light_get |]. intros m.
  apply legacy_light_bind; [apply legacy_light_modify; intros; simpl; lia |].
  intros _. apply legacy_light_bind.
  { intros w. unfold Legacy.weight, Legacy.potential. simpl.
    rewrite queue_size_app. unfold queue_size at 2. simpl. lia. }
  intros _. apply legacy_light_bind; [apply legacy_light_get |]. intros m'.
  apply legacy_light_bind; [| intros; apply legacy_light_ret].
  destruct (negb (Legacy._running m')); [| apply legacy_light_ret].
  apply (legacy_light_bind 0 0);
    [apply legacy_light_modify; intros; simpl; lia |].
  intros _. apply rec_light.
Qed.

Lemma legacy_light_runOps ops :
  Legacy.light (size_ops ops) (Legacy.runOps_ rec ops).
Proof.
  induction ops as [| o rest IH]; simpl; [apply legacy_light_ret |].
  destruct o as [i | | t].
  - apply (legacy_light_bind 0);
      [apply legacy_light_cancelTask | intros; apply IH].
  - apply (legacy_light_bind 0); [apply legacy_light_clear | intros; apply IH].
  - apply (legacy_light_weaken ((size_task t + 0) + size_ops rest)); [lia |].
    apply legacy_light_bind; [| intros; apply IH].
    apply legacy_light_bind;
      [apply legacy_light_addTask | intros; apply legacy_light_ret].
Qed.

Lemma legacy_light_call f :
  Legacy.light (size_code f) (Legacy.call_ rec f).
Proof.
  unfold Legacy.call_. apply (legacy_light_weaken (size_ops (body f) + 0)).
  { unfold size_code. lia. }
  apply legacy_light_bind; [apply legacy_light_runOps |]. intros _.
  destruct (fin f); [apply legacy_light_ret | apply legacy_light_throw].
Qed.

Lemma legacy_light_callback ev (cb : option (code ITask))
    (skip : Legacy.M unit) :
  Legacy.light 0 skip ->
  Legacy.light (size_opt cb)
    (match cb with
     | Some f =>
         Legacy.bind (Legacy.emit ev)
           (fun _ => Legacy.bind (Legacy.call_ rec f) (fun _ => Legacy.ret tt))
     | None => skip
     end).
Proof.
  intros Hskip. destruct cb as [f |]; simpl; [| exact Hskip].
  apply (legacy_light_weaken (0 + (size_code f + 0))); [lia |].
  apply legacy_light_bind; [apply legacy_light_emit |]. intros _.
  apply legacy_light_bind; [apply legacy_light_call |]. intros _.
  apply legacy_light_ret.
Qed.

Lemma legacy_light_handleAsyncTask ti p :
  Legacy.light (S (reaction_size (item ti))) (Legacy.handleAsyncTask_ rec ti p).
Proof.
  unfold Legacy.handleAsyncTask_.
  apply (legacy_light_weaken (S (reaction_size (item ti)) + 0)); [lia |].
  apply legacy_light_bind;
    [apply (legacy_light_register {| Legacy.on := p; Legacy.owner := ti |}) |].
  intros _. destruct (negb _); [apply rec_light | apply legacy_light_ret].
Qed.

Lemma legacy_light_sync_catch ti e :
  Legacy.light (size_opt (catch (item ti))) (Legacy.sync_catch_ rec ti e).
Proof. apply legacy_light_callback, legacy_light_emit. Qed.

Lemma legacy_light_sync_finally b :
  Legacy.light 0 (Legacy.sync_finally_ rec b).
Proof.
  unfold Legacy.sync_finally_.
  destruct (negb b); [apply rec_light | apply legacy_light_ret].
Qed.

Lemma legacy_light_sync_resolve ti v :
  Legacy.light (size_opt (resolve (item ti))) (Legacy.sync_resolve_ rec ti v).
Proof. apply legacy_light_callback, legacy_light_ret. Qed.

Lemma legacy_light_try_catch_finally cp ch cf protected handler finally :
  Legacy.light cp protected -> (forall e, Legacy.light ch (handler e)) ->
  Legacy.light cf finally ->
  Legacy.light (cp + ch + cf)
    (Legacy.try_catch_finally protected handler finally).
Proof.
  intros Hp Hh Hf w. unfold Legacy.try_catch_finally.
  pose proof (Hp w) as H1.
  destruct (protected w) as [[] w1 | e w1 |]; simpl in H1; [| | exact I].
  - pose proof (Hf w1) as H2.
    eapply legacy_lands_mono; [exact H2 |]. cbv beta. intros. lia.
  - pose proof (Hh e w1) as H2.
    destruct (handler e w1) as [[] w2 | e2 w2 |]; simpl in H2; [| | exact I].
    + pose proof (Hf w2) as H3.
      eapply legacy_lands_mono; [exact H3 |]. cbv beta. intros. lia.
    + pose proof (Hf w2) as H3.
      destruct (finally w2) as [[] w3 | e3 w3 |]; simpl in *; lia.
Qed.

Lemma legacy_light_handleFunctionTask ti :
  Legacy.light (size_task (item ti)) (Legacy.handleFunctionTask_ rec ti).
Proof.
  intros w. unfold Legacy.handleFunctionTask_.
  assert (Hcall : Legacy.light (0 + size_code (task (item ti)))
                    (Legacy.bind (Legacy.emit (EvTask (id ti)))
                       (fun _ => Legacy.call_ rec (task (item ti))))).
  { apply legacy_light_bind;
      [apply legacy_light_emit | intros; apply legacy_light_call]. }
  assert (Hr : reaction_size (item ti)
               = size_opt (resolve (item ti)) + size_opt (reject (item ti))
                 + 2 * size_opt (catch (item ti))) by reflexivity.
  rewrite size_task_eq. unfold task_cost.
  pose proof (Hcall w) as H1.
  destruct (Legacy.bind (Legacy.emit (EvTask (id ti)))
              (fun _ => Legacy.call_ rec (task (item ti))) w)
    as [v w1 | e w1 |]; simpl in H1; [| | exact I].
  - destruct v as [s | p].
    + eapply legacy_lands_mono.
      * apply (legacy_light_try_catch_finally _ _ _ _ _ _
                 (legacy_light_sync_resolve ti _)
                 (legacy_light_sync_catch ti)
                 (legacy_light_sync_finally _)).
      * cbv beta. intros. lia.
    + eapply legacy_lands_mono.
      * apply (legacy_light_try_catch_finally _ _ _ _ _ _
                 (legacy_light_handleAsyncTask ti _)
                 (legacy_light_sync_catch ti)
                 (legacy_light_sync_finally _)).
      * cbv beta. intros. lia.
  - eapply legacy_lands_mono.
    + apply (legacy_light_try_catch_finally 0 _ _ _ _ _
               (legacy_light_throw _)
               (legacy_light_sync_catch ti)
               (legacy_light_sync_finally _)).
    + cbv beta. intros. lia.
Qed.

Lemma legacy_light_step_body : Legacy.light 0 (Legacy.step_body rec).
Proof.
  intros w. unfold Legacy.step_body, Legacy.bind at 1, Legacy.get.
  destruct (Legacy._tasks (Legacy.mgr w)) as [| ti q] eqn:Hq.
  - unfold Legacy.weight, Legacy.potential. simpl. rewrite Hq.
    unfold queue_size. simpl. lia.
  - set (w1 := {| Legacy.mgr := Legacy.set_tasks q (Legacy.mgr w);
                  Legacy.reactions := Legacy.reactions w;
                  Legacy.trace := Legacy.trace w |}).
    assert (Hw1 : Legacy.weight w1 + size_task (item ti) = Legacy.weight w).
    { unfold Legacy.weight, Legacy.potential. simpl. rewrite Hq.
      unfold queue_size. simpl. lia. }
    assert (Hrest : Legacy.light (0 + size_task (item ti))
              (Legacy.bind (Legacy.checkAndClearCanceled (id ti))
                 (fun canceled : bool =>
                    if canceled then rec
                    else Legacy.handleFunctionTask_ rec ti))).
    { apply legacy_light_bind; [apply legacy_light_checkAndClearCanceled |].
      intros [|].
      - eapply legacy_light_weaken; [| apply rec_light]. lia.
      - apply legacy_light_handleFunctionTask. }
    unfold Legacy.bind at 1. unfold Legacy.modify at 1. fold w1.
    eapply legacy_lands_mono; [apply (Hrest w1) |].
    cbv beta. intros. lia.
Qed.

Lemma legacy_light_after_callback (ti : TaskInfo) (m : Legacy.M unit) c :
  Legacy.light c m ->
  Legacy.light c
    (Legacy.bind m
       (fun _ => if shouldWait (item ti) then rec else Legacy.ret tt)).
Proof.
  intros Hm. apply (legacy_light_weaken (c + 0)); [lia |].
  apply legacy_light_bind; [exact Hm |]. intros _.
  destruct (shouldWait _); [apply rec_light | apply legacy_light_ret].
Qed.

Lemma legacy_light_onFulfilled r v :
  Legacy.light (size_opt (resolve (item (Legacy.owner r))))
    (Legacy.onFulfilled_ rec r v).
Proof.
  unfold Legacy.onFulfilled_.
  apply (legacy_light_weaken
           (0 + size_opt (resolve (item (Legacy.owner r))))); [lia |].
  apply legacy_light_bind; [apply legacy_light_checkAndClearCanceled |].
  intros canceled. apply legacy_light_after_callback. destruct canceled.
  - eapply legacy_light_weaken; [| apply legacy_light_ret]. lia.
  - apply legacy_light_callback, legacy_light_ret.
Qed.

Lemma legacy_light_onRejected r v :
  Legacy.light (size_opt (reject (item (Legacy.owner r)))
                + size_opt (catch (item (Legacy.owner r))))
    (Legacy.onRejected_ rec r v).
Proof.
  unfold Legacy.onRejected_.
  set (c := size_opt (reject (item (Legacy.owner r)))
            + size_opt (catch (item (Legacy.owner r)))).
  apply (legacy_light_weaken (0 + c)); [lia |].
  apply legacy_light_bind; [apply legacy_light_checkAndClearCanceled |].
  intros canceled. apply legacy_light_after_callback. destruct canceled.
  { eapply legacy_light_weaken; [| apply legacy_light_ret]. lia. }
  unfold c. destruct (reject (item (Legacy.owner r))) as [f |].
  - eapply legacy_light_weaken;
      [| apply (legacy_light_callback _ (Some f) (Legacy.ret tt)),
           legacy_light_ret].
    lia.
  - simpl. apply legacy_light_callback, legacy_light_emit.
Qed.

Lemma legacy_light_onTail r v :
  Legacy.light (size_opt (catch (item (Legacy.owner r))))
    (Legacy.onTail_ rec r v).
Proof.
  unfold Legacy.onTail_. apply legacy_light_after_callback.
  apply legacy_light_callback, legacy_light_emit.
Qed.

End LegacyWeight.

Lemma legacy_step_light (n : nat) : Legacy.light 0 (Legacy._step n).
Proof.
  induction n as [| n IH]; [by intros w |].
  simpl. by apply legacy_light_step_body.
Qed.

(** *** Termination of the event loop *)

Lemma legacy_jobs_cost_app q1 q2 :
  Legacy.jobs_cost (q1 ++ q2) = Legacy.jobs_cost q1 + Legacy.jobs_cost q2.
Proof. unfold Legacy.jobs_cost. by rewrite map_app, list_sum_app. Qed.

Lemma legacy_jobs_count_app q1 q2 :
  Legacy.jobs_count (q1 ++ q2) = Legacy.jobs_count q1 + Legacy.jobs_count q2.
Proof. unfold Legacy.jobs_count. by rewrite map_app, list_sum_app. Qed.

Lemma legacy_flush_moves (st : promises) (rs : list Legacy.Reaction) :
  Legacy.reactions_size (filter (fun r => st !! Legacy.on r = None) rs)
  + Legacy.jobs_cost (flat_map (Legacy.ready st) rs) = Legacy.reactions_size rs /\
  2 * length (filter (fun r => st !! Legacy.on r = None) rs)
  + Legacy.jobs_count (flat_map (Legacy.ready st) rs) = 2 * length rs.
Proof.
  induction rs as [| r rest [IH1 IH2]]; [done |].
  rewrite filter_cons. cbn [flat_map].
  rewrite legacy_jobs_cost_app, legacy_jobs_count_app.
  unfold Legacy.ready at 1 3.
  change (Legacy.reactions_size (r :: rest))
    with (reaction_size (item (Legacy.owner r)) + Legacy.reactions_size rest).
  destruct (st !! Legacy.on r) as [s |] eqn:Hs.
  - rewrite decide_False by done.
    unfold Legacy.jobs_cost at 1, Legacy.jobs_count at 1. simpl. lia.
  - rewrite decide_True by done.
    change (Legacy.reactions_size
              (r :: filter (fun r => st !! Legacy.on r = None) rest))
      with (reaction_size (item (Legacy.owner r))
            + Legacy.reactions_size
                (filter (fun r => st !! Legacy.on r = None) rest)).
    unfold Legacy.jobs_cost at 1, Legacy.jobs_count at 1. simpl. lia.
Qed.

Lemma legacy_flush_spec st w :
  exists new w',
    Legacy.flush st w = Legacy.Done new w' /\
    Legacy.potential w' + Legacy.jobs_cost new = Legacy.potential w /\
    Legacy.backlog w' new = 2 * Legacy.weight w /\
    Legacy.later w w'.
Proof.
  eexists _, _. split; [reflexivity |].
  destruct (legacy_flush_moves st (Legacy.reactions w)) as [H1 H2].
  unfold Legacy.backlog, Legacy.weight, Legacy.potential, Legacy.later. simpl.
  split; [lia |]. split; [lia |]. split; [lia | done].
Qed.

(** What running one job costs; a job never throws. *)
Lemma legacy_attempt_total {A} n c (m : Legacy.M A) w :
  Legacy.tot n c m -> Legacy.light c m -> Legacy.potential w + c < n ->
  exists x w',
    Legacy.attempt m w = Legacy.Done x w' /\
    Legacy.potential w' <= Legacy.potential w + c /\
    Legacy.weight w' <= Legacy.weight w + c /\
    Legacy.later w w'.
Proof.
  intros Ht Hl Hn. unfold Legacy.attempt.
  pose proof (Ht w Hn) as H1. pose proof (Hl w) as H2.
  destruct (m w) as [a w1 | e w1 |]; simpl in *; [| | done];
    destruct H1 as [H1 H3]; eexists _, _;
    (split; [reflexivity |]); (split; [exact H1 |]);
    (split; [exact H2 | exact H3]).
Qed.

Lemma legacy_run_job_total n j w :
  let c := Legacy.job_cost j
           - Legacy.jobs_cost (Legacy.chained j (Threw (Plain ""))) in
  Legacy.potential w + c < n ->
  exists x w',
    Legacy.run_job n j w = Legacy.Done x w' /\
    Legacy.potential w' <= Legacy.potential w + c /\
    Legacy.weight w' <= Legacy.weight w + c /\
    Legacy.later w w'.
Proof.
  intros c Hn. subst c.
  destruct j as [r s | r e]; cbn [Legacy.run_job];
    apply (legacy_attempt_total n); try exact Hn; unfold Legacy.jobs_cost;
    simpl; unfold Legacy.continuation, reaction_size.
  - destruct s.
    + eapply legacy_tot_weaken;
        [| apply legacy_tot_onFulfilled, legacy_step_total]. lia.
    + eapply legacy_tot_weaken;
        [| apply legacy_tot_onRejected, legacy_step_total]. lia.
  - destruct s.
    + eapply legacy_light_weaken;
        [| apply legacy_light_onFulfilled, legacy_step_light]. lia.
    + eapply legacy_light_weaken;
        [| apply legacy_light_onRejected, legacy_step_light]. lia.
  - eapply legacy_tot_weaken; [| apply legacy_tot_onTail, legacy_step_total].
    lia.
  - eapply legacy_light_weaken;
      [| apply legacy_light_onTail, legacy_step_light]. lia.
Qed.

Lemma legacy_chained_cost j c :
  Legacy.jobs_cost (Legacy.chained j c)
  <= Legacy.jobs_cost (Legacy.chained j (Threw (Plain ""))) /\
  Legacy.jobs_cost (Legacy.chained j (Threw (Plain ""))) <= Legacy.job_cost j /\
  Legacy.jobs_count (Legacy.chained j c) < Legacy.job_count j.
Proof.
  destruct j as [r s | r e], c as [| e'];
    unfold Legacy.jobs_cost, Legacy.jobs_count; simpl; unfold reaction_size;
    lia.
Qed.

Lemma legacy_report_total es w :
  exists w', Legacy.report es w = Legacy.Done tt w' /\
             Legacy.mgr w' = Legacy.mgr w /\
             Legacy.reactions w' = Legacy.reactions w /\
             Legacy.trace w' = Legacy.trace w ++ map EvUncaught es.
Proof.
  revert w. induction es as [| e rest IH]; intros w; simpl.
  - exists w. by rewrite app_nil_r.
  - unfold Legacy.bind, Legacy.emit.
    destruct (IH {| Legacy.mgr := Legacy.mgr w;
                    Legacy.reactions := Legacy.reactions w;
                    Legacy.trace := Legacy.trace w ++ [EvUncaught e] |})
      as (w' & H1 & H2 & H3 & H4).
    exists w'. split; [exact H1 |]. split; [exact H2 |]. split; [exact H3 |].
    rewrite H4. simpl. by rewrite <- app_assoc.
Qed.

(** The loop runs the queue empty when the bounds are above the work at
    hand; it never throws. *)
Lemma legacy_drain_total k n st :
  forall q es w,
    Legacy.potential w + Legacy.jobs_cost q < n ->
    Legacy.backlog w q <= k ->
    exists w',
      Legacy.drain k n st q es w = Legacy.Done tt w' /\
      Legacy.weight w' <= Legacy.weight w + Legacy.jobs_cost q /\
      Legacy.later w w'.
Proof.
  assert (Hnil : forall k0 es w,
            exists w',
              Legacy.drain k0 n st [] es w = Legacy.Done tt w' /\
              Legacy.weight w' <= Legacy.weight w + Legacy.jobs_cost [] /\
              Legacy.later w w').
  { intros k0 es w. destruct (legacy_report_total es w) as (w' & H & Hm & Hr & Ht).
    exists w'. split; [by destruct k0 |].
    unfold Legacy.weight, Legacy.potential, Legacy.later.
    rewrite Hm, Hr, Ht. split; [lia |]. split; [lia | by apply prefix_app_r]. }
  induction k as [| k IH]; intros q es w Hn Hk;
    (destruct q as [| j rest]; [apply Hnil |]).
  - exfalso. unfold Legacy.backlog, Legacy.jobs_count in Hk. simpl in Hk.
    destruct j; simpl in Hk; lia.
  - cbn [Legacy.drain]. unfold Legacy.bind at 1.
    change (Legacy.jobs_cost (j :: rest))
      with (Legacy.job_cost j + Legacy.jobs_cost rest) in *.
    assert (Hk' : Legacy.job_count j + Legacy.jobs_count rest
                  + 2 * (Legacy.weight w
                         + (Legacy.job_cost j + Legacy.jobs_cost rest)) <= S k)
      by exact Hk.
    set (c0 := Legacy.job_cost j
               - Legacy.jobs_cost (Legacy.chained j (Threw (Plain "")))).
    destruct (legacy_run_job_total n j w ltac:(fold c0; lia))
      as (c & w1 & -> & H1 & H2 & Hl1).
    fold c0 in H1, H2. unfold Legacy.bind at 1.
    destruct (legacy_flush_spec st w1) as (new & w2 & -> & Hp2 & Hb2 & Hl2).
    destruct (legacy_chained_cost j c) as (Hc1 & Hc2 & Hc3).
    destruct (IH (rest ++ new ++ Legacy.chained j c)
                (es ++ Legacy.dropped j c) w2) as (w' & H3 & H4 & Hl3).
    + rewrite !legacy_jobs_cost_app. lia.
    + unfold Legacy.backlog in *.
      rewrite !legacy_jobs_cost_app, !legacy_jobs_count_app. lia.
    + exists w'. split; [exact H3 |]. split.
      * unfold Legacy.backlog in *. rewrite !legacy_jobs_cost_app in H4. lia.
      * eapply legacy_later_trans; [exact Hl1 |].
        by eapply legacy_later_trans.
Qed.

Lemma legacy_perform_total n st i w :
  Legacy.potential w + input_size i < n ->
  exists st' w',
    Legacy.perform n st i w = Legacy.Done st' w' /\
    Legacy.weight w' <= Legacy.weight w + input_size i /\
    Legacy.later w w'.
Proof.
  intros Hn. destruct i as [t | j | | p s]; cbn [Legacy.perform input_size] in *.
  - unfold Legacy.bind, Legacy.host, Legacy.addTask.
    pose proof (legacy_tot_addTask n (Legacy._step n) (legacy_step_total n) t w
                  Hn) as H1.
    pose proof (legacy_light_addTask (Legacy._step n) (legacy_step_light n) t w)
      as H2.
    destruct (Legacy.addTask_ (Legacy._step n) t w) as [i w1 | e w1 |];
      simpl in *; [| | done]; destruct H1 as [H1 Hl1].
    + by eexists _, _.
    + eexists _, _. split; [reflexivity |].
      unfold Legacy.weight, Legacy.potential, Legacy.later in *. simpl.
      split; [lia |]. destruct Hl1 as [Hl1 Hl2]. split; [done |].
      etrans; [exact Hl2 | by apply prefix_app_r].
  - eexists _, _. split; [reflexivity |].
    pose proof (legacy_light_cancelTask j w) as H. simpl in H.
    split; [exact H |]. split; simpl; [lia | done].
  - eexists _, _. split; [reflexivity |].
    pose proof (legacy_light_clear w) as H. simpl in H.
    split; [exact H |]. split; simpl; [lia | done].
  - eexists _, _. split; [reflexivity |]. split; [lia |].
    apply legacy_later_refl.
Qed.

Lemma legacy_weight_potential w : Legacy.potential w <= Legacy.weight w.
Proof. unfold Legacy.weight. lia. Qed.

Lemma legacy_calls_total n ins :
  forall st q w,
    Legacy.backlog w q + 2 * inputs_size ins < n ->
    exists x w',
      Legacy.calls n st q ins w = Legacy.Done x w' /\
      Legacy.backlog w' (snd x) <= Legacy.backlog w q + 2 * inputs_size ins /\
      Legacy.later w w'.
Proof.
  induction ins as [| i rest IH]; intros st q w Hn.
  - eexists _, _. split; [reflexivity |]. simpl. split; [lia |].
    apply legacy_later_refl.
  - change (inputs_size (i :: rest)) with (input_size i + inputs_size rest)
      in *.
    cbn [Legacy.calls]. unfold Legacy.bind at 1.
    pose proof (legacy_weight_potential w) as Hwp.
    destruct (legacy_perform_total n st i w
                ltac:(unfold Legacy.backlog in Hn; lia))
      as (st' & w1 & -> & H1 & Hl1).
    unfold Legacy.bind at 1.
    destruct (legacy_flush_spec st' w1) as (new & w2 & -> & Hp2 & Hb2 & Hl2).
    destruct (IH st' (q ++ new) w2) as (x & w' & H3 & H4 & Hl3).
    + unfold Legacy.backlog in *.
      rewrite legacy_jobs_cost_app, legacy_jobs_count_app. lia.
    + exists x, w'. split; [exact H3 |]. split.
      * unfold Legacy.backlog in *.
        rewrite legacy_jobs_cost_app, legacy_jobs_count_app in H4. lia.
      * eapply legacy_later_trans; [exact Hl1 |].
        by eapply legacy_later_trans.
Qed.

Lemma legacy_turn_total n st ins w :
  2 * (Legacy.weight w + inputs_size ins) < n ->
  exists st' w',
    Legacy.turn n st ins w = Legacy.Done st' w' /\
    Legacy.weight w' <= Legacy.weight w + inputs_size ins /\
    Legacy.later w w'.
Proof.
  intros Hn. unfold Legacy.turn, Legacy.bind at 1.
  assert (Hb : Legacy.backlog w [] = 2 * Legacy.weight w)
    by (unfold Legacy.backlog, Legacy.jobs_count, Legacy.jobs_cost; simpl; lia).
  destruct (legacy_calls_total n ins st [] w ltac:(lia))
    as ([st' q] & w1 & -> & H1 & Hl1).
  unfold Legacy.bind at 1. simpl fst in *. simpl snd in *. rewrite Hb in H1.
  pose proof (legacy_weight_potential w1) as Hwp.
  destruct (legacy_drain_total n n st' q [] w1
              ltac:(unfold Legacy.backlog in H1; lia) ltac:(lia))
    as (w2 & -> & H2 & Hl2).
  eexists _, _. split; [reflexivity |]. split.
  - unfold Legacy.backlog in H1. lia.
  - by eapply legacy_later_trans.
Qed.

Lemma legacy_turns_total n ts :
  forall st w,
    2 * (Legacy.weight w + turns_size ts) < n ->
    exists st' w',
      Legacy.turns n st ts w = Legacy.Done st' w' /\
      Legacy.weight w' <= Legacy.weight w + turns_size ts /\
      Legacy.later w w'.
Proof.
  induction ts as [| t rest IH]; intros st w Hn.
  - eexists _, _. split; [reflexivity |]. split; [lia |].
    apply legacy_later_refl.
  - assert (Hsize : turns_size (t :: rest)
                    = inputs_size t + turns_size rest).
    { unfold turns_size, inputs_size. simpl.
      by rewrite map_app, list_sum_app. }
    rewrite Hsize in *. cbn [Legacy.turns]. unfold Legacy.bind at 1.
    destruct (legacy_turn_total n st t w ltac:(lia))
      as (st1 & w1 & -> & H1 & Hl1).
    destruct (IH st1 w1 ltac:(lia)) as (st' & w' & H2 & H3 & Hl2).
    exists st', w'. split; [exact H2 |]. split; [lia |].
    by eapply legacy_later_trans.
Qed.

(** X10.  The older variant runs every turn of the event loop to its end
    as well, [clear()] included, however the host groups its calls and
    the settlements of promises into turns, under a bound above twice the
    size of the submitted client code: each call returns or throws, each
    promise job completes and the job queue runs empty.  The counter
    never goes back, and after the run a call of [addTask] returns an
    identifier or throws, for every work item. *)
Theorem legacy_run_terminates (n : nat) (ts : list (list input)) :
  2 * turns_size ts < n ->
  exists st w,
    Legacy.turns n ∅ ts Legacy.fresh = Legacy.Done st w /\
    Legacy.weight w <= turns_size ts /\
    (1 <= Legacy._nextId (Legacy.mgr w))%Z /\
    forall t, 2 * turns_size ts + size_task t < n ->
              Legacy.finished (Legacy.addTask n t w).
Proof.
  intros Hn.
  destruct (legacy_turns_total n ts ∅ Legacy.fresh) as (st & w & H1 & H2 & Hl).
  { unfold Legacy.weight, Legacy.potential, queue_size, Legacy.reactions_size.
    simpl. lia. }
  exists st, w. split; [exact H1 |].
  change (Legacy.weight Legacy.fresh) with 0 in H2. simpl in H2.
  split; [exact H2 |]. split; [by destruct Hl |].
  intros t Ht. pose proof (legacy_weight_potential w) as Hw.
  eapply legacy_lands_finished.
  apply (legacy_tot_addTask n (Legacy._step n) (legacy_step_total n) t w).
  lia.
Qed.

Lemma legacy_submit_all_total n ts :
  Legacy.tot n (list_sum (map size_task ts)) (Legacy.submit_all n ts).
Proof.
  induction ts as [| t rest IH]; simpl; [apply legacy_tot_ret |].
  apply (legacy_tot_weaken n (size_task t + (list_sum (map size_task rest) + 0)));
    [lia |].
  apply legacy_tot_bind; [apply legacy_tot_addTask, legacy_step_total |].
  intros i. apply legacy_tot_bind; [exact IH |]. intros ids.
  apply legacy_tot_ret.
Qed.

(** [addTask] returns the value of the counter and leaves a larger one. *)
Lemma legacy_addTask_returns_counter n t w i w1 :
  Legacy.potential w + size_task t < n ->
  Legacy.addTask n t w = Legacy.Done i w1 ->
  i = Legacy._nextId (Legacy.mgr w) /\ (i < Legacy._nextId (Legacy.mgr w1))%Z.
Proof.
  intros Hn. unfold Legacy.addTask, Legacy.addTask_.
  unfold Legacy.bind at 1, Legacy.get.
  unfold Legacy.bind at 1, Legacy.modify at 1.
  unfold Legacy.bind at 1, Legacy.modify at 1.
  unfold Legacy.bind at 1, Legacy.get. simpl.
  destruct (Legacy._running (Legacy.mgr w)); simpl.
  - intros [= <- <-]. simpl. lia.
  - unfold Legacy.bind at 1.
    unfold Legacy.bind at 1, Legacy.modify at 1.
    set (w2 := {| Legacy.mgr := Legacy.set_running true _;
                  Legacy.reactions := _; Legacy.trace := _ |}).
    assert (Hp2 : Legacy.potential w2 + 0 < n).
    { unfold w2, Legacy.potential in *. simpl. rewrite queue_size_app.
      unfold queue_size at 2. simpl. lia. }
    pose proof (legacy_step_total n w2 Hp2) as H2.
    destruct (Legacy._step n w2) as [[] w3 | e w3 |]; simpl; [| done | done].
    intros [= <- <-]. split; [done |].
    destruct H2 as [_ [Hn3 _]]. simpl in Hn3. lia.
Qed.

(** X11.  In the older variant the identifiers are the values of the
    counter: each call of [addTask] returns a larger identifier than every
    call before it, whatever the work items do, [clear()] included. *)
Theorem legacy_identifiers_increase (n : nat) (ts : list ITask)
    (w : Legacy.World) :
  Legacy.potential w + list_sum (map size_task ts) < n ->
  let o := Legacy.submit_all n ts w in
  Legacy.finished o /\
  forall ids w', o = Legacy.Done ids w' ->
    length ids = length ts /\
    StronglySorted Z.lt ids /\
    Forall (fun i => (Legacy._nextId (Legacy.mgr w) <= i
                      < Legacy._nextId (Legacy.mgr w'))%Z) ids.
Proof.
  intros Hn o. split.
  { eapply legacy_lands_finished. by apply legacy_submit_all_total. }
  unfold o. clear o. revert w Hn.
  induction ts as [| t rest IH]; intros w Hn ids w'.
  - intros [= <- <-]. repeat split; constructor.
  - simpl in Hn. cbn [Legacy.submit_all]. unfold Legacy.bind at 1.
    destruct (Legacy.addTask n t w) as [i w1 | e w1 |] eqn:Hadd;
      [| done | done].
    destruct (legacy_addTask_returns_counter n t w i w1 ltac:(lia) Hadd)
      as [-> Hlt].
    pose proof (legacy_tot_addTask n (Legacy._step n) (legacy_step_total n) t w
                  ltac:(lia)) as H1.
    unfold Legacy.addTask in Hadd. rewrite Hadd in H1. simpl in H1.
    destruct H1 as [Hp1 Hl1].
    pose proof (legacy_submit_all_total n rest w1 ltac:(lia)) as H2.
    specialize (IH w1 ltac:(lia)).
    unfold Legacy.bind.
    destruct (Legacy.submit_all n rest w1) as [ids1 w2 | e w2 |];
      [| done | done].
    simpl in H2. destruct H2 as [_ [Hn2 _]].
    intros [= <- <-].
    destruct (IH ids1 w2 eq_refl) as (Hlen & Hsort & Hall).
    split; [simpl; by rewrite Hlen |]. split.
    + constructor; [done |]. eapply Forall_impl; [exact Hall |].
      simpl. intros. lia.
    + constructor; [lia |]. eapply Forall_impl; [exact Hall |].
      simpl. intros. lia.
Qed.

(** ** The older variant has no guard against [clear()] *)

Lemma legacy_onFulfilled_live rec r v w f :
  id (Legacy.owner r) ∉ Legacy._taskCancelSet (Legacy.mgr w) ->
  resolve (item (Legacy.owner r)) = Some f ->
  Legacy.onFulfilled_ rec r v w
  = Legacy.bind
      (Legacy.bind (Legacy.call_ rec f) (fun _ => Legacy.ret tt))
      (fun _ => if shouldWait (item (Legacy.owner r)) then rec
                else Legacy.ret tt)
      (Legacy.emitted (EvResolve SFulfilled (id (Legacy.owner r)) v) w).
Proof.
  intros Hc Hres. unfold Legacy.onFulfilled_, Legacy.bind at 1.
  unfold Legacy.checkAndClearCanceled, Legacy.bind at 1, Legacy.get.
  rewrite decide_False by done. unfold Legacy.ret at 1. rewrite Hres.
  reflexivity.
Qed.

(** X12.  In the older variant nothing ties a continuation to the batch
    of its entry: whenever the promise is fulfilled, the job of the
    continuation invokes the completion callback of an entry that is not
    marked as cancelled, also after a [clear()] (which removes the
    marks). *)
Theorem legacy_settlement_after_clear_is_delivered
    (n : nat) (w : Legacy.World) (r : Legacy.Reaction) (v : jsval)
    (f : code ITask) :
  resolve (item (Legacy.owner r)) = Some f ->
  Legacy.potential w + reaction_size (item (Legacy.owner r)) < n ->
  (id (Legacy.owner r) ∉ Legacy._taskCancelSet (Legacy.mgr w) ->
   let o := Legacy.run_job n (Legacy.JThen r (Fulfill v)) w in
   Legacy.finished o /\
   exists evs,
     Legacy.trace (Legacy.world_of o w)
     = Legacy.trace w ++ EvResolve SFulfilled (id (Legacy.owner r)) v :: evs) /\
  (let o := Legacy.run_job n (Legacy.JThen r (Fulfill v)) (Legacy.cleared w) in
   Legacy.finished o /\
   exists evs,
     Legacy.trace (Legacy.world_of o w)
     = Legacy.trace w ++ EvResolve SFulfilled (id (Legacy.owner r)) v :: evs).
Proof.
  intros Hres Hn.
  assert (Hgen : forall w0,
            Legacy.potential w0 + reaction_size (item (Legacy.owner r)) < n ->
            id (Legacy.owner r) ∉ Legacy._taskCancelSet (Legacy.mgr w0) ->
            let o := Legacy.run_job n (Legacy.JThen r (Fulfill v)) w0 in
            Legacy.finished o /\
            exists evs,
              Legacy.trace (Legacy.world_of o w)
              = Legacy.trace w0
                ++ EvResolve SFulfilled (id (Legacy.owner r)) v :: evs).
  { intros w0 Hn0 Hc o.
    set (ev := EvResolve SFulfilled (id (Legacy.owner r)) v).
    set (rest := Legacy.bind
                   (Legacy.bind (Legacy.call_ (Legacy._step n) f)
                      (fun _ => Legacy.ret tt))
                   (fun _ => if shouldWait (item (Legacy.owner r))
                             then Legacy._step n else Legacy.ret tt)).
    assert (Ho : o = Legacy.attempt rest (Legacy.emitted ev w0)).
    { unfold o. cbn [Legacy.run_job Legacy.continuation].
      unfold Legacy.attempt, Legacy.onFulfilled.
      by rewrite (legacy_onFulfilled_live _ r v w0 f). }
    assert (Hrest : Legacy.tot n (reaction_size (item (Legacy.owner r))) rest).
    { unfold rest, reaction_size. rewrite Hres. simpl size_opt.
      eapply legacy_tot_weaken;
        [| apply legacy_tot_after_callback; [apply legacy_step_total |];
           apply (legacy_tot_bind n (size_code f) 0);
             [apply legacy_tot_call, legacy_step_total
             | intros; apply legacy_tot_ret]].
      lia. }
    pose proof (Hrest (Legacy.emitted ev w0) Hn0) as H.
    rewrite Ho. unfold Legacy.attempt.
    destruct (rest (Legacy.emitted ev w0)) as [[] w' | e w' |]; simpl in *;
      [| | done]; destruct H as [_ [_ [evs Ht]]];
      (split; [done |]); exists evs;
      rewrite Ht; unfold Legacy.emitted; simpl; by rewrite <- app_assoc. }
  split.
  - intros Hc. by apply Hgen.
  - apply (Hgen (Legacy.cleared w)); [| apply not_elem_of_empty].
    unfold Legacy.potential in *. simpl. lia.
Qed.

Lemma variants_agree_witness :
  let ins := [Submit (sync_item "sync 1" "r1");
              Submit (async_item "async 2" 2%Z);
              Submit thrower;
              Submit (detached_item "async 4" 4%Z);
              Cancel 2%Z;
              Settle 2%Z (Fulfill (Plain "done"));
              Settle 4%Z (RejectWith (Plain "late"))] in
  Legacy.run 6 ins Legacy.fresh = forget_outcome (run 6 ins fresh) /\
  Legacy.observe 6 ins = observe 6 ins.
Proof.
  intros ins. apply (variants_agree_without_clear 6 ins).
  - reflexivity.
  - vm_compute. reflexivity.
Defined.

Lemma legacy_run_terminates_witness :
  let ts := [[Submit clearing_item; Submit thrower];
             [Settle 7%Z (RejectWith (Plain "no")); Clear];
             [Submit (sync_item "s" "r")]] in
  exists st w,
    Legacy.turns 19 ∅ ts Legacy.fresh = Legacy.Done st w /\
    Legacy.weight w <= turns_size ts /\
    (1 <= Legacy._nextId (Legacy.mgr w))%Z /\
    forall t, 2 * turns_size ts + size_task t < 19 ->
              Legacy.finished (Legacy.addTask 19 t w).
Proof.
  intros ts. apply (legacy_run_terminates 19 ts). vm_compute. lia.
Defined.

Lemma legacy_identifiers_increase_witness :
  let ts := [clearing_item; sync_item "s" "r"; async_item "a" 1%Z] in
  let w := Legacy.cleared Legacy.fresh in
  Legacy.submit_all 9 ts w
  = Legacy.Done [1; 4; 5]%Z
      (Legacy.world_of (Legacy.submit_all 9 ts w) w) /\
  StronglySorted Z.lt [1; 4; 5]%Z.
Proof.
  intros ts w.
  assert (Ho : Legacy.submit_all 9 ts w
               = Legacy.Done [1; 4; 5]%Z
                   (Legacy.world_of (Legacy.submit_all 9 ts w) w))
    by (vm_compute; reflexivity).
  split; [exact Ho |].
  destruct (legacy_identifiers_increase 9 ts w) as [_ H].
  - vm_compute. lia.
  - destruct (H _ _ Ho) as (_ & Hsorted & _). exact Hsorted.
Defined.

Lemma legacy_settlement_after_clear_witness :
  let old := {| id := 1; item := async_item "old" 1%Z |} in
  let r := {| Legacy.on := 1%Z; Legacy.owner := old |} in
  let w := Legacy.world_of
             (Legacy.run 3 [Submit (async_item "old" 1%Z); Clear;
                            Submit (async_item "new" 2%Z);
                            Submit (sync_item "next" "r")] Legacy.fresh)
             Legacy.fresh in
  let o := Legacy.run_job 3 (Legacy.JThen r (Fulfill (Plain "late"))) w in
  Legacy.trace w = [EvTask 1; EvTask 2]%Z /\
  Legacy.trace (Legacy.world_of o w)
  = [EvTask 1; EvTask 2; EvResolve SFulfilled 1 (Plain "late");
     EvTask 3; EvResolve SSync 3 (Plain "r")]%Z /\
  Legacy.finished o /\
  exists evs,
    Legacy.trace (Legacy.world_of o w)
    = Legacy.trace w ++ EvResolve SFulfilled 1 (Plain "late") :: evs.
Proof.
  intros old r w o. split; [reflexivity |]. split; [reflexivity |].
  destruct (legacy_settlement_after_clear_is_delivered 3 w r (Plain "late")
              (Code [] (Return (Plain "")))) as [H _].
  - reflexivity.
  - vm_compute. lia.
  - apply H. apply (bool_decide_unpack _). by vm_compute.
Defined.

(** * The test harness *)

Lemma assert_all_counts (checks : list (bool * string)) (st : TaskMgrTest.state) :
  let c := TaskMgrTest.stats st in
  let c' := TaskMgrTest.stats (TaskMgrTest.assert_all checks st) in
  TaskMgrTest.testCount c'
  = (TaskMgrTest.testCount c + Z.of_nat (length checks))%Z /\
  TaskMgrTest.passCount c'
  = (TaskMgrTest.passCount c
     + Z.of_nat (length (TaskMgrTest.passed checks)))%Z /\
  TaskMgrTest.failCount c'
  = (TaskMgrTest.failCount c
     + Z.of_nat (length (TaskMgrTest.failed checks)))%Z /\
  length (TaskMgrTest.console (TaskMgrTest.assert_all checks st))
  = length (TaskMgrTest.console st) + length checks.
Proof.
  revert st. induction checks as [| [b msg] rest IH]; intros st.
  - simpl. repeat split; lia.
  - cbv zeta in *. unfold TaskMgrTest.assert_all in *. cbn [fold_left].
    destruct (IH (TaskMgrTest.assert (fst (b, msg)) (snd (b, msg)) st))
      as (H1 & H2 & H3 & H4).
    rewrite H1, H2, H3, H4. clear IH H1 H2 H3 H4.
    unfold TaskMgrTest.passed, TaskMgrTest.failed.
    destruct b; simpl; rewrite ?length_app; simpl; repeat split; lia.
Qed.

Lemma passed_or_failed (checks : list (bool * string)) :
  length (TaskMgrTest.passed checks) + length (TaskMgrTest.failed checks)
  = length checks.
Proof.
  unfold TaskMgrTest.passed, TaskMgrTest.failed.
  induction checks as [| [[|] msg] rest IH]; simpl; lia.
Qed.

Lemma none_failed (checks : list (bool * string)) :
  length (TaskMgrTest.failed checks) = 0 <-> forallb fst checks = true.
Proof.
  unfold TaskMgrTest.failed.
  induction checks as [| [[|] msg] rest IH]; simpl.
  - done.
  - exact IH.
  - split; [lia | discriminate].
Qed.

(** X13.  Every call of [assert] counts once: after any sequence of
    assertions made from the counters [runAll] has reset, [testCount] is
    the number of assertions and the sum of [passCount] and [failCount],
    which count the conditions that held and those that did not; one line
    is written per assertion; and the verdict at the end of [runAll]
    announces success exactly when every condition held. *)
Theorem assert_counts_every_call
    (checks : list (bool * string)) (st : TaskMgrTest.state) :
  let st' := TaskMgrTest.assert_all checks (TaskMgrTest.reset st) in
  let c := TaskMgrTest.stats st' in
  TaskMgrTest.testCount c = Z.of_nat (length checks) /\
  TaskMgrTest.passCount c = Z.of_nat (length (TaskMgrTest.passed checks)) /\
  TaskMgrTest.failCount c = Z.of_nat (length (TaskMgrTest.failed checks)) /\
  TaskMgrTest.testCount c
  = (TaskMgrTest.passCount c + TaskMgrTest.failCount c)%Z /\
  length (TaskMgrTest.console st')
  = length (TaskMgrTest.console st) + length checks /\
  (TaskMgrTest.verdict st' = TaskMgrTest.Log "🎉 所有测试通过！"
   <-> forallb fst checks = true).
Proof.
  intros st' c.
  destruct (assert_all_counts checks (TaskMgrTest.reset st))
    as (H1 & H2 & H3 & H4).
  fold st' in H1, H2, H3, H4. fold c in H1, H2, H3. simpl in H1, H2, H3, H4.
  rewrite Z.add_0_l in H1, H2, H3.
  pose proof (passed_or_failed checks) as Hsplit.
  pose proof (none_failed checks) as Hfail.
  split; [exact H1 |]. split; [exact H2 |]. split; [exact H3 |].
  split; [lia |]. split; [exact H4 |].
  unfold TaskMgrTest.verdict. fold c. rewrite H3, <- Hfail.
  destruct (Z.eqb_spec (Z.of_nat (length (TaskMgrTest.failed checks))) 0).
  - split; [intros _; lia | intros _; reflexivity].
  - split; [discriminate | intros; lia].
Qed.
